(** * algo::Vector and algo::Stack

    A shallow embedding of [src/vector.hpp] and [src/stack.hpp], and the
    properties of the containers that follow from the code.

    The embedding keeps the shape of the C++: a [Vector] is its storage block
    together with the position of [finish_]; every member function is a
    program in a state-and-exception monad over the two objects a member
    function can touch (the vector itself and the local [tmp]) and the part of
    the program state that element constructors and allocators depend on. *)

From Stdlib Require Import NArith ZArith Lia.
From stdpp Require Import base tactics option list.

(** ** SizeType

    [SizeType] is [std::size_t]: 64 bits.  Sizes are kept in [nat] so that
    they index lists directly; every place where the code computes a new size
    goes through [wrap].  The constants live in [N], which keeps them out of
    unary arithmetic. *)

Definition SIZE_MAX : N := 2 ^ 64 - 1.
Definition PTRDIFF_MAX : N := 2 ^ 63 - 1.

Definition wrap (n : nat) : nat := N.to_nat (N.of_nat n mod 2 ^ 64).

(** The heap: no allocation function hands out a block of more than
    [HEAP_MAX] bytes, an eighth of the 64-bit address space and more than any
    machine maps.  Below this bound the sizes that the member functions
    compute for a vector that exists do not wrap; a request whose byte count
    has wrapped to something small is served as the small request it has
    become. *)
Definition HEAP_MAX : N := 2 ^ 61.

(** ** Exceptions *)

Inductive exn :=
  | out_of_range     (* std::out_of_range, from rangeCheck *)
  | length_error     (* std::length_error, from reserve *)
  | range_error      (* std::range_error, from addressCheck *)
  | bad_alloc        (* std::bad_alloc, from allocate and growShrinkAux *)
  | element_error.   (* whatever a member function of T throws *)

Global Instance exn_eq_dec : EqDecision exn.
Proof. solve_decision. Defined.

(** ** The template arguments

    What the code needs to know about [T] and [Allocator]: the three type
    traits it branches on, and the behaviour of the special member functions
    of [T] and of the allocation functions.  Each of these runs in the program
    state [W] (for the test suite's [Bomb] this is the static tick counter)
    and either returns or throws ([None]).  [malloc] and [realloc] are asked
    for a number of bytes and the allocator for a number of elements; [None]
    is the null pointer of [malloc] and [realloc] and the exception of the
    allocator.  [sizeof_T] is [sizeof(T)], a non-zero [std::size_t].

    - [move_construct x] returns the new object and the state the source is
      left in;
    - [copy_assign old x] returns the new state of the assigned object;
    - [move_assign old x] returns the new state of the assigned object and
      the state the source is left in. *)

Class Traits (T W : Type) := {
  sizeof_T : positive;                (* sizeof(T) *)
  sizeof_T_fits : (N.pos sizeof_T <= SIZE_MAX)%N;
  trivially_copyable : bool;          (* std::is_trivially_copyable_v<T> *)
  nothrow_move_constructible : bool;  (* std::is_nothrow_move_constructible_v<T> *)
  std_allocator : bool;               (* std::is_same_v<Allocator, std::allocator<T>> *)
  default_construct : W → W * option T;
  copy_construct : T → W → W * option T;
  move_construct : T → W → W * option (T * T);
  copy_assign : T → T → W → W * option T;
  move_assign : T → T → W → W * option (T * T);
  malloc : N → W → W * option unit;
  realloc : N → W → W * option unit;
  allocator_allocate : nat → W → W * option unit;
}.

(** ** Sizes in bytes *)

Section Bytes.
Context `{Traits T W}.

(** [sz * sizeof(T)], computed in [std::size_t] as the code does. *)
Definition byte_count (sz : nat) : N := (N.of_nat sz * N.pos sizeof_T) mod 2 ^ 64.

(** The number of elements that lie in a block of [bytes] bytes. *)
Definition elements_in (bytes : N) : nat := N.to_nat (bytes / N.pos sizeof_T).

(** The number of elements of the largest block. *)
Definition max_elements : N := HEAP_MAX / N.pos sizeof_T.

(** [n] elements fit in one block: [n * sizeof(T)] is at most [HEAP_MAX]. *)
Definition allocatable (n : nat) : Prop := (N.of_nat n <= max_elements)%N.

(** The byte count of [n] elements is a [std::size_t]: [n * sizeof(T)] does
    not wrap. *)
Definition representable (n : nat) : Prop :=
  (N.of_nat n * N.pos sizeof_T <= SIZE_MAX)%N.

(** [p + n] is a pointer for a pointer [p] into a block: the offset in bytes
    is a [std::ptrdiff_t]. *)
Definition offsettable (n : nat) : Prop :=
  (N.of_nat n * N.pos sizeof_T <= PTRDIFF_MAX)%N.

Global Instance allocatable_dec n : Decision (allocatable n).
Proof. unfold allocatable. apply _. Defined.

Global Instance representable_dec n : Decision (representable n).
Proof. unfold representable. apply _. Defined.

Global Instance offsettable_dec n : Decision (offsettable n).
Proof. unfold offsettable. apply _. Defined.
End Bytes.

(** ** Data model *)

(** A slot of a storage block: raw memory, or a constructed object. *)
Inductive slot (T : Type) :=
  | Raw
  | Live (x : T).
Global Arguments Raw {T}.
Global Arguments Live {T} x.

(** The three pointers of a [Vector].  [start_] is the base of [storage],
    [end_of_storage_] is one past its last slot, and [finish_] is kept as the
    offset [finish_ - start_]. *)
Record Vector (T : Type) := mkVector {
  storage : list (slot T);
  finish_ : nat;
}.
Global Arguments mkVector {T} storage finish_.
Global Arguments storage {T} v.
Global Arguments finish_ {T} v.

(** A default-constructed vector: three null pointers.  A block of no
    elements is not told apart from the null pointer. *)
Definition null {T} : Vector T := mkVector [] 0.

(** The objects a member function works on: the vector it is called on and
    a second one, which is the local [tmp] of the member functions (a raw
    block or a whole temporary [Vector]) and the [rhs] of [swap]. *)
Inductive obj := This | Tmp.

Global Instance obj_eq_dec : EqDecision obj.
Proof. solve_decision. Defined.

Definition other (o : obj) : obj :=
  match o with This => Tmp | Tmp => This end.

Record Machine (T W : Type) := mkMachine {
  this : Vector T;
  tmp : Vector T;
  world : W;
}.
Global Arguments mkMachine {T W} this tmp world.
Global Arguments this {T W} m.
Global Arguments tmp {T W} m.
Global Arguments world {T W} m.

(** A pointer to an element: the object whose storage it points into and
    the offset from that object's [start_]. *)
Definition loc : Type := obj * nat.

Definition shift (p : loc) (k : nat) : loc := (p.1, p.2 + k).
Infix "+ₗ" := shift (at level 50, left associativity).

(** [first, first + n) *)
Definition range (first : loc) (n : nat) : list loc := shift first <$> seq 0 n.

(** A reference argument ([const T&] or [T&&]): an object of the caller, an
    element of one of the two vectors, or a reference whose target has been
    released. *)
Inductive arg (T : Type) :=
  | Val (x : T)
  | At (p : loc)
  | Dangling.
Global Arguments Val {T} x.
Global Arguments At {T} p.
Global Arguments Dangling {T}.

(** The element [i] of the vector itself. *)
Abbreviation Own i := (At (This, i)).

(** ** Outcomes and the monad *)

(** A call returns, leaves by an exception, or does not come back to the
    caller at all: undefined behaviour, a failed [assert], [std::terminate]. *)
Inductive outcome (S A : Type) :=
  | Ret (a : A) (s : S)
  | Throw (e : exn) (s : S)
  | Undefined.
Global Arguments Ret {S A} a s.
Global Arguments Throw {S A} e s.
Global Arguments Undefined {S A}.

Definition M (T W A : Type) : Type := Machine T W → outcome (Machine T W) A.

Global Instance M_ret {T W} : MRet (M T W) := λ A a s, Ret a s.

Global Instance M_bind {T W} : MBind (M T W) := λ A B f m s,
  match m s with
  | Ret a s' => f a s'
  | Throw e s' => Throw e s'
  | Undefined => Undefined
  end.

Section Monad.
Context {T W : Type}.
Local Abbreviation M := (M T W).

Definition throw {A} (e : exn) : M A := λ s, Throw e s.

Definition undefined {A} : M A := λ _, Undefined.

(** try { m } catch (...) { h } *)
Definition try_catch {A} (m : M A) (h : exn → M A) : M A := λ s,
  match m s with
  | Throw e s' => h e s'
  | r => r
  end.

(** A call of a [noexcept] function: an exception that reaches the boundary
    ends the program. *)
Definition noexcept {A} (m : M A) : M A := λ s,
  match m s with
  | Throw _ _ => Undefined
  | r => r
  end.

Definition get {A} (f : Machine T W → A) : M A := λ s, Ret (f s) s.

Definition modify (f : Machine T W → Machine T W) : M unit := λ s, Ret tt (f s).

(** Run a member function of [T] or an allocation function in the program
    state; [e] is what it throws. *)
Definition effect {A} (f : W → W * option A) (e : exn) : M A := λ s,
  let s' := mkMachine (this s) (tmp s) (f (world s)).1 in
  match (f (world s)).2 with
  | Some a => Ret a s'
  | None => Throw e s'
  end.

Fixpoint for_each {A} (f : A → M unit) (l : list A) : M unit :=
  match l with
  | [] => mret tt
  | x :: l => f x;; for_each f l
  end.

Definition vec (o : obj) (s : Machine T W) : Vector T :=
  match o with This => this s | Tmp => tmp s end.

Definition set_vec (o : obj) (v : Vector T) (s : Machine T W) : Machine T W :=
  match o with
  | This => mkMachine v (tmp s) (world s)
  | Tmp => mkMachine (this s) v (world s)
  end.

(** ** Memory *)

(** A slot of a block; an access outside the block is undefined. *)
Definition peek (p : loc) : M (slot T) := λ s,
  match storage (vec p.1 s) !! p.2 with
  | Some x => Ret x s
  | None => Undefined
  end.

Definition poke (p : loc) (x : slot T) : M unit := λ s,
  let v := vec p.1 s in
  if decide (p.2 < length (storage v))
  then Ret tt (set_vec p.1 (mkVector (<[p.2 := x]> (storage v)) (finish_ v)) s)
  else Undefined.

(** [*p], for a pointer to an object. *)
Definition read (p : loc) : M T :=
  x ← peek p;
  match x with
  | Live v => mret v
  | Raw => undefined
  end.

Definition deref (a : arg T) : M T :=
  match a with
  | Val x => mret x
  | At p => read p
  | Dangling => undefined
  end.

(** What a move leaves in its source, when the source is an element. *)
Definition leave (a : arg T) (r : T) : M unit :=
  match a with
  | At p => poke p (Live r)
  | _ => mret tt
  end.

(** The end of an object's lifetime.  Destructors are taken not to throw and
    not to touch the program state. *)
Definition destroy_at (p : loc) : M unit := read p;; poke p Raw.

(** After the storage of the vector is released, a reference to one of its
    elements dangles. *)
Definition stale (a : arg T) : arg T :=
  match a with
  | At (This, _) => Dangling
  | _ => a
  end.
End Monad.

(** ** Expressions that initialise an element *)

(** The argument of a placement [new] or the right-hand side of an
    assignment: [T(a)] for an lvalue, [T(std::move(a))], or any other
    constructor call [T(args...)], given by what it does. *)
Inductive init (T W : Type) :=
  | by_copy (a : arg T)
  | by_move (a : arg T)
  | by_args (c : W → W * option T).
Global Arguments by_copy {T W} a.
Global Arguments by_move {T W} a.
Global Arguments by_args {T W} c.

Section Elements.
Context `{Traits T W}.
Local Abbreviation M := (M T W).

(** static constexpr bool relocatable *)
Definition relocatable : bool := trivially_copyable && std_allocator.

(** The special member functions of [T].  For a trivially copyable [T] they
    are byte copies: they cannot throw, leave their source as it is and do
    not look at what the destination held, and the fields of [Traits] are not
    consulted.  When the move constructor is [noexcept], an exception inside
    it does not come out. *)
Definition copy_constructor (x : T) : M T :=
  if trivially_copyable then mret x
  else effect (copy_construct x) element_error.

Definition move_constructor (x : T) : M (T * T) :=
  if trivially_copyable then mret (x, x)
  else if nothrow_move_constructible
  then noexcept (effect (move_construct x) element_error)
  else effect (move_construct x) element_error.

Definition copy_assignment (p : loc) (x : T) : M T :=
  if trivially_copyable then mret x
  else old ← read p; effect (copy_assign old x) element_error.

Definition move_assignment (p : loc) (x : T) : M (T * T) :=
  if trivially_copyable then mret (x, x)
  else old ← read p; effect (move_assign old x) element_error.

(** The value of a constructor call. *)
Definition make (i : init T W) : M T :=
  match i with
  | by_copy a =>
      x ← deref a;
      copy_constructor x
  | by_move a =>
      x ← deref a;
      yr ← move_constructor x;
      leave a yr.2;;
      mret yr.1
  | by_args c => effect c element_error
  end.

(** new (p) T(i) *)
Definition construct_at (p : loc) (i : init T W) : M unit :=
  x ← make i;
  poke p (Live x).

(** *p = i *)
Definition assign_at (p : loc) (i : init T W) : M unit :=
  match i with
  | by_copy a =>
      x ← deref a;
      y ← copy_assignment p x;
      poke p (Live y)
  | by_move a =>
      x ← deref a;
      yr ← move_assignment p x;
      leave a yr.2;;
      poke p (Live yr.1)
  | by_args c =>
      x ← effect c element_error;
      yr ← move_assignment p x;
      poke p (Live yr.1)
  end.
End Elements.

(** ** The standard algorithms the code calls

    Ranges are given by their first position and their length.  A source
    range is the list of what its iterators give when dereferenced: an lvalue
    for a pointer or a container iterator, an rvalue for a
    [std::move_iterator]. *)

Module std.
Section Algorithms.
Context `{Traits T W}.
Local Abbreviation M := (M T W).

(** T* first, ..., first + n *)
Definition pointers (first : loc) (n : nat) : list (init T W) :=
  (by_copy ∘ At) <$> range first n.

(** std::move_iterator<T*> *)
Definition move_iterators (first : loc) (n : nat) : list (init T W) :=
  (by_move ∘ At) <$> range first n.

(** Constructs into raw storage; when a construction throws, the elements
    constructed so far are destroyed and the exception goes on. *)
Fixpoint uninitialized_copy (first_last : list (init T W)) (d_first : loc) : M unit :=
  match first_last with
  | [] => mret tt
  | i :: rest =>
      construct_at d_first i;;
      try_catch (uninitialized_copy rest (d_first +ₗ 1))
                (λ e, destroy_at d_first;; throw e)
  end.

Definition uninitialized_move (first : loc) (n : nat) (d_first : loc) : M unit :=
  uninitialized_copy (move_iterators first n) d_first.

Definition uninitialized_fill_n (first : loc) (n : nat) (value : arg T) : M unit :=
  uninitialized_copy (replicate n (by_copy value)) first.

Definition uninitialized_default_construct_n (first : loc) (n : nat) : M unit :=
  uninitialized_copy (replicate n (by_args default_construct)) first.

(** Element-wise assignment, front to back. *)
Definition copy (first_last : list (arg T)) (d_first : loc) : M unit :=
  for_each (λ ad, assign_at ad.2 (by_copy ad.1))
           (zip first_last (range d_first (length first_last))).

Definition move (first : loc) (n : nat) (d_first : loc) : M unit :=
  for_each (λ pd, assign_at pd.2 (by_move (At pd.1)))
           (zip (range first n) (range d_first n)).

(** Element-wise move assignment, back to front, ending at [d_last]. *)
Definition move_backward (first : loc) (n : nat) (d_last : loc) : M unit :=
  for_each (λ pd, assign_at pd.2 (by_move (At pd.1)))
           (reverse (zip (range first n) (range (d_last.1, d_last.2 - n) n))).

Definition fill_n (first : loc) (n : nat) (value : arg T) : M unit :=
  for_each (λ p, assign_at p (by_copy value)) (range first n).

Definition destroy (first : loc) (n : nat) : M unit :=
  for_each destroy_at (range first n).

(** Copies [n] slots as bytes, whatever they hold. *)
Definition memmove (dest src : loc) (n : nat) : M unit := λ s,
  let from := storage (vec src.1 s) in
  let to := vec dest.1 s in
  if decide (src.2 + n ≤ length from ∧ dest.2 + n ≤ length (storage to))
  then Ret tt (set_vec dest.1
                 (mkVector (take dest.2 (storage to) ++ take n (drop src.2 from)
                              ++ drop (dest.2 + n) (storage to))
                           (finish_ to)) s)
  else Undefined.
End Algorithms.

(** The two comparison algorithms.  The comparisons of [T] are functions of
    the two values. *)
Section Comparisons.
Context {T W : Type}.
Local Abbreviation M := (M T W).

(** std::equal(first1, last1, first2), with [operator==] of [T] *)
Fixpoint equal (eqb : T → T → bool) (first1 : loc) (n : nat) (first2 : loc) : M bool :=
  match n with
  | 0 => mret true
  | S n =>
      x ← read first1;
      y ← read first2;
      if eqb x y then equal eqb (first1 +ₗ 1) n (first2 +ₗ 1) else mret false
  end.

(** std::lexicographical_compare(first1, last1, first2, last2), with
    [operator<] of [T] *)
Fixpoint lexicographical_compare (ltb : T → T → bool)
    (first1 : loc) (n1 : nat) (first2 : loc) (n2 : nat) : M bool :=
  match n1, n2 with
  | S n1, S n2 =>
      x ← read first1;
      y ← read first2;
      if ltb x y then mret true
      else if ltb y x then mret false
      else lexicographical_compare ltb (first1 +ₗ 1) n1 (first2 +ₗ 1) n2
  | 0, S _ => mret true
  | _, 0 => mret false
  end.
End Comparisons.
End std.

(** ** Vector

    The member functions of [Vector<T, Allocator>], one definition each,
    under the name the source gives them.  Overloads get a suffix.  Iterators
    are offsets from [start_]; the functions that take one start by checking
    that it is valid, which the source requires and does not check. *)

Module Vec.
Section Methods.
Context `{Traits T W}.
Local Abbreviation M := (M T W).

Definition size : M nat := get (λ s, finish_ (this s)).

Definition capacity : M nat := get (λ s, length (storage (this s))).

Definition empty : M bool := n ← size; mret (bool_decide (n = 0)).

(** ~SizeType(0) *)
Definition maxSize : N := SIZE_MAX.

Definition set_finish (o : obj) (n : nat) : M unit :=
  modify (λ s, set_vec o (mkVector (storage (vec o s)) n) s).

Definition set_storage (o : obj) (b : list (slot T)) : M unit :=
  modify (λ s, set_vec o (mkVector b (finish_ (vec o s))) s).

(** An iterator in [[begin(), end()]]. *)
Definition position (pos : nat) : M nat :=
  n ← size;
  if decide (pos ≤ n) then mret pos else undefined.

(** [p - 1]; there is no pointer before the start of a block. *)
Definition before (p : nat) : M nat :=
  if decide (p = 0) then undefined else mret (p - 1).

Definition addressCheck (p : arg T) : M unit :=
  n ← size;
  match p with
  | At (This, i) => if decide (i < n) then throw range_error else mret tt
  | _ => mret tt
  end.

Definition rangeCheck (n : nat) : M unit :=
  sz ← size;
  if decide (sz ≤ n) then throw out_of_range else mret tt.

(** The block of [o] is given back. *)
Definition deallocate (o : obj) : M unit := set_storage o [].

(** A request to the allocator for [sz] elements.  The allocator checks the
    number of elements before it computes the number of bytes, and a block
    of more than [HEAP_MAX] bytes is refused whatever the state of the
    heap. *)
Definition request (f : nat → W → W * option unit) (sz : nat) : M unit :=
  if decide (allocatable sz) then effect (f sz) bad_alloc else throw bad_alloc.

(** A request to [malloc] or [realloc] for [bytes] bytes, followed by
    [if (!p) throw std::bad_alloc();].  A block of more than [HEAP_MAX]
    bytes is refused whatever the state of the heap. *)
Definition request_bytes (f : N → W → W * option unit) (bytes : N) : M unit :=
  if decide (bytes ≤ HEAP_MAX)%N then effect (f bytes) bad_alloc else throw bad_alloc.

(** [malloc(sz * sizeof(T))] gives the block that the byte count asks for:
    when the product wraps, a block of fewer than [sz] elements. *)
Definition allocate (sz : nat) : M (list (slot T)) :=
  if relocatable then
    if decide (sz = 0) then mret []
    else
      let bytes := byte_count sz in
      request_bytes malloc bytes;;
      mret (replicate (elements_in bytes) Raw)
  else
    if decide (sz ≠ 0)
    then request allocator_allocate sz;; mret (replicate sz Raw)
    else mret [].

Definition create (o : obj) (sz : nat) : M unit :=
  b ← allocate sz;
  modify (set_vec o (mkVector b 0)).

(** start_ = tmp; finish_ = start_ + n; end_of_storage_ = start_ + sz; *)
Definition adopt (n sz : nat) : M unit :=
  modify (λ s, mkMachine (mkVector (take sz (storage (tmp s))) n) null (world s)).

Definition make_move_if_noexcept_iterator (first : loc) (n : nat) : list (init T W) :=
  if nothrow_move_constructible
  then std.move_iterators first n
  else std.pointers first n.

(** What [realloc] returns for a block [b]: its first [sz] slots, followed
    by raw memory. *)
Definition resized (b : list (slot T)) (sz : nat) : list (slot T) :=
  take sz b ++ replicate (sz - length b) Raw.

(** In the [relocatable] branch the block is handed to
    [realloc(start_, sz * sizeof(T))].  When the byte count is 0 and there
    is a block, [realloc] frees the block and returns a null pointer, as
    glibc does: the code throws [std::bad_alloc], and the pointers of the
    vector are left pointing into the block that is gone.  The block that
    comes back holds the elements that the byte count asked for, and
    [finish_] is set to [tmp + old_size] whether or not that many elements
    lie in it. *)
Definition growShrinkAux (sz : nat) : M unit :=
  old_size ← size;
  (if decide (old_size ≤ sz) then mret tt else undefined);;
  (if relocatable then
     b ← get (λ s, storage (this s));
     let bytes := byte_count sz in
     (if decide (bytes = 0%N ∧ b ≠ [])
      then deallocate This;; throw bad_alloc
      else request_bytes realloc bytes);;
     set_storage Tmp (resized b (elements_in bytes));;
     deallocate This
   else if trivially_copyable then
     b ← allocate sz;
     set_storage Tmp b;;
     std.memmove (Tmp, 0) (This, 0) old_size;;
     deallocate This
   else
     b ← allocate sz;
     set_storage Tmp b;;
     try_catch
       (std.uninitialized_copy
          (make_move_if_noexcept_iterator (This, 0) old_size) (Tmp, 0))
       (λ e, deallocate Tmp;; throw e);;
     std.destroy (This, 0) old_size;;
     deallocate This);;
  adopt old_size sz.

Definition insertExpandAux (pos : nat) (i : init T W) : M nat :=
  let offset := pos in
  old_size ← size;
  let sz := wrap (old_size * 2 + 1) in
  b ← allocate sz;
  set_storage Tmp b;;
  (if trivially_copyable then
     std.memmove (Tmp, 0) (This, 0) offset;;
     x ← make i;
     poke (Tmp, offset) (Live x);;
     std.memmove (Tmp, offset + 1) (This, offset) (old_size - offset);;
     deallocate This
   else
     try_catch
       (std.uninitialized_copy
          (make_move_if_noexcept_iterator (This, 0) offset) (Tmp, 0);;
        construct_at (Tmp, offset) i;;
        std.uninitialized_copy
          (make_move_if_noexcept_iterator (This, offset) (old_size - offset))
          (Tmp, offset + 1))
       (λ e, deallocate Tmp;; throw e);;
     std.destroy (This, 0) old_size;;
     deallocate This);;
  adopt (old_size + 1) sz;;
  mret offset.

Definition insertRangeExpandAux (pos count : nat) (value : arg T) : M nat :=
  let offset := pos in
  old_size ← size;
  let sz := wrap (old_size + count `max` old_size + 1) in
  b ← allocate sz;
  set_storage Tmp b;;
  (if trivially_copyable then
     std.memmove (Tmp, 0) (This, 0) offset;;
     std.fill_n (Tmp, offset) count value;;
     std.memmove (Tmp, offset + count) (This, offset) (old_size - offset);;
     deallocate This
   else
     try_catch
       (std.uninitialized_copy
          (make_move_if_noexcept_iterator (This, 0) offset) (Tmp, 0);;
        std.uninitialized_fill_n (Tmp, offset) count value;;
        std.uninitialized_copy
          (make_move_if_noexcept_iterator (This, offset) (old_size - offset))
          (Tmp, offset + count))
       (λ e, deallocate Tmp;; throw e);;
     std.destroy (This, 0) old_size;;
     deallocate This);;
  adopt (old_size + count) sz;;
  mret offset.

Definition insertRangeExpandAux_range (pos count : nat) (first_last : list (arg T)) : M nat :=
  let offset := pos in
  old_size ← size;
  let sz := wrap (old_size + count `max` old_size + 1) in
  b ← allocate sz;
  set_storage Tmp b;;
  (if trivially_copyable then
     std.memmove (Tmp, 0) (This, 0) offset;;
     std.copy first_last (Tmp, offset);;
     std.memmove (Tmp, offset + count) (This, offset) (old_size - offset);;
     deallocate This
   else
     try_catch
       (std.uninitialized_copy
          (make_move_if_noexcept_iterator (This, 0) offset) (Tmp, 0);;
        std.uninitialized_copy (by_copy <$> first_last) (Tmp, offset);;
        std.uninitialized_copy
          (make_move_if_noexcept_iterator (This, offset) (old_size - offset))
          (Tmp, offset + count))
       (λ e, deallocate Tmp;; throw e);;
     std.destroy (This, 0) old_size;;
     deallocate This);;
  adopt (old_size + count) sz;;
  mret offset.

(** *** Constructors and destructor, for the object [o] *)

(** Vector() *)
Definition Vector_default (o : obj) : M unit := modify (set_vec o null).

(** Vector(count, value) *)
Definition Vector_fill (o : obj) (count : nat) (value : arg T) : M unit :=
  create o count;;
  std.uninitialized_fill_n (o, 0) count value;;
  set_finish o count.

(** Vector(count) *)
Definition Vector_count (o : obj) (count : nat) : M unit :=
  create o count;;
  std.uninitialized_default_construct_n (o, 0) count;;
  set_finish o count.

(** Vector(first, last), and Vector(init) for an initializer list *)
Definition Vector_range (o : obj) (first_last : list (arg T)) : M unit :=
  create o (length first_last);;
  std.uninitialized_copy (by_copy <$> first_last) (o, 0);;
  set_finish o (length first_last).

(** Vector(const Vector& rhs) : Vector(rhs.begin(), rhs.end()), with [rhs]
    the other object of the machine *)
Definition Vector_copy (o : obj) : M unit :=
  n ← get (λ s, finish_ (vec (other o) s));
  Vector_range o (At <$> range (other o, 0) n).

(** Vector(Vector&& rhs) noexcept *)
Definition Vector_move (o : obj) : M unit :=
  modify (λ s, set_vec (other o) null (set_vec o (vec (other o) s) s)).

(** ~Vector() *)
Definition destructor (o : obj) : M unit :=
  n ← get (λ s, finish_ (vec o s));
  std.destroy (o, 0) n;;
  deallocate o;;
  modify (set_vec o null).

(** *** Element access *)

(** operator[]; the reference is given by the object it refers to. *)
Definition subscript (n : nat) : M T := read (This, n).

Definition at_ (n : nat) : M T :=
  rangeCheck n;;
  subscript n.

Definition front : M T := read (This, 0).

Definition back : M T :=
  n ← size;
  p ← before n;
  read (This, p).

(** *** Capacity *)

Definition reserve (new_cap : nat) : M unit :=
  (if decide (maxSize < N.of_nat new_cap)%N then throw length_error else mret tt);;
  cap ← capacity;
  if decide (cap < new_cap) then growShrinkAux new_cap else mret tt.

Definition shrink : M unit :=
  old_size ← size;
  growShrinkAux old_size.

(** *** Modifiers *)

Definition clear : M unit :=
  n ← size;
  std.destroy (This, 0) n;;
  set_finish This 0.

(** insert(pos, const T& value) *)
Definition insert (pos : nat) (value : arg T) : M nat :=
  addressCheck value;;
  p ← position pos;
  n ← size;
  cap ← capacity;
  if decide (n ≠ cap) then
    (if decide (p = n) then
       construct_at (This, n) (by_copy value);;
       set_finish This (n + 1)
     else
       last ← before n;
       construct_at (This, n) (by_move (At (This, last)));;
       set_finish This (n + 1);;
       std.move_backward (This, p) (n + 1 - 2 - p) (This, n + 1 - 1);;
       assign_at (This, p) (by_copy value));;
    mret p
  else insertExpandAux p (by_copy value).

(** insert(pos, T&& value) *)
Definition insert_move (pos : nat) (value : arg T) : M nat :=
  p ← position pos;
  n ← size;
  cap ← capacity;
  if decide (n ≠ cap) then
    (if decide (p = n) then
       construct_at (This, n) (by_move value);;
       set_finish This (n + 1)
     else
       last ← before n;
       construct_at (This, n) (by_move (At (This, last)));;
       set_finish This (n + 1);;
       std.move_backward (This, p) (n + 1 - 2 - p) (This, n + 1 - 1);;
       assign_at (This, p) (by_move value));;
    mret p
  else insertExpandAux p (by_move value).

(** [finish_ + count], which the code computes before it knows that the
    result lies in the block: the pointer is the address it names as long as
    its offset from [start_] is a [std::ptrdiff_t], and computing it is
    undefined otherwise. *)
Definition advance (n count : nat) : M nat :=
  if decide (offsettable (n + count)) then mret (n + count) else undefined.

(** insert(pos, count, value) *)
Definition insert_count (pos count : nat) (value : arg T) : M nat :=
  p ← position pos;
  if decide (count = 0) then mret p
  else if decide (count = 1) then insert pos value
  else
    n ← size;
    cap ← capacity;
    last ← advance n count;
    if decide (last ≤ cap) then
      (if decide (p = n) then
         std.uninitialized_fill_n (This, n) count value
       else
         let m := n - p in
         if decide (count = m) then
           std.uninitialized_move (This, p) (n - p) (This, n);;
           std.fill_n (This, p) count value
         else if decide (count < m) then
           std.uninitialized_move (This, n - count) count (This, n);;
           std.move_backward (This, p) (n - count - p) (This, n);;
           std.fill_n (This, p) (n - count - p) value
         else
           std.uninitialized_move (This, p) (n - p) (This, n + (count - m));;
           std.fill_n (This, p) (n - p) value;;
           std.uninitialized_fill_n (This, n) (count - m) value);;
      set_finish This (n + count);;
      mret p
    else insertRangeExpandAux p count value.

(** insertRangeAux(pos, first, last, std::forward_iterator_tag) *)
Definition insertRangeAux (pos : nat) (first_last : list (arg T)) : M unit :=
  let count := length first_last in
  n ← size;
  cap ← capacity;
  last ← advance n count;
  if decide (last ≤ cap) then
    (if decide (pos = n) then
       std.uninitialized_copy (by_copy <$> first_last) (This, n)
     else
       let m := n - pos in
       if decide (count = m) then
         std.uninitialized_move (This, pos) (n - pos) (This, n);;
         std.copy first_last (This, n)
       else if decide (count < m) then
         std.uninitialized_move (This, n - count) count (This, n);;
         std.move_backward (This, pos) (n - count - pos) (This, n);;
         std.copy first_last (This, pos)
       else
         std.uninitialized_move (This, pos) (n - pos) (This, n + (count - m));;
         std.copy (take m first_last) (This, pos);;
         std.uninitialized_copy (by_copy <$> drop m first_last) (This, n));;
    set_finish This (n + count)
  else
    insertRangeExpandAux_range pos count first_last;;
    mret tt.

(** insert(pos, first, last) for forward iterators, and insert(pos, ilist) *)
Definition insert_range (pos : nat) (first_last : list (arg T)) : M nat :=
  match first_last with
  | [] => position pos
  | _ =>
      offset ← position pos;
      insertRangeAux offset first_last;;
      mret offset
  end.

(** insertRangeAux(pos, first, last, std::input_iterator_tag) with
    [pos == finish_], for iterators that give lvalues:
    while (first != last) insert(end(), *first++);
    The other branch of this overload builds a third vector from the range
    and is outside the two objects of the machine. *)
Definition insertRangeAux_input_at_end (first_last : list (arg T)) : M unit :=
  for_each (λ value, e ← size; insert e value;; mret tt) first_last.

(** insert(end(), first, last) for iterators that are input iterators
    only *)
Definition insert_input_at_end (first_last : list (arg T)) : M nat :=
  offset ← size;
  match first_last with
  | [] => mret offset
  | _ =>
      insertRangeAux_input_at_end first_last;;
      mret offset
  end.

Definition emplace (pos : nat) (args : init T W) : M nat :=
  p ← position pos;
  n ← size;
  cap ← capacity;
  if decide (n ≠ cap) then
    (if decide (p = n) then
       construct_at (This, n) args;;
       set_finish This (n + 1)
     else
       last ← before n;
       construct_at (This, n) (by_move (At (This, last)));;
       set_finish This (n + 1);;
       std.move_backward (This, p) (n + 1 - 2 - p) (This, n + 1 - 1);;
       x ← make args;
       assign_at (This, p) (by_move (Val x)));;
    mret p
  else insertExpandAux p args.

(** erase(pos); [pos] must be dereferenceable. *)
Definition erase (pos : nat) : M nat :=
  n ← size;
  p ← (if decide (pos < n) then mret pos else undefined);
  (if decide (p + 1 ≠ n)
   then std.move (This, p + 1) (n - (p + 1)) (This, p)
   else mret tt);;
  set_finish This (n - 1);;
  destroy_at (This, n - 1);;
  mret p.

(** erase(first, last); [[first, last)] must be a range of the vector. *)
Definition erase_range (first last : nat) : M nat :=
  n ← size;
  (if decide (first ≤ last ≤ n) then mret tt else undefined);;
  let pfirst := first in
  let plast := last in
  (if decide (pfirst ≠ plast) then
     if decide (plast = n) then
       std.destroy (This, pfirst) (plast - pfirst);;
       set_finish This pfirst
     else
       std.move (This, plast) (n - plast) (This, pfirst);;
       std.destroy (This, pfirst + (n - plast)) (n - (pfirst + (n - plast)));;
       set_finish This (pfirst + (n - plast))
   else mret tt);;
  mret pfirst.

(** push_back(const ValueType& e) *)
Definition push_back (e : arg T) : M unit :=
  n ← size;
  cap ← capacity;
  e ← (if decide (n = cap)
       then growShrinkAux (wrap (cap * 2 + 1));; mret (stale e)
       else mret e);
  n ← size;
  construct_at (This, n) (by_copy e);;
  set_finish This (n + 1).

(** push_back(ValueType&& e) *)
Definition push_back_move (e : arg T) : M unit :=
  n ← size;
  cap ← capacity;
  e ← (if decide (n = cap)
       then growShrinkAux (wrap (cap * 2 + 1));; mret (stale e)
       else mret e);
  n ← size;
  construct_at (This, n) (by_move e);;
  set_finish This (n + 1).

(** What the arguments of a constructor call refer to once the storage of
    the vector is released. *)
Definition stale_args (i : init T W) : init T W :=
  match i with
  | by_copy a => by_copy (stale a)
  | by_move a => by_move (stale a)
  | by_args c => by_args c
  end.

Definition emplace_back (args : init T W) : M T :=
  n ← size;
  cap ← capacity;
  args ← (if decide (n = cap)
          then growShrinkAux (wrap (cap * 2 + 1));; mret (stale_args args)
          else mret args);
  n ← size;
  construct_at (This, n) args;;
  set_finish This (n + 1);;
  back.

Definition pop_back : M unit :=
  n ← size;
  p ← before n;
  set_finish This p;;
  destroy_at (This, p).

Definition resize (new_size : nat) : M unit :=
  n ← size;
  cap ← capacity;
  (if decide (new_size < n) then
     std.destroy (This, new_size) (n - new_size)
   else if decide (n < new_size ∧ new_size < cap) then
     std.uninitialized_default_construct_n (This, n) (new_size - n)
   else
     let old_size := n in
     growShrinkAux new_size;;
     n ← size;
     std.uninitialized_default_construct_n (This, n) (new_size - old_size));;
  set_finish This new_size.

(** swap(rhs), with [rhs] the second object of the machine. *)
Definition swap : M unit :=
  modify (λ s, mkMachine (tmp s) (this s) (world s)).

(** assign(count, value) *)
Definition assign (count : nat) (value : arg T) : M unit :=
  n ← size;
  cap ← capacity;
  if decide (cap < count) then
    Vector_fill Tmp count value;;
    swap;;
    destructor Tmp
  else if decide (n < count) then
    std.fill_n (This, 0) n value;;
    let added := count - n in
    std.uninitialized_fill_n (This, n) added value;;
    set_finish This (n + added)
  else
    std.fill_n (This, 0) count value;;
    erase_range count n;;
    mret tt.

(** assign(first, last) for forward iterators *)
Definition assign_range (first_last : list (arg T)) : M unit :=
  let count := length first_last in
  n ← size;
  cap ← capacity;
  if decide (cap < count) then
    Vector_range Tmp first_last;;
    swap;;
    destructor Tmp
  else if decide (n < count) then
    let added := count - n in
    std.copy (take n first_last) (This, 0);;
    std.uninitialized_copy (by_copy <$> drop n first_last) (This, n);;
    set_finish This (n + added)
  else
    std.copy first_last (This, 0);;
    erase_range count n;;
    mret tt.

(** assign(first, last) for iterators that are input iterators only:
    while (first != last && cur != finish_) *cur++ = *first++;
    and then either [erase(cur, finish_)] or [insert(end(), first, last)]. *)
Definition assign_input (first_last : list (arg T)) : M unit :=
  n ← size;
  std.copy (take n first_last) (This, 0);;
  if decide (length first_last ≤ n) then
    erase_range (length first_last) n;;
    mret tt
  else
    insert_input_at_end (drop n first_last);;
    mret tt.

(** assign(ilist); the elements of the list are objects of the caller. *)
Definition assign_list (ilist : list T) : M unit :=
  n ← size;
  cap ← capacity;
  if decide (cap < length ilist) then
    Vector_range Tmp (Val <$> ilist);;
    swap;;
    destructor Tmp
  else if decide (n < length ilist) then
    std.copy (Val <$> take n ilist) (This, 0);;
    let added := length ilist - n in
    std.uninitialized_copy (by_copy ∘ Val <$> take added (drop n ilist)) (This, n);;
    set_finish This (n + added)
  else
    std.copy (Val <$> ilist) (This, 0);;
    erase_range (length ilist) n;;
    mret tt.
End Methods.

(** *** Comparison operators, on the vectors [x] and [y] of the machine *)

Section Operators.
Context {T W : Type}.
Local Abbreviation M := (M T W).

(** operator==(x, y) *)
Definition operator_eq (eqb : T → T → bool) (x y : obj) : M bool :=
  n ← get (λ s, finish_ (vec x s));
  m ← get (λ s, finish_ (vec y s));
  if decide (n = m) then std.equal eqb (x, 0) n (y, 0) else mret false.

(** operator!=(x, y) *)
Definition operator_ne (eqb : T → T → bool) (x y : obj) : M bool :=
  b ← operator_eq eqb x y;
  mret (negb b).

(** operator<(x, y) *)
Definition operator_lt (ltb : T → T → bool) (x y : obj) : M bool :=
  n ← get (λ s, finish_ (vec x s));
  m ← get (λ s, finish_ (vec y s));
  std.lexicographical_compare ltb (x, 0) n (y, 0) m.

(** operator>(x, y) *)
Definition operator_gt (ltb : T → T → bool) (x y : obj) : M bool :=
  operator_lt ltb y x.

(** operator>=(x, y) *)
Definition operator_ge (ltb : T → T → bool) (x y : obj) : M bool :=
  b ← operator_lt ltb x y;
  mret (negb b).

(** operator<=(x, y) *)
Definition operator_le (ltb : T → T → bool) (x y : obj) : M bool :=
  b ← operator_lt ltb y x;
  mret (negb b).
End Operators.
End Vec.

(** ** Stack

    [Stack<T, Vector<T>>]: every member function forwards to the container
    [c_], which is the vector of the machine. *)

Module Stack.
Section Methods.
Context `{Traits T W}.
Local Abbreviation M := (M T W).

Definition top : M T := Vec.back.

Definition empty : M bool := Vec.empty.

Definition size : M nat := Vec.size.

Definition push (value : arg T) : M unit := Vec.push_back value.

Definition push_move (value : arg T) : M unit := Vec.push_back_move value.

(** The return type is [auto]: the reference that [emplace_back] returns
    decays, and the caller gets a copy of the new element. *)
Definition emplace (args : init T W) : M T :=
  x ← Vec.emplace_back args;
  copy_constructor x.

Definition pop : M unit := Vec.pop_back.

Definition swap : M unit := Vec.swap.
End Methods.
End Stack.

(** ** Two element types of the test suite *)

Lemma size_4 : (4 <= SIZE_MAX)%N.
Proof. done. Qed.

Lemma size_2 : (2 <= SIZE_MAX)%N.
Proof. done. Qed.

(** [Vector<int>]: trivially copyable, [std::allocator], and a heap that
    never runs out.  A default-initialised [int] is not written and holds
    what its memory happens to hold; the program state is the value that the
    next one turns out to have. *)
Global Instance int_traits : Traits Z Z | 0 := {|
  sizeof_T := 4;
  sizeof_T_fits := size_4;
  trivially_copyable := true;
  nothrow_move_constructible := true;
  std_allocator := true;
  default_construct := λ w, ((w + 1)%Z, Some w);
  copy_construct := λ x w, (w, Some x);
  move_construct := λ x w, (w, Some (x, x));
  copy_assign := λ _ x w, (w, Some x);
  move_assign := λ _ x w, (w, Some (x, x));
  malloc := λ _ w, (w, Some tt);
  realloc := λ _ w, (w, Some tt);
  allocator_allocate := λ _ w, (w, Some tt);
|}.

(** The class [Bomb] of [tests/vector_test.cpp]. *)
Record Bomb := mkBomb {
  moved_from_ : bool;
  armed_ : bool;
}.

(** Bomb::tick(), on the static counter [ticks_]:
    if (armed_ && ticks_++) throw 1; *)
Definition tick (armed : bool) (ticks : nat) : nat * option unit :=
  if armed
  then (S ticks, if decide (ticks = 0) then Some tt else None)
  else (ticks, Some tt).

(** [Vector<Bomb>].  [Bomb] declares a copy and a move constructor and so has
    no assignment operator: the member functions that assign elements cannot
    be instantiated for it, and the two assignment fields are never reached
    from the others. *)
Global Instance Bomb_traits : Traits Bomb nat | 10 := {|
  sizeof_T := 2;
  sizeof_T_fits := size_2;
  trivially_copyable := false;
  nothrow_move_constructible := false;
  std_allocator := true;
  default_construct := λ w, (w, Some (mkBomb false true));
  copy_construct := λ b w,
    ((tick (armed_ b) w).1, (λ _, mkBomb false (armed_ b)) <$> (tick (armed_ b) w).2);
  move_construct := λ b w,
    ((tick (armed_ b) w).1,
     (λ _, (mkBomb false (armed_ b), mkBomb true (armed_ b))) <$> (tick (armed_ b) w).2);
  copy_assign := λ _ b w, (w, Some b);
  move_assign := λ _ b w, (w, Some (b, b));
  malloc := λ _ w, (w, Some tt);
  realloc := λ _ w, (w, Some tt);
  allocator_allocate := λ _ w, (w, Some tt);
|}.

(** An element type with a value and a copy constructor that throws, as
    [Bomb]'s does, once a budget kept in the program state is used up; moves
    and assignments always succeed. *)
Global Instance fuse_traits : Traits Z nat | 10 := {|
  sizeof_T := 4;
  sizeof_T_fits := size_4;
  trivially_copyable := false;
  nothrow_move_constructible := false;
  std_allocator := true;
  default_construct := λ w, (w, Some 0%Z);
  copy_construct := λ x w, (pred w, if decide (w = 0) then None else Some x);
  move_construct := λ x w, (w, Some (x, x));
  copy_assign := λ _ x w, (w, Some x);
  move_assign := λ _ x w, (w, Some (x, x));
  malloc := λ _ w, (w, Some tt);
  realloc := λ _ w, (w, Some tt);
  allocator_allocate := λ _ w, (w, Some tt);
|}.

(** A program that starts with no vector yet. *)
Definition boot {T W} (w : W) : Machine T W := mkMachine null null w.

(** * Specification vocabulary *)

(** The capacity and the size of a vector. *)
Record extent := mkExtent {
  cap : nat;
  len : nat;
}.

(** The extents of the two objects of a machine. *)
Record sizes := mkSizes {
  of_this : extent;
  of_tmp : extent;
}.

Definition size_of {T} (v : Vector T) : extent :=
  mkExtent (length (storage v)) (finish_ v).

Definition ext (o : obj) (sh : sizes) : extent :=
  match o with This => of_this sh | Tmp => of_tmp sh end.

Definition set_ext (o : obj) (x : extent) (sh : sizes) : sizes :=
  match o with
  | This => mkSizes x (of_tmp sh)
  | Tmp => mkSizes (of_this sh) x
  end.

(** The length/capacity invariant. *)
Definition sized `{Traits T W} (x : extent) : Prop :=
  len x ≤ cap x ∧ allocatable (cap x).

(** The extent after one element is added to a vector of extent [x]: the
    capacity grows when none is spare. *)
Definition appended (x : extent) : extent :=
  mkExtent (if decide (len x = cap x) then 2 * cap x + 1 else cap x) (len x + 1).

(** The exceptions that come from allocation and from elements. *)
Definition benign (e : exn) : Prop := e = bad_alloc ∨ e = element_error.

Section Vocabulary.
Context `{Traits T W}.

(** The vector [v] holds the sequence [xs]: its first [size()] slots are
    live objects with these values, inside a block that is one array
    object. *)
Definition holds (v : Vector T) (xs : list T) : Prop :=
  finish_ v ≤ length (storage v)
  ∧ allocatable (length (storage v))
  ∧ take (finish_ v) (storage v) = Live <$> xs.

(** The values of the live elements, for running examples. *)
Definition elements (v : Vector T) : list T :=
  omap (λ x, match x with Live v => Some v | Raw => None end)
       (take (finish_ v) (storage v)).

(** Some member function of [T] or some allocation function can throw. *)
Inductive throwing : Prop :=
  | throwing_default w : (default_construct w).2 = None → throwing
  | throwing_copy x w : (copy_construct x w).2 = None → throwing
  | throwing_move x w : (move_construct x w).2 = None → throwing
  | throwing_copy_assign old x w : (copy_assign old x w).2 = None → throwing
  | throwing_move_assign old x w : (move_assign old x w).2 = None → throwing
  | throwing_malloc n w : (malloc n w).2 = None → throwing
  | throwing_realloc n w : (realloc n w).2 = None → throwing
  | throwing_allocate n w : (allocator_allocate n w).2 = None → throwing.

(** [T] is a value type: a copy equals its source, and a move hands over the
    value of its source. *)
Class Regular : Prop := {
  copy_construct_value x w y : (copy_construct x w).2 = Some y → y = x;
  move_construct_value x w y r : (move_construct x w).2 = Some (y, r) → y = x;
  copy_assign_value old x w y : (copy_assign old x w).2 = Some y → y = x;
  move_assign_value old x w y r : (move_assign old x w).2 = Some (y, r) → y = x;
}.

(** The constructors, as a caller uses them: on the vector itself. *)
Inductive constructor :=
  | new_default
  | new_fill (count : nat) (value : arg T)
  | new_count (count : nat)
  | new_range (first_last : list (arg T))
  | new_copy
  | new_move.

Definition construct (c : constructor) : M T W unit :=
  match c with
  | new_default => Vec.Vector_default This
  | new_fill count value => Vec.Vector_fill This count value
  | new_count count => Vec.Vector_count This count
  | new_range first_last => Vec.Vector_range This first_last
  | new_copy => Vec.Vector_copy This
  | new_move => Vec.Vector_move This
  end.

(** The public member functions that change a vector. *)
Inductive operation :=
  | call_push_back (e : arg T)
  | call_push_back_move (e : arg T)
  | call_emplace_back (args : init T W)
  | call_pop_back
  | call_insert (pos : nat) (value : arg T)
  | call_insert_move (pos : nat) (value : arg T)
  | call_insert_count (pos count : nat) (value : arg T)
  | call_insert_range (pos : nat) (first_last : list (arg T))
  | call_insert_input_at_end (first_last : list (arg T))
  | call_emplace (pos : nat) (args : init T W)
  | call_erase (pos : nat)
  | call_erase_range (first last : nat)
  | call_clear
  | call_resize (new_size : nat)
  | call_reserve (new_cap : nat)
  | call_shrink
  | call_assign (count : nat) (value : arg T)
  | call_assign_range (first_last : list (arg T))
  | call_assign_input (first_last : list (arg T))
  | call_assign_list (ilist : list T)
  | call_swap.

Definition call (o : operation) : M T W unit :=
  match o with
  | call_push_back e => Vec.push_back e
  | call_push_back_move e => Vec.push_back_move e
  | call_emplace_back args => Vec.emplace_back args;; mret tt
  | call_pop_back => Vec.pop_back
  | call_insert pos value => Vec.insert pos value;; mret tt
  | call_insert_move pos value => Vec.insert_move pos value;; mret tt
  | call_insert_count pos count value => Vec.insert_count pos count value;; mret tt
  | call_insert_range pos first_last => Vec.insert_range pos first_last;; mret tt
  | call_insert_input_at_end first_last => Vec.insert_input_at_end first_last;; mret tt
  | call_emplace pos args => Vec.emplace pos args;; mret tt
  | call_erase pos => Vec.erase pos;; mret tt
  | call_erase_range first last => Vec.erase_range first last;; mret tt
  | call_clear => Vec.clear
  | call_resize new_size => Vec.resize new_size
  | call_reserve new_cap => Vec.reserve new_cap
  | call_shrink => Vec.shrink
  | call_assign count value => Vec.assign count value
  | call_assign_range first_last => Vec.assign_range first_last
  | call_assign_input first_last => Vec.assign_input first_last
  | call_assign_list ilist => Vec.assign_list ilist
  | call_swap => Vec.swap
  end.

(** A call of [resize] or [reserve] with a number of elements whose byte
    count is a [std::size_t]. *)
Definition modest (o : operation) : Prop :=
  match o with
  | call_resize n | call_reserve n => representable n
  | _ => True
  end.

(** Any call at all. *)
Definition any_call (o : operation) : Prop := True.

(** The vectors a program can get hold of with calls that satisfy [P]: what
    a constructor returns, and what a member function leaves behind, whether
    it returns or throws.  [swap] and the move constructor take their other
    vector from the program too. *)
Inductive reachable (P : operation → Prop) : Vector T → Prop :=
  | reachable_new c s s' :
      (c = new_move → reachable P (tmp s)) →
      construct c s = Ret tt s' →
      reachable P (this s')
  | reachable_ret o s s' :
      P o →
      reachable P (this s) →
      (o = call_swap → reachable P (tmp s)) →
      call o s = Ret tt s' →
      reachable P (this s')
  | reachable_throw o s e s' :
      P o →
      reachable P (this s) →
      call o s = Throw e s' →
      reachable P (this s').

(** The two stack operations of a vector. *)
Inductive back_operation :=
  | push (e : arg T)
  | push_move (e : arg T)
  | pop.

Definition back_call (o : back_operation) : M T W unit :=
  match o with
  | push e => Vec.push_back e
  | push_move e => Vec.push_back_move e
  | pop => Vec.pop_back
  end.

Definition pushes (l : list back_operation) : nat :=
  sum_list ((λ o, if o is pop then 0 else 1) <$> l).

Definition pops (l : list back_operation) : nat :=
  sum_list ((λ o, if o is pop then 1 else 0) <$> l).

(** The machine after a slot is written, and after the program state has
    moved on. *)
Definition put (p : loc) (x : slot T) (s : Machine T W) : Machine T W :=
  set_vec p.1 (mkVector (<[p.2 := x]> (storage (vec p.1 s))) (finish_ (vec p.1 s))) s.

Definition with_world (s : Machine T W) (w : W) : Machine T W :=
  mkMachine (this s) (tmp s) w.

(** The machine [s'] after [k] elements of the vector, from offset [a] on,
    have been relocated to offset [b] of [tmp]; [ys] are their values. *)
Definition relocated (a b k : nat) (ys : list T) (s s' : Machine T W) : Prop :=
  length (storage (tmp s')) = length (storage (tmp s))
  ∧ finish_ (tmp s') = finish_ (tmp s)
  ∧ length (storage (this s')) = length (storage (this s))
  ∧ finish_ (this s') = finish_ (this s)
  ∧ (∀ j y, j < k → ys !! j = Some y → storage (tmp s') !! (b + j) = Some (Live y))
  ∧ (∀ i, ¬ (b ≤ i < b + k) → storage (tmp s') !! i = storage (tmp s) !! i)
  ∧ (∀ i, ¬ (a ≤ i < a + k) → storage (this s') !! i = storage (this s) !! i)
  ∧ (∀ i, a ≤ i < a + k → ∃ r, storage (this s') !! i = Some (Live r))
  ∧ (nothrow_move_constructible = false → this s' = this s).

(** The machine [s'] after the [n] objects of [o] from offset [a] on have
    been destroyed. *)
Definition destroyed (o : obj) (a n : nat) (s s' : Machine T W) : Prop :=
  vec (other o) s' = vec (other o) s
  ∧ world s' = world s
  ∧ finish_ (vec o s') = finish_ (vec o s)
  ∧ length (storage (vec o s')) = length (storage (vec o s))
  ∧ (∀ i, ¬ (a ≤ i < a + n) → storage (vec o s') !! i = storage (vec o s) !! i)
  ∧ (∀ i, a ≤ i < a + n → storage (vec o s') !! i = Some Raw).


(** Pushing a list of objects of the caller on a stack, first to last, and
    taking [n] elements off it, with the values seen on top. *)
Definition push_all (l : list T) : M T W unit :=
  for_each (λ x, Stack.push (Val x)) l.

Fixpoint pop_all (n : nat) : M T W (list T) :=
  match n with
  | 0 => mret []
  | S n =>
      t ← Stack.top;
      Stack.pop;;
      ts ← pop_all n;
      mret (t :: ts)
  end.

(** What an outcome satisfies: [Q] when the call returns, [E] when it
    throws, [u] when it is undefined. *)
Definition wp {A} (u : Prop) (m : M T W A)
    (Q : A → Machine T W → Prop) (E : exn → Machine T W → Prop)
    (s : Machine T W) : Prop :=
  match m s with
  | Ret a s' => Q a s'
  | Throw e s' => E e s'
  | Undefined => u
  end.

(** The sizes a machine state is made of. *)
Definition shape (s : Machine T W) : sizes :=
  mkSizes (size_of (this s)) (size_of (tmp s)).

(** A program that works on elements only: it leaves every block and every
    [finish_] where it is, and throws nothing but what elements throw. *)
Definition elementwise {A} (m : M T W A) : Prop :=
  ∀ s, wp True m (λ _ s', shape s' = shape s)
                 (λ e s', e = element_error ∧ shape s' = shape s) s.

(** The same on sizes alone: what a program does to the sizes of a machine
    of sizes [sh], whatever the machine holds. *)
Definition wps {A} (m : M T W A)
    (Q : A → sizes → Prop) (E : exn → sizes → Prop) (sh : sizes) : Prop :=
  ∀ s, shape s = sh →
    wp True m (λ a s', Q a (shape s')) (λ e s', E e (shape s')) s.

(** An elementwise program that returns only if [B] holds of the sizes. *)
Definition elementwise_in {A} (B : sizes → Prop) (m : M T W A) : Prop :=
  ∀ s, wp True m (λ _ s', shape s' = shape s ∧ B (shape s))
                 (λ e s', e = element_error ∧ shape s' = shape s) s.

(** A constructor call that does not touch the object [o] or its block: a
    copy of an object of the caller, a copy of an element of the other
    vector, or a default construction. *)
Definition external (o : obj) (s : Machine T W) (i : init T W) : Prop :=
  match i with
  | by_copy (Val _) => True
  | by_copy (At p) => p.1 = other o ∧ ∃ x, storage (vec (other o) s) !! p.2 = Some (Live x)
  | by_args c => c = default_construct
  | _ => False
  end.

(** The value such a call gives. *)
Definition gives (o : obj) (s : Machine T W) (i : init T W) (x : T) : Prop :=
  match i with
  | by_copy (Val y) => x = y
  | by_copy (At p) => storage (vec (other o) s) !! p.2 = Some (Live x)
  | by_args c => ∃ w, (c w).2 = Some x
  | _ => False
  end.

(** The machine [s'] after [ys] have been constructed in the raw slots of
    [o] from offset [d] on. *)
Definition constructed (o : obj) (d : nat) (ys : list T) (s s' : Machine T W) : Prop :=
  vec (other o) s' = vec (other o) s
  ∧ finish_ (vec o s') = finish_ (vec o s)
  ∧ length (storage (vec o s')) = length (storage (vec o s))
  ∧ (∀ j y, ys !! j = Some y → storage (vec o s') !! (d + j) = Some (Live y))
  ∧ (∀ i, ¬ (d ≤ i < d + length ys) → storage (vec o s') !! i = storage (vec o s) !! i).

(** The lexicographic order on sequences that an order [ltb] on the elements
    gives: at the first position where the two differ the smaller element
    decides, and a proper prefix comes first. *)
Fixpoint lexicographic (ltb : T → T → bool) (xs ys : list T) : bool :=
  match xs, ys with
  | x :: xs, y :: ys =>
      if ltb x y then true else if ltb y x then false else lexicographic ltb xs ys
  | [], _ :: _ => true
  | _, [] => false
  end.

(** [ltb] is a strict total order. *)
Definition strict_total_order (ltb : T → T → bool) : Prop :=
  (∀ a, ltb a a = false)
  ∧ (∀ a b c, ltb a b = true → ltb b c = true → ltb a c = true)
  ∧ (∀ a b, ltb a b = false → ltb b a = false → a = b).
End Vocabulary.

Global Instance int_regular : Regular (H := int_traits).
Proof. split; simpl; intros; congruence. Qed.

(** ** Concrete machines *)

(** A [Vector<int>] that holds [xs] in a block of [length xs + spare]
    elements, in a program with no other vector. *)
Definition ints (xs : list Z) (spare : nat) : Machine Z Z :=
  mkMachine (mkVector ((Live <$> xs) ++ replicate spare Raw) (length xs)) null 0%Z.

Global Instance fuse_regular : Regular (H := fuse_traits).
Proof.
  split; simpl.
  - intros x w y. case_decide; congruence.
  - intros x w y r. congruence.
  - intros old x w y. congruence.
  - intros old x w y r. congruence.
Qed.

(** A vector of the values [xs] with the throwing copy constructor, full,
    and [budget] copies left. *)
Definition fuses (xs : list Z) (budget : nat) : Machine Z nat :=
  mkMachine (mkVector (Live <$> xs) (length xs)) null budget.

(** Two [Vector<int>] side by side, holding [xs] and [ys]. *)
Definition two_ints (xs ys : list Z) : Machine Z Z :=
  mkMachine (this (ints xs 0)) (this (ints ys 0)) 0%Z.

(** A [Vector<Bomb>] of [n] armed bombs, with [ticks_] at [ticks]. *)
Definition bombs (n ticks : nat) : Machine Bomb nat :=
  mkMachine (mkVector (replicate n (Live (mkBomb false true))) n) null ticks.

(** * Sizes in bytes *)

Section ByteSizes.
Context `{Traits T W}.

Lemma max_elements_le : (max_elements ≤ HEAP_MAX)%N.
Proof.
  unfold max_elements. apply N.Div0.div_le_upper_bound.
  assert (1 ≤ N.pos sizeof_T)%N by lia. unfold HEAP_MAX. nia.
Qed.

Lemma allocatable_bytes n :
  allocatable n ↔ (N.of_nat n * N.pos sizeof_T ≤ HEAP_MAX)%N.
Proof.
  unfold allocatable, max_elements. split; intros Hn.
  - pose proof (N.Div0.mul_div_le HEAP_MAX (N.pos sizeof_T)). nia.
  - apply N.div_le_lower_bound; [done|]. lia.
Qed.

Lemma allocatable_0 : allocatable 0.
Proof. unfold allocatable. lia. Qed.

Lemma allocatable_mono m n : m ≤ n → allocatable n → allocatable m.
Proof. unfold allocatable. lia. Qed.

(** A size that the code computes from the sizes of vectors that exist:
    at most twice the largest block and one element. *)
Lemma window_representable n :
  (N.of_nat n ≤ 2 * max_elements + 1)%N → representable n.
Proof.
  intros Hn. unfold representable.
  pose proof sizeof_T_fits as Hfits.
  pose proof (N.Div0.mul_div_le HEAP_MAX (N.pos sizeof_T)) as Hdiv.
  fold max_elements in Hdiv.
  destruct (N.le_gt_cases (N.pos sizeof_T) HEAP_MAX) as [Hs|Hs].
  - unfold SIZE_MAX, HEAP_MAX in *. nia.
  - assert (max_elements = 0%N) as Hz.
    { unfold max_elements. by apply N.div_small. }
    rewrite Hz in Hn. unfold SIZE_MAX in *. nia.
Qed.

Lemma allocatable_representable n : allocatable n → representable n.
Proof. intros Hn. apply window_representable. unfold allocatable in Hn. lia. Qed.

Lemma allocatable_offsettable n m :
  allocatable n → allocatable m → offsettable (n + m).
Proof.
  intros Hn%allocatable_bytes Hm%allocatable_bytes.
  unfold offsettable, HEAP_MAX, PTRDIFF_MAX in *. lia.
Qed.

Lemma allocatable_offsettable_le m n : m ≤ n → allocatable n → offsettable m.
Proof.
  intros Hm Hn%allocatable_bytes.
  unfold offsettable, HEAP_MAX, PTRDIFF_MAX in *. nia.
Qed.

Lemma byte_count_representable n :
  representable n → byte_count n = (N.of_nat n * N.pos sizeof_T)%N.
Proof.
  intros Hn. unfold byte_count. apply N.mod_small.
  unfold representable, SIZE_MAX in Hn. lia.
Qed.

Lemma byte_count_le n : (byte_count n ≤ N.of_nat n * N.pos sizeof_T)%N.
Proof. unfold byte_count. by apply N.Div0.mod_le. Qed.

Lemma elements_in_le sz : elements_in (byte_count sz) ≤ sz.
Proof.
  unfold elements_in.
  assert (byte_count sz / N.pos sizeof_T ≤ N.of_nat sz)%N; [|lia].
  apply N.Div0.div_le_upper_bound. pose proof (byte_count_le sz). lia.
Qed.

Lemma elements_in_allocatable bytes :
  (bytes ≤ HEAP_MAX)%N → allocatable (elements_in bytes).
Proof.
  intros Hb. unfold allocatable, elements_in, max_elements.
  rewrite N2Nat.id. by apply N.Div0.div_le_mono.
Qed.

Lemma elements_in_byte_count sz :
  representable sz → elements_in (byte_count sz) = sz.
Proof.
  intros Hsz. rewrite byte_count_representable by done.
  unfold elements_in. rewrite N.div_mul by done. lia.
Qed.

(** A request that does not wrap is served if and only if the elements fit
    in a block. *)
Lemma byte_count_allocatable sz :
  representable sz → (byte_count sz ≤ HEAP_MAX)%N ↔ allocatable sz.
Proof.
  intros Hsz. by rewrite byte_count_representable, allocatable_bytes.
Qed.

Lemma byte_count_0 sz : representable sz → byte_count sz = 0%N → sz = 0.
Proof.
  intros Hsz. rewrite byte_count_representable by done. lia.
Qed.

(** The block that a request of [malloc] or [realloc] for [sz] elements
    gives: it fits in the heap, it has no more than [sz] elements, and it
    has [sz] of them unless the byte count wrapped. *)
Lemma elements_in_granted sz :
  (byte_count sz ≤ HEAP_MAX)%N →
  elements_in (byte_count sz) ≤ sz
  ∧ allocatable (elements_in (byte_count sz))
  ∧ ((N.of_nat sz ≤ 2 * max_elements + 1)%N → elements_in (byte_count sz) = sz)
  ∧ (representable sz → elements_in (byte_count sz) = sz).
Proof.
  intros Hb. split_and!.
  - apply elements_in_le.
  - by apply elements_in_allocatable.
  - intros Hsz. by apply elements_in_byte_count, window_representable.
  - apply elements_in_byte_count.
Qed.

Lemma byte_count_0_inside sz :
  byte_count sz = 0%N →
  ((N.of_nat sz ≤ 2 * max_elements + 1)%N → sz = 0) ∧ (representable sz → sz = 0).
Proof.
  intros Hb. split; [intros Hsz%window_representable|intros Hsz]; by apply byte_count_0.
Qed.

Lemma length_resized (b : list (slot T)) n : length (Vec.resized b n) = n.
Proof.
  unfold Vec.resized. rewrite length_app, length_take, length_replicate. lia.
Qed.
End ByteSizes.

(** Arithmetic below the bound of the heap. *)
Ltac heap_lia :=
  try match goal with
      | H : Traits _ _ |- _ => pose proof (max_elements_le (H := H))
      end;
  unfold allocatable, HEAP_MAX, PTRDIFF_MAX, SIZE_MAX in *; lia.

(** The sizes that the code computes from vectors that exist do not wrap. *)
Ltac no_wrap := apply window_representable; heap_lia.

(** * Rules for outcomes *)

Section Rules.
Context `{Traits T W}.
Implicit Types (s : Machine T W) (u : Prop) (p : loc) (e : exn).

Lemma wp_ret {A} u (a : A) Q E s : Q a s → wp u (mret a) Q E s.
Proof. done. Qed.

Lemma wp_bind {A B} u (m : M T W A) (f : A → M T W B) Q E s :
  wp u m (λ a s', wp u (f a) Q E s') E s → wp u (m ≫= f) Q E s.
Proof. unfold wp, mbind, M_bind. by destruct (m s). Qed.

Lemma wp_mono {A} u (m : M T W A) Q Q' E E' s :
  wp u m Q E s →
  (∀ a s', Q a s' → Q' a s') → (∀ e s', E e s' → E' e s') →
  wp u m Q' E' s.
Proof. unfold wp. destruct (m s); eauto. Qed.

Lemma wp_throw {A} u e (Q : A → _) E s : E e s → wp u (throw e) Q E s.
Proof. done. Qed.

Lemma wp_undefined {A} u (Q : A → _) E s : u → wp u undefined Q E s.
Proof. done. Qed.

Lemma wp_try_catch {A} u (m : M T W A) h Q E s :
  wp u m Q (λ e s', wp u (h e) Q E s') s → wp u (try_catch m h) Q E s.
Proof. unfold wp, try_catch. by destruct (m s). Qed.

Lemma wp_noexcept {A} u (m : M T W A) Q E s :
  wp u m Q (λ _ _, u) s → wp u (noexcept m) Q E s.
Proof. unfold wp, noexcept. by destruct (m s). Qed.

Lemma wp_get {A} u (f : Machine T W → A) Q E s : Q (f s) s → wp u (get f) Q E s.
Proof. done. Qed.

Lemma wp_modify u f Q E s : Q tt (f s) → wp u (modify f) Q E s.
Proof. done. Qed.

Lemma wp_effect {A} u (f : W → W * option A) e Q E s :
  (∀ a, (f (world s)).2 = Some a → Q a (mkMachine (this s) (tmp s) (f (world s)).1)) →
  ((f (world s)).2 = None → E e (mkMachine (this s) (tmp s) (f (world s)).1)) →
  wp u (effect f e) Q E s.
Proof. unfold wp, effect. destruct (f (world s)).2; eauto. Qed.

Lemma wp_peek u p Q E s :
  (∀ x, storage (vec p.1 s) !! p.2 = Some x → Q x s) →
  (length (storage (vec p.1 s)) ≤ p.2 → u) →
  wp u (peek p) Q E s.
Proof.
  unfold wp, peek. intros HQ Hu.
  destruct (storage (vec p.1 s) !! p.2) eqn:Hl; [eauto|].
  apply Hu. by apply lookup_ge_None.
Qed.

Lemma wp_poke u p x Q E s :
  (p.2 < length (storage (vec p.1 s)) →
   Q tt (set_vec p.1 (mkVector (<[p.2 := x]> (storage (vec p.1 s)))
                               (finish_ (vec p.1 s))) s)) →
  (length (storage (vec p.1 s)) ≤ p.2 → u) →
  wp u (poke p x) Q E s.
Proof. unfold wp, poke. intros HQ Hu. case_decide; [eauto|]. apply Hu. lia. Qed.

Lemma wp_read u p Q E s :
  (∀ x, storage (vec p.1 s) !! p.2 = Some (Live x) → Q x s) →
  (storage (vec p.1 s) !! p.2 = Some Raw → u) →
  (length (storage (vec p.1 s)) ≤ p.2 → u) →
  wp u (read p) Q E s.
Proof.
  intros HQ Hraw Hu. apply wp_bind, wp_peek; [|done].
  intros [|x] Hx; [by apply wp_undefined, Hraw | by apply wp_ret, HQ].
Qed.

(** A loop, with an invariant on the number of elements it has dealt with. *)
Lemma wp_for_each {A} u (f : A → M T W unit) (l : list A)
    (I : nat → Machine T W → Prop) Q E s :
  I 0 s →
  (∀ k x s, l !! k = Some x → I k s → wp u (f x) (λ _ s', I (S k) s') E s) →
  (∀ s', I (length l) s' → Q tt s') →
  wp u (for_each f l) Q E s.
Proof.
  revert I s. induction l as [|x l IH]; intros I s HI Hstep HQ; simpl.
  - by apply wp_ret, HQ.
  - apply wp_bind. eapply wp_mono; [by apply (Hstep 0 x s)| |done].
    intros ? s' HI'. apply (IH (λ k, I (S k))); [done| |done].
    intros k y s'' Hy. by apply (Hstep (S k)).
Qed.
End Rules.

(** * Programs that work on elements only *)

Create HintDb elementwise discriminated.

Section Elementwise.
Context `{Traits T W}.
Implicit Types (s : Machine T W) (p : loc) (e : exn) (a : arg T) (i : init T W).

Lemma shape_set_vec o (b : list (slot T)) n s :
  length b = length (storage (vec o s)) → n = finish_ (vec o s) →
  shape (set_vec o (mkVector b n) s) = shape s.
Proof. intros Hb ->. destruct o; unfold shape, size_of; simpl in *; by rewrite Hb. Qed.

Lemma elementwise_ret {A} (x : A) : elementwise (mret x : M T W A).
Proof. by intros s. Qed.

Lemma elementwise_bind {A B} (m : M T W A) (f : A → M T W B) :
  elementwise m → (∀ x, elementwise (f x)) → elementwise (m ≫= f).
Proof.
  intros Hm Hf s. apply wp_bind. eapply wp_mono; [apply Hm| |done].
  intros x s' Hs'. eapply wp_mono; [apply Hf|simpl..]; intros; destruct_and?; split_and?; congruence.
Qed.

Lemma elementwise_try_catch {A} (m : M T W A) h :
  elementwise m → elementwise (h element_error) → elementwise (try_catch m h).
Proof.
  intros Hm Hh s. apply wp_try_catch. eapply wp_mono; [apply Hm|done|].
  intros e s' [-> Hs']. eapply wp_mono; [apply Hh|simpl..]; intros; destruct_and?; split_and?; congruence.
Qed.

Lemma elementwise_noexcept {A} (m : M T W A) :
  elementwise m → elementwise (noexcept m).
Proof. intros Hm s. apply wp_noexcept. eapply wp_mono; [apply Hm|done..]. Qed.

Lemma elementwise_undefined {A} : elementwise (undefined : M T W A).
Proof. by intros s. Qed.

Lemma elementwise_throw {A} : elementwise (throw element_error : M T W A).
Proof. by intros s. Qed.

Lemma elementwise_get {A} (f : Machine T W → A) : elementwise (get f : M T W A).
Proof. by intros s. Qed.

Lemma elementwise_effect {A} (f : W → W * option A) :
  elementwise (effect f element_error : M T W A).
Proof. intros s. by apply wp_effect. Qed.

Lemma elementwise_peek p : elementwise (peek p : M T W _).
Proof. intros s. by apply wp_peek. Qed.

Lemma elementwise_poke p x : elementwise (poke p x : M T W _).
Proof.
  intros s. apply wp_poke; [|done]. intros _.
  apply shape_set_vec; [by rewrite length_insert|done].
Qed.

Lemma elementwise_for_each {A} (f : A → M T W unit) l :
  (∀ x, elementwise (f x)) → elementwise (for_each f l).
Proof.
  intros Hf. induction l as [|x l IH]; [apply elementwise_ret|].
  simpl. apply elementwise_bind; [apply Hf|done].
Qed.

Lemma elementwise_memmove dest src n : elementwise (std.memmove dest src n : M T W _).
Proof.
  intros s. unfold wp, std.memmove. case_decide as Hn; [|done].
  apply shape_set_vec; [|done]. rewrite !length_app, !length_take, !length_drop. lia.
Qed.

End Elementwise.

Global Hint Resolve elementwise_ret elementwise_undefined elementwise_throw
  elementwise_get elementwise_effect elementwise_peek elementwise_poke
  elementwise_memmove : elementwise.

(** Breaks a program down to parts known to be elementwise. *)
Ltac elementwise :=
  repeat first
    [ progress cbv beta
    | match goal with |- ∀ _, _ => intro end
    | solve [trivial with elementwise nocore]
    | apply elementwise_bind | apply elementwise_try_catch
    | apply elementwise_noexcept | apply elementwise_for_each
    | match goal with
      | |- elementwise (match ?x with _ => _ end) => destruct x
      | |- elementwise (if decide _ then _ else _) => case_decide
      | |- elementwise (if ?x then _ else _) => destruct x
      end ].

Section ElementwiseAlgorithms.
Context `{Traits T W}.
Implicit Types (s : Machine T W) (p : loc) (e : exn) (a : arg T) (i : init T W).

Lemma elementwise_read p : elementwise (read p : M T W _).
Proof. unfold read. elementwise. Qed.

Hint Resolve elementwise_read : elementwise.

Lemma elementwise_deref a : elementwise (deref a : M T W _).
Proof. unfold deref. elementwise. Qed.

Lemma elementwise_leave a r : elementwise (leave a r : M T W _).
Proof. unfold leave. elementwise. Qed.

Lemma elementwise_destroy_at p : elementwise (destroy_at p : M T W _).
Proof. unfold destroy_at. elementwise. Qed.

Hint Resolve elementwise_deref elementwise_leave elementwise_destroy_at : elementwise.

Lemma elementwise_make i : elementwise (make i).
Proof. unfold make, copy_constructor, move_constructor. elementwise. Qed.

Hint Resolve elementwise_make : elementwise.

Lemma elementwise_construct_at p i : elementwise (construct_at p i).
Proof. unfold construct_at. elementwise. Qed.

Lemma elementwise_assign_at p i : elementwise (assign_at p i).
Proof. unfold assign_at, copy_assignment, move_assignment. elementwise. Qed.

Hint Resolve elementwise_construct_at elementwise_assign_at : elementwise.

Lemma elementwise_uninitialized_copy l p : elementwise (std.uninitialized_copy l p).
Proof.
  revert p. induction l as [|i l IH]; intros p; simpl; elementwise.
Qed.

Lemma elementwise_uninitialized_move p n d : elementwise (std.uninitialized_move p n d).
Proof. apply elementwise_uninitialized_copy. Qed.

Lemma elementwise_uninitialized_fill_n p n a : elementwise (std.uninitialized_fill_n p n a).
Proof. apply elementwise_uninitialized_copy. Qed.

Lemma elementwise_uninitialized_default_construct_n p n :
  elementwise (std.uninitialized_default_construct_n p n).
Proof. apply elementwise_uninitialized_copy. Qed.

Lemma elementwise_copy l p : elementwise (std.copy l p).
Proof. unfold std.copy. elementwise. Qed.

Lemma elementwise_move p n d : elementwise (std.move p n d).
Proof. unfold std.move. elementwise. Qed.

Lemma elementwise_move_backward p n d : elementwise (std.move_backward p n d).
Proof. unfold std.move_backward. elementwise. Qed.

Lemma elementwise_fill_n p n a : elementwise (std.fill_n p n a).
Proof. unfold std.fill_n. elementwise. Qed.

Lemma elementwise_destroy p n : elementwise (std.destroy p n : M T W _).
Proof. unfold std.destroy. elementwise. Qed.
End ElementwiseAlgorithms.

Global Hint Resolve elementwise_read elementwise_deref elementwise_leave
  elementwise_destroy_at elementwise_make elementwise_construct_at
  elementwise_assign_at elementwise_uninitialized_copy
  elementwise_uninitialized_move elementwise_uninitialized_fill_n
  elementwise_uninitialized_default_construct_n elementwise_copy
  elementwise_move elementwise_move_backward elementwise_fill_n
  elementwise_destroy : elementwise.

(** * Where elementwise programs write *)

Section Bounds.
Context `{Traits T W}.
Implicit Types (s : Machine T W) (p d : loc) (e : exn) (a : arg T) (i : init T W).

Lemma range_lookup p n k q : range p n !! k = Some q → q = p +ₗ k ∧ k < n.
Proof.
  unfold range. rewrite list_lookup_fmap. intros Hq.
  destruct (seq 0 n !! k) as [j|] eqn:Hj; simplify_eq/=.
  apply lookup_seq in Hj as [-> ?]. done.
Qed.

Lemma range_lookup_lt p n k : k < n → range p n !! k = Some (p +ₗ k).
Proof.
  intros Hk. unfold range. rewrite list_lookup_fmap, lookup_seq_lt by done. done.
Qed.

Lemma length_range p n : length (range p n) = n.
Proof. unfold range. by rewrite length_fmap, length_seq. Qed.

Lemma elementwise_in_weaken {A} (B : sizes → Prop) (m : M T W A) :
  elementwise_in B m → elementwise m.
Proof. intros Hm s. eapply wp_mono; [apply Hm|simpl; tauto..]. Qed.

Lemma elementwise_in_bind_r {A C} (B : sizes → Prop) (m : M T W A) (f : A → M T W C) :
  elementwise m → (∀ x, elementwise_in B (f x)) → elementwise_in B (m ≫= f).
Proof.
  intros Hm Hf s. apply wp_bind. eapply wp_mono; [apply Hm| |done].
  intros x s' Hs'. eapply wp_mono; [apply Hf|simpl..]; intros; destruct_and?; split_and?; congruence.
Qed.

Lemma elementwise_in_poke p x :
  elementwise_in (λ sh, p.2 < cap (ext p.1 sh)) (poke p x : M T W _).
Proof.
  intros s. apply wp_poke; [|done]. intros Hp. split.
  - apply shape_set_vec; [by rewrite length_insert|done].
  - by destruct p as [[] ?].
Qed.

Lemma elementwise_in_construct_at p i :
  elementwise_in (λ sh, p.2 < cap (ext p.1 sh)) (construct_at p i).
Proof.
  apply elementwise_in_bind_r; [elementwise|]. intros x. apply elementwise_in_poke.
Qed.

Lemma elementwise_in_assign_at p i :
  elementwise_in (λ sh, p.2 < cap (ext p.1 sh)) (assign_at p i).
Proof.
  destruct i; simpl;
    repeat (apply elementwise_in_bind_r;
            [unfold copy_assignment, move_assignment; elementwise|intros ?]);
    apply elementwise_in_poke.
Qed.

Lemma elementwise_in_uninitialized_copy l d :
  elementwise_in (λ sh, l = [] ∨ d.2 + length l ≤ cap (ext d.1 sh))
                 (std.uninitialized_copy l d).
Proof.
  revert d. induction l as [|i l IH]; intros d s; simpl; [by split; [|left]|].
  apply wp_bind. eapply wp_mono; [apply elementwise_in_construct_at| |done].
  intros _ s1 [Hs1 Hd]. apply wp_try_catch.
  eapply wp_mono; [apply IH|..]; simpl.
  - intros _ s2 [Hs2 Hl]. split; [congruence|]. right.
    rewrite Hs1 in Hl. destruct Hl as [->|Hl]; simpl in *; lia.
  - intros e s2 [-> Hs2]. apply wp_bind.
    eapply wp_mono; [apply elementwise_destroy_at|..]; simpl.
    + intros _ s3 Hs3. split; [done|congruence].
    + intros e s3 [-> Hs3]. split; [done|congruence].
Qed.

Lemma elementwise_in_for_each_range (f : loc → M T W unit) d n :
  (∀ p, elementwise_in (λ sh, p.2 < cap (ext p.1 sh)) (f p)) →
  elementwise_in (λ sh, n = 0 ∨ d.2 + n ≤ cap (ext d.1 sh))
                 (for_each f (range d n)).
Proof.
  intros Hf s.
  apply (wp_for_each _ _ _
    (λ k s', shape s' = shape s ∧ (k = 0 ∨ d.2 + k ≤ cap (ext d.1 (shape s))))).
  - split; [done|by left].
  - intros k p s' [-> Hk]%range_lookup [Hs' _].
    eapply wp_mono; [apply Hf|..]; simpl.
    + intros _ s'' [Hs'' Hp]. split; [congruence|]. right. rewrite Hs' in Hp. lia.
    + intros e s'' [-> Hs'']. split; [done|congruence].
  - intros s'. by rewrite length_range.
Qed.

Lemma elementwise_in_fill_n d n a :
  elementwise_in (λ sh, n = 0 ∨ d.2 + n ≤ cap (ext d.1 sh)) (std.fill_n d n a).
Proof.
  apply elementwise_in_for_each_range. intros p. apply elementwise_in_assign_at.
Qed.

Lemma elementwise_in_copy l d :
  elementwise_in (λ sh, l = [] ∨ d.2 + length l ≤ cap (ext d.1 sh)) (std.copy l d).
Proof.
  intros s. unfold std.copy.
  apply (wp_for_each _ _ _
    (λ k s', shape s' = shape s ∧ (k = 0 ∨ d.2 + k ≤ cap (ext d.1 (shape s))))).
  - split; [done|by left].
  - intros k [a p] s' Hk.
    apply lookup_zip_with_Some in Hk as (?&?&?&_&[-> _]%range_lookup); simplify_eq.
    intros [Hs' _]. eapply wp_mono; [apply elementwise_in_assign_at|..]; simpl.
    + intros _ s'' [Hs'' Hp]. split; [congruence|]. right. rewrite Hs' in Hp. lia.
    + intros e s'' [-> Hs'']. split; [done|congruence].
  - intros s' [Hs' Hk]. split; [done|].
    rewrite length_zip_with, length_range, Nat.min_id in Hk.
    destruct l; [by left|right]. by destruct Hk.
Qed.

Lemma elementwise_in_memmove dest src n :
  elementwise_in (λ sh, dest.2 + n ≤ cap (ext dest.1 sh))
                 (std.memmove dest src n : M T W _).
Proof.
  intros s. unfold wp, std.memmove. case_decide as Hn; [|done]. split.
  - apply shape_set_vec; [|done]. rewrite !length_app, !length_take, !length_drop. lia.
  - destruct dest as [[] ?]; simpl in *; lia.
Qed.
End Bounds.

(** * Rules for sizes *)

Section SizeRules.
Context `{Traits T W}.
Implicit Types (s : Machine T W) (sh : sizes) (e : exn) (o : obj).
Local Abbreviation wps m Q E sh := (wps (T:=T) (W:=W) m Q E sh).

Lemma shape_set_vec_ext o (v : Vector T) s :
  shape (set_vec o v s) = set_ext o (size_of v) (shape s).
Proof. by destruct o. Qed.

Lemma size_of_vec o s : size_of (vec o s) = ext o (shape s).
Proof. by destruct o. Qed.

Lemma wps_ret {A} (a : A) Q E sh : Q a sh → wps (mret a) Q E sh.
Proof. by intros HQ s <-. Qed.

Lemma wps_bind {A B} (m : M T W A) (f : A → M T W B) Q E sh :
  wps m (λ a sh', wps (f a) Q E sh') E sh → wps (m ≫= f) Q E sh.
Proof.
  intros Hm s Hs. apply wp_bind. eapply wp_mono; [by apply Hm| |done].
  intros a s' Hf. by apply Hf.
Qed.

Lemma wps_mono {A} (m : M T W A) Q Q' E E' sh :
  wps m Q E sh →
  (∀ a sh', Q a sh' → Q' a sh') → (∀ e sh', E e sh' → E' e sh') →
  wps m Q' E' sh.
Proof. intros Hm HQ HE s Hs. eapply wp_mono; [by apply Hm|eauto..]. Qed.

Lemma wps_throw {A} e (Q : A → _) E sh : E e sh → wps (throw e) Q E sh.
Proof. by intros HE s <-. Qed.

Lemma wps_undefined {A} (Q : A → _) E sh : wps undefined Q E sh.
Proof. by intros s _. Qed.

Lemma wps_try_catch {A} (m : M T W A) h Q E sh :
  wps m Q (λ e sh', wps (h e) Q E sh') sh → wps (try_catch m h) Q E sh.
Proof.
  intros Hm s Hs. apply wp_try_catch. eapply wp_mono; [by apply Hm|done|].
  intros e s' Hh. by apply Hh.
Qed.

Lemma wps_elementwise_in {A} B (m : M T W A) Q E sh :
  elementwise_in B m → (∀ a, B sh → Q a sh) → E element_error sh →
  wps m Q E sh.
Proof.
  intros Hm HQ HE s <-. eapply wp_mono; [apply Hm|simpl..].
  - intros a s' [-> ?]. auto.
  - by intros e s' [-> ->].
Qed.

Lemma wps_elementwise {A} (m : M T W A) Q E sh :
  elementwise m → (∀ a, Q a sh) → E element_error sh → wps m Q E sh.
Proof.
  intros Hm HQ HE s <-. eapply wp_mono; [apply Hm|simpl..].
  - intros a s' ->. auto.
  - by intros e s' [-> ->].
Qed.

Lemma wps_get {A} (f : Machine T W → A) Q E sh :
  (∀ s, shape s = sh → Q (f s) sh) → wps (get f) Q E sh.
Proof. intros HQ s Hs. apply wp_get. rewrite Hs. auto. Qed.

Lemma wps_modify f (g : sizes → sizes) Q E sh :
  (∀ s, shape (f s) = g (shape s)) → Q tt (g sh) → wps (modify f) Q E sh.
Proof. intros Hf HQ s <-. apply wp_modify. by rewrite Hf. Qed.

Lemma wps_size Q E sh : Q (len (of_this sh)) sh → wps Vec.size Q E sh.
Proof. intros HQ. apply wps_get. by intros s <-. Qed.

Lemma wps_capacity Q E sh : Q (cap (of_this sh)) sh → wps Vec.capacity Q E sh.
Proof. intros HQ. apply wps_get. by intros s <-. Qed.

Lemma wps_set_finish o n Q E sh :
  Q tt (set_ext o (mkExtent (cap (ext o sh)) n) sh) → wps (Vec.set_finish o n) Q E sh.
Proof.
  apply (wps_modify _ (λ sh, set_ext o (mkExtent (cap (ext o sh)) n) sh)).
  intros s. rewrite shape_set_vec_ext, <-size_of_vec. done.
Qed.

Lemma wps_set_storage o (b : list (slot T)) Q E sh :
  Q tt (set_ext o (mkExtent (length b) (len (ext o sh))) sh) →
  wps (Vec.set_storage o b) Q E sh.
Proof.
  apply (wps_modify _ (λ sh, set_ext o (mkExtent (length b) (len (ext o sh))) sh)).
  intros s. rewrite shape_set_vec_ext, <-size_of_vec. done.
Qed.

Lemma wps_deallocate o Q E sh :
  Q tt (set_ext o (mkExtent 0 (len (ext o sh))) sh) → wps (Vec.deallocate o) Q E sh.
Proof. apply (wps_set_storage o []). Qed.

Lemma wps_set_vec o (v : Vector T) Q E sh :
  Q tt (set_ext o (size_of v) sh) → wps (modify (set_vec o v)) Q E sh.
Proof.
  apply (wps_modify _ (set_ext o (size_of v))). intros s. apply shape_set_vec_ext.
Qed.

Lemma wps_adopt n sz Q E sh :
  Q tt (mkSizes (mkExtent (sz `min` cap (of_tmp sh)) n) (mkExtent 0 0)) →
  wps (Vec.adopt n sz) Q E sh.
Proof.
  apply (wps_modify _
    (λ sh, mkSizes (mkExtent (sz `min` cap (of_tmp sh)) n) (mkExtent 0 0))).
  intros s. unfold shape, size_of. simpl. by rewrite length_take.
Qed.

Lemma wps_swap Q E sh :
  Q tt (mkSizes (of_tmp sh) (of_this sh)) → wps Vec.swap Q E sh.
Proof. by apply (wps_modify _ (λ sh, mkSizes (of_tmp sh) (of_this sh))). Qed.

Lemma wps_request f sz Q E sh :
  (allocatable sz → Q tt sh) → E bad_alloc sh → wps (Vec.request f sz) Q E sh.
Proof.
  intros HQ HE s <-. unfold Vec.request. case_decide; [|by apply wp_throw].
  apply wp_effect; [intros []; auto|auto].
Qed.

Lemma wps_request_bytes f bytes Q E sh :
  ((bytes ≤ HEAP_MAX)%N → Q tt sh) → E bad_alloc sh →
  wps (Vec.request_bytes f bytes) Q E sh.
Proof.
  intros HQ HE s <-. unfold Vec.request_bytes. case_decide; [|by apply wp_throw].
  apply wp_effect; [intros []; auto|auto].
Qed.

(** The block that a request for [sz] elements gives: it fits in the heap,
    it has no more than [sz] elements, and it has [sz] of them unless the
    byte count wrapped, which it does not inside the window of
    [window_representable]. *)
Lemma wps_allocate sz Q E sh :
  (∀ b : list (slot T), length b ≤ sz → allocatable (length b) →
     ((N.of_nat sz ≤ 2 * max_elements + 1)%N → length b = sz) →
     (representable sz → length b = sz) → Q b sh) →
  E bad_alloc sh → wps (Vec.allocate sz) Q E sh.
Proof.
  intros HQ HE. pose proof allocatable_0.
  unfold Vec.allocate. destruct relocatable; case_decide.
  - subst. by apply wps_ret, HQ.
  - apply wps_bind, wps_request_bytes; [|done].
    intros (?&?&?&?)%elements_in_granted.
    apply wps_ret, HQ; by rewrite length_replicate.
  - apply wps_bind, wps_request; [|done]. intros ?.
    apply wps_ret, HQ; rewrite length_replicate; done.
  - assert (sz = 0) as -> by lia. by apply wps_ret, HQ.
Qed.

Lemma wps_advance n count Q E sh :
  (offsettable (n + count) → Q (n + count) sh) → wps (Vec.advance n count) Q E sh.
Proof.
  intros HQ. unfold Vec.advance. case_decide; [by apply wps_ret, HQ|].
  apply wps_undefined.
Qed.

Lemma wps_position pos Q E sh :
  (pos ≤ len (of_this sh) → Q pos sh) → wps (Vec.position pos) Q E sh.
Proof.
  intros HQ. apply wps_bind, wps_size. case_decide; [by apply wps_ret, HQ|].
  apply wps_undefined.
Qed.

Lemma wps_before n Q E sh :
  (n ≠ 0 → Q (n - 1) sh) → wps (Vec.before n) Q E sh.
Proof.
  intros HQ. unfold Vec.before. case_decide; [apply wps_undefined|by apply wps_ret, HQ].
Qed.
End SizeRules.

Section BoundsCorollaries.
Context `{Traits T W}.
Implicit Types (p d : loc) (a : arg T).

Lemma elementwise_in_uninitialized_copy_n l d n :
  length l = n →
  elementwise_in (λ sh, n = 0 ∨ d.2 + n ≤ cap (ext d.1 sh))
                 (std.uninitialized_copy l d).
Proof.
  intros <- s. eapply wp_mono; [apply elementwise_in_uninitialized_copy| |done].
  intros _ s' [? [->|?]]; auto.
Qed.

Lemma elementwise_in_uninitialized_move p n d :
  elementwise_in (λ sh, n = 0 ∨ d.2 + n ≤ cap (ext d.1 sh))
                 (std.uninitialized_move p n d).
Proof.
  apply elementwise_in_uninitialized_copy_n.
  unfold std.move_iterators. by rewrite length_fmap, length_range.
Qed.

Lemma elementwise_in_uninitialized_fill_n d n a :
  elementwise_in (λ sh, n = 0 ∨ d.2 + n ≤ cap (ext d.1 sh))
                 (std.uninitialized_fill_n d n a).
Proof. apply elementwise_in_uninitialized_copy_n, length_replicate. Qed.

Lemma elementwise_in_uninitialized_default_construct_n d n :
  elementwise_in (λ sh, n = 0 ∨ d.2 + n ≤ cap (ext d.1 sh))
                 (std.uninitialized_default_construct_n d n).
Proof. apply elementwise_in_uninitialized_copy_n, length_replicate. Qed.

Lemma elementwise_in_uninitialized_copy_args (l : list (arg T)) d :
  elementwise_in (λ sh, length l = 0 ∨ d.2 + length l ≤ cap (ext d.1 sh))
                 (std.uninitialized_copy (by_copy <$> l) d).
Proof. apply elementwise_in_uninitialized_copy_n, length_fmap. Qed.

Lemma elementwise_in_relocate p n d :
  elementwise_in (λ sh, n = 0 ∨ d.2 + n ≤ cap (ext d.1 sh))
    (std.uninitialized_copy (Vec.make_move_if_noexcept_iterator p n) d).
Proof.
  apply elementwise_in_uninitialized_copy_n.
  unfold Vec.make_move_if_noexcept_iterator, std.move_iterators, std.pointers.
  destruct nothrow_move_constructible; by rewrite length_fmap, length_range.
Qed.
End BoundsCorollaries.

Create HintDb elementwise_in discriminated.

Global Hint Resolve elementwise_in_poke elementwise_in_construct_at
  elementwise_in_assign_at elementwise_in_fill_n elementwise_in_copy
  elementwise_in_memmove elementwise_in_uninitialized_move
  elementwise_in_uninitialized_fill_n
  elementwise_in_uninitialized_default_construct_n
  elementwise_in_uninitialized_copy_args elementwise_in_relocate
  : elementwise_in.

Create HintDb sizes discriminated.

Global Hint Extern 1 (_ < _) => lia : sizes.
Global Hint Extern 1 (_ ≤ _) => lia : sizes.
Global Hint Extern 1 (_ ≠ []) => discriminate : sizes.

(** One step of a program, on sizes. *)
Ltac wps_step :=
  cbv beta;
  lazymatch goal with
  | |- wps (mret _) _ _ _ => apply wps_ret
  | |- wps (mbind _ _) _ _ _ => apply wps_bind
  | |- wps (throw _) _ _ _ => apply wps_throw
  | |- wps undefined _ _ _ => apply wps_undefined
  | |- wps (try_catch _ _) _ _ _ => apply wps_try_catch
  | |- wps Vec.size _ _ _ => apply wps_size
  | |- wps Vec.capacity _ _ _ => apply wps_capacity
  | |- wps (Vec.set_finish _ _) _ _ _ => apply wps_set_finish
  | |- wps (Vec.set_storage _ _) _ _ _ => apply wps_set_storage
  | |- wps (Vec.deallocate _) _ _ _ => apply wps_deallocate
  | |- wps (Vec.adopt _ _) _ _ _ => apply wps_adopt
  | |- wps Vec.swap _ _ _ => apply wps_swap
  | |- wps (modify (set_vec _ _)) _ _ _ => apply wps_set_vec
  | |- wps (Vec.request _ _) _ _ _ => apply wps_request; [intros ?|]
  | |- wps (Vec.request_bytes _ _) _ _ _ => apply wps_request_bytes; [intros ?|]
  | |- wps (Vec.allocate _) _ _ _ => apply wps_allocate; [intros ? ? ? ? ?|]
  | |- wps (Vec.advance _ _) _ _ _ => apply wps_advance; intros _
  | |- wps (Vec.position _) _ _ _ => apply wps_position; intros ?
  | |- wps (Vec.before _) _ _ _ => apply wps_before; intros ?
  | |- wps (get _) _ _ _ => apply wps_get; intros ? ?
  | |- wps (if decide _ then _ else _) _ _ _ => case_decide
  | |- wps (if ?b then _ else _) _ _ _ => destruct b eqn:?
  | |- wps (match ?x with _ => _ end) _ _ _ => destruct x
  | |- wps _ _ _ _ =>
      first
        [ eapply wps_mono;
          [solve [eauto with sizes nocore]|intros ? ? ?|intros ? ? ?]
        | eapply wps_elementwise_in;
          [solve [eauto with elementwise_in nocore]|intros ? ?|]
        | apply wps_elementwise;
          [solve [trivial with elementwise nocore]|intros ?|] ]
  end.

(** [wrap] does nothing to a size that fits, and takes at least [2 ^ 64]
    off one that does not. *)
Lemma wrap_cases n : wrap n = n ∨ (N.of_nat (wrap n) + 2 ^ 64 ≤ N.of_nat n)%N.
Proof.
  unfold wrap. destruct (N.lt_ge_cases (N.of_nat n) (2 ^ 64)) as [Hn|Hn].
  - left. rewrite N.mod_small by done. lia.
  - right. rewrite N2Nat.id.
    pose proof (N.div_mod' (N.of_nat n) (2 ^ 64)).
    assert (1 ≤ N.of_nat n / 2 ^ 64)%N by (apply N.div_le_lower_bound; lia).
    nia.
Qed.

Ltac sizes_close :=
  repeat split; intros;
  repeat match goal with
         | Hr : representable ?x, H : representable ?x → _ |- _ => specialize (H Hr)
         end;
  try done; try lia; try (f_equal; lia);
  try (match goal with
       | |- mkSizes _ _ = mkSizes _ _ => f_equal; solve [sizes_close]
       | |- ?x = mkSizes _ _ => destruct x; simpl in *; f_equal; solve [sizes_close]
       | |- ?x = mkExtent _ _ => destruct x; simpl in *; f_equal; lia
       | |- _ ∨ _ => first [left; solve [sizes_close] | right; solve [sizes_close]]
       end);
  auto.

(** Closes what is left: arithmetic on sizes. *)
Ltac sizes :=
  try match goal with
      | H : Traits _ _ |- _ =>
          pose proof (max_elements_le (H := H)); unfold HEAP_MAX in *
      end;
  unfold sized, benign, appended, allocatable in *; simpl in *;
  rewrite ?length_fmap, ?length_take, ?length_drop in *;
  repeat case_decide;
  repeat match goal with
         | H : _ ∧ _ |- _ => destruct H
         | H : _ ∨ _ |- _ => destruct H
         | Hr : representable ?x, H : representable ?x → _ |- _ => specialize (H Hr)
         | H : mkExtent _ _ = mkExtent _ _ |- _ => injection H as ??
         | H : of_this _ = _ |- _ => rewrite H in *; clear H; simpl in *
         | H : of_tmp _ = _ |- _ => rewrite H in *; clear H; simpl in *
         end;
  subst;
  repeat match goal with
         | |- context [wrap ?n] => destruct (wrap_cases n); generalize dependent (wrap n); intros
         | _ : context [wrap ?n] |- _ => destruct (wrap_cases n); generalize dependent (wrap n); intros
         end;
  subst; simpl in *; sizes_close.

Section Sizes.
Context `{Traits T W}.
Implicit Types (sh : sizes) (e : exn).
Local Abbreviation wps m Q E sh := (wps (T:=T) (W:=W) m Q E sh).

(** The sizes after [growShrinkAux(sz)].  The new capacity is [sz] unless
    the byte count wrapped; when [realloc] is asked for no bytes the block
    is gone. *)
Lemma growShrinkAux_sizes sz sh :
  wps (Vec.growShrinkAux sz)
    (λ _ sh', len (of_this sh') = len (of_this sh)
              ∧ len (of_this sh) ≤ sz
              ∧ cap (of_this sh') ≤ sz
              ∧ allocatable (cap (of_this sh'))
              ∧ ((N.of_nat sz ≤ 2 * max_elements + 1)%N → cap (of_this sh') = sz)
              ∧ (representable sz → cap (of_this sh') = sz))
    (λ e sh', benign e
              ∧ (of_this sh' = of_this sh
                 ∨ of_this sh' = mkExtent 0 (len (of_this sh))
                   ∧ len (of_this sh) ≤ sz
                   ∧ ((N.of_nat sz ≤ 2 * max_elements + 1)%N → sz = 0)
                   ∧ (representable sz → sz = 0))) sh.
Proof.
  unfold Vec.growShrinkAux. repeat wps_step;
    rewrite ?length_resized;
    repeat match goal with
           | Hb : (byte_count sz ≤ HEAP_MAX)%N |- _ =>
               apply elements_in_granted in Hb as (?&?&?&?)
           | Hb : byte_count sz = 0%N ∧ _ |- _ => destruct Hb as [Hb ?]
           | Hb : byte_count sz = 0%N |- _ =>
               apply byte_count_0_inside in Hb as [??]
           end;
    try generalize dependent (elements_in (byte_count sz)); intros;
    sizes.
Qed.

Hint Resolve growShrinkAux_sizes : sizes.

Lemma insertExpandAux_sizes pos i sh :
  sized (of_this sh) → pos ≤ len (of_this sh) →
  wps (Vec.insertExpandAux pos i)
    (λ r sh', r = pos
              ∧ of_this sh' = mkExtent (2 * len (of_this sh) + 1) (len (of_this sh) + 1)
              ∧ allocatable (2 * len (of_this sh) + 1))
    (λ e sh', benign e ∧ of_this sh' = of_this sh) sh.
Proof.
  intros ??. unfold Vec.insertExpandAux. repeat wps_step; sizes.
Qed.

Lemma insertRangeExpandAux_sizes pos count value sh :
  sized (of_this sh) → pos ≤ len (of_this sh) → 0 < count →
  wps (Vec.insertRangeExpandAux pos count value)
    (λ r sh',
       let n := len (of_this sh) in
       r = pos
       ∧ of_this sh' = mkExtent (n + count `max` n + 1) (n + count)
       ∧ allocatable (n + count `max` n + 1))
    (λ e sh', benign e ∧ of_this sh' = of_this sh) sh.
Proof.
  intros ???. unfold Vec.insertRangeExpandAux. repeat wps_step; sizes.
Qed.

Lemma insertRangeExpandAux_range_sizes pos first_last sh :
  sized (of_this sh) → pos ≤ len (of_this sh) → first_last ≠ [] →
  wps (Vec.insertRangeExpandAux_range pos (length first_last) first_last)
    (λ r sh',
       let n := len (of_this sh) in
       r = pos
       ∧ of_this sh' = mkExtent (n + length first_last `max` n + 1) (n + length first_last)
       ∧ allocatable (n + length first_last `max` n + 1))
    (λ e sh', benign e ∧ of_this sh' = of_this sh) sh.
Proof.
  intros ?? Hl. assert (0 < length first_last) by (destruct first_last; simpl; [done|lia]).
  unfold Vec.insertRangeExpandAux_range. repeat wps_step; sizes.
Qed.

Hint Resolve insertExpandAux_sizes insertRangeExpandAux_sizes
  insertRangeExpandAux_range_sizes : sizes.

Lemma push_back_sizes (value : arg T) sh :
  sized (of_this sh) →
  wps (Vec.push_back value)
    (λ _ sh', of_this sh' = appended (of_this sh) ∧ sized (of_this sh'))
    (λ e sh', benign e ∧ sized (of_this sh') ∧ len (of_this sh') = len (of_this sh)) sh.
Proof.
  intros ?. unfold Vec.push_back. repeat wps_step; sizes.
Qed.

Lemma push_back_move_sizes (value : arg T) sh :
  sized (of_this sh) →
  wps (Vec.push_back_move value)
    (λ _ sh', of_this sh' = appended (of_this sh) ∧ sized (of_this sh'))
    (λ e sh', benign e ∧ sized (of_this sh') ∧ len (of_this sh') = len (of_this sh)) sh.
Proof.
  intros ?. unfold Vec.push_back_move. repeat wps_step; sizes.
Qed.

Lemma back_sizes sh Q E :
  (∀ x, Q x sh) → E element_error sh → wps Vec.back Q E sh.
Proof. intros. unfold Vec.back. repeat wps_step; auto. Qed.

Lemma emplace_back_sizes args sh :
  sized (of_this sh) →
  wps (Vec.emplace_back args)
    (λ _ sh', of_this sh' = appended (of_this sh) ∧ sized (of_this sh'))
    (λ e sh', benign e ∧ sized (of_this sh')) sh.
Proof.
  intros ?. unfold Vec.emplace_back.
  repeat first [apply back_sizes; [intros ?|] | wps_step]; sizes.
Qed.

Lemma pop_back_sizes sh :
  sized (of_this sh) →
  wps Vec.pop_back
    (λ _ sh', len (of_this sh) ≠ 0
              ∧ of_this sh' = mkExtent (cap (of_this sh)) (len (of_this sh) - 1))
    (λ e sh', benign e ∧ sized (of_this sh')) sh.
Proof. intros ?. unfold Vec.pop_back. repeat wps_step; sizes. Qed.

Lemma insert_sizes pos (value : arg T) sh :
  sized (of_this sh) →
  wps (Vec.insert pos value)
    (λ r sh', r = pos ∧ of_this sh' = appended (of_this sh) ∧ sized (of_this sh'))
    (λ e sh', (e = range_error ∨ benign e) ∧ sized (of_this sh')) sh.
Proof.
  intros ?. unfold Vec.insert, Vec.addressCheck. repeat wps_step; sizes.
Qed.

Lemma insert_move_sizes pos (value : arg T) sh :
  sized (of_this sh) →
  wps (Vec.insert_move pos value)
    (λ r sh', r = pos ∧ of_this sh' = appended (of_this sh) ∧ sized (of_this sh'))
    (λ e sh', benign e ∧ sized (of_this sh')) sh.
Proof. intros ?. unfold Vec.insert_move. repeat wps_step; sizes. Qed.

Lemma emplace_sizes pos (args : init T W) sh :
  sized (of_this sh) →
  wps (Vec.emplace pos args)
    (λ r sh', r = pos ∧ of_this sh' = appended (of_this sh) ∧ sized (of_this sh'))
    (λ e sh', benign e ∧ sized (of_this sh')) sh.
Proof. intros ?. unfold Vec.emplace. repeat wps_step; sizes. Qed.

Hint Resolve insert_sizes : sizes.

Lemma insertRangeAux_input_at_end_sizes (first_last : list (arg T)) sh :
  sized (of_this sh) →
  wps (Vec.insertRangeAux_input_at_end first_last)
    (λ _ sh', sized (of_this sh')
              ∧ len (of_this sh') = len (of_this sh) + length first_last)
    (λ e sh', (e = range_error ∨ benign e) ∧ sized (of_this sh')) sh.
Proof.
  unfold Vec.insertRangeAux_input_at_end.
  revert sh. induction first_last as [|a l IH]; intros sh Hsh; simpl.
  - apply wps_ret. split; [done|lia].
  - apply wps_bind.
    assert (wps (e ← Vec.size; Vec.insert e a;; mret tt)
      (λ _ sh', sized (of_this sh') ∧ len (of_this sh') = len (of_this sh) + 1)
      (λ e sh', (e = range_error ∨ benign e) ∧ sized (of_this sh')) sh) as Ha.
    { repeat wps_step; sizes. }
    eapply wps_mono; [apply Ha| |done]. intros _ sh1 [Hsh1 Hlen].
    eapply wps_mono; [by apply IH| |done]. intros _ sh2 [Hsh2 Hlen2].
    split; [done|]. lia.
Qed.

Hint Resolve insertRangeAux_input_at_end_sizes : sizes.

Lemma insert_input_at_end_sizes (first_last : list (arg T)) sh :
  sized (of_this sh) →
  wps (Vec.insert_input_at_end first_last)
    (λ r sh', r = len (of_this sh) ∧ sized (of_this sh')
              ∧ len (of_this sh') = len (of_this sh) + length first_last)
    (λ e sh', (e = range_error ∨ benign e) ∧ sized (of_this sh')) sh.
Proof.
  intros ?. unfold Vec.insert_input_at_end.
  destruct first_last as [|a l]; [|set (a :: l) as al]; repeat wps_step; sizes.
Qed.

Hint Resolve insert_input_at_end_sizes : sizes.

Lemma insert_count_sizes pos count (value : arg T) sh :
  sized (of_this sh) →
  wps (Vec.insert_count pos count value)
    (λ r sh',
       let n := len (of_this sh) in
       r = pos ∧ sized (of_this sh') ∧ len (of_this sh') = n + count
       ∧ (count = 1 → of_this sh' = appended (of_this sh))
       ∧ (2 ≤ count →
          cap (of_this sh') =
            if decide (n + count ≤ cap (of_this sh))
            then cap (of_this sh)
            else n + count `max` n + 1))
    (λ e sh', (count = 1 ∧ e = range_error ∨ benign e) ∧ sized (of_this sh')) sh.
Proof. intros ?. unfold Vec.insert_count. repeat wps_step; sizes. Qed.

Lemma insertRangeAux_sizes pos (first_last : list (arg T)) sh :
  sized (of_this sh) → pos ≤ len (of_this sh) → first_last ≠ [] →
  wps (Vec.insertRangeAux pos first_last)
    (λ r sh',
       let n := len (of_this sh) in
       sized (of_this sh') ∧ len (of_this sh') = n + length first_last
       ∧ cap (of_this sh') =
           if decide (n + length first_last ≤ cap (of_this sh))
           then cap (of_this sh)
           else n + length first_last `max` n + 1)
    (λ e sh', benign e ∧ sized (of_this sh')) sh.
Proof. intros ???. unfold Vec.insertRangeAux. repeat wps_step; sizes. Qed.

Hint Resolve insertRangeAux_sizes : sizes.

Lemma insert_range_sizes pos (first_last : list (arg T)) sh :
  sized (of_this sh) →
  wps (Vec.insert_range pos first_last)
    (λ r sh',
       let n := len (of_this sh) in
       r = pos ∧ sized (of_this sh') ∧ len (of_this sh') = n + length first_last)
    (λ e sh', benign e ∧ sized (of_this sh')) sh.
Proof.
  intros ?. unfold Vec.insert_range. destruct first_last as [|a l]; [|set (a :: l) as al].
  - repeat wps_step; sizes.
  - repeat wps_step; sizes.
Qed.

Lemma erase_sizes pos sh :
  sized (of_this sh) →
  wps (Vec.erase pos)
    (λ r sh', r = pos ∧ pos < len (of_this sh)
              ∧ of_this sh' = mkExtent (cap (of_this sh)) (len (of_this sh) - 1))
    (λ e sh', benign e ∧ sized (of_this sh')) sh.
Proof. intros ?. unfold Vec.erase. repeat wps_step; sizes. Qed.

Lemma erase_range_sizes first last sh :
  sized (of_this sh) →
  wps (Vec.erase_range first last)
    (λ r sh', r = first ∧ first ≤ last ≤ len (of_this sh)
              ∧ of_this sh' =
                  mkExtent (cap (of_this sh)) (len (of_this sh) - (last - first)))
    (λ e sh', benign e ∧ sized (of_this sh')) sh.
Proof. intros ?. unfold Vec.erase_range. repeat wps_step; sizes. Qed.

Hint Resolve erase_range_sizes : sizes.

Lemma clear_sizes sh :
  sized (of_this sh) →
  wps Vec.clear
    (λ _ sh', of_this sh' = mkExtent (cap (of_this sh)) 0)
    (λ e sh', benign e ∧ sized (of_this sh')) sh.
Proof. intros ?. unfold Vec.clear. repeat wps_step; sizes. Qed.

Lemma resize_sizes new_size sh :
  sized (of_this sh) →
  wps (Vec.resize new_size)
    (λ _ sh', sized (of_this sh') ∧ len (of_this sh') = new_size)
    (λ e sh', benign e ∧ (representable new_size → sized (of_this sh'))) sh.
Proof. intros ?. unfold Vec.resize. repeat wps_step; sizes. Qed.

Lemma reserve_sizes new_cap sh :
  sized (of_this sh) →
  wps (Vec.reserve new_cap)
    (λ _ sh', len (of_this sh') = len (of_this sh)
              ∧ allocatable (cap (of_this sh'))
              ∧ cap (of_this sh') ≤ cap (of_this sh) `max` new_cap
              ∧ (representable new_cap →
                 cap (of_this sh') = cap (of_this sh) `max` new_cap))
    (λ e sh', (e = length_error ∨ benign e)
              ∧ (representable new_cap → of_this sh' = of_this sh)) sh.
Proof. intros ?. unfold Vec.reserve. repeat wps_step; sizes. Qed.

Lemma shrink_sizes sh :
  sized (of_this sh) →
  wps Vec.shrink
    (λ _ sh', of_this sh' = mkExtent (len (of_this sh)) (len (of_this sh)))
    (λ e sh', benign e
              ∧ (of_this sh' = of_this sh
                 ∨ of_this sh' = mkExtent 0 0 ∧ len (of_this sh) = 0)) sh.
Proof. intros ?. unfold Vec.shrink. repeat wps_step; sizes. Qed.

Lemma swap_sizes sh :
  wps Vec.swap (λ _ sh', sh' = mkSizes (of_tmp sh) (of_this sh)) (λ _ _, False) sh.
Proof. unfold Vec.swap. by apply wps_swap. Qed.

Lemma Vector_default_sizes o sh :
  wps (Vec.Vector_default o) (λ _ sh', sh' = set_ext o (mkExtent 0 0) sh) (λ _ _, False) sh.
Proof. unfold Vec.Vector_default. by apply wps_set_vec. Qed.

Lemma create_sizes o sz sh :
  wps (Vec.create o sz)
    (λ _ sh', ext (other o) sh' = ext (other o) sh
              ∧ len (ext o sh') = 0
              ∧ cap (ext o sh') ≤ sz
              ∧ allocatable (cap (ext o sh'))
              ∧ ((N.of_nat sz ≤ 2 * max_elements + 1)%N → cap (ext o sh') = sz)
              ∧ (representable sz → cap (ext o sh') = sz))
    (λ e sh', benign e ∧ sh' = sh) sh.
Proof.
  unfold Vec.create. repeat wps_step; destruct o; sizes.
Qed.

Hint Resolve create_sizes : sizes.

(** What a constructor that makes [n] elements does to the object [o]. *)
Lemma Vector_fill_sizes o count (value : arg T) sh :
  wps (Vec.Vector_fill o count value)
    (λ _ sh', sh' = set_ext o (mkExtent count count) sh ∧ allocatable count)
    (λ e sh', benign e ∧ ext (if o is This then Tmp else This) sh'
                          = ext (if o is This then Tmp else This) sh) sh.
Proof.
  unfold Vec.Vector_fill. repeat wps_step; sizes; destruct o; sizes.
Qed.

Lemma Vector_count_sizes o count sh :
  wps (Vec.Vector_count o count)
    (λ _ sh', sh' = set_ext o (mkExtent count count) sh ∧ allocatable count)
    (λ e sh', benign e ∧ ext (if o is This then Tmp else This) sh'
                          = ext (if o is This then Tmp else This) sh) sh.
Proof.
  unfold Vec.Vector_count. repeat wps_step; sizes; destruct o; sizes.
Qed.

Lemma Vector_range_sizes o (first_last : list (arg T)) sh :
  wps (Vec.Vector_range o first_last)
    (λ _ sh', sh' = set_ext o (mkExtent (length first_last) (length first_last)) sh
              ∧ allocatable (length first_last))
    (λ e sh', benign e ∧ ext (if o is This then Tmp else This) sh'
                          = ext (if o is This then Tmp else This) sh) sh.
Proof.
  unfold Vec.Vector_range. repeat wps_step; sizes; destruct o; sizes.
Qed.

Lemma destructor_sizes o sh :
  wps (Vec.destructor o)
    (λ _ sh', sh' = set_ext o (mkExtent 0 0) sh)
    (λ e sh', benign e ∧ sh' = sh) sh.
Proof. unfold Vec.destructor. repeat wps_step; sizes; destruct o; sizes. Qed.

Hint Resolve Vector_fill_sizes Vector_range_sizes destructor_sizes : sizes.

Lemma assign_sizes count (value : arg T) sh :
  sized (of_this sh) →
  wps (Vec.assign count value)
    (λ _ sh', sized (of_this sh') ∧ len (of_this sh') = count
              ∧ cap (of_this sh') = cap (of_this sh) `max` count)
    (λ e sh', benign e ∧ sized (of_this sh')) sh.
Proof. intros ?. unfold Vec.assign. repeat wps_step; sizes. Qed.

Lemma assign_range_sizes (first_last : list (arg T)) sh :
  sized (of_this sh) →
  wps (Vec.assign_range first_last)
    (λ _ sh', sized (of_this sh') ∧ len (of_this sh') = length first_last
              ∧ cap (of_this sh') = cap (of_this sh) `max` length first_last)
    (λ e sh', benign e ∧ sized (of_this sh')) sh.
Proof. intros ?. unfold Vec.assign_range. repeat wps_step; sizes. Qed.

Lemma assign_input_sizes (first_last : list (arg T)) sh :
  sized (of_this sh) →
  wps (Vec.assign_input first_last)
    (λ _ sh', sized (of_this sh') ∧ len (of_this sh') = length first_last)
    (λ e sh', (e = range_error ∨ benign e) ∧ sized (of_this sh')) sh.
Proof. intros ?. unfold Vec.assign_input. repeat wps_step; sizes. Qed.

Lemma assign_list_sizes (ilist : list T) sh :
  sized (of_this sh) →
  wps (Vec.assign_list ilist)
    (λ _ sh', sized (of_this sh') ∧ len (of_this sh') = length ilist
              ∧ cap (of_this sh') = cap (of_this sh) `max` length ilist)
    (λ e sh', benign e ∧ sized (of_this sh')) sh.
Proof. intros ?. unfold Vec.assign_list. repeat wps_step; sizes. Qed.

Lemma Vector_copy_sizes o sh :
  wps (Vec.Vector_copy o)
    (λ _ sh', let n := len (ext (other o) sh) in
              sh' = set_ext o (mkExtent n n) sh ∧ allocatable n)
    (λ e sh', benign e ∧ ext (other o) sh' = ext (other o) sh) sh.
Proof.
  unfold Vec.Vector_copy. apply wps_bind, wps_get. intros s <-.
  eapply wps_mono; [apply Vector_range_sizes|simpl..].
  - intros _ sh'. rewrite length_fmap, length_range, <-size_of_vec. done.
  - intros e sh'. by destruct o.
Qed.

Lemma Vector_move_sizes o sh :
  wps (Vec.Vector_move o)
    (λ _ sh', sh' = set_ext (other o) (mkExtent 0 0) (set_ext o (ext (other o) sh) sh))
    (λ _ _, False) sh.
Proof.
  unfold Vec.Vector_move.
  apply (wps_modify _
    (λ sh, set_ext (other o) (mkExtent 0 0) (set_ext o (ext (other o) sh) sh))); [|done].
  intros s. by rewrite !shape_set_vec_ext, size_of_vec.
Qed.

Lemma wps_ret_inv {A} (m : M T W A) Q E s a s' :
  wps m Q E (shape s) → m s = Ret a s' → Q a (shape s').
Proof. intros Hm Hs. specialize (Hm s eq_refl). unfold wp in Hm. by rewrite Hs in Hm. Qed.

Lemma wps_throw_inv {A} (m : M T W A) Q E s e s' :
  wps m Q E (shape s) → m s = Throw e s' → E e (shape s').
Proof. intros Hm Hs. specialize (Hm s eq_refl). unfold wp in Hm. by rewrite Hs in Hm. Qed.

Hint Resolve push_back_sizes push_back_move_sizes emplace_back_sizes
  pop_back_sizes insert_move_sizes insert_count_sizes insert_range_sizes
  emplace_sizes erase_sizes clear_sizes resize_sizes reserve_sizes
  shrink_sizes assign_sizes assign_range_sizes assign_input_sizes
  assign_list_sizes
  Vector_default_sizes Vector_count_sizes Vector_copy_sizes
  Vector_move_sizes : sizes.

(** Every public member function keeps the invariant, whether it returns or
    throws. *)
Lemma call_sizes o sh :
  modest o → sized (of_this sh) → (o = call_swap → sized (of_tmp sh)) →
  wps (call o) (λ _ sh', sized (of_this sh')) (λ _ sh', sized (of_this sh')) sh.
Proof.
  intros Ho ? Hswap. destruct o; simpl in *; try specialize (Hswap eq_refl);
    repeat wps_step; sizes.
Qed.

Lemma construct_sizes c sh :
  (c = new_move → sized (of_tmp sh)) →
  wps (construct c) (λ _ sh', sized (of_this sh')) (λ _ _, True) sh.
Proof.
  intros Hmove. destruct c; simpl; try specialize (Hmove eq_refl);
    repeat wps_step; sizes.
Qed.

Lemma reachable_sized v : reachable modest v → sized (size_of v).
Proof.
  induction 1 as [c s s' _ IH Hc|o s s' HP _ IH _ IHswap Ho|o s e s' HP _ IH Ho].
  - by apply (wps_ret_inv _ _ _ _ _ _ (construct_sizes c (shape s) IH) Hc).
  - by apply (wps_ret_inv _ _ _ _ _ _ (call_sizes o (shape s) HP IH IHswap) Ho).
  - assert (o = call_swap → sized (of_tmp (shape s))) as Hswap.
    { intros ->. discriminate Ho. }
    by apply (wps_throw_inv _ _ _ _ _ _ (call_sizes o (shape s) HP IH Hswap) Ho).
Qed.

Lemma back_calls_sizes l sh :
  sized (of_this sh) →
  wps (for_each back_call l)
    (λ _ sh', sized (of_this sh')
              ∧ len (of_this sh') + pops l = len (of_this sh) + pushes l)
    (λ _ _, True) sh.
Proof.
  revert sh. induction l as [|o l IH]; intros sh Hsh; simpl.
  - by apply wps_ret.
  - apply wps_bind.
    assert (wps (back_call o)
      (λ _ sh', sized (of_this sh')
                ∧ len (of_this sh') + (if o is pop then 1 else 0)
                  = len (of_this sh) + (if o is pop then 0 else 1))
      (λ _ _, True) sh) as Ho.
    { destruct o; simpl; repeat wps_step; sizes. }
    eapply wps_mono; [apply Ho| |done]. intros _ sh1 [Hsh1 Hlen].
    eapply wps_mono; [by apply IH| |done]. intros _ sh2 [Hsh2 Hlen2].
    split; [done|].
    change (pops (o :: l)) with ((if o is pop then 1 else 0) + pops l).
    change (pushes (o :: l)) with ((if o is pop then 0 else 1) + pushes l).
    destruct o; lia.
Qed.
End Sizes.

(** * What the vector holds *)

Section Holds.
Context `{Traits T W}.
Implicit Types (s : Machine T W) (v : Vector T) (xs : list T) (p d : loc) (e : exn).

Lemma holds_lookup v xs :
  holds v xs ↔
    finish_ v ≤ length (storage v) ∧ allocatable (length (storage v))
    ∧ length xs = finish_ v
    ∧ ∀ j x, xs !! j = Some x → storage v !! j = Some (Live x).
Proof.
  unfold holds. split.
  - intros (Hle & Hal & Htake). split_and!; [done..| |].
    + apply (f_equal length) in Htake. rewrite length_take, length_fmap in Htake. lia.
    + intros j x Hx. assert (j < finish_ v).
      { apply lookup_lt_Some in Hx. apply (f_equal length) in Htake.
        rewrite length_take, length_fmap in Htake. lia. }
      rewrite <-(lookup_take_lt _ (finish_ v)), Htake, list_lookup_fmap, Hx by done. done.
  - intros (Hle & Hal & Hlen & Hlook). split_and!; [done..|].
    apply list_eq. intros j. rewrite list_lookup_fmap.
    destruct (decide (j < finish_ v)) as [Hj|Hj].
    + rewrite lookup_take_lt by done.
      destruct (lookup_lt_is_Some_2 xs j) as [x Hx]; [lia|].
      rewrite Hx. by apply Hlook.
    + rewrite lookup_take_ge by lia. rewrite lookup_ge_None_2 by lia. done.
Qed.

Lemma holds_length v xs : holds v xs → length xs = finish_ v.
Proof. intros Hv. by apply holds_lookup in Hv as (_ & _ & ? & _). Qed.

Lemma holds_live v xs j :
  holds v xs → j < finish_ v → ∃ x, xs !! j = Some x ∧ storage v !! j = Some (Live x).
Proof.
  intros Hv Hj. apply holds_lookup in Hv as (_ & _ & Hlen & Hlook).
  destruct (lookup_lt_is_Some_2 xs j) as [x Hx]; [lia|]. eauto.
Qed.

Lemma holds_inj v xs ys : holds v xs → holds v ys → xs = ys.
Proof.
  intros (_ & _ & Hxs) (_ & _ & Hys). rewrite Hxs in Hys.
  assert (Inj (=) (=) (@Live T)) by (by intros ?? [=]).
  by apply (inj (fmap Live)) in Hys.
Qed.

Lemma holds_elements v xs : holds v xs → elements v = xs.
Proof.
  intros (_ & _ & Hxs). unfold elements. rewrite Hxs. clear Hxs.
  induction xs as [|x xs IH]; [done|]. simpl. f_equal. exact IH.
Qed.

Lemma holds_sized v xs : holds v xs → sized (size_of v).
Proof. by intros (? & ? & _). Qed.

(** A vector whose block is exactly full is determined by what it holds. *)
Lemma holds_full v xs :
  holds v xs → length (storage v) = finish_ v →
  v = mkVector (Live <$> xs) (length xs).
Proof.
  intros Hv Hfull. pose proof (holds_length _ _ Hv) as Hlen.
  destruct Hv as (_ & _ & Hxs). destruct v as [b n]; simpl in *.
  rewrite take_ge in Hxs by lia. congruence.
Qed.

Lemma shift_0 p : p +ₗ 0 = p.
Proof. destruct p. unfold shift. simpl. f_equal. lia. Qed.

Lemma shift_shift p j k : p +ₗ j +ₗ k = p +ₗ (j + k).
Proof. unfold shift. simpl. f_equal. lia. Qed.

(** [std::uninitialized_copy], with an invariant [I] on the number of
    elements constructed and an invariant [J] for the way back when a
    construction has thrown. *)
Lemma wp_uninitialized_copy u (l : list (init T W)) d
    (I : nat → Machine T W → Prop) (J : nat → exn → Machine T W → Prop) Q E s :
  I 0 s →
  (∀ k i s, l !! k = Some i → I k s →
     wp u (construct_at (d +ₗ k) i) (λ _ s', I (S k) s') (J k) s) →
  (∀ k e s, k < length l → J (S k) e s →
     wp u (destroy_at (d +ₗ k)) (λ _ s', J k e s') (λ _ _, False) s) →
  (∀ s', I (length l) s' → Q tt s') →
  (∀ e s', J 0 e s' → E e s') →
  wp u (std.uninitialized_copy l d) Q E s.
Proof.
  revert d I J E s. induction l as [|i l IH]; intros d I J E s HI Hstep Hback HQ HE; simpl.
  - by apply wp_ret, HQ.
  - apply wp_bind. pose proof (Hstep 0 i s eq_refl HI) as H0. rewrite shift_0 in H0.
    eapply wp_mono; [exact H0|simpl|exact HE].
    intros ? s1 HI1. apply wp_try_catch.
    apply (IH (d +ₗ 1) (λ k, I (S k)) (λ k, J (S k))); [done|..|done|].
    + intros k i' s' Hi' HIk. rewrite shift_shift. by apply (Hstep (S k)).
    + intros k e s' Hk HJ. rewrite shift_shift. apply (Hback (S k)); [simpl; lia|done].
    + intros e s' HJ. apply wp_bind.
      assert (0 < length (i :: l)) as Hlen by (simpl; lia).
      pose proof (Hback 0 e s' Hlen HJ) as Hd. rewrite shift_0 in Hd.
      eapply wp_mono; [exact Hd|simpl|done].
      intros ? s'' HJ0. by apply wp_throw, HE.
Qed.
End Holds.

(** * Constructing and assigning one element *)

Section OneElement.
Context `{Traits T W} `{!Regular}.
Implicit Types (s : Machine T W) (xs : list T) (p d : loc) (e : exn).

Lemma with_world_id s : with_world s (world s) = s.
Proof. by destruct s. Qed.

Lemma wp_read_live u p x Q E s :
  storage (vec p.1 s) !! p.2 = Some (Live x) → Q x s → wp u (read p) Q E s.
Proof.
  intros Hp HQ. apply wp_read.
  - intros y Hy. congruence.
  - intros Hraw. congruence.
  - intros Hlen. apply lookup_ge_None_2 in Hlen. congruence.
Qed.

Lemma wp_put u p x Q E s :
  p.2 < length (storage (vec p.1 s)) → Q tt (put p x s) → wp u (poke p x) Q E s.
Proof. intros Hp HQ. apply wp_poke; [done|lia]. Qed.

(** T(x), for an lvalue [x] *)
Lemma wp_copy_constructor x Q E s :
  (∀ w, Q x (with_world s w)) →
  (throwing → ∀ w, E element_error (with_world s w)) →
  wp throwing (copy_constructor x) Q E s.
Proof.
  intros HQ HE. unfold copy_constructor. destruct trivially_copyable.
  - apply wp_ret. rewrite <-(with_world_id s). apply HQ.
  - apply wp_effect.
    + intros y Hy. apply copy_construct_value in Hy as ->. apply HQ.
    + intros Hx. apply HE. by eapply throwing_copy.
Qed.

(** T(std::move(x)); it throws only when it is not [noexcept]. *)
Lemma wp_move_constructor x Q E s :
  (∀ r w, Q (x, r) (with_world s w)) →
  (nothrow_move_constructible = false → throwing →
   ∀ w, E element_error (with_world s w)) →
  wp throwing (move_constructor x) Q E s.
Proof.
  intros HQ HE. unfold move_constructor. destruct trivially_copyable.
  { apply wp_ret. rewrite <-(with_world_id s). apply HQ. }
  destruct nothrow_move_constructible.
  - apply wp_noexcept, wp_effect.
    + intros [y r] Hy. apply move_construct_value in Hy as ->. apply HQ.
    + intros Hx. by eapply throwing_move.
  - apply wp_effect.
    + intros [y r] Hy. apply move_construct_value in Hy as ->. apply HQ.
    + intros Hx. apply HE; [done|]. by eapply throwing_move.
Qed.

(** new (d) T(x), for an object [x] of the caller *)
Lemma wp_construct_at_val d x Q E s :
  d.2 < length (storage (vec d.1 s)) →
  (∀ w, Q tt (put d (Live x) (with_world s w))) →
  (throwing → ∀ w, E element_error (with_world s w)) →
  wp throwing (construct_at d (by_copy (Val x))) Q E s.
Proof.
  intros Hd HQ HE. unfold construct_at, make, deref.
  do 2 apply wp_bind. apply wp_ret, wp_copy_constructor; [|done].
  intros w. apply wp_put; [by destruct d as [[] ?]|done].
Qed.

(** new (d) T( *p ) *)
Lemma wp_construct_at_copy d p x Q E s :
  storage (vec p.1 s) !! p.2 = Some (Live x) →
  d.2 < length (storage (vec d.1 s)) →
  (∀ w, Q tt (put d (Live x) (with_world s w))) →
  (throwing → ∀ w, E element_error (with_world s w)) →
  wp throwing (construct_at d (by_copy (At p))) Q E s.
Proof.
  intros Hp Hd HQ HE. unfold construct_at, make, deref.
  do 2 apply wp_bind. apply (wp_read_live _ _ x); [done|].
  apply wp_copy_constructor; [|done].
  intros w. apply wp_put; [by destruct d as [[] ?]|done].
Qed.

(** new (d) T(std::move( *p )), for [d] and [p] apart *)
Lemma wp_construct_at_move d p x Q E s :
  storage (vec p.1 s) !! p.2 = Some (Live x) →
  d.2 < length (storage (vec d.1 s)) →
  (∀ r w, Q tt (put d (Live x) (put p (Live r) (with_world s w)))) →
  (nothrow_move_constructible = false → throwing →
   ∀ w, E element_error (with_world s w)) →
  wp throwing (construct_at d (by_move (At p))) Q E s.
Proof.
  intros Hp Hd HQ HE. unfold construct_at, make, deref.
  do 2 apply wp_bind. apply (wp_read_live _ _ x); [done|].
  apply wp_bind, wp_move_constructor; [|done].
  intros r w. simpl. apply wp_bind, wp_put.
  { apply lookup_lt_Some in Hp. by destruct p as [[] ?]. }
  apply wp_ret, wp_put; [|done].
  destruct d as [[] ?], p as [[] ?]; simpl in *; by rewrite ?length_insert.
Qed.

(** p->~T() *)
Lemma wp_destroy_at_live u p x Q E s :
  storage (vec p.1 s) !! p.2 = Some (Live x) →
  Q tt (put p Raw s) → wp u (destroy_at p) Q E s.
Proof.
  intros Hp HQ. unfold destroy_at. apply wp_bind, (wp_read_live _ _ x); [done|].
  apply wp_put; [|done]. by apply lookup_lt_Some in Hp.
Qed.
End OneElement.

(** * Relocation *)

Section Relocation.
Context `{Traits T W} `{!Regular}.
Implicit Types (s : Machine T W) (xs ys : list T) (p d : loc) (e : exn).

Lemma make_move_if_noexcept_iterator_lookup a n k (i : init T W) :
  Vec.make_move_if_noexcept_iterator (This, a) n !! k = Some i →
  k < n ∧ i = (if nothrow_move_constructible then by_move else by_copy) (At (This, a + k)).
Proof.
  unfold Vec.make_move_if_noexcept_iterator, std.move_iterators, std.pointers.
  destruct nothrow_move_constructible; rewrite list_lookup_fmap;
    intros Hi; destruct (range (This, a) n !! k) as [q|] eqn:Hq; simplify_eq/=;
    apply range_lookup in Hq as [-> ?]; done.
Qed.

Lemma make_move_if_noexcept_iterator_length p n :
  length (Vec.make_move_if_noexcept_iterator (T:=T) (W:=W) p n) = n.
Proof.
  unfold Vec.make_move_if_noexcept_iterator, std.move_iterators, std.pointers.
  destruct nothrow_move_constructible; by rewrite length_fmap, length_range.
Qed.

(** Moving or copying [n] elements of the vector into [tmp]: the vector is
    untouched if anything throws. *)
Lemma relocate_spec a b n ys s :
  (∀ j, j < n → ∃ y, ys !! j = Some y ∧ storage (this s) !! (a + j) = Some (Live y)) →
  b + n ≤ length (storage (tmp s)) →
  wp throwing
    (std.uninitialized_copy (Vec.make_move_if_noexcept_iterator (This, a) n) (Tmp, b))
    (λ _ s', relocated a b n ys s s')
    (λ e s', throwing ∧ e = element_error ∧ this s' = this s
             ∧ length (storage (tmp s')) = length (storage (tmp s))
             ∧ finish_ (tmp s') = finish_ (tmp s)) s.
Proof.
  intros Hsrc Hdst.
  apply (wp_uninitialized_copy _ _ _
    (λ k s', relocated a b k ys s s')
    (λ k e s', throwing ∧ e = element_error ∧ this s' = this s
               ∧ length (storage (tmp s')) = length (storage (tmp s))
               ∧ finish_ (tmp s') = finish_ (tmp s)
               ∧ ∀ j, j < k → ∃ y, storage (tmp s') !! (b + j) = Some (Live y))).
  - unfold relocated. split_and!; try done; intros; lia.
  - intros k i s1 [Hk ->]%make_move_if_noexcept_iterator_lookup
      (Hlt & Hft & Hl & Hf & Hdone & Hrest & Hsame & Hlive & Hcopy).
    destruct (Hsrc k Hk) as (y & Hy & Hay).
    assert (storage (this s1) !! (a + k) = Some (Live y)) as Hay1.
    { rewrite Hsame by lia. done. }
    unfold shift; simpl.
    destruct nothrow_move_constructible eqn:Hnoexcept.
    + apply (wp_construct_at_move _ _ y); [done|simpl; lia| |intros; congruence].
      intros r w. unfold relocated, put, with_world; simpl.
      rewrite !length_insert. split_and!; try done.
      * intros j y' Hj Hy'. destruct (decide (j = k)) as [->|].
        -- rewrite list_lookup_insert_eq by lia. congruence.
        -- rewrite list_lookup_insert_ne by lia. apply Hdone; [lia|done].
      * intros i Hi. rewrite list_lookup_insert_ne by lia. apply Hrest. lia.
      * intros i Hi. rewrite list_lookup_insert_ne by lia. apply Hsame. lia.
      * intros i Hi. destruct (decide (i = a + k)) as [->|].
        -- rewrite list_lookup_insert_eq; [eauto|]. apply lookup_lt_Some in Hay1. lia.
        -- rewrite list_lookup_insert_ne by lia. apply Hlive. lia.
      * intros. congruence.
    + specialize (Hcopy eq_refl).
      apply (wp_construct_at_copy _ _ y); [done|simpl; lia|..].
      * intros w. unfold relocated, put, with_world; simpl.
        rewrite !length_insert. split_and!; try done.
        -- intros j y' Hj Hy'. destruct (decide (j = k)) as [->|].
           ++ rewrite list_lookup_insert_eq by lia. congruence.
           ++ rewrite list_lookup_insert_ne by lia. apply Hdone; [lia|done].
        -- intros i Hi. rewrite list_lookup_insert_ne by lia. apply Hrest. lia.
        -- intros i Hi. by rewrite Hcopy.
        -- intros i Hi. destruct (decide (i = a + k)) as [->|]; [eauto|].
           apply Hlive. lia.
      * intros Hthrow w. unfold with_world; simpl. split_and!; try done.
        intros j Hj. destruct (Hsrc j) as (y' & Hy' & _); [lia|]. eauto.
  - intros k e s1 Hk (Hthrow & He & Hthis & Hlt & Hft & Hlive).
    rewrite make_move_if_noexcept_iterator_length in Hk.
    destruct (Hlive k) as [y Hy]; [lia|].
    apply (wp_destroy_at_live _ _ y); [done|].
    unfold put; simpl. rewrite length_insert. split_and!; try done.
    intros j Hj. rewrite list_lookup_insert_ne by lia. apply Hlive. lia.
  - intros s'. by rewrite make_move_if_noexcept_iterator_length.
  - intros e s'. tauto.
Qed.
End Relocation.

(** * Growing and shrinking *)

Section Growth.
Context `{Traits T W} `{!Regular}.
Implicit Types (s : Machine T W) (xs ys : list T) (p d : loc) (e : exn) (o : obj).

Lemma vec_put_eq p x s :
  vec p.1 (put p x s)
  = mkVector (<[p.2 := x]> (storage (vec p.1 s))) (finish_ (vec p.1 s)).
Proof. by destruct p as [[] ?]. Qed.

Lemma vec_put_ne o p x s : o ≠ p.1 → vec o (put p x s) = vec o s.
Proof. by destruct p as [[] ?], o. Qed.

Lemma wp_destroy u o a n Q E s :
  (∀ j, j < n → ∃ y, storage (vec o s) !! (a + j) = Some (Live y)) →
  (∀ s', destroyed o a n s s' → Q tt s') →
  wp u (std.destroy (o, a) n) Q E s.
Proof.
  intros Hlive HQ. unfold std.destroy.
  apply (wp_for_each _ _ _ (λ k s', destroyed o a k s s')).
  - unfold destroyed. split_and!; try done. intros; lia.
  - intros k p s1 [-> Hk]%range_lookup (Hother & Hw & Hf & Hl & Hsame & Hraw).
    destruct (Hlive k Hk) as [y Hy].
    apply (wp_destroy_at_live _ _ y); simpl.
    { rewrite Hsame by lia. done. }
    unfold destroyed. rewrite vec_put_ne by (by destruct o).
    rewrite (vec_put_eq (o, a + k)). simpl. rewrite length_insert.
    split_and!; try done.
    + by destruct o.
    + intros i Hi. rewrite list_lookup_insert_ne by lia. apply Hsame. lia.
    + intros i Hi. destruct (decide (i = a + k)) as [->|].
      * rewrite list_lookup_insert_eq; [done|]. apply lookup_lt_Some in Hy. lia.
      * rewrite list_lookup_insert_ne by lia. apply Hraw. lia.
  - intros s'. rewrite length_range. apply HQ.
Qed.

Lemma wp_request (f : nat → W → W * option unit) sz Q E s :
  (∀ w, (f sz w).2 = None → throwing) →
  (allocatable sz → ∀ w, Q tt (with_world s w)) →
  (throwing ∨ ¬ allocatable sz → ∀ w, E bad_alloc (with_world s w)) →
  wp throwing (Vec.request f sz) Q E s.
Proof.
  intros Hf HQ HE. unfold Vec.request. case_decide.
  - apply wp_effect.
    + intros [] _. by apply HQ.
    + intros Hnone. apply HE. left. by eapply Hf.
  - apply wp_throw. rewrite <-(with_world_id s). apply HE. by right.
Qed.

Lemma wp_advance u n count Q E s :
  offsettable (n + count) → Q (n + count) s → wp u (Vec.advance n count) Q E s.
Proof. intros Hn HQ. unfold Vec.advance. rewrite decide_True by done. by apply wp_ret. Qed.

(** A request to [malloc] or [realloc] whose byte count does not wrap is
    served, by a heap that does not run out, exactly when the elements fit
    in a block. *)
Lemma wp_request_bytes (f : N → W → W * option unit) sz Q E s :
  representable sz →
  (∀ w, (f (byte_count sz) w).2 = None → throwing) →
  (allocatable sz → ∀ w, Q tt (with_world s w)) →
  (throwing ∨ ¬ allocatable sz → ∀ w, E bad_alloc (with_world s w)) →
  wp throwing (Vec.request_bytes f (byte_count sz)) Q E s.
Proof.
  intros Hsz Hf HQ HE. unfold Vec.request_bytes.
  case_decide as Hb; rewrite byte_count_allocatable in Hb by done.
  - apply wp_effect.
    + intros [] _. by apply HQ.
    + intros Hnone. apply HE. left. by eapply Hf.
  - apply wp_throw. rewrite <-(with_world_id s). apply HE. by right.
Qed.

Lemma wp_allocate sz Q E s :
  representable sz →
  (allocatable sz → ∀ w, Q (replicate sz Raw) (with_world s w)) →
  (throwing ∨ ¬ allocatable sz → ∀ w, E bad_alloc (with_world s w)) →
  wp throwing (Vec.allocate sz) Q E s.
Proof.
  intros Hsz HQ HE.
  assert (sz = 0 → wp throwing (mret [] : M T W _) Q E s) as Hnull.
  { intros ->. apply wp_ret. rewrite <-(with_world_id s). apply HQ, allocatable_0. }
  unfold Vec.allocate. destruct relocatable; case_decide.
  - by apply Hnull.
  - simpl. apply wp_bind, wp_request_bytes; [done| | |done].
    + intros w. apply throwing_malloc.
    + intros ? w. rewrite elements_in_byte_count by done. by apply wp_ret, HQ.
  - apply wp_bind, wp_request; [| |done].
    + intros w. apply throwing_allocate.
    + intros ? w. by apply wp_ret, HQ.
  - apply Hnull. lia.
Qed.

(** [growShrinkAux(sz)], for a size whose byte count does not wrap and is
    not 0 where [realloc] is used, keeps what the vector holds and makes its
    capacity [sz]; when it throws, the vector is as it was. *)
Lemma growShrinkAux_spec sz xs s :
  holds (this s) xs → length xs ≤ sz → 0 < sz ∨ relocatable = false →
  representable sz →
  wp throwing (Vec.growShrinkAux sz)
    (λ _ s', holds (this s') xs ∧ length (storage (this s')) = sz)
    (λ e s', (throwing ∨ ¬ allocatable sz) ∧ benign e ∧ this s' = this s) s.
Proof.
  intros Hxs Hsz Hpos Hrep. pose proof (holds_length _ _ Hxs) as Hlen.
  pose proof Hxs as (Hle & Hal & Hlook)%holds_lookup.
  unfold Vec.growShrinkAux. apply wp_bind, wp_get. apply wp_bind.
  case_decide; [apply wp_ret|lia]. apply wp_bind.
  destruct relocatable eqn:Hreloc; [|destruct trivially_copyable eqn:Htriv].
  - (* realloc *)
    destruct Hpos as [Hpos|?]; [|done].
    apply wp_bind, wp_get. cbv zeta. apply wp_bind.
    rewrite decide_False by (intros [?%byte_count_0 _]; [lia|done]).
    apply wp_request_bytes; [done| |..].
    { intros w. apply throwing_realloc. }
    2:{ intros ? w. unfold benign. simpl. tauto. }
    intros Hsz' w. rewrite elements_in_byte_count by done.
    apply wp_bind, wp_modify, wp_modify, wp_modify.
    simpl. unfold Vec.resized. split.
    + apply holds_lookup. simpl.
      rewrite length_take, length_app, length_take, length_replicate.
      split_and!; [lia| |lia|].
      * unfold allocatable in *. lia.
      * intros j x Hx. rewrite lookup_take_lt by (apply lookup_lt_Some in Hx; lia).
        rewrite lookup_app_l by (rewrite length_take; apply lookup_lt_Some in Hx; lia).
        rewrite lookup_take_lt by (apply lookup_lt_Some in Hx; lia). apply Hlook, Hx.
    + rewrite length_take, length_app, length_take, length_replicate. lia.
  - (* memmove *)
    apply wp_bind, wp_allocate; [done|..].
    2:{ intros ? w. unfold benign. simpl. tauto. }
    intros Hsz' w. apply wp_bind, wp_modify, wp_bind.
    unfold wp, std.memmove. simpl.
    case_decide as Hmove; [|rewrite length_replicate in Hmove; lia].
    simpl. rewrite drop_0. split.
    + apply holds_lookup. simpl.
      rewrite length_take, !length_app, length_take, length_drop, length_replicate.
      split_and!; [lia| |lia|].
      * unfold allocatable in *. lia.
      * intros j x Hx. apply lookup_lt_Some in Hx as Hj.
        rewrite lookup_take_lt by lia.
        rewrite lookup_app_l by (rewrite length_take; lia).
        rewrite lookup_take_lt by lia. apply Hlook, Hx.
    + rewrite length_take, !length_app, length_take, length_drop, length_replicate. lia.
  - (* element by element *)
    apply wp_bind, wp_allocate; [done|..].
    2:{ intros ? w. unfold benign. simpl. tauto. }
    intros Hsz' w. apply wp_bind, wp_modify, wp_bind, wp_try_catch.
    eapply wp_mono; [apply (relocate_spec 0 0 (finish_ (this s)) xs)|..]; simpl.
    + intros j Hj. destruct (holds_live _ _ j Hxs Hj) as (x & ? & ?). eauto.
    + rewrite length_replicate. lia.
    + intros _ s1 (Hlt & Hft & Hl & Hf & Hdone & Hrest & Hsame & Hlive & Hcopy).
      simpl in *. rewrite length_replicate in Hlt.
      apply wp_bind, wp_destroy.
      { intros j Hj. destruct (Hlive j) as [r Hr]; [lia|]. eauto. }
      intros s2 (Hother & Hw & _). simpl in Hother.
      unfold wp. simpl. rewrite Hother. split.
      * apply holds_lookup. simpl. rewrite length_take.
        split_and!; [lia| |lia|].
        -- unfold allocatable in *. lia.
        -- intros j x Hx. apply lookup_lt_Some in Hx as Hj.
           rewrite lookup_take_lt by lia. apply (Hdone j x); [lia|done].
      * rewrite length_take. lia.
    + intros e s1 (Hthrow & -> & Hthis & _).
      apply wp_bind, wp_modify, wp_throw. simpl. unfold benign. tauto.
Qed.
End Growth.

(** * The member functions on what the vector holds *)

Section Members.
Context `{Traits T W} `{!Regular}.
Implicit Types (s : Machine T W) (v : Vector T) (xs ys : list T) (e : exn).

Lemma holds_push v xs x :
  holds v xs → finish_ v < length (storage v) →
  holds (mkVector (<[finish_ v := Live x]> (storage v)) (finish_ v + 1)) (xs ++ [x]).
Proof.
  intros (Hle & Hal & Hlen & Hlook)%holds_lookup Hspare. apply holds_lookup. simpl.
  rewrite length_insert, length_app. simpl. split_and!; [lia|done|lia|].
  intros j y Hy. apply lookup_app_Some in Hy as [Hy|[Hj Hy]].
  - apply lookup_lt_Some in Hy as Hj. rewrite list_lookup_insert_ne by lia. by apply Hlook.
  - apply list_lookup_singleton_Some in Hy as [Hj' ->].
    assert (j = finish_ v) as -> by lia. by rewrite list_lookup_insert_eq.
Qed.

Lemma holds_pop v xs x :
  holds v (xs ++ [x]) →
  holds (mkVector (<[finish_ v - 1 := Raw]> (storage v)) (finish_ v - 1)) xs.
Proof.
  intros (Hle & Hal & Hlen & Hlook)%holds_lookup. apply holds_lookup. simpl.
  rewrite length_insert. rewrite length_app in Hlen. simpl in Hlen.
  split_and!; [lia|done|lia|].
  intros j y Hy. apply lookup_lt_Some in Hy as Hj.
  rewrite list_lookup_insert_ne by lia. apply Hlook. by apply lookup_app_l_Some.
Qed.

Lemma holds_last v xs x :
  holds v (xs ++ [x]) → storage v !! (finish_ v - 1) = Some (Live x).
Proof.
  intros (Hle & Hal & Hlen & Hlook)%holds_lookup. rewrite length_app in Hlen.
  simpl in Hlen. apply Hlook. rewrite lookup_app_r by lia.
  by replace (finish_ v - 1 - length xs) with 0 by lia.
Qed.

Lemma back_spec xs x s :
  holds (this s) (xs ++ [x]) → Vec.back s = Ret x s.
Proof.
  intros Hxs. pose proof (holds_last _ _ _ Hxs) as Hlast.
  pose proof (holds_length _ _ Hxs) as Hlen. rewrite length_app in Hlen. simpl in Hlen.
  unfold Vec.back, Vec.before, Vec.size, get, read, peek, mbind, M_bind. simpl.
  case_decide; [lia|]. simpl. by rewrite Hlast.
Qed.

Lemma back_empty s : finish_ (this s) = 0 → Vec.back s = Undefined.
Proof.
  intros Hn. unfold Vec.back, Vec.before, Vec.size, get, mbind, M_bind. simpl.
  by rewrite Hn.
Qed.

Lemma pop_back_spec xs x s :
  holds (this s) (xs ++ [x]) →
  ∃ s', Vec.pop_back s = Ret tt s'
        ∧ holds (this s') xs
        ∧ length (storage (this s')) = length (storage (this s))
        ∧ tmp s' = tmp s ∧ world s' = world s.
Proof.
  intros Hxs. pose proof (holds_last _ _ _ Hxs) as Hlast.
  pose proof (holds_length _ _ Hxs) as Hlen. rewrite length_app in Hlen. simpl in Hlen.
  pose proof (holds_pop _ _ _ Hxs) as Hpop.
  unfold Vec.pop_back, Vec.before, Vec.size, Vec.set_finish, destroy_at, modify, get,
    read, peek, poke, mbind, M_bind. simpl.
  case_decide; [lia|]. simpl. rewrite Hlast. simpl.
  apply lookup_lt_Some in Hlast. case_decide; [|lia].
  eexists. split; [done|]. simpl. by rewrite length_insert.
Qed.

Lemma pop_back_empty s : finish_ (this s) = 0 → Vec.pop_back s = Undefined.
Proof.
  intros Hn. unfold Vec.pop_back, Vec.before, Vec.size, get, mbind, M_bind. simpl.
  by rewrite Hn.
Qed.

(** [push_back] of an object of the caller. *)
Lemma push_back_spec xs x s :
  holds (this s) xs →
  wp throwing (Vec.push_back (Val x))
    (λ _ s', holds (this s') (xs ++ [x])
             ∧ size_of (this s') = appended (size_of (this s)))
    (λ e s', (throwing ∨ ¬ allocatable (2 * length (storage (this s)) + 1))
             ∧ benign e ∧ holds (this s') xs) s.
Proof.
  intros Hxs. pose proof (holds_length _ _ Hxs) as Hlen.
  pose proof Hxs as (Hle & Hal & _).
  unfold Vec.push_back. apply wp_bind, wp_get, wp_bind, wp_get, wp_bind.
  assert (∀ s1 : Machine T W, holds (this s1) xs →
    finish_ (this s1) < length (storage (this s1)) →
    size_of (this s1) = mkExtent (cap (appended (size_of (this s)))) (finish_ (this s)) →
    wp throwing
      (n ← Vec.size; construct_at (This, n) (by_copy (Val x));; Vec.set_finish This (n + 1))
      (λ _ s', holds (this s') (xs ++ [x])
               ∧ size_of (this s') = appended (size_of (this s)))
      (λ e s', (throwing ∨ ¬ allocatable (2 * length (storage (this s)) + 1))
               ∧ benign e ∧ holds (this s') xs) s1) as Hrest.
  { intros s1 Hxs1 Hspare Hsize. injection Hsize as Hcap Hfin.
    apply wp_bind, wp_get, wp_bind, wp_construct_at_val; [done|..].
    - intros w. apply wp_modify. simpl. split.
      + by apply holds_push.
      + unfold appended, size_of in *. simpl in *.
        by rewrite length_insert, Hcap, Hfin.
    - intros Hthrow w. unfold benign. simpl. tauto. }
  case_decide as Hfull.
  - apply wp_bind.
    assert (wrap (length (storage (this s)) * 2 + 1) = 2 * length (storage (this s)) + 1)
      as Hwrap.
    { destruct (wrap_cases (length (storage (this s)) * 2 + 1));
        heap_lia. }
    rewrite Hwrap.
    eapply wp_mono;
      [apply (growShrinkAux_spec _ xs); [done|lia|left; lia|no_wrap]|..]; simpl.
    + intros _ s1 [Hxs1 Hcap]. apply wp_ret, Hrest; [done|..].
      * apply holds_length in Hxs1. lia.
      * unfold appended, size_of. simpl. apply holds_length in Hxs1.
        rewrite decide_True by done. f_equal; lia.
    + intros e s1 (? & ? & ->). done.
  - apply wp_ret, Hrest; [done|lia|].
    unfold appended, size_of. simpl. by rewrite decide_False by done.
Qed.

(** [reserve] and [shrink]. *)
Lemma reserve_spec new_cap xs s :
  holds (this s) xs → representable new_cap →
  wp throwing (Vec.reserve new_cap)
    (λ _ s', holds (this s') xs
             ∧ length (storage (this s')) = length (storage (this s)) `max` new_cap
             ∧ (new_cap ≤ length (storage (this s)) → s' = s))
    (λ e s', (throwing ∨ ¬ allocatable new_cap) ∧ this s' = this s) s.
Proof.
  intros Hxs Hrep. pose proof Hxs as (Hle & Hal & _).
  pose proof (holds_length _ _ Hxs) as Hlen.
  unfold Vec.reserve. apply wp_bind. case_decide as Hmax.
  { unfold representable, Vec.maxSize in *. nia. }
  apply wp_ret, wp_bind, wp_get. case_decide as Hgrow.
  - eapply wp_mono;
      [apply (growShrinkAux_spec _ xs); [done|lia|left; lia|done]|..]; simpl.
    + intros _ s1 [Hxs1 Hcap]. split_and!; [done|lia|lia].
    + intros e s1 (? & ? & ->). done.
  - apply wp_ret. split_and!; [done|lia|done].
Qed.

Lemma shrink_spec xs s :
  holds (this s) xs → xs ≠ [] ∨ relocatable = false →
  wp throwing Vec.shrink
    (λ _ s', this s' = mkVector (Live <$> xs) (length xs))
    (λ e s', throwing ∧ this s' = this s) s.
Proof.
  intros Hxs Hne. pose proof Hxs as (Hle & Hal & _).
  pose proof (holds_length _ _ Hxs) as Hlen.
  assert (0 < length xs ∨ relocatable = false).
  { destruct Hne as [?|?]; [left|by right]. destruct xs; simpl; [done|lia]. }
  unfold Vec.shrink. apply wp_bind, wp_get.
  eapply wp_mono; [apply (growShrinkAux_spec _ xs); [done|lia|by rewrite <-Hlen|no_wrap]|..]; simpl.
  - intros _ s1 [Hxs1 Hcap]. apply holds_full; [done|].
    apply holds_length in Hxs1. lia.
  - intros e s1 ([?|Hno] & ? & ->); [done|]. destruct Hno.
    unfold allocatable in *. lia.
Qed.
End Members.

(** * Erasing a range *)

Section Erase.
Context `{Traits T W} `{!Regular}.
Implicit Types (s : Machine T W) (v : Vector T) (xs ys : list T) (e : exn).

(** *d = std::move( *p ), for two elements of the vector *)
Lemma wp_assign_at_move i j x old Q E s :
  storage (this s) !! j = Some (Live x) →
  storage (this s) !! i = Some (Live old) →
  (∀ r w, Q tt (put (This, i) (Live x) (put (This, j) (Live r) (with_world s w)))) →
  (throwing → ∀ w, E element_error (with_world s w)) →
  wp throwing (assign_at (This, i) (by_move (At (This, j)))) Q E s.
Proof.
  intros Hj Hi HQ HE. unfold assign_at, deref.
  apply wp_bind, (wp_read_live _ _ x); [done|]. apply wp_bind.
  assert (∀ r w, wp throwing
    (leave (At (This, j)) r;; poke (This, i) (Live x)) Q E (with_world s w)) as Hrest.
  { intros r w. simpl. apply wp_bind, wp_put.
    { apply lookup_lt_Some in Hj. done. }
    apply wp_put; [|done]. simpl. rewrite length_insert.
    by apply lookup_lt_Some in Hi. }
  unfold move_assignment. destruct trivially_copyable.
  - apply wp_ret. simpl. rewrite <-(with_world_id s). apply Hrest.
  - apply wp_bind, (wp_read_live _ _ old); [done|]. apply wp_effect.
    + intros [y r] Hy. apply move_assign_value in Hy as ->. apply Hrest.
    + intros Hnone. apply HE. by eapply throwing_move_assign.
Qed.

(** [std::move(first + l, first + n, first + f)], for [f < l]: the elements
    from [l] on come down to [f], and everything below [n] stays alive. *)
Lemma move_down_spec f l xs s Q E :
  holds (this s) xs → f < l ≤ length xs →
  (∀ s', tmp s' = tmp s →
         finish_ (this s') = finish_ (this s) →
         length (storage (this s')) = length (storage (this s)) →
         (∀ i, i < f → storage (this s') !! i = storage (this s) !! i) →
         (∀ j x, xs !! (l + j) = Some x → storage (this s') !! (f + j) = Some (Live x)) →
         (∀ i, i < length xs → ∃ y, storage (this s') !! i = Some (Live y)) →
         Q tt s') →
  (throwing → ∀ s', E element_error s') →
  wp throwing (std.move (This, l) (length xs - l) (This, f)) Q E s.
Proof.
  intros Hxs Hfl HQ HE. pose proof (holds_length _ _ Hxs) as Hlen.
  pose proof Hxs as (Hle & Hal & _ & Hlook)%holds_lookup.
  unfold std.move.
  apply (wp_for_each _ _ _ (λ k s',
    tmp s' = tmp s
    ∧ finish_ (this s') = finish_ (this s)
    ∧ length (storage (this s')) = length (storage (this s))
    ∧ (∀ i, i < f → storage (this s') !! i = storage (this s) !! i)
    ∧ (∀ j x, j < k → xs !! (l + j) = Some x →
              storage (this s') !! (f + j) = Some (Live x))
    ∧ (∀ i, l + k ≤ i → storage (this s') !! i = storage (this s) !! i)
    ∧ (∀ i, i < length xs → ∃ y, storage (this s') !! i = Some (Live y)))).
  - split_and!; try done.
    + intros; lia.
    + intros i Hi. destruct (holds_live _ _ i Hxs) as (y & _ & ?); [lia|]. eauto.
  - intros k [p d] s1 Hk (Htmp & Hfin & Hl & Hlow & Hdone & Hhigh & Hlive).
    apply lookup_zip_with_Some in Hk
      as (?&?&?&[-> Hk]%range_lookup&[-> _]%range_lookup); simplify_eq.
    unfold shift; simpl.
    destruct (lookup_lt_is_Some_2 xs (l + k)) as [x Hx]; [lia|].
    destruct (Hlive (f + k)) as [old Hold]; [lia|].
    apply (wp_assign_at_move _ _ x old); [|done|..].
    { rewrite Hhigh by lia. by apply Hlook. }
    + intros r w. unfold put, with_world; simpl. rewrite !length_insert.
      split_and!; try done.
      * intros i Hi. rewrite !list_lookup_insert_ne by lia. by apply Hlow.
      * intros j y Hj Hy. destruct (decide (j = k)) as [->|].
        -- rewrite list_lookup_insert_eq; [congruence|].
           rewrite length_insert. apply lookup_lt_Some in Hold. lia.
        -- rewrite !list_lookup_insert_ne by lia. apply Hdone; [lia|done].
      * intros i Hi. rewrite !list_lookup_insert_ne by lia. apply Hhigh. lia.
      * intros i Hi. destruct (decide (i = f + k)) as [->|].
        { rewrite list_lookup_insert_eq; [eauto|].
          rewrite length_insert. apply lookup_lt_Some in Hold. lia. }
        rewrite list_lookup_insert_ne by lia.
        destruct (decide (i = l + k)) as [->|].
        { rewrite list_lookup_insert_eq; [eauto|]. rewrite Hl. lia. }
        rewrite list_lookup_insert_ne by lia. by apply Hlive.
    + intros Hthrow w. by apply HE.
  - intros s' (Htmp & Hfin & Hl & Hlow & Hdone & Hhigh & Hlive).
    rewrite length_zip_with, !length_range, Nat.min_id in Hdone.
    apply HQ; try done. intros j x Hx. apply Hdone; [|done].
    apply lookup_lt_Some in Hx. lia.
Qed.

(** [erase(first, last)] on what the vector holds. *)
Lemma erase_range_spec f l xs s :
  holds (this s) xs → f ≤ l ≤ length xs →
  wp throwing (Vec.erase_range f l)
    (λ r s', r = f
             ∧ holds (this s') (take f xs ++ drop l xs)
             ∧ length (storage (this s')) = length (storage (this s))
             ∧ (f = l → s' = s))
    (λ e s', throwing) s.
Proof.
  intros Hxs Hfl. pose proof (holds_length _ _ Hxs) as Hlen.
  pose proof Hxs as (Hle & Hal & _ & Hlook)%holds_lookup.
  unfold Vec.erase_range. apply wp_bind, wp_get, wp_bind.
  case_decide; [apply wp_ret|lia]. apply wp_bind.
  assert (∀ s' : Machine T W,
    length (storage (this s')) = length (storage (this s)) →
    (∀ i, i < f → storage (this s') !! i = storage (this s) !! i) →
    (∀ j x, xs !! (l + j) = Some x →
            storage (this s') !! (f + j) = Some (Live x)) →
    holds (mkVector (storage (this s')) (f + (length xs - l)))
          (take f xs ++ drop l xs)) as Hfinal.
  { intros s' Hl Hlow Hmoved. apply holds_lookup. simpl.
    rewrite length_app, length_take, length_drop.
    split_and!; [lia|by rewrite Hl|lia|].
    intros j x Hx. apply lookup_app_Some in Hx as [Hx|[Hj Hx]].
    - apply lookup_take_Some in Hx as [Hx Hj]. rewrite Hlow by done. by apply Hlook.
    - rewrite length_take in Hj. rewrite length_take, lookup_drop in Hx.
      replace (f `min` length xs) with f in * by lia.
      replace j with (f + (j - f)) by lia. by apply Hmoved. }
  case_decide as Hne; [case_decide as Hend|].
  - (* the range reaches the end *)
    apply wp_bind, wp_destroy.
    { intros j Hj. destruct (holds_live _ _ (f + j) Hxs) as (y & _ & ?); [lia|]. eauto. }
    intros s1 (Htmp & Hw & Hfin & Hl & Hsame & Hraw). simpl in *.
    unfold wp; simpl. split_and!; [done| |done|lia].
    replace f with (f + (length xs - l)) at 1 by lia. apply Hfinal; [done|..].
    + intros i Hi. apply Hsame. lia.
    + intros j x Hx. apply lookup_lt_Some in Hx. lia.
  - (* the tail comes down *)
    apply wp_bind. rewrite <-Hlen. apply (move_down_spec f l xs); [done|lia| |done].
    intros s1 Htmp Hfin Hl Hlow Hmoved Hlive.
    apply wp_bind, wp_destroy.
    { intros j Hj. destruct (Hlive (f + (length xs - l) + j)) as [y Hy]; [lia|]. eauto. }
    intros s2 (_ & _ & Hfin2 & Hl2 & Hsame & Hraw). simpl in *.
    unfold wp; simpl. split_and!; [done| |lia|lia].
    apply Hfinal; [lia|..].
    + intros i Hi. rewrite Hsame by lia. by apply Hlow.
    + intros j x Hx. apply lookup_lt_Some in Hx as Hj.
      rewrite Hsame by lia. by apply Hmoved.
  - (* an empty range *)
    assert (f = l) as <- by lia. unfold wp; simpl.
    split_and!; [done| |done|done].
    rewrite take_drop. done.
Qed.
End Erase.

(** * Reading outcomes off a specification *)

Section Outcomes.
Context {T W : Type}.
Implicit Types (s : Machine T W) (e : exn).

Lemma wp_ret_inv {A} u (m : M T W A) Q E s a s' :
  wp u m Q E s → m s = Ret a s' → Q a s'.
Proof. unfold wp. intros Hm Hs. by rewrite Hs in Hm. Qed.

Lemma wp_throw_inv {A} u (m : M T W A) Q E s e s' :
  wp u m Q E s → m s = Throw e s' → E e s'.
Proof. unfold wp. intros Hm Hs. by rewrite Hs in Hm. Qed.

Lemma wp_returns {A} u (m : M T W A) Q E s :
  wp u m Q E s → ¬ u → (∀ e s', ¬ E e s') → ∃ a s', m s = Ret a s' ∧ Q a s'.
Proof.
  unfold wp. intros Hm Hu HE. destruct (m s) as [a s'|e s'|]; [eauto|..].
  - by destruct (HE e s').
  - done.
Qed.
End Outcomes.

Lemma int_quiet : ¬ throwing (H := int_traits).
Proof. by intros []. Qed.

Lemma holds_ints xs spare :
  allocatable (length xs + spare) → holds (this (ints xs spare)) xs.
Proof.
  intros Hal. unfold holds, ints. simpl.
  rewrite length_app, length_fmap, length_replicate. split_and!; [lia|done|].
  rewrite take_app_length'; [done|]. by rewrite length_fmap.
Qed.

(** * The specification, statement by statement *)

Section Claims.
Context `{Traits T W} `{!Regular}.
Implicit Types (s : Machine T W) (xs : list T) (e : exn).

Lemma reserve_no_op new_cap xs s :
  holds (this s) xs → new_cap ≤ length (storage (this s)) →
  Vec.reserve new_cap s = Ret tt s.
Proof.
  intros (_ & Hal & _) Hle.
  unfold Vec.reserve, Vec.capacity, get, mbind, M_bind.
  rewrite decide_False.
  2:{ unfold Vec.maxSize. heap_lia. }
  simpl. by rewrite decide_False by lia.
Qed.

(** [reserve(n)] for an [n] whose byte count does not wrap.  With
    [n <= capacity()] it changes nothing at all.  With [n > capacity()], a
    call that returns leaves a capacity of at least [n] (exactly [n]) and
    the same size and elements, in order; a call that throws leaves the
    vector as it was; and the call does return whenever nothing throws and
    [n] elements fit in one block. *)
Lemma reserve_within_size_t n xs s :
  holds (this s) xs → representable n →
  (n ≤ length (storage (this s)) → Vec.reserve n s = Ret tt s)
  ∧ (length (storage (this s)) < n →
     (∀ s', Vec.reserve n s = Ret tt s' →
        n ≤ length (storage (this s'))
        ∧ finish_ (this s') = finish_ (this s)
        ∧ holds (this s') xs
        ∧ elements (this s') = elements (this s))
     ∧ (∀ e s', Vec.reserve n s = Throw e s' → this s' = this s)
     ∧ (¬ throwing → allocatable n → ∃ s', Vec.reserve n s = Ret tt s')).
Proof.
  intros Hxs Hrep. split; [by apply (reserve_no_op _ xs)|]. intros Hn.
  pose proof (reserve_spec n xs s Hxs Hrep) as Hspec. split_and!.
  - intros s' Hs'. apply (wp_ret_inv _ _ _ _ _ _ _ Hspec) in Hs' as (Hxs' & Hcap & _).
    split_and!; [lia| |done|].
    + apply holds_length in Hxs, Hxs'. congruence.
    + by rewrite (holds_elements _ _ Hxs), (holds_elements _ _ Hxs').
  - intros e s' Hs'. by apply (wp_throw_inv _ _ _ _ _ _ _ Hspec) in Hs' as [_ ?].
  - intros Hquiet Hal. destruct (wp_returns _ _ _ _ _ Hspec Hquiet) as ([] & s' & ? & _).
    + intros e s' [[?|?] _]; done.
    + eauto.
Qed.

(** [shrink()] on a vector that is not empty, or whose block does not go
    through [realloc].  After the call the capacity equals the size, and
    the size and the elements are what they were; a second [shrink()] leaves
    the very same vector; and both calls return whenever nothing throws. *)
Lemma shrink_of_a_vector_that_is_not_empty xs s :
  holds (this s) xs → xs ≠ [] ∨ relocatable = false →
  (∀ s1, Vec.shrink s = Ret tt s1 →
     length (storage (this s1)) = finish_ (this s1)
     ∧ finish_ (this s1) = finish_ (this s)
     ∧ holds (this s1) xs
     ∧ elements (this s1) = elements (this s)
     ∧ ∀ s2, Vec.shrink s1 = Ret tt s2 → this s2 = this s1)
  ∧ (¬ throwing → ∃ s1 s2, Vec.shrink s = Ret tt s1 ∧ Vec.shrink s1 = Ret tt s2).
Proof.
  intros Hxs Hne. pose proof (holds_length _ _ Hxs) as Hlen.
  pose proof Hxs as (_ & Hal & _).
  assert (allocatable (length xs)) as Hal'.
  { destruct Hxs as (? & ? & _). unfold allocatable in *. lia. }
  assert (∀ s1, this s1 = mkVector (Live <$> xs) (length xs) → holds (this s1) xs) as Hfit.
  { intros s1 ->. unfold holds. simpl. rewrite length_fmap.
    split_and!; [done..|]. rewrite take_ge; [done|]. by rewrite length_fmap. }
  pose proof (shrink_spec xs s Hxs Hne) as Hspec. split.
  - intros s1 Hs1. apply (wp_ret_inv _ _ _ _ _ _ _ Hspec) in Hs1.
    pose proof (Hfit s1 Hs1) as Hxs1. rewrite Hs1. simpl. rewrite length_fmap.
    split_and!; [done|done|by rewrite <-Hs1| |].
    + rewrite <-Hs1. by rewrite (holds_elements _ _ Hxs), (holds_elements _ _ Hxs1).
    + intros s2 Hs2.
      by apply (wp_ret_inv _ _ _ _ _ _ _ (shrink_spec xs s1 Hxs1 Hne)) in Hs2.
  - intros Hquiet.
    destruct (wp_returns _ _ _ _ _ Hspec Hquiet) as ([] & s1 & Hs1 & Hthis).
    { by intros e s' [? _]. }
    destruct (wp_returns _ _ _ _ _ (shrink_spec xs s1 (Hfit s1 Hthis) Hne) Hquiet)
      as ([] & s2 & Hs2 & _).
    { by intros e s' [? _]. }
    eauto.
Qed.

(** C6. [erase(begin() + f, begin() + l)] with [0 <= f <= l <= size()]: a
    call that returns has removed exactly the elements at [f, l), keeps the
    others in order, makes the size [l - f] smaller and returns position [f],
    which is where the element after the range now stands, or the end; with
    [f = l] the call returns [l] and changes nothing at all; and the call
    returns whenever nothing throws. *)
Theorem erase_range_closes_the_gap f l xs s :
  holds (this s) xs → f ≤ l ≤ length xs →
  (∀ r s', Vec.erase_range f l s = Ret r s' →
     r = f
     ∧ holds (this s') (take f xs ++ drop l xs)
     ∧ finish_ (this s') = finish_ (this s) - (l - f)
     ∧ (take f xs ++ drop l xs) !! r = xs !! l
     ∧ (l = length xs → r = finish_ (this s')))
  ∧ (f = l → Vec.erase_range f l s = Ret l s)
  ∧ (¬ throwing → ∃ r s', Vec.erase_range f l s = Ret r s').
Proof.
  intros Hxs Hfl. pose proof (holds_length _ _ Hxs) as Hlen.
  pose proof (erase_range_spec f l xs s Hxs Hfl) as Hspec.
  assert (∀ r s', Vec.erase_range f l s = Ret r s' →
    r = f ∧ holds (this s') (take f xs ++ drop l xs) ∧ (f = l → s' = s)) as Hret.
  { intros r s' Hs'. apply (wp_ret_inv _ _ _ _ _ _ _ Hspec) in Hs'. tauto. }
  assert (¬ throwing → ∃ r s', Vec.erase_range f l s = Ret r s') as Hex.
  { intros Hquiet. destruct (wp_returns _ _ _ _ _ Hspec Hquiet) as (r & s' & ? & _); eauto. }
  split_and!; [|  |done].
  - intros r s' Hs'. destruct (Hret r s' Hs') as (-> & Hxs' & _).
    pose proof (holds_length _ _ Hxs') as Hlen'.
    rewrite length_app, length_take, length_drop in Hlen'.
    split_and!; [done|done|lia| |lia].
    rewrite lookup_app_r by (rewrite length_take; lia).
    rewrite length_take, lookup_drop. f_equal. lia.
  - intros <-. unfold Vec.erase_range, Vec.size, get, mbind, M_bind. simpl.
    rewrite decide_True by lia. simpl. by rewrite decide_False by tauto.
Qed.

(** C9. [at(i)] throws [std::out_of_range] exactly when [i >= size()], and
    leaves the machine as it is; otherwise it returns the element at position
    [i], which is what [operator[]] returns. *)
Theorem at_checks_the_index i xs s :
  holds (this s) xs →
  (Vec.at_ i s = Throw out_of_range s ↔ finish_ (this s) ≤ i)
  ∧ (∀ e s', Vec.at_ i s = Throw e s' → e = out_of_range ∧ s' = s)
  ∧ (i < finish_ (this s) →
     ∃ x, xs !! i = Some x ∧ Vec.at_ i s = Ret x s ∧ Vec.subscript i s = Ret x s).
Proof.
  intros Hxs.
  assert (finish_ (this s) ≤ i → Vec.at_ i s = Throw out_of_range s) as Hout.
  { intros Hi. unfold Vec.at_, Vec.rangeCheck, Vec.size, get, mbind, M_bind. simpl.
    by rewrite decide_True. }
  assert (i < finish_ (this s) →
    ∃ x, xs !! i = Some x ∧ Vec.at_ i s = Ret x s ∧ Vec.subscript i s = Ret x s) as Hin.
  { intros Hi. destruct (holds_live _ _ i Hxs Hi) as (x & Hx & Hslot).
    exists x. split; [done|].
    unfold Vec.at_, Vec.rangeCheck, Vec.subscript, Vec.size, read, peek, get, mbind, M_bind.
    simpl. rewrite decide_False by lia. simpl. by rewrite Hslot. }
  split_and!; [|  |done].
  - split; [|done]. intros Hthrow. destruct (decide (finish_ (this s) ≤ i)); [done|].
    destruct Hin as (x & _ & Hat & _); [lia|]. congruence.
  - intros e s' Hthrow. destruct (decide (finish_ (this s) ≤ i)) as [Hi|Hi].
    + rewrite (Hout Hi) in Hthrow. by simplify_eq.
    + destruct Hin as (x & _ & Hat & _); [lia|]. congruence.
Qed.
End Claims.

Section StackClaims.
Context `{Traits T W} `{!Regular}.
Implicit Types (s : Machine T W) (xs : list T) (e : exn).

Lemma wp_back u xs x Q E s :
  holds (this s) (xs ++ [x]) → Q x s → wp u (Vec.back : M T W _) Q E s.
Proof. intros Hxs HQ. unfold wp. by rewrite (back_spec xs x). Qed.




End StackClaims.

Section SizeClaims.
Context `{Traits T W}.
Implicit Types (s : Machine T W) (v : Vector T) (e : exn).

(** Along calls of the public member functions in which [resize] and
    [reserve] are asked for sizes whose byte count does not wrap, every
    vector that a program can reach from a constructor, returning or
    throwing, has [0 <= size() <= capacity()]; and along any sequence of
    [push_back] and [pop_back] calls that return, the size at the end plus
    the number of pops is the size at the start plus the number of pushes;
    on a vector fresh from the default constructor the size is the number of
    pushes minus the number of pops. *)
Lemma size_within_capacity_along_modest_calls :
  (∀ v, reachable modest v → 0 ≤ finish_ v ≤ length (storage v))
  ∧ (∀ l s s', reachable modest (this s) → for_each back_call l s = Ret tt s' →
       finish_ (this s') + pops l = finish_ (this s) + pushes l)
  ∧ (∀ l s0 s s', construct new_default s0 = Ret tt s →
       for_each back_call l s = Ret tt s' →
       pops l ≤ pushes l ∧ finish_ (this s') = pushes l - pops l).
Proof.
  assert (∀ l s s', reachable modest (this s) → for_each back_call l s = Ret tt s' →
    finish_ (this s') + pops l = finish_ (this s) + pushes l) as Hcount.
  { intros l s s' Hs%reachable_sized Hl.
    by apply (wps_ret_inv _ _ _ _ _ _ (back_calls_sizes l (shape s) Hs)) in Hl as [_ ?]. }
  split_and!; [|done|].
  - intros v [Hv _]%reachable_sized. simpl in Hv. lia.
  - intros l s0 s s' Hnew Hl.
    assert (reachable modest (this s)) as Hs
      by by apply (reachable_new modest new_default s0 s).
    apply (Hcount _ _ _ Hs) in Hl.
    apply (wps_ret_inv _ _ _ _ _ _ (Vector_default_sizes This (shape s0))) in Hnew.
    apply (f_equal (λ sh, len (of_this sh))) in Hnew. simpl in Hnew. lia.
Qed.

(** C4, as amended. [insert(pos, value)] with a [value] that is an element
    of the vector throws [std::range_error] and changes nothing.  The check
    is in this overload only.  The rvalue overload, [emplace], the count
    overload with a count other than one, and the range overload for forward
    iterators and initializer lists never throw [std::range_error].  Two
    overloads forward to the first one and are checked like it: the count
    overload with a count of one, and the range overload for iterators that
    are input iterators only, which at [end()] inserts the elements of the
    range one by one. *)
Theorem insert_checks_aliasing_in_the_copy_overload s :
  sized (size_of (this s)) →
  (∀ pos i, i < finish_ (this s) → Vec.insert pos (Own i) s = Throw range_error s)
  ∧ (∀ pos value e s', Vec.insert_move pos value s = Throw e s' → e ≠ range_error)
  ∧ (∀ pos args e s', Vec.emplace pos args s = Throw e s' → e ≠ range_error)
  ∧ (∀ pos k value e s', k ≠ 1 →
       Vec.insert_count pos k value s = Throw e s' → e ≠ range_error)
  ∧ (∀ pos first_last e s',
       Vec.insert_range pos first_last s = Throw e s' → e ≠ range_error)
  ∧ (∀ pos i, pos ≤ finish_ (this s) → i < finish_ (this s) →
       Vec.insert_count pos 1 (Own i) s = Throw range_error s)
  ∧ (∀ i first_last, i < finish_ (this s) →
       Vec.insert_input_at_end (Own i :: first_last) s = Throw range_error s).
Proof.
  intros Hs.
  assert (∀ pos i, i < finish_ (this s) →
    Vec.insert pos (Own i) s = Throw range_error s) as Hcopy.
  { intros pos i Hi.
    unfold Vec.insert, Vec.addressCheck, Vec.size, get, mbind, M_bind. simpl.
    by rewrite decide_True. }
  split_and!; [done|..].
  - intros pos value e s' He.
    apply (wps_throw_inv _ _ _ _ _ _ (insert_move_sizes pos value (shape s) Hs)) in He
      as [[-> | ->] _]; done.
  - intros pos args e s' He.
    apply (wps_throw_inv _ _ _ _ _ _ (emplace_sizes pos args (shape s) Hs)) in He
      as [[-> | ->] _]; done.
  - intros pos k value e s' Hk He.
    apply (wps_throw_inv _ _ _ _ _ _ (insert_count_sizes pos k value (shape s) Hs)) in He
      as [[[? _]|[-> | ->]] _]; done.
  - intros pos first_last e s' He.
    apply (wps_throw_inv _ _ _ _ _ _ (insert_range_sizes pos first_last (shape s) Hs)) in He
      as [[-> | ->] _]; done.
  - intros pos i Hpos Hi.
    unfold Vec.insert_count, Vec.position, Vec.size, get, mbind, M_bind. simpl.
    rewrite decide_True by done. simpl. by apply Hcopy.
  - intros i first_last Hi.
    unfold Vec.insert_input_at_end, Vec.insertRangeAux_input_at_end, Vec.size, get.
    unfold mbind, M_bind. simpl. unfold mbind, M_bind. simpl.
    by rewrite (Hcopy _ i Hi).
Qed.
End SizeClaims.

Section GrowthClaims.
Context `{Traits T W} `{!Regular}.
Implicit Types (s : Machine T W) (xs : list T) (e : exn).

(** C3, as amended. On a vector with [size() == capacity()], a [push_back]
    or [emplace_back] that returns leaves the capacity at exactly
    [2 * capacity + 1], and it returns whenever no constructor or allocator
    throws and a block of that size can be requested.  A count insert of
    [k >= 2] copies that returns, where [k] exceeds the spare capacity,
    leaves the capacity at exactly [size + max(k, size) + 1].  A count insert
    of one copy is the single-value insert: on a full vector it leaves the
    capacity at [2 * size + 1]. *)
Theorem growth_targets s :
  sized (size_of (this s)) →
  (finish_ (this s) = length (storage (this s)) →
     (∀ value s', Vec.push_back value s = Ret tt s' →
        length (storage (this s')) = 2 * length (storage (this s)) + 1)
     ∧ (∀ value s', Vec.push_back_move value s = Ret tt s' →
          length (storage (this s')) = 2 * length (storage (this s)) + 1)
     ∧ (∀ args r s', Vec.emplace_back args s = Ret r s' →
          length (storage (this s')) = 2 * length (storage (this s)) + 1)
     ∧ (∀ pos value r s', Vec.insert_count pos 1 value s = Ret r s' →
          length (storage (this s')) = 2 * finish_ (this s) + 1)
     ∧ (∀ xs x, holds (this s) xs → ¬ throwing →
          allocatable (2 * length (storage (this s)) + 1) →
          ∃ s', Vec.push_back (Val x) s = Ret tt s'
                ∧ length (storage (this s')) = 2 * length (storage (this s)) + 1))
  ∧ (∀ pos k value r s',
       2 ≤ k → length (storage (this s)) - finish_ (this s) < k →
       Vec.insert_count pos k value s = Ret r s' →
       length (storage (this s')) = finish_ (this s) + k `max` finish_ (this s) + 1).
Proof.
  intros Hs. split.
  - intros Hfull.
    assert (cap (appended (size_of (this s))) = 2 * length (storage (this s)) + 1)
      as Happ by (simpl; by rewrite decide_True).
    split_and!.
    + intros value s' Hr.
      apply (wps_ret_inv _ _ _ _ _ _ (push_back_sizes value (shape s) Hs)) in Hr as [Hr _].
      simpl in Hr. by rewrite <-Happ, <-Hr.
    + intros value s' Hr.
      apply (wps_ret_inv _ _ _ _ _ _ (push_back_move_sizes value (shape s) Hs)) in Hr
        as [Hr _].
      simpl in Hr. by rewrite <-Happ, <-Hr.
    + intros args r s' Hr.
      apply (wps_ret_inv _ _ _ _ _ _ (emplace_back_sizes args (shape s) Hs)) in Hr as [Hr _].
      simpl in Hr. by rewrite <-Happ, <-Hr.
    + intros pos value r s' Hr.
      apply (wps_ret_inv _ _ _ _ _ _ (insert_count_sizes pos 1 value (shape s) Hs)) in Hr
        as (_ & _ & _ & Hr & _).
      specialize (Hr eq_refl). simpl in Hr. rewrite Hfull, <-Happ. by rewrite <-Hr.
    + intros xs x Hxs Hquiet Hal.
      pose proof (push_back_spec xs x s Hxs) as Hspec.
      destruct (wp_returns _ _ _ _ _ Hspec Hquiet) as ([] & s' & Hr & _ & Hsize).
      { intros e s' ([?|?] & _); done. }
      exists s'. split; [done|]. rewrite <-Happ, <-Hsize. done.
  - intros pos k value r s' Hk Hspare Hr.
    apply (wps_ret_inv _ _ _ _ _ _ (insert_count_sizes pos k value (shape s) Hs)) in Hr
      as (_ & _ & _ & _ & Hr).
    specialize (Hr Hk). simpl in Hr. rewrite Hr. case_decide; [lia|done].
Qed.
End GrowthClaims.

(** * Concrete runs *)

Local Ltac fits := by vm_compute.

(** C1. A vector of one armed [Bomb] is full.  [push_back] of another armed
    [Bomb] copies the stored one into a block of three (the first tick), then
    throws from the copy of the new element (the second tick): the size is
    still one and the element is the one that was there, but the capacity is
    three, not one.  [insert] at [end()] of the same vector with the same value
    throws too and leaves the capacity at one. *)
Theorem push_back_keeps_the_grown_block_when_the_copy_throws :
  finish_ (this (bombs 1 0)) = length (storage (this (bombs 1 0)))
  ∧ ∃ s',
      Vec.push_back (Val (mkBomb false true)) (bombs 1 0) = Throw element_error s'
      ∧ finish_ (this s') = finish_ (this (bombs 1 0))
      ∧ elements (this s') = elements (this (bombs 1 0))
      ∧ length (storage (this (bombs 1 0))) = 1
      ∧ length (storage (this s')) = 3
      ∧ ∃ s'',
          Vec.insert 1 (Val (mkBomb false true)) (bombs 1 0) = Throw element_error s''
          ∧ this s'' = this (bombs 1 0).
Proof.
  split; [done|]. eexists. split; [by vm_compute|]. split_and!; try done.
  eexists. split; [by vm_compute|done].
Qed.

(** C2. [resize(2)] on the vector [{1, 2}] with capacity five returns with
    the two elements in place and capacity two: a call with [n == size()]
    reallocates to [n].  On two armed [Bomb]s fresh from [Vector(2)] the same
    call copies the elements and throws. *)
Theorem resize_to_the_size_reallocates :
  (∃ s',
     Vec.resize 2 (ints [1; 2]%Z 3) = Ret tt s'
     ∧ elements (this s') = [1; 2]%Z
     ∧ length (storage (this (ints [1; 2]%Z 3))) = 5
     ∧ length (storage (this s')) = 2)
  ∧ (∃ s s',
       Vec.Vector_count This 2 (boot (T:=Bomb) 0) = Ret tt s
       ∧ finish_ (this s) = length (storage (this s))
       ∧ Vec.resize (length (storage (this s))) s = Throw element_error s').
Proof.
  split.
  - eexists. split; [by vm_compute|]. done.
  - do 2 eexists. split; [by vm_compute|]. split; [done|]. by vm_compute.
Qed.

(** C3, as stated, fails: a count insert of one copy into a vector without
    storage exceeds the spare capacity and leaves a capacity of one, where
    [size + max(k, size) + 1] is two. *)
Lemma count_insert_of_one_copy_grows_like_push_back :
  ∃ s',
    length (storage (this (ints [] 0))) - finish_ (this (ints [] 0)) < 1
    ∧ Vec.insert_count 0 1 (Val 7%Z) (ints [] 0) = Ret 0 s'
    ∧ length (storage (this s')) = 1
    ∧ length (storage (this s'))
      ≠ finish_ (this (ints [] 0)) + 1 `max` finish_ (this (ints [] 0)) + 1.
Proof. eexists. split; [simpl; lia|]. split; [by vm_compute|]. split; [done|]. simpl. lia. Qed.

(** C4, as stated, fails: the count overload called with one copy of an
    element of the vector throws [std::range_error], while with two copies
    it goes ahead; and the range overloads for input iterators throw
    [std::range_error] at the first element of the range that is an element
    of the vector, [assign] after it has assigned the elements before it. *)
Lemma count_insert_of_one_copy_checks_aliasing :
  Vec.insert_count 0 1 (Own 0) (ints [1; 2]%Z 0) = Throw range_error (ints [1; 2]%Z 0)
  ∧ (∃ s', Vec.insert_count 0 2 (Own 0) (ints [1; 2]%Z 0) = Ret 0 s'
           ∧ elements (this s') = [1; 1; 1; 2]%Z)
  ∧ Vec.insert_input_at_end [Own 0] (ints [1; 2]%Z 0)
    = Throw range_error (ints [1; 2]%Z 0)
  ∧ Vec.assign_input [Val 5%Z; Val 6%Z; Own 0] (ints [1; 2]%Z 0)
    = Throw range_error (ints [5; 6]%Z 0).
Proof.
  split; [by vm_compute|]. split; [|split; by vm_compute].
  eexists. split; [by vm_compute|]. done.
Qed.

Lemma growth_targets_witness :
  sized (size_of (this (ints [1; 2]%Z 0)))
  ∧ (∃ s', Vec.push_back (Val 3%Z) (ints [1; 2]%Z 0) = Ret tt s'
           ∧ length (storage (this s')) = 5)
  ∧ (∃ s', Vec.insert_count 1 3 (Val 9%Z) (ints [1; 2]%Z 0) = Ret 1 s'
           ∧ length (storage (this s')) = 6).
Proof.
  assert (sized (size_of (this (ints [1; 2]%Z 0)))) as Hs by (split; [done|fits]).
  destruct (growth_targets (ints [1; 2]%Z 0) Hs) as [Hfull Hcount].
  destruct (Hfull eq_refl) as (_ & _ & _ & _ & Hpush).
  split_and!; [done|..].
  - apply (Hpush [1; 2]%Z 3%Z); [by apply holds_ints; fits|apply int_quiet|fits].
  - eexists. split; [by vm_compute|].
    eapply (Hcount 1 3 (Val 9%Z)); [lia|simpl; lia|by vm_compute].
Defined.

Lemma insert_checks_aliasing_in_the_copy_overload_witness :
  sized (size_of (this (ints [1; 2]%Z 0)))
  ∧ Vec.insert 0 (Own 1) (ints [1; 2]%Z 0) = Throw range_error (ints [1; 2]%Z 0).
Proof.
  assert (sized (size_of (this (ints [1; 2]%Z 0)))) as Hs by (split; [done|fits]).
  split; [done|].
  destruct (insert_checks_aliasing_in_the_copy_overload (ints [1; 2]%Z 0) Hs) as [Hcopy _].
  apply Hcopy. simpl. lia.
Defined.

(** [reserve(2^62 + 1)] on the [Vector<int>] [{1, 2}]: the byte count is
    [(2^62 + 1) * 4], which is 4 in [std::size_t], and [realloc] gives a
    block of one element. *)
Lemma reserve_of_a_wrapping_size :
  Vec.reserve (N.to_nat (2 ^ 62 + 1)) (ints [1; 2]%Z 0)
  = Ret tt (mkMachine (mkVector [Live 1%Z] 2) null 0%Z).
Proof.
  set (n := N.to_nat (2 ^ 62 + 1)).
  assert (N.of_nat n = (2 ^ 62 + 1)%N) as Hn by (unfold n; apply N2Nat.id).
  assert (byte_count (H := int_traits) n = 4%N) as Hbytes.
  { unfold byte_count. rewrite Hn. by vm_compute. }
  clearbody n.
  assert (2 < n) as Hlt by lia.
  unfold Vec.reserve, Vec.capacity, Vec.growShrinkAux, Vec.size, get.
  unfold mbind, M_bind.
  rewrite decide_False by (unfold Vec.maxSize, SIZE_MAX; lia).
  cbn [ints this storage finish_ length fmap list_fmap app replicate mret M_ret].
  rewrite decide_True by (simpl; lia).
  cbn [ints this storage finish_ length fmap list_fmap app replicate mret M_ret].
  rewrite decide_True by lia.
  change (relocatable (H := int_traits)) with true. cbv iota.
  rewrite Hbytes. simpl. unfold Vec.adopt, modify. simpl.
  change (elements_in (H := int_traits) 4) with 1. simpl.
  by rewrite take_ge by (simpl; lia).
Qed.

(** C5. [reserve(n)] does not keep what it promises for an [n] whose byte
    count wraps.  [maxSize()] is [SIZE_MAX], so the test against it lets
    every [n] through.  On the [Vector<int>] [{1, 2}] of capacity two,
    [reserve(2^62 + 1)] asks [realloc] for four bytes and returns: the
    capacity is one, below both [n] and the capacity before, and the size is
    still two.  For an [n] whose byte count does not wrap, [reserve] does
    what is claimed: with [n <= capacity()] it changes nothing at all; with
    [n > capacity()], a call that returns leaves a capacity of [n] and the
    same size and elements, in order, a call that throws leaves the vector
    as it was, and the call returns whenever nothing throws and [n] elements
    fit in one block. *)
Theorem reserve_wraps_the_byte_count :
  (∃ s',
     Vec.reserve (N.to_nat (2 ^ 62 + 1)) (ints [1; 2]%Z 0) = Ret tt s'
     ∧ holds (this (ints [1; 2]%Z 0)) [1; 2]%Z
     ∧ (N.of_nat (N.to_nat (2 ^ 62 + 1)) ≤ Vec.maxSize)%N
     ∧ length (storage (this (ints [1; 2]%Z 0))) = 2
     ∧ length (storage (this s')) = 1
     ∧ finish_ (this s') = 2)
  ∧ (∀ (T W : Type) (H : Traits T W), Regular → ∀ n xs (s : Machine T W),
       holds (this s) xs → representable n →
       (n ≤ length (storage (this s)) → Vec.reserve n s = Ret tt s)
       ∧ (length (storage (this s)) < n →
          (∀ s', Vec.reserve n s = Ret tt s' →
             n ≤ length (storage (this s'))
             ∧ finish_ (this s') = finish_ (this s)
             ∧ holds (this s') xs
             ∧ elements (this s') = elements (this s))
          ∧ (∀ e s', Vec.reserve n s = Throw e s' → this s' = this s)
          ∧ (¬ throwing → allocatable n → ∃ s', Vec.reserve n s = Ret tt s'))).
Proof.
  split.
  - eexists. split; [apply reserve_of_a_wrapping_size|].
    split_and!; [apply holds_ints; fits|by rewrite N2Nat.id|done..].
  - intros T W H HR n xs s. apply reserve_within_size_t.
Qed.

(** C7. [shrink()] on an empty vector that has a block does not return.  In
    the [relocatable] branch, [growShrinkAux(0)] calls [realloc(start_, 0)],
    which frees the block and returns a null pointer, and the code throws
    [std::bad_alloc]: so it is for a [Vector<int>] of capacity three and no
    elements, for a [Vector<int>] after [clear()], and for [resize(0)] on
    the same vectors.  The block is gone; the model shows the vector without
    a block, where the code leaves its three pointers pointing into the
    block that was freed.  On a vector that is not empty, or whose block
    does not go through [realloc], [shrink()] does what is claimed: the
    capacity becomes the size, the size and the elements are what they
    were, a second [shrink()] leaves the very same vector, and both calls
    return whenever nothing throws. *)
Theorem shrink_frees_the_block_of_an_empty_vector :
  (holds (this (ints [] 3)) []
   ∧ length (storage (this (ints [] 3))) = 3
   ∧ ∃ s', Vec.shrink (ints [] 3) = Throw bad_alloc s'
           ∧ storage (this s') = [])
  ∧ (∃ s1 s',
       Vec.clear (ints [1; 2]%Z 0) = Ret tt s1
       ∧ Vec.shrink s1 = Throw bad_alloc s'
       ∧ storage (this s') = [])
  ∧ (∃ s', Vec.resize 0 (ints [] 3) = Throw bad_alloc s'
           ∧ storage (this s') = [])
  ∧ (∀ (T W : Type) (H : Traits T W), Regular → ∀ xs (s : Machine T W),
       holds (this s) xs → xs ≠ [] ∨ relocatable = false →
       (∀ s1, Vec.shrink s = Ret tt s1 →
          length (storage (this s1)) = finish_ (this s1)
          ∧ finish_ (this s1) = finish_ (this s)
          ∧ holds (this s1) xs
          ∧ elements (this s1) = elements (this s)
          ∧ ∀ s2, Vec.shrink s1 = Ret tt s2 → this s2 = this s1)
       ∧ (¬ throwing → ∃ s1 s2, Vec.shrink s = Ret tt s1 ∧ Vec.shrink s1 = Ret tt s2)).
Proof.
  split; [|split; [|split]].
  - split; [apply holds_ints; fits|]. split; [done|].
    eexists. split; [by vm_compute|done].
  - eexists _, _. split; [by vm_compute|]. split; [by vm_compute|done].
  - eexists. split; [by vm_compute|done].
  - intros T W H HR xs s. apply shrink_of_a_vector_that_is_not_empty.
Qed.

(** C8. The invariant [size() <= capacity()] does not hold of every vector
    that a program can reach.  The [Vector<int>] that [Vector(first, last)]
    builds from [{1, 2}] has size and capacity two; [reserve(2^62 + 1)] on
    it returns with capacity one and size two.  Along calls in which
    [resize] and [reserve] are asked for sizes whose byte count does not
    wrap, the invariant does hold of every vector that the constructors and
    the member functions of [operation] give, returning or throwing; and
    along any sequence of [push_back] and [pop_back] calls that return, the
    size at the end plus the number of pops is the size at the start plus
    the number of pushes; on a vector fresh from the default constructor
    the size is the number of pushes minus the number of pops.  The member
    functions of [operation] are the public ones that change a vector, with
    the range overloads for forward iterators, and for input iterators
    [assign] and [insert] at [end()]; [operator=] and [insert] of input
    iterators before [end()] are not among them. *)
Theorem size_exceeds_capacity_after_a_wrapping_reserve :
  (∃ v : Vector Z,
     reachable any_call v ∧ finish_ v = 2 ∧ length (storage v) = 1)
  ∧ (∀ (T W : Type) (H : Traits T W),
       (∀ v : Vector T, reachable modest v → 0 ≤ finish_ v ≤ length (storage v))
       ∧ (∀ l (s s' : Machine T W),
            reachable modest (this s) → for_each back_call l s = Ret tt s' →
            finish_ (this s') + pops l = finish_ (this s) + pushes l)
       ∧ (∀ l (s0 s s' : Machine T W), construct new_default s0 = Ret tt s →
            for_each back_call l s = Ret tt s' →
            pops l ≤ pushes l ∧ finish_ (this s') = pushes l - pops l)).
Proof.
  split.
  - exists (mkVector [Live 1%Z] 2). split; [|done].
    change (mkVector [Live 1%Z] 2)
      with (this (mkMachine (mkVector [Live 1%Z] 2) null 0%Z)).
    apply (reachable_ret any_call (call_reserve (N.to_nat (2 ^ 62 + 1)))
             (ints [1; 2]%Z 0)); [done| |done|apply reserve_of_a_wrapping_size].
    by apply (reachable_new any_call (new_range [Val 1%Z; Val 2%Z]) (boot 0%Z)).
  - intros T W H. apply size_within_capacity_along_modest_calls.
Qed.

Lemma erase_range_closes_the_gap_witness :
  holds (this (ints [1; 2; 3; 4; 5]%Z 0)) [1; 2; 3; 4; 5]%Z
  ∧ ∃ s', Vec.erase_range 1 3 (ints [1; 2; 3; 4; 5]%Z 0) = Ret 1 s'
          ∧ holds (this s') [1; 4; 5]%Z ∧ [1; 4; 5]%Z !! 1 = Some 4%Z.
Proof.
  assert (holds (this (ints [1; 2; 3; 4; 5]%Z 0)) [1; 2; 3; 4; 5]%Z) as Hxs
    by (apply holds_ints; fits).
  split; [done|].
  destruct (erase_range_closes_the_gap 1 3 [1; 2; 3; 4; 5]%Z _ Hxs) as (Hret & _ & Hex).
  { simpl. lia. }
  destruct (Hex int_quiet) as (r & s' & Hs').
  destruct (Hret _ _ Hs') as (-> & ? & _).
  exists s'. done.
Defined.

Lemma at_checks_the_index_witness :
  holds (this (ints [10; 20]%Z 1)) [10; 20]%Z
  ∧ Vec.at_ 1 (ints [10; 20]%Z 1) = Ret 20%Z (ints [10; 20]%Z 1)
  ∧ Vec.at_ 2 (ints [10; 20]%Z 1) = Throw out_of_range (ints [10; 20]%Z 1).
Proof.
  assert (holds (this (ints [10; 20]%Z 1)) [10; 20]%Z) as Hxs by (apply holds_ints; fits).
  split; [done|]. split.
  - destruct (at_checks_the_index 1 [10; 20]%Z _ Hxs) as (_ & _ & Hin).
    destruct Hin as (x & Hx & Hat & _); [simpl; lia|].
    by injection Hx as <-.
  - destruct (at_checks_the_index 2 [10; 20]%Z _ Hxs) as (Hout & _).
    apply Hout. simpl. lia.
Defined.


(** * Further properties of the vector *)

Section MoreSizes.
Context `{Traits T W}.
Implicit Types (s : Machine T W) (v : Vector T) (e : exn) (sh : sizes).

Lemma pushes_cons o (l : list (back_operation (T := T))) :
  pushes (o :: l) = (if o is pop then 0 else 1) + pushes l.
Proof. done. Qed.

Lemma back_call_step (o : back_operation) sh :
  sized (of_this sh) →
  wps (back_call o)
    (λ _ sh', sized (of_this sh')
       ∧ of_this sh' =
           match o with
           | pop => mkExtent (cap (of_this sh)) (len (of_this sh) - 1)
           | _ => appended (of_this sh)
           end
       ∧ (o = pop → len (of_this sh) ≠ 0))
    (λ _ _, True) sh.
Proof.
  intros ?. destruct o; simpl.
  - eapply wps_mono; [by apply push_back_sizes| |done]. by intros _ sh' [-> ?].
  - eapply wps_mono; [by apply push_back_move_sizes| |done]. by intros _ sh' [-> ?].
  - eapply wps_mono; [by apply pop_back_sizes| |done].
    intros _ sh' [? Hsh']. rewrite Hsh'. sizes.
Qed.

Lemma back_calls_in_place l sh :
  sized (of_this sh) → len (of_this sh) + pushes l ≤ cap (of_this sh) →
  wps (for_each back_call l)
    (λ _ sh', cap (of_this sh') = cap (of_this sh)) (λ _ _, True) sh.
Proof.
  revert sh. induction l as [|o l IH]; intros sh Hsh Hfit; simpl.
  - by apply wps_ret.
  - rewrite pushes_cons in Hfit. apply wps_bind.
    eapply wps_mono; [by apply back_call_step| |done].
    intros _ sh1 (Hsh1 & Hstep & Hpop).
    assert (cap (of_this sh1) = cap (of_this sh)
            ∧ len (of_this sh1) + pushes l ≤ cap (of_this sh)) as [Hcap Hlen].
    { rewrite Hstep. destruct o; simpl; try case_decide; lia. }
    eapply wps_mono; [apply IH; [done|lia]| |done].
    intros _ sh2 ->. done.
Qed.

Lemma back_calls_growth l sh k :
  sized (of_this sh) → cap (of_this sh) + 1 = 2 ^ k →
  wps (for_each back_call l)
    (λ _ sh', (∃ k', cap (of_this sh') + 1 = 2 ^ k')
              ∧ cap (of_this sh')
                ≤ cap (of_this sh) `max` (2 * (len (of_this sh) + pushes l)))
    (λ _ _, True) sh.
Proof.
  revert sh k. induction l as [|o l IH]; intros sh k Hsh Hk; simpl.
  - apply wps_ret. split; [eauto|lia].
  - rewrite pushes_cons. apply wps_bind.
    eapply wps_mono; [by apply back_call_step| |done].
    intros _ sh1 (Hsh1 & Hstep & Hpop).
    assert (∃ k1, cap (of_this sh1) + 1 = 2 ^ k1) as [k1 Hk1].
    { rewrite Hstep. destruct o; simpl; try case_decide; eauto;
        exists (S k); rewrite Nat.pow_succ_r'; lia. }
    eapply wps_mono; [by apply (IH sh1 k1)| |done].
    intros _ sh2 [Hpow Hle]. split; [done|].
    rewrite Hstep in Hle. destruct Hsh as [Hsh _].
    destruct o; simpl in *; try case_decide; lia.
Qed.

(** X1. While the elements fit, nothing is reallocated: along a sequence of
    [push_back] and [pop_back] calls whose pushes fit in the spare capacity,
    the capacity stays what it was. *)
Theorem push_back_within_capacity_keeps_the_block l s s' :
  sized (size_of (this s)) →
  finish_ (this s) + pushes l ≤ length (storage (this s)) →
  for_each back_call l s = Ret tt s' →
  length (storage (this s')) = length (storage (this s)).
Proof.
  intros Hs Hfit Hl.
  by apply (wps_ret_inv _ _ _ _ _ _ (back_calls_in_place l (shape s) Hs Hfit)) in Hl.
Qed.

(** X2. Growth is geometric: on a vector fresh from the default constructor,
    after any sequence of [push_back] and [pop_back] calls the capacity is
    one less than a power of two and at most twice the number of pushes. *)
Theorem push_back_grows_geometrically l s0 s s' :
  construct new_default s0 = Ret tt s →
  for_each back_call l s = Ret tt s' →
  (∃ k, length (storage (this s')) + 1 = 2 ^ k)
  ∧ length (storage (this s')) ≤ 2 * pushes l.
Proof.
  intros Hnew Hl.
  apply (wps_ret_inv _ _ _ _ _ _ (Vector_default_sizes This (shape s0))) in Hnew.
  assert (of_this (shape s) = mkExtent 0 0) as Hs by by rewrite Hnew.
  simpl in Hs. injection Hs as Hcap Hlen.
  assert (sized (size_of (this s))) as Hsized.
  { split; simpl; [lia|]. rewrite Hcap. apply allocatable_0. }
  apply (wps_ret_inv _ _ _ _ _ _
    (back_calls_growth l (shape s) 0 Hsized ltac:(by simpl; rewrite Hcap))) in Hl
    as [Hpow Hle].
  split; [done|]. simpl in Hle. lia.
Qed.

(** X3. [assign], in its three overloads, leaves as many elements as it was
    given and never gives capacity back: afterwards the capacity is the
    larger of the old capacity and the new size. *)
Theorem assign_sets_the_size_and_keeps_capacity s :
  sized (size_of (this s)) →
  (∀ count value s', Vec.assign count value s = Ret tt s' →
     finish_ (this s') = count
     ∧ length (storage (this s')) = length (storage (this s)) `max` count)
  ∧ (∀ first_last s', Vec.assign_range first_last s = Ret tt s' →
       finish_ (this s') = length first_last
       ∧ length (storage (this s')) = length (storage (this s)) `max` length first_last)
  ∧ (∀ ilist s', Vec.assign_list ilist s = Ret tt s' →
       finish_ (this s') = length ilist
       ∧ length (storage (this s')) = length (storage (this s)) `max` length ilist).
Proof.
  intros Hs. split_and!.
  - intros count value s' Hr.
    by apply (wps_ret_inv _ _ _ _ _ _ (assign_sizes count value (shape s) Hs)) in Hr
      as (_ & ? & ?).
  - intros first_last s' Hr.
    by apply (wps_ret_inv _ _ _ _ _ _ (assign_range_sizes first_last (shape s) Hs)) in Hr
      as (_ & ? & ?).
  - intros ilist s' Hr.
    by apply (wps_ret_inv _ _ _ _ _ _ (assign_list_sizes ilist (shape s) Hs)) in Hr
      as (_ & ? & ?).
Qed.
End MoreSizes.

Section MoreMembers.
Context `{Traits T W} `{!Regular}.
Implicit Types (s : Machine T W) (v : Vector T) (xs ys : list T) (e : exn).

Lemma clear_spec u xs s :
  holds (this s) xs →
  wp u (Vec.clear : M T W _)
    (λ _ s', holds (this s') []
             ∧ length (storage (this s')) = length (storage (this s))
             ∧ tmp s' = tmp s ∧ world s' = world s)
    (λ _ _, False) s.
Proof.
  intros Hxs. pose proof Hxs as (Hle & Hal & _).
  unfold Vec.clear. apply wp_bind, wp_get, wp_bind, wp_destroy.
  { intros j Hj. destruct (holds_live _ _ (0 + j) Hxs) as (y & _ & ?); [lia|]. eauto. }
  intros s1 (Htmp & Hw & Hfin & Hl & Hsame & Hraw). simpl in *.
  apply wp_modify. simpl. split_and!; try done.
  apply holds_lookup. simpl. rewrite Hl. split_and!; [lia|done|done|].
  intros j x Hx. done.
Qed.

Lemma erase_spec pos xs s :
  holds (this s) xs → pos < length xs →
  wp throwing (Vec.erase pos)
    (λ r s', r = pos
             ∧ holds (this s') (take pos xs ++ drop (S pos) xs)
             ∧ length (storage (this s')) = length (storage (this s)))
    (λ e s', throwing ∧ e = element_error) s.
Proof.
  intros Hxs Hpos. pose proof (holds_length _ _ Hxs) as Hlen.
  pose proof Hxs as (Hle & Hal & _ & Hlook)%holds_lookup.
  unfold Vec.erase. apply wp_bind, wp_get, wp_bind.
  case_decide; [apply wp_ret|lia]. apply wp_bind.
  assert (∀ s1 : Machine T W,
    length (storage (this s1)) = length (storage (this s)) →
    (∀ i, i < pos → storage (this s1) !! i = storage (this s) !! i) →
    (∀ j x, xs !! (pos + 1 + j) = Some x →
            storage (this s1) !! (pos + j) = Some (Live x)) →
    (∃ y, storage (this s1) !! (length xs - 1) = Some (Live y)) →
    wp throwing
      (Vec.set_finish This (finish_ (this s) - 1);;
       destroy_at (This, finish_ (this s) - 1);; mret pos)
      (λ r s', r = pos
               ∧ holds (this s') (take pos xs ++ drop (S pos) xs)
               ∧ length (storage (this s')) = length (storage (this s)))
      (λ e s', throwing ∧ e = element_error) s1) as Hrest.
  { intros s1 Hl Hlow Hmoved [y Hy].
    apply wp_bind, wp_modify, wp_bind. simpl.
    apply (wp_destroy_at_live _ _ y); simpl; [by rewrite <-Hlen|].
    apply wp_ret. simpl. rewrite length_insert. split_and!; [done| |done].
    apply holds_lookup. simpl.
    rewrite length_insert, length_app, length_take, length_drop.
    split_and!; [lia|by rewrite Hl|lia|].
    intros j x Hx. assert (j < length xs - 1).
    { apply lookup_lt_Some in Hx.
      rewrite length_app, length_take, length_drop in Hx. lia. }
    rewrite list_lookup_insert_ne by lia.
    apply lookup_app_Some in Hx as [Hx|[Hj Hx]].
    - apply lookup_take_Some in Hx as [Hx Hj]. rewrite Hlow by done. by apply Hlook.
    - rewrite length_take in Hj. rewrite length_take, lookup_drop in Hx.
      replace (pos `min` length xs) with pos in * by lia.
      replace j with (pos + (j - pos)) by lia. apply Hmoved.
      rewrite <-Hx. f_equal. lia. }
  case_decide as Hlast.
  - rewrite <-Hlen. replace (length xs - (pos + 1)) with (length xs - (pos + 1)) by done.
    apply (move_down_spec pos (pos + 1) xs); [done|lia| |].
    + intros s1 Htmp Hfin Hl Hlow Hmoved Hlive. rewrite Hlen. apply Hrest; try done.
      * apply Hlive. lia.
    + intros Hthrow s'. done.
  - apply wp_ret, Hrest; try done.
    + intros j x Hx. apply lookup_lt_Some in Hx. lia.
    + destruct (holds_live _ _ (length xs - 1) Hxs) as (y & _ & ?); [lia|]. eauto.
Qed.

Lemma resize_down_spec u n xs s :
  holds (this s) xs → n < length xs →
  wp u (Vec.resize n : M T W _)
    (λ _ s', holds (this s') (take n xs)
             ∧ length (storage (this s')) = length (storage (this s))
             ∧ tmp s' = tmp s ∧ world s' = world s)
    (λ _ _, False) s.
Proof.
  intros Hxs Hn. pose proof (holds_length _ _ Hxs) as Hlen.
  pose proof Hxs as (Hle & Hal & _ & Hlook)%holds_lookup.
  unfold Vec.resize. apply wp_bind, wp_get, wp_bind, wp_get, wp_bind.
  case_decide; [|lia]. apply wp_destroy.
  { intros j Hj. destruct (holds_live _ _ (n + j) Hxs) as (y & _ & ?); [lia|]. eauto. }
  intros s1 (Htmp & Hw & Hfin & Hl & Hsame & Hraw). simpl in *.
  apply wp_modify. simpl. split_and!; try done.
  apply holds_lookup. simpl. rewrite Hl, length_take.
  split_and!; [lia|done|lia|].
  intros j x [Hx Hj]%lookup_take_Some. rewrite Hsame by lia. by apply Hlook.
Qed.

(** X4. [push_back] of a value of the caller appends it.  When it throws
    instead, the exception is [std::bad_alloc] or what a constructor of [T]
    threw, and the elements are the ones that were there.  It returns
    whenever nothing throws and a block of [2 * capacity + 1] elements can be
    requested. *)
Theorem push_back_appends_or_keeps_the_elements xs x s :
  holds (this s) xs →
  (∀ s', Vec.push_back (Val x) s = Ret tt s' →
     holds (this s') (xs ++ [x]) ∧ finish_ (this s') = finish_ (this s) + 1)
  ∧ (∀ e s', Vec.push_back (Val x) s = Throw e s' →
       (e = bad_alloc ∨ e = element_error) ∧ holds (this s') xs)
  ∧ (¬ throwing → allocatable (2 * length (storage (this s)) + 1) →
     ∃ s', Vec.push_back (Val x) s = Ret tt s').
Proof.
  intros Hxs. pose proof (push_back_spec xs x s Hxs) as Hspec. split_and!.
  - intros s' Hr. apply (wp_ret_inv _ _ _ _ _ _ _ Hspec) in Hr as [? Hsize].
    split; [done|]. by injection Hsize.
  - intros e s' Hr. by apply (wp_throw_inv _ _ _ _ _ _ _ Hspec) in Hr as (_ & ? & ?).
  - intros Hquiet Hal.
    destruct (wp_returns _ _ _ _ _ Hspec Hquiet) as ([] & s' & Hr & _); [|eauto].
    intros e s' ([?|?] & _); done.
Qed.

(** X5. [pop_back] undoes [push_back]: after a [push_back] that returns,
    [back()] is the value pushed, and [pop_back()] returns and leaves the
    elements that were there before. *)
Theorem pop_back_undoes_push_back xs x s s1 :
  holds (this s) xs →
  Vec.push_back (Val x) s = Ret tt s1 →
  Vec.back s1 = Ret x s1
  ∧ ∃ s2, Vec.pop_back s1 = Ret tt s2
          ∧ holds (this s2) xs
          ∧ finish_ (this s2) = finish_ (this s)
          ∧ length (storage (this s2)) = length (storage (this s1)).
Proof.
  intros Hxs Hpush.
  apply (wp_ret_inv _ _ _ _ _ _ _ (push_back_spec xs x s Hxs)) in Hpush as [Hxs1 _].
  split; [by apply (back_spec xs)|].
  destruct (pop_back_spec xs x s1 Hxs1) as (s2 & Hpop & Hxs2 & Hcap & _).
  exists s2. split_and!; try done.
  apply holds_length in Hxs, Hxs2. lia.
Qed.

(** X6. [reserve(n)], for an [n] whose byte count [n * sizeof(T)] does not
    wrap, never throws [std::length_error]: [maxSize()] is the largest
    [SizeType].  What it throws is [std::bad_alloc] or what a constructor of
    [T] threw, only when [n > capacity()], and the vector is then as it
    was. *)
Theorem reserve_throws_only_from_growth n xs s e s' :
  holds (this s) xs → representable n →
  Vec.reserve n s = Throw e s' →
  (e = bad_alloc ∨ e = element_error)
  ∧ length (storage (this s)) < n
  ∧ this s' = this s.
Proof.
  intros Hxs Hn. pose proof (holds_length _ _ Hxs) as Hlen.
  pose proof Hxs as (Hle & _).
  unfold Vec.reserve, Vec.maxSize, Vec.capacity, get, mbind, M_bind.
  rewrite decide_False by (unfold representable in Hn; nia). simpl.
  case_decide as Hcap; [|done]. intros Hr.
  pose proof Hr as He.
  apply (wps_throw_inv _ _ _ _ _ _ (growShrinkAux_sizes n (shape s))) in He as [He _].
  apply (wp_throw_inv _ _ _ _ _ _ _
    (growShrinkAux_spec n xs s Hxs ltac:(lia) ltac:(left; lia) Hn)) in Hr
    as (_ & _ & ?).
  done.
Qed.

(** X7. Nothing checks for an empty vector but [at] and [empty]: on a vector
    without elements [back()], [pop_back()] and [erase(begin())] are
    undefined, and so are [top()] and [pop()] of a stack on it, while [at(i)]
    throws [std::out_of_range] and [empty()] is true. *)
Theorem empty_vector_has_no_last_element s :
  finish_ (this s) = 0 →
  Vec.back s = Undefined
  ∧ Vec.pop_back s = Undefined
  ∧ (∀ pos, Vec.erase pos s = Undefined)
  ∧ Stack.top s = Undefined
  ∧ Stack.pop s = Undefined
  ∧ (∀ i, Vec.at_ i s = Throw out_of_range s)
  ∧ Vec.empty s = Ret true s
  ∧ Stack.empty s = Ret true s.
Proof.
  intros Hn. split_and!; try by (apply back_empty || apply pop_back_empty).
  - intros pos. unfold Vec.erase, Vec.size, get, mbind, M_bind. simpl.
    rewrite Hn. by rewrite decide_False by lia.
  - intros i. unfold Vec.at_, Vec.rangeCheck, Vec.size, get, mbind, M_bind. simpl.
    rewrite Hn. by rewrite decide_True by lia.
  - unfold Vec.empty, Vec.size, get, mbind, M_bind. simpl. by rewrite Hn.
  - unfold Stack.empty, Vec.empty, Vec.size, get, mbind, M_bind. simpl. by rewrite Hn.
Qed.

(** X8. [clear()] always returns: it throws nothing, leaves no element and
    keeps the capacity. *)
Theorem clear_empties_and_keeps_capacity xs s :
  holds (this s) xs →
  ∃ s', Vec.clear s = Ret tt s'
        ∧ holds (this s') []
        ∧ finish_ (this s') = 0
        ∧ length (storage (this s')) = length (storage (this s))
        ∧ tmp s' = tmp s ∧ world s' = world s.
Proof.
  intros Hxs.
  destruct (wp_returns _ _ _ _ _ (clear_spec False xs s Hxs)) as ([] & s' & Hr & Hs');
    [tauto|by intros ? ? []|].
  exists s'. destruct Hs' as (Hxs' & ? & ? & ?). split_and!; try done.
  by apply holds_length in Hxs'.
Qed.

(** X9. [erase(pos)] on an element of the vector removes that element and
    nothing else: the elements before it stay, the ones after it come down by
    one, the capacity is kept and the position returned is [pos].  It returns
    when no assignment throws, and an assignment is all that can throw. *)
Theorem erase_removes_one_element pos xs s :
  holds (this s) xs → pos < length xs →
  (∀ r s', Vec.erase pos s = Ret r s' →
     r = pos
     ∧ holds (this s') (take pos xs ++ drop (S pos) xs)
     ∧ finish_ (this s') = finish_ (this s) - 1
     ∧ length (storage (this s')) = length (storage (this s)))
  ∧ (∀ e s', Vec.erase pos s = Throw e s' → e = element_error)
  ∧ (¬ throwing → ∃ s', Vec.erase pos s = Ret pos s').
Proof.
  intros Hxs Hpos. pose proof (erase_spec pos xs s Hxs Hpos) as Hspec. split_and!.
  - intros r s' Hr. apply (wp_ret_inv _ _ _ _ _ _ _ Hspec) in Hr as (-> & Hxs' & ?).
    split_and!; try done.
    apply holds_length in Hxs, Hxs'.
    rewrite length_app, length_take, length_drop in Hxs'. lia.
  - intros e s' Hr. by apply (wp_throw_inv _ _ _ _ _ _ _ Hspec) in Hr as [_ ?].
  - intros Hquiet.
    destruct (wp_returns _ _ _ _ _ Hspec Hquiet) as (r & s' & Hr & -> & _); [|eauto].
    intros e s' [? _]. done.
Qed.

(** X10. [resize(n)] with [n < size()] always returns: it throws nothing,
    keeps the first [n] elements and the capacity. *)
Theorem resize_down_keeps_a_prefix n xs s :
  holds (this s) xs → n < length xs →
  ∃ s', Vec.resize n s = Ret tt s'
        ∧ holds (this s') (take n xs)
        ∧ finish_ (this s') = n
        ∧ length (storage (this s')) = length (storage (this s))
        ∧ tmp s' = tmp s ∧ world s' = world s.
Proof.
  intros Hxs Hn.
  destruct (wp_returns _ _ _ _ _ (resize_down_spec False n xs s Hxs Hn))
    as ([] & s' & Hr & Hs'); [tauto|by intros ? ? []|].
  exists s'. destruct Hs' as (Hxs' & ? & ? & ?). split_and!; try done.
  apply holds_length in Hxs'. rewrite length_take in Hxs'. lia.
Qed.
End MoreMembers.

Section Construction.
Context `{Traits T W} `{!Regular}.
Implicit Types (s : Machine T W) (v : Vector T) (xs ys : list T) (e : exn) (o : obj).

Lemma vec_with_world o s w : vec o (with_world s w) = vec o s.
Proof. by destruct o. Qed.

Lemma wp_make_external o i s0 s Q E :
  external o s0 i → vec (other o) s = vec (other o) s0 →
  (∀ x w, gives o s0 i x → Q x (with_world s w)) →
  (throwing → ∀ w, E element_error (with_world s w)) →
  wp throwing (make i) Q E s.
Proof.
  intros Hi Hother HQ HE. destruct i as [[x|p|]|a|c]; simpl in Hi; try done.
  - simpl. apply wp_bind, wp_ret, wp_copy_constructor; [|done].
    intros w. by apply HQ.
  - destruct Hi as [Hp [x Hx]]. simpl. apply wp_bind.
    apply (wp_read_live _ _ x); [by rewrite Hp, Hother|].
    apply wp_copy_constructor; [|done]. intros w. by apply HQ.
  - subst c. simpl. apply wp_effect.
    + intros x Hx. rewrite <-(with_world_id s) at 1. unfold with_world. simpl.
      apply (HQ x ((default_construct (world s)).1)). simpl. eauto.
    + intros Hx. apply (HE (throwing_default _ Hx)).
Qed.

Lemma wp_uninitialized_external o d (l : list (init T W)) Q E s :
  d + length l ≤ length (storage (vec o s)) →
  (∀ k i, l !! k = Some i → external o s i) →
  (∀ ys s', Forall2 (gives o s) l ys → constructed o d ys s s' → Q tt s') →
  (throwing → ∀ s',
     vec (other o) s' = vec (other o) s →
     finish_ (vec o s') = finish_ (vec o s) →
     length (storage (vec o s')) = length (storage (vec o s)) →
     (∀ i, i < d → storage (vec o s') !! i = storage (vec o s) !! i) →
     E element_error s') →
  wp throwing (std.uninitialized_copy l (o, d)) Q E s.
Proof.
  intros Hfit Hl HQ HE.
  apply (wp_uninitialized_copy _ _ _
    (λ k s', ∃ ys, length ys = k ∧ Forall2 (gives o s) (take k l) ys
                   ∧ constructed o d ys s s')
    (λ k e s', throwing ∧ e = element_error
               ∧ vec (other o) s' = vec (other o) s
               ∧ finish_ (vec o s') = finish_ (vec o s)
               ∧ length (storage (vec o s')) = length (storage (vec o s))
               ∧ (∀ j, j < k → ∃ y, storage (vec o s') !! (d + j) = Some (Live y))
               ∧ (∀ i, i < d → storage (vec o s') !! i = storage (vec o s) !! i))).
  - exists []. rewrite take_0. unfold constructed. split_and!; try done.
  - intros k i s1 Hi (ys & Hlen & Hys & Hother & Hfin & Hcap & Hdone & Hrest).
    pose proof (lookup_lt_Some _ _ _ Hi) as Hk.
    unfold construct_at. apply wp_bind.
    apply (wp_make_external o i s); [by eapply Hl|done|..].
    + intros x w Hx. apply wp_put; simpl.
      { rewrite vec_with_world. lia. }
      exists (ys ++ [x]). rewrite length_app. simpl. split; [lia|]. split.
      { rewrite (take_S_r _ _ i) by done. apply Forall2_app; [done|]. by constructor. }
      unfold constructed.
      rewrite vec_put_ne by (by destruct o). rewrite (vec_put_eq (o, d + k)). simpl.
      rewrite !vec_with_world, length_insert, length_app. simpl.
      split_and!; try done.
      * intros j y Hy. apply lookup_app_Some in Hy as [Hy|[Hj Hy]].
        -- pose proof (lookup_lt_Some _ _ _ Hy).
           rewrite list_lookup_insert_ne by lia. by apply Hdone.
        -- assert (j = k) as -> by (apply lookup_lt_Some in Hy; simpl in Hy; lia).
           rewrite Hlen, Nat.sub_diag in Hy. simpl in Hy. injection Hy as ->.
           rewrite list_lookup_insert_eq by lia. done.
      * intros j Hj. rewrite list_lookup_insert_ne by lia. apply Hrest. lia.
    + intros Hthrow w. rewrite !vec_with_world. split_and!; try done.
      * intros j Hj. destruct (lookup_lt_is_Some_2 ys j) as [y Hy]; [lia|]. eauto.
      * intros j Hj. apply Hrest. lia.
  - intros k e s1 Hk (Hthrow & He & Hother & Hfin & Hcap & Hlive & Hrest).
    destruct (Hlive k) as [y Hy]; [lia|].
    apply (wp_destroy_at_live _ _ y); [done|].
    rewrite vec_put_ne by (by destruct o). rewrite (vec_put_eq (o, d + k)). simpl.
    rewrite length_insert. split_and!; try done.
    + intros j Hj. rewrite list_lookup_insert_ne by lia. apply Hlive. lia.
    + intros i Hi. rewrite list_lookup_insert_ne by lia. by apply Hrest.
  - intros s' (ys & Hlen & Hys & Hc). rewrite take_ge in Hys by lia. by apply (HQ ys).
  - intros e s' (Hthrow & -> & Hother & Hfin & Hcap & _ & Hrest). by apply HE.
Qed.

Lemma external_other o s s1 i :
  vec (other o) s1 = vec (other o) s → external o s i → external o s1 i.
Proof. intros Hs. destruct i as [[]| |]; simpl; by rewrite ?Hs. Qed.

Lemma gives_other o s s1 i x :
  vec (other o) s1 = vec (other o) s → gives o s1 i x → gives o s i x.
Proof. intros Hs. destruct i as [[]| |]; simpl; by rewrite ?Hs. Qed.

Lemma other_other o : other (other o) = o.
Proof. by destruct o. Qed.

Lemma vec_set_vec_eq o v s : vec o (set_vec o v s) = v.
Proof. by destruct o. Qed.

Lemma vec_set_vec_ne o o' v s : o ≠ o' → vec o (set_vec o' v s) = vec o s.
Proof. by destruct o, o'. Qed.

Lemma other_ne o : other o ≠ o.
Proof. by destruct o. Qed.

(** The three constructors that fill a new block: [create(n)], [n]
    constructions, [finish_ = start_ + n]. *)
Lemma wp_create_fill o (l : list (init T W)) n Q E s :
  n = length l → representable n →
  (∀ k i, l !! k = Some i → external o s i) →
  (∀ ys s', Forall2 (gives o s) l ys → allocatable n →
            vec o s' = mkVector (Live <$> ys) n →
            vec (other o) s' = vec (other o) s → Q tt s') →
  (throwing ∨ ¬ allocatable n → ∀ e s',
     benign e → vec (other o) s' = vec (other o) s → E e s') →
  wp throwing
    (Vec.create o n;; std.uninitialized_copy l (o, 0);; Vec.set_finish o n) Q E s.
Proof.
  intros -> Hrep Hl HQ HE. unfold Vec.create.
  apply wp_bind, wp_bind, wp_allocate; [done|..].
  - intros Hal w. apply wp_modify, wp_bind.
    set (s1 := set_vec o _ _).
    assert (vec (other o) s1 = vec (other o) s) as Hother.
    { unfold s1. rewrite vec_set_vec_ne by apply other_ne. apply vec_with_world. }
    assert (vec o s1 = mkVector (replicate (length l) Raw) 0) as Ho.
    { unfold s1. by rewrite vec_set_vec_eq. }
    apply wp_uninitialized_external.
    + rewrite Ho. simpl. by rewrite length_replicate.
    + intros k i Hi. eapply external_other; [done|]. by eapply Hl.
    + intros ys s' Hys (Hother' & Hfin & Hcap & Hdone & _).
      apply wp_modify. rewrite Ho in *. simpl in *. rewrite length_replicate in Hcap.
      apply (HQ ys).
      * eapply Forall2_impl; [done|]. intros i x. by apply gives_other.
      * done.
      * rewrite vec_set_vec_eq. f_equal. apply list_eq. intros j.
        rewrite list_lookup_fmap. pose proof (Forall2_length _ _ _ Hys) as Hlen.
        destruct (ys !! j) as [y|] eqn:Hy; simpl.
        -- by apply Hdone in Hy.
        -- apply lookup_ge_None in Hy. apply lookup_ge_None. lia.
      * rewrite vec_set_vec_ne by apply other_ne. congruence.
    + intros Hthrow s' Hother' _ _ _. apply HE; [by left|by right|congruence].
  - intros Hno w. apply HE; [done|by left|]. apply vec_with_world.
Qed.

Lemma gives_replicate o s n x ys :
  Forall2 (gives o s) (replicate n (by_copy (Val x))) ys → ys = replicate n x.
Proof.
  revert ys. induction n as [|n IH]; intros ys Hys; simpl in *.
  - by apply Forall2_nil_inv_l in Hys.
  - apply Forall2_cons_inv_l in Hys as (y & ys' & Hy & Hys & ->).
    simpl in Hy. subst. f_equal. by apply IH.
Qed.

Lemma gives_values o s xs ys :
  Forall2 (gives o s) (by_copy <$> (Val <$> xs)) ys → ys = xs.
Proof.
  revert ys. induction xs as [|x xs IH]; intros ys Hys; simpl in *.
  - by apply Forall2_nil_inv_l in Hys.
  - apply Forall2_cons_inv_l in Hys as (y & ys' & Hy & Hys & ->).
    simpl in Hy. subst. f_equal. by apply IH.
Qed.

Lemma gives_elements o s xs ys :
  holds (vec (other o) s) xs →
  Forall2 (gives o s) (by_copy <$> (At <$> range (other o, 0) (length xs))) ys →
  ys = xs.
Proof.
  intros Hxs Hys. pose proof (Forall2_length _ _ _ Hys) as Hlen.
  rewrite !length_fmap, length_range in Hlen.
  apply list_eq_same_length with (length xs); [done..|].
  intros j y x Hj Hy Hx.
  apply holds_lookup in Hxs as (_ & _ & _ & Hlook). apply Hlook in Hx.
  eapply Forall2_lookup_r in Hys as (i & Hi & Hgives); [|done].
  rewrite !list_lookup_fmap, range_lookup_lt in Hi by done. simpl in Hi.
  injection Hi as <-. simpl in Hgives. congruence.
Qed.

Lemma gives_default o s n ys :
  Forall2 (gives o s) (replicate n (by_args default_construct)) ys →
  length ys = n ∧ Forall (λ y, ∃ w, (default_construct w).2 = Some y) ys.
Proof.
  revert ys. induction n as [|n IH]; intros ys Hys; simpl in *.
  - by apply Forall2_nil_inv_l in Hys as ->.
  - apply Forall2_cons_inv_l in Hys as (y & ys' & Hy & Hys & ->).
    destruct (IH _ Hys) as [<- ?]. split; [done|]. by constructor.
Qed.

Lemma Vector_fill_spec o count x s :
  representable count →
  wp throwing (Vec.Vector_fill o count (Val x))
    (λ _ s', vec o s' = mkVector (Live <$> replicate count x) count
             ∧ allocatable count ∧ vec (other o) s' = vec (other o) s)
    (λ e s', (throwing ∨ ¬ allocatable count) ∧ benign e
             ∧ vec (other o) s' = vec (other o) s) s.
Proof.
  intros Hrep. unfold Vec.Vector_fill, std.uninitialized_fill_n. apply wp_create_fill.
  - by rewrite length_replicate.
  - done.
  - by intros k i [-> _]%lookup_replicate.
  - by intros ys s' ->%gives_replicate ? ? ?.
  - done.
Qed.

Lemma Vector_range_spec o ilist s :
  representable (length ilist) →
  wp throwing (Vec.Vector_range o (Val <$> ilist))
    (λ _ s', vec o s' = mkVector (Live <$> ilist) (length ilist)
             ∧ allocatable (length ilist) ∧ vec (other o) s' = vec (other o) s)
    (λ e s', (throwing ∨ ¬ allocatable (length ilist)) ∧ benign e
             ∧ vec (other o) s' = vec (other o) s) s.
Proof.
  intros Hrep. unfold Vec.Vector_range. rewrite length_fmap. apply wp_create_fill.
  - by rewrite !length_fmap.
  - done.
  - intros k i Hi. rewrite !list_lookup_fmap in Hi.
    destruct (ilist !! k); by simplify_eq/=.
  - by intros ys s' ->%gives_values ? ? ?.
  - done.
Qed.

Lemma Vector_count_spec count s :
  representable count →
  wp throwing (Vec.Vector_count This count)
    (λ _ s', ∃ ds, length ds = count
                   ∧ Forall (λ d, ∃ w, (default_construct w).2 = Some d) ds
                   ∧ this s' = mkVector (Live <$> ds) count
                   ∧ allocatable count ∧ tmp s' = tmp s)
    (λ e s', (throwing ∨ ¬ allocatable count) ∧ benign e ∧ tmp s' = tmp s) s.
Proof.
  intros Hrep.
  unfold Vec.Vector_count, std.uninitialized_default_construct_n. apply wp_create_fill.
  - by rewrite length_replicate.
  - done.
  - by intros k i [-> _]%lookup_replicate.
  - intros ys s' [? ?]%gives_default ? ? ?. by exists ys.
  - done.
Qed.

Lemma Vector_copy_spec xs s :
  holds (tmp s) xs →
  wp throwing (Vec.Vector_copy This)
    (λ _ s', this s' = mkVector (Live <$> xs) (length xs) ∧ tmp s' = tmp s)
    (λ e s', throwing ∧ benign e ∧ tmp s' = tmp s) s.
Proof.
  intros Hxs. pose proof (holds_length _ _ Hxs) as Hlen.
  pose proof Hxs as (Hle & Hal & _).
  unfold Vec.Vector_copy. apply wp_bind, wp_get. simpl. rewrite <-Hlen.
  unfold Vec.Vector_range. rewrite !length_fmap, length_range.
  apply (wp_create_fill This).
  - by rewrite !length_fmap, length_range.
  - no_wrap.
  - intros k i Hi. rewrite !list_lookup_fmap in Hi.
    destruct (range (Tmp, 0) (length xs) !! k) as [p|] eqn:Hp; simplify_eq/=.
    apply range_lookup in Hp as [-> Hk]. split; [done|]. simpl.
    destruct (holds_live _ _ k Hxs) as (y & _ & ?); [lia|]. eauto.
  - intros ys s' Hys ? ? ?. apply (gives_elements This) in Hys as ->; done.
  - intros [?|Hno] e s' ? ?; [done|].
    destruct Hno. unfold allocatable in *. lia.
Qed.

(** X11. The constructors [Vector(count, value)] and [Vector(ilist)] build
    exactly their arguments in a block of exactly that many elements, and
    [Vector(count)], for a [count] whose byte count [count * sizeof(T)] does
    not wrap, builds [count] default-constructed elements, each with a value
    that default construction of [T] can give (for [int], whatever the
    memory held); the other vector of the program is not touched.  They
    return whenever nothing throws and the block can be requested, which
    needs [count * sizeof(T)] to be at most [HEAP_MAX]. *)
Theorem constructors_build_their_arguments count x ilist s :
  (∀ s', Vec.Vector_fill This count (Val x) s = Ret tt s' →
     holds (this s') (replicate count x)
     ∧ length (storage (this s')) = count ∧ tmp s' = tmp s)
  ∧ (∀ s', Vec.Vector_range This (Val <$> ilist) s = Ret tt s' →
       holds (this s') ilist
       ∧ length (storage (this s')) = length ilist ∧ tmp s' = tmp s)
  ∧ (∀ s', representable count → Vec.Vector_count This count s = Ret tt s' →
       ∃ ds, holds (this s') ds ∧ length ds = count
             ∧ Forall (λ d, ∃ w, (default_construct w).2 = Some d) ds
             ∧ length (storage (this s')) = count ∧ tmp s' = tmp s)
  ∧ (¬ throwing → allocatable count →
     (∃ s', Vec.Vector_fill This count (Val x) s = Ret tt s')
     ∧ (∃ s', Vec.Vector_count This count s = Ret tt s'))
  ∧ (¬ throwing → allocatable (length ilist) →
     ∃ s', Vec.Vector_range This (Val <$> ilist) s = Ret tt s').
Proof.
  assert (∀ (ys : list T) n v, length ys = n → allocatable n →
    v = mkVector (Live <$> ys) n → holds v ys ∧ length (storage v) = n) as Hholds.
  { intros ys n v Hn Hal ->. unfold holds. simpl. rewrite length_fmap, Hn.
    split_and!; try done. rewrite take_ge; [done|]. rewrite length_fmap. lia. }
  split_and!.
  - intros s' Hr.
    pose proof (wps_ret_inv _ _ _ _ _ _
      (Vector_fill_sizes This count (Val x) (shape s)) Hr) as [_ Hrep].
    apply allocatable_representable in Hrep.
    apply (wp_ret_inv _ _ _ _ _ _ _ (Vector_fill_spec This count x s Hrep)) in Hr
      as (Hv & Hal & ?).
    destruct (Hholds (replicate count x) count (this s')); try done.
    by rewrite length_replicate.
  - intros s' Hr.
    pose proof (wps_ret_inv _ _ _ _ _ _
      (Vector_range_sizes This (Val <$> ilist) (shape s)) Hr) as [_ Hrep].
    rewrite length_fmap in Hrep. apply allocatable_representable in Hrep.
    apply (wp_ret_inv _ _ _ _ _ _ _ (Vector_range_spec This ilist s Hrep)) in Hr
      as (Hv & Hal & ?).
    destruct (Hholds ilist (length ilist) (this s')); done.
  - intros s' Hrep Hr.
    apply (wp_ret_inv _ _ _ _ _ _ _ (Vector_count_spec count s Hrep)) in Hr
      as (ds & Hlen & Hds & Hv & Hal & ?).
    destruct (Hholds ds count (this s')); try done. by exists ds.
  - intros Hquiet Hal. pose proof (allocatable_representable _ Hal) as Hrep. split.
    + destruct (wp_returns _ _ _ _ _ (Vector_fill_spec This count x s Hrep) Hquiet)
        as ([] & s' & Hr & _); [|eauto].
      intros e s' ([?|?] & _); done.
    + destruct (wp_returns _ _ _ _ _ (Vector_count_spec count s Hrep) Hquiet)
        as ([] & s' & Hr & _); [|eauto].
      intros e s' ([?|?] & _); done.
  - intros Hquiet Hal. pose proof (allocatable_representable _ Hal) as Hrep.
    destruct (wp_returns _ _ _ _ _ (Vector_range_spec This ilist s Hrep) Hquiet)
      as ([] & s' & Hr & _); [|eauto].
    intros e s' ([?|?] & _); done.
Qed.

(** X12. The copy constructor builds a vector with the elements of its
    source, in a block of exactly [size()] elements, and leaves the source as
    it is, also when it throws; it returns whenever nothing throws.  The move
    constructor takes the block of its source, leaves the source without
    elements or capacity, and constructs nothing. *)
Theorem copy_constructor_copies_and_move_constructor_takes xs s :
  holds (tmp s) xs →
  (∀ s', Vec.Vector_copy This s = Ret tt s' →
     holds (this s') xs ∧ length (storage (this s')) = length xs ∧ tmp s' = tmp s)
  ∧ (∀ e s', Vec.Vector_copy This s = Throw e s' →
       (e = bad_alloc ∨ e = element_error) ∧ tmp s' = tmp s)
  ∧ (¬ throwing → ∃ s', Vec.Vector_copy This s = Ret tt s')
  ∧ (∃ s', Vec.Vector_move This s = Ret tt s'
           ∧ this s' = tmp s ∧ tmp s' = null ∧ world s' = world s).
Proof.
  intros Hxs. pose proof (Vector_copy_spec xs s Hxs) as Hspec. split_and!.
  - intros s' Hr. apply (wp_ret_inv _ _ _ _ _ _ _ Hspec) in Hr as [Hv ?].
    pose proof Hxs as (Hle & Hal & _). apply holds_length in Hxs.
    rewrite Hv. unfold holds. simpl. rewrite length_fmap.
    split_and!; try done.
    + unfold allocatable in *. lia.
    + rewrite take_ge; [done|]. by rewrite length_fmap.
  - intros e s' Hr. by apply (wp_throw_inv _ _ _ _ _ _ _ Hspec) in Hr as (_ & ? & ?).
  - intros Hquiet.
    destruct (wp_returns _ _ _ _ _ Hspec Hquiet) as ([] & s' & Hr & _); [|eauto].
    intros e s' (? & _); done.
  - eexists. split; [done|]. done.
Qed.
End Construction.

Section Assignment.
Context `{Traits T W} `{!Regular}.
Implicit Types (s : Machine T W) (v : Vector T) (xs ys : list T) (e : exn) (o : obj).

(** What a vector holds after [ys] have been written from offset [a] on,
    over elements or behind them. *)
Lemma holds_constructed a xs ys s s' :
  holds (this s) xs → a ≤ length xs →
  a + length ys ≤ length (storage (this s)) →
  constructed This a ys s s' →
  holds (mkVector (storage (this s')) ((a + length ys) `max` length xs))
        (take a xs ++ ys ++ drop (a + length ys) xs).
Proof.
  intros Hxs Ha Hfit (_ & Hfin & Hcap & Hdone & Hrest). simpl in *.
  pose proof (holds_length _ _ Hxs) as Hlen.
  pose proof Hxs as (Hle & Hal & _ & Hlook)%holds_lookup.
  apply holds_lookup. simpl.
  rewrite !length_app, length_take, length_drop, Hcap.
  split_and!; [lia|done|lia|].
  intros j x Hx. apply lookup_app_Some in Hx as [Hx|[Hj Hx]].
  - apply lookup_take_Some in Hx as [Hx Hj]. rewrite Hrest by lia. by apply Hlook.
  - rewrite length_take in Hj. rewrite length_take in Hx.
    replace (a `min` length xs) with a in * by lia.
    apply lookup_app_Some in Hx as [Hx|[Hj' Hx]].
    + replace j with (a + (j - a)) by lia. by apply Hdone.
    + rewrite lookup_drop in Hx. pose proof (lookup_lt_Some _ _ _ Hx).
      rewrite Hrest by lia. apply Hlook. rewrite <-Hx. f_equal. lia.
Qed.

(** *p = x, for an object [x] of the caller *)
Lemma wp_assign_at_val i x old Q E s :
  storage (this s) !! i = Some (Live old) →
  (∀ w, Q tt (put (This, i) (Live x) (with_world s w))) →
  (throwing → ∀ w, E element_error (with_world s w)) →
  wp throwing (assign_at (This, i) (by_copy (Val x))) Q E s.
Proof.
  intros Hi HQ HE. unfold assign_at, deref.
  apply wp_bind, wp_ret, wp_bind.
  assert (∀ w, wp throwing (poke (This, i) (Live x)) Q E (with_world s w)) as Hrest.
  { intros w. apply wp_put; [|done]. simpl. by apply lookup_lt_Some in Hi. }
  unfold copy_assignment. destruct trivially_copyable.
  - apply wp_ret. rewrite <-(with_world_id s). apply Hrest.
  - apply wp_bind, (wp_read_live _ _ old); [done|]. apply wp_effect.
    + intros y Hy. apply copy_assign_value in Hy as ->. apply Hrest.
    + intros Hnone. apply HE. by eapply throwing_copy_assign.
Qed.

(** A run of copy assignments from objects of the caller, over the elements
    from offset [a] on. *)
Lemma wp_assign_run {A} (f : A → M T W unit) (l : list A) a ys Q E s :
  length ys = length l →
  (∀ k z y, l !! k = Some z → ys !! k = Some y →
            f z = assign_at (This, a + k) (by_copy (Val y))) →
  (∀ j, j < length l → ∃ old, storage (this s) !! (a + j) = Some (Live old)) →
  (∀ s', constructed This a ys s s' → Q tt s') →
  (throwing → ∀ s', E element_error s') →
  wp throwing (for_each f l) Q E s.
Proof.
  intros Hlen Hf Hlive HQ HE.
  apply (wp_for_each _ _ _ (λ k s', constructed This a (take k ys) s s')).
  - unfold constructed. rewrite take_0. split_and!; try done.
  - intros k z s1 Hz (Htmp & Hfin & Hcap & Hdone & Hrest). simpl in *.
    pose proof (lookup_lt_Some _ _ _ Hz) as Hk.
    destruct (lookup_lt_is_Some_2 ys k) as [y Hy]; [lia|].
    destruct (Hlive k Hk) as [old Hold].
    rewrite (Hf k z y) by done.
    rewrite length_take in Hrest. replace (k `min` length ys) with k in Hrest by lia.
    apply (wp_assign_at_val _ _ old).
    + rewrite Hrest by lia. done.
    + intros w. unfold constructed, put, with_world. simpl.
      rewrite length_insert, (take_S_r _ _ y), length_app, length_take by done.
      simpl. split_and!; try done.
      * intros j y' Hy'. apply lookup_app_Some in Hy' as [Hy'|[Hj Hy']].
        -- pose proof (lookup_lt_Some _ _ _ Hy') as Hj. rewrite length_take in Hj.
           rewrite list_lookup_insert_ne by lia. by apply Hdone.
        -- rewrite length_take in Hj, Hy'.
           replace (k `min` length ys) with k in * by lia.
           assert (j = k) as -> by (apply lookup_lt_Some in Hy'; simpl in Hy'; lia).
           rewrite Nat.sub_diag in Hy'. simpl in Hy'. injection Hy' as ->.
           rewrite list_lookup_insert_eq; [done|]. rewrite Hcap.
           by apply lookup_lt_Some in Hold.
      * intros i Hi. rewrite list_lookup_insert_ne by lia. apply Hrest. lia.
    + intros Hthrow w. by apply HE.
  - intros s' Hs'. rewrite take_ge in Hs' by lia. by apply HQ.
Qed.

Lemma wp_fill_n a n x Q E s :
  (∀ j, j < n → ∃ old, storage (this s) !! (a + j) = Some (Live old)) →
  (∀ s', constructed This a (replicate n x) s s' → Q tt s') →
  (throwing → ∀ s', E element_error s') →
  wp throwing (std.fill_n (This, a) n (Val x)) Q E s.
Proof.
  intros Hlive HQ HE. unfold std.fill_n.
  apply (wp_assign_run _ _ a (replicate n x)); try done.
  - by rewrite length_replicate, length_range.
  - intros k z y [-> _]%range_lookup [-> _]%lookup_replicate. done.
  - by rewrite length_range.
Qed.

Lemma wp_copy_values a ys Q E s :
  (∀ j, j < length ys → ∃ old, storage (this s) !! (a + j) = Some (Live old)) →
  (∀ s', constructed This a ys s s' → Q tt s') →
  (throwing → ∀ s', E element_error s') →
  wp throwing (std.copy (Val <$> ys) (This, a)) Q E s.
Proof.
  intros Hlive HQ HE. unfold std.copy. rewrite length_fmap.
  apply (wp_assign_run _ _ a ys); try done.
  - by rewrite length_zip_with, length_fmap, length_range, Nat.min_id.
  - intros k [z p] y Hz Hy.
    apply lookup_zip_with_Some in Hz as (?&?&?&Hz&[-> _]%range_lookup); simplify_eq.
    rewrite list_lookup_fmap, Hy in Hz. by simplify_eq/=.
  - by rewrite length_zip_with, length_fmap, length_range, Nat.min_id.
Qed.
End Assignment.

Section Refill.
Context `{Traits T W} `{!Regular}.
Implicit Types (s : Machine T W) (v : Vector T) (xs ys : list T) (e : exn) (o : obj).

Lemma Vector_eta v : v = mkVector (storage v) (finish_ v).
Proof. by destruct v. Qed.

Lemma holds_frame v v' xs :
  holds v xs → finish_ v' = finish_ v →
  length (storage v') = length (storage v) →
  (∀ i, i < finish_ v → storage v' !! i = storage v !! i) →
  holds v' xs.
Proof.
  intros (Hle & Hal & Hlen & Hlook)%holds_lookup Hfin Hcap Hsame.
  apply holds_lookup. rewrite Hfin, Hcap. split_and!; try done.
  intros j x Hx. rewrite Hsame; [by apply Hlook|].
  apply lookup_lt_Some in Hx. lia.
Qed.

Lemma resize_up_spec n xs s :
  holds (this s) xs → length xs < n → representable n →
  wp throwing (Vec.resize n)
    (λ _ s', ∃ ds, length ds = n - length xs
                   ∧ Forall (λ d, ∃ w, (default_construct w).2 = Some d) ds
                   ∧ holds (this s') (xs ++ ds)
                   ∧ length (storage (this s'))
                     = if decide (n < length (storage (this s)))
                       then length (storage (this s)) else n)
    (λ e s', (throwing ∨ ¬ allocatable n) ∧ benign e ∧ holds (this s') xs) s.
Proof.
  intros Hxs Hn Hrep. pose proof (holds_length _ _ Hxs) as Hlen.
  set (Q := λ (_ : unit) (s' : Machine T W),
    ∃ ds, length ds = n - length xs
          ∧ Forall (λ d, ∃ w, (default_construct w).2 = Some d) ds
          ∧ holds (this s') (xs ++ ds)
          ∧ length (storage (this s'))
            = if decide (n < length (storage (this s)))
              then length (storage (this s)) else n).
  set (E := λ e (s' : Machine T W),
    (throwing ∨ ¬ allocatable n) ∧ benign e ∧ holds (this s') xs).
  assert (∀ s1 : Machine T W, holds (this s1) xs → n ≤ length (storage (this s1)) →
    length (storage (this s1))
    = (if decide (n < length (storage (this s))) then length (storage (this s)) else n) →
    wp throwing
      (std.uninitialized_default_construct_n (This, length xs) (n - length xs))
      (λ _ s', wp throwing (Vec.set_finish This n) Q E s') E s1) as Hfill.
  { intros s1 Hxs1 Hfit Hcap. pose proof (holds_length _ _ Hxs1) as Hlen1.
    unfold std.uninitialized_default_construct_n.
    apply wp_uninitialized_external.
    - rewrite length_replicate. simpl. lia.
    - by intros k i [-> _]%lookup_replicate.
    - intros ds s2 [Hds Hdef]%gives_default Hc. apply wp_modify. simpl.
      exists ds. split_and!; try done.
      + pose proof (holds_constructed (length xs) xs ds s1 s2 Hxs1) as Hh.
        rewrite take_ge, drop_ge, app_nil_r in Hh by lia.
        replace ((length xs + length ds) `max` length xs) with n in Hh by lia.
        apply Hh; [done|lia|done].
      + destruct Hc as (_ & _ & Hc & _). simpl in *. by rewrite Hc.
    - intros Hthrow s2 _ Hfin Hcap' Hsame. split_and!; [by left|by right|].
      eapply holds_frame; [done..|]. simpl in *. intros i Hi. apply Hsame. lia. }
  unfold Vec.resize. apply wp_bind, wp_get, wp_bind, wp_get, wp_bind.
  destruct (decide (n < finish_ (this s))) as [Hlt|_]; [lia|]. rewrite <-Hlen.
  destruct (decide (length xs < n < length (storage (this s)))) as [Hspare|Hspare].
  - apply Hfill; [done|lia|]. by rewrite decide_True by lia.
  - apply wp_bind.
    eapply wp_mono;
      [apply (growShrinkAux_spec n xs); [done|lia|left; lia|done]|..]; simpl.
    + intros _ s1 [Hxs1 Hcap1]. apply wp_bind, wp_get. cbv beta.
      rewrite <-(holds_length _ _ Hxs1).
      apply Hfill; [done|lia|]. by rewrite decide_False by lia.
    + intros e s1 (? & ? & Heq). unfold E. by rewrite Heq.
Qed.

Lemma wp_and {A} u (m : M T W A) Q Q' E E' s :
  wp u m Q E s → wp True m Q' E' s →
  wp u m (λ a s', Q a s' ∧ Q' a s') (λ e s', E e s' ∧ E' e s') s.
Proof. unfold wp. by destruct (m s). Qed.

Lemma assign_spec count x xs s :
  holds (this s) xs → representable count →
  wp throwing (Vec.assign count (Val x))
    (λ _ s', holds (this s') (replicate count x)
             ∧ length (storage (this s')) = length (storage (this s)) `max` count)
    (λ e s', (throwing ∨ ¬ allocatable count) ∧ benign e) s.
Proof.
  intros Hxs Hrep. pose proof (holds_length _ _ Hxs) as Hlen.
  pose proof Hxs as (Hle & Hal & _).
  assert (∀ j, j < length xs → ∃ old, storage (this s) !! (0 + j) = Some (Live old))
    as Hlive.
  { intros j Hj. destruct (holds_live _ _ j Hxs) as (y & _ & ?); [lia|]. eauto. }
  unfold Vec.assign. apply wp_bind, wp_get, wp_bind, wp_get.
  case_decide as Hgrow; [|case_decide as Hmore].
  - (* a new block *)
    apply wp_bind. eapply wp_mono; [by apply (Vector_fill_spec Tmp)|..]; simpl.
    2:{ intros e s1 (? & ? & _). done. }
    intros _ s1 (Htmp1 & Hal1 & Hthis1).
    apply wp_bind, wp_modify. unfold Vec.destructor. simpl.
    apply wp_bind, wp_get, wp_bind, wp_destroy; simpl.
    { rewrite Hthis1. intros j Hj. apply Hlive. lia. }
    intros s2 (Hother & _). simpl in Hother.
    apply wp_bind, wp_modify, wp_modify. simpl. rewrite Hother, Htmp1. simpl.
    rewrite length_fmap, length_replicate. split; [|lia].
    unfold holds. simpl. rewrite length_fmap, length_replicate.
    split_and!; try done. rewrite take_ge; [done|].
    by rewrite length_fmap, length_replicate.
  - (* over the elements, and behind them *)
    apply wp_bind, wp_fill_n; [by rewrite <-Hlen| |by intros; split; [left|right]].
    intros s1 Hc1.
    assert (0 + length (replicate (finish_ (this s)) x) ≤ length (storage (this s)))
      as Hfit by (rewrite length_replicate; lia).
    pose proof (holds_constructed 0 xs _ s s1 Hxs ltac:(lia) Hfit Hc1) as Hxs1.
    rewrite length_replicate, take_0, drop_ge in Hxs1 by lia. simpl in Hxs1.
    rewrite app_nil_r in Hxs1.
    destruct Hc1 as (_ & Hfin1 & Hcap1 & _). simpl in *.
    replace ((finish_ (this s)) `max` length xs) with (finish_ (this s1)) in Hxs1 by lia.
    rewrite <-Vector_eta in Hxs1.
    apply wp_bind. unfold std.uninitialized_fill_n.
    apply wp_uninitialized_external.
    + rewrite length_replicate. simpl. lia.
    + by intros k i [-> _]%lookup_replicate.
    + intros ys s2 ->%gives_replicate Hc2. apply wp_modify. simpl.
      pose proof (holds_constructed (finish_ (this s)) _
        (replicate (count - finish_ (this s)) x) s1 s2 Hxs1) as Hxs2.
      rewrite !length_replicate in Hxs2.
      rewrite take_ge, drop_ge, app_nil_r, <-replicate_add in Hxs2
        by (rewrite length_replicate; lia).
      replace (finish_ (this s) + (count - finish_ (this s))) with count in * by lia.
      replace (count `max` finish_ (this s)) with count in Hxs2 by lia.
      pose proof Hc2 as (_ & _ & Hcap2 & _). simpl in *.
      split; [|lia]. apply Hxs2; [lia|lia|done].
    + intros Hthrow s2 _ _ _ _. split; [by left|by right].
  - (* over a prefix of the elements; the rest goes *)
    apply wp_bind, wp_fill_n; [| |by intros; split; [left|right]].
    { intros j Hj. apply Hlive. lia. }
    intros s1 Hc1.
    assert (0 + length (replicate count x) ≤ length (storage (this s)))
      as Hfit by (rewrite length_replicate; lia).
    pose proof (holds_constructed 0 xs _ s s1 Hxs ltac:(lia) Hfit Hc1) as Hxs1.
    rewrite length_replicate, take_0 in Hxs1. simpl in Hxs1.
    destruct Hc1 as (_ & Hfin1 & Hcap1 & _). simpl in *.
    replace (count `max` length xs) with (finish_ (this s1)) in Hxs1 by lia.
    rewrite <-Vector_eta in Hxs1.
    apply wp_bind.
    eapply wp_mono;
      [apply wp_and;
        [apply (erase_range_spec count (finish_ (this s)) _ s1 Hxs1)
        |apply (erase_range_sizes count (finish_ (this s)) (shape s1)); [|done]]|..].
    + rewrite length_app, length_replicate, length_drop. lia.
    + by eapply holds_sized.
    + intros r s2 [(_ & Hxs2 & Hcap2 & _) _]. apply wp_ret.
      rewrite take_app_length' in Hxs2 by by rewrite length_replicate.
      rewrite drop_ge, app_nil_r in Hxs2
        by (rewrite length_app, length_replicate, length_drop; lia).
      split; [done|lia].
    + intros e s2 [Hthrow [? _]]. split; [by left|done].
Qed.

(** X13. [resize(n)] with [n > size()], for an [n] whose byte count
    [n * sizeof(T)] does not wrap, keeps the elements and appends
    [n - size()] default-constructed ones, each with a value that default
    construction of [T] can give (for [int], whatever the memory held); the
    capacity stays when [n < capacity()] and is [n] otherwise.  When it
    throws, the elements are the ones that were there.  It returns whenever
    nothing throws and a block of [n] elements can be requested, which needs
    [n * sizeof(T)] to be at most [HEAP_MAX]. *)
Theorem resize_up_appends_default_elements n xs s :
  holds (this s) xs → length xs < n → representable n →
  (∀ s', Vec.resize n s = Ret tt s' →
     ∃ ds, length ds = n - length xs
           ∧ Forall (λ d, ∃ w, (default_construct w).2 = Some d) ds
           ∧ holds (this s') (xs ++ ds)
           ∧ finish_ (this s') = n
           ∧ length (storage (this s'))
             = if decide (n < length (storage (this s)))
               then length (storage (this s)) else n)
  ∧ (∀ e s', Vec.resize n s = Throw e s' →
       (e = bad_alloc ∨ e = element_error) ∧ holds (this s') xs)
  ∧ (¬ throwing → allocatable n → ∃ s', Vec.resize n s = Ret tt s').
Proof.
  intros Hxs Hn Hrep. pose proof (resize_up_spec n xs s Hxs Hn Hrep) as Hspec.
  split_and!.
  - intros s' Hr. apply (wp_ret_inv _ _ _ _ _ _ _ Hspec) in Hr
      as (ds & Hds & ? & Hxs' & ?).
    exists ds. split_and!; try done.
    apply holds_length in Hxs'. rewrite length_app in Hxs'. lia.
  - intros e s' Hr. by apply (wp_throw_inv _ _ _ _ _ _ _ Hspec) in Hr as (_ & ? & ?).
  - intros Hquiet Hal.
    destruct (wp_returns _ _ _ _ _ Hspec Hquiet) as ([] & s' & Hr & _); [|eauto].
    intros e s' ([?|?] & _); done.
Qed.

(** X14. [assign(count, value)] with a [value] of the caller, when it
    returns, leaves exactly [count] copies of it, whatever the vector held,
    in the block it had when that is large enough and in a new block of
    [count] elements otherwise.  It throws nothing but [std::bad_alloc] and
    what a member function of [T] threw, and returns whenever nothing throws
    and the block can be requested, which needs [count * sizeof(T)] to be at
    most [HEAP_MAX]: a [count] whose byte count wraps gets a block that is
    too small, and the call does not return. *)
Theorem assign_leaves_count_copies count x xs s :
  holds (this s) xs →
  (∀ s', Vec.assign count (Val x) s = Ret tt s' →
     holds (this s') (replicate count x)
     ∧ finish_ (this s') = count
     ∧ length (storage (this s')) = length (storage (this s)) `max` count)
  ∧ (∀ e s', Vec.assign count (Val x) s = Throw e s' →
       e = bad_alloc ∨ e = element_error)
  ∧ (¬ throwing → allocatable count → ∃ s', Vec.assign count (Val x) s = Ret tt s').
Proof.
  intros Hxs. pose proof (assign_spec count x xs s Hxs) as Hspec.
  pose proof (assign_sizes count (Val x) (shape s) (holds_sized _ _ Hxs)) as Hsizes.
  split_and!.
  - intros s' Hr.
    pose proof (wps_ret_inv _ _ _ _ _ _ Hsizes Hr) as ([Hle Hal] & Hlen & _).
    simpl in *.
    assert (representable count) as Hrep.
    { apply allocatable_representable. eapply allocatable_mono; [|done]. lia. }
    apply (wp_ret_inv _ _ _ _ _ _ _ (Hspec Hrep)) in Hr as [Hxs' ?].
    split_and!; try done.
  - intros e s' Hr. by apply (wps_throw_inv _ _ _ _ _ _ Hsizes) in Hr as [? _].
  - intros Hquiet Hal.
    destruct (wp_returns _ _ _ _ _ (Hspec (allocatable_representable _ Hal)) Hquiet)
      as ([] & s' & Hr & _); [|eauto].
    intros e s' ([?|?] & _); done.
Qed.
End Refill.

(** * The comparison operators *)

Section Comparison.
Context `{Traits T W}.
Implicit Types (s : Machine T W) (v : Vector T) (xs ys zs : list T) (x y : obj).

Lemma read_live (p : loc) a s :
  storage (vec p.1 s) !! p.2 = Some (Live a) → read p s = Ret a s.
Proof. intros Hp. unfold read, peek, mbind, M_bind. by rewrite Hp. Qed.

Lemma equal_spec eqb x y a b xs ys s :
  (∀ c d, eqb c d = true ↔ c = d) →
  length xs = length ys →
  (∀ j c, xs !! j = Some c → storage (vec x s) !! (a + j) = Some (Live c)) →
  (∀ j c, ys !! j = Some c → storage (vec y s) !! (b + j) = Some (Live c)) →
  ∃ r, std.equal eqb (x, a) (length xs) (y, b) s = Ret r s ∧ (r = true ↔ xs = ys).
Proof.
  intros Heqb. revert a b ys.
  induction xs as [|c xs IH]; intros a b [|d ys] Hlen Hxs Hys; simplify_eq/=.
  - by exists true.
  - unfold mbind, M_bind.
    rewrite (read_live (x, a) c), (read_live (y, b) d);
      [|by rewrite <-(Nat.add_0_r b); apply (Hys 0)
       |by rewrite <-(Nat.add_0_r a); apply (Hxs 0)].
    destruct (eqb c d) eqn:Hcd.
    + apply Heqb in Hcd as ->.
      destruct (IH (a + 1) (b + 1) ys) as (r & Hr & Hiff); [done|..].
      * intros j c Hc. rewrite <-Nat.add_assoc. by apply (Hxs (S j)).
      * intros j c Hc. rewrite <-Nat.add_assoc. by apply (Hys (S j)).
      * exists r. split; [done|]. rewrite Hiff. split; [by intros ->|congruence].
    + exists false. split; [done|]. split; [done|]. intros [= -> _].
      assert (eqb d d = true) by by apply Heqb. congruence.
Qed.

Lemma lexicographical_compare_spec ltb x y a b xs ys s :
  (∀ j c, xs !! j = Some c → storage (vec x s) !! (a + j) = Some (Live c)) →
  (∀ j c, ys !! j = Some c → storage (vec y s) !! (b + j) = Some (Live c)) →
  std.lexicographical_compare ltb (x, a) (length xs) (y, b) (length ys) s
  = Ret (lexicographic ltb xs ys) s.
Proof.
  revert a b ys. induction xs as [|c xs IH]; intros a b [|d ys] Hxs Hys; simpl; try done.
  unfold mbind, M_bind.
  rewrite (read_live (x, a) c), (read_live (y, b) d);
    [|by rewrite <-(Nat.add_0_r b); apply (Hys 0)
     |by rewrite <-(Nat.add_0_r a); apply (Hxs 0)].
  destruct (ltb c d); [done|]. destruct (ltb d c); [done|].
  apply (IH (a + 1) (b + 1)).
  - intros j e He. rewrite <-Nat.add_assoc. by apply (Hxs (S j)).
  - intros j e He. rewrite <-Nat.add_assoc. by apply (Hys (S j)).
Qed.

Lemma operator_lt_spec ltb x y xs ys s :
  holds (vec x s) xs → holds (vec y s) ys →
  Vec.operator_lt ltb x y s = Ret (lexicographic ltb xs ys) s.
Proof.
  intros Hxs Hys. pose proof (holds_length _ _ Hxs) as Hn.
  pose proof (holds_length _ _ Hys) as Hm.
  apply holds_lookup in Hxs as (_ & _ & _ & Hxs).
  apply holds_lookup in Hys as (_ & _ & _ & Hys).
  unfold Vec.operator_lt, get, mbind, M_bind. rewrite <-Hn, <-Hm.
  by apply lexicographical_compare_spec.
Qed.

Lemma lexicographic_irreflexive ltb xs :
  strict_total_order ltb → lexicographic ltb xs xs = false.
Proof. intros (Hirr & _). induction xs as [|c xs IH]; simpl; by rewrite ?Hirr. Qed.

Lemma lexicographic_transitive ltb xs ys zs :
  strict_total_order ltb →
  lexicographic ltb xs ys = true → lexicographic ltb ys zs = true →
  lexicographic ltb xs zs = true.
Proof.
  intros (Hirr & Htrans & Htotal). revert ys zs.
  induction xs as [|a xs IH]; intros [|b ys] [|c zs]; simpl; try done.
  destruct (ltb a b) eqn:Hab, (ltb b c) eqn:Hbc.
  - by rewrite (Htrans a b c).
  - destruct (ltb c b) eqn:Hcb; [done|]. apply Htotal in Hbc as ->; [|done].
    by rewrite Hab.
  - destruct (ltb b a) eqn:Hba; [done|]. apply Htotal in Hab as ->; [|done].
    by rewrite Hbc.
  - destruct (ltb b a) eqn:Hba; [done|]. destruct (ltb c b) eqn:Hcb; [done|].
    apply Htotal in Hab as ->; [|done]. apply Htotal in Hbc as ->; [|done].
    rewrite Hirr. apply IH.
Qed.

Lemma lexicographic_total ltb xs ys :
  strict_total_order ltb →
  lexicographic ltb xs ys = false → lexicographic ltb ys xs = false → xs = ys.
Proof.
  intros (Hirr & Htrans & Htotal). revert ys.
  induction xs as [|a xs IH]; intros [|b ys]; simpl; try done.
  destruct (ltb a b) eqn:Hab; [done|]. destruct (ltb b a) eqn:Hba; [done|].
  apply Htotal in Hab as ->; [|done]. intros. f_equal. by apply IH.
Qed.

Lemma lexicographic_asymmetric ltb xs ys :
  strict_total_order ltb →
  lexicographic ltb xs ys = true → lexicographic ltb ys xs = false.
Proof.
  intros Hltb Hxy. destruct (lexicographic ltb ys xs) eqn:Hyx; [|done].
  by rewrite <-(lexicographic_irreflexive ltb xs Hltb),
    (lexicographic_transitive ltb xs ys xs).
Qed.

(** X15. [operator==] returns whether the two vectors have the same
    sequence of elements, when [operator==] of [T] decides equality, and
    [operator!=] returns the opposite; both read only, and throw nothing. *)
Theorem operator_eq_decides_equality eqb x y xs ys s :
  (∀ c d, eqb c d = true ↔ c = d) →
  holds (vec x s) xs → holds (vec y s) ys →
  ∃ r, Vec.operator_eq eqb x y s = Ret r s
       ∧ Vec.operator_ne eqb x y s = Ret (negb r) s
       ∧ (r = true ↔ xs = ys).
Proof.
  intros Heqb Hxs Hys. pose proof (holds_length _ _ Hxs) as Hn.
  pose proof (holds_length _ _ Hys) as Hm.
  apply holds_lookup in Hxs as (_ & _ & _ & Hxs).
  apply holds_lookup in Hys as (_ & _ & _ & Hys).
  unfold Vec.operator_ne, Vec.operator_eq, get, mbind, M_bind.
  rewrite <-Hn, <-Hm. case_decide as Hlen.
  - destruct (equal_spec eqb x y 0 0 xs ys s) as (r & Hr & Hiff); try done.
    exists r. by rewrite Hr.
  - exists false. split_and!; try done. split; [done|]. by intros ->.
Qed.

(** X16. [operator<] is the lexicographic order of the two sequences of
    elements: it reads only and throws nothing, and when [operator<] of [T]
    is a strict total order it is one too.  No vector is less than itself,
    of two different vectors exactly one is less than the other, and the
    order is transitive. *)
Theorem operator_lt_is_the_lexicographic_order ltb x y xs ys s :
  holds (vec x s) xs → holds (vec y s) ys →
  Vec.operator_lt ltb x y s = Ret (lexicographic ltb xs ys) s
  ∧ (strict_total_order ltb →
     Vec.operator_lt ltb x x s = Ret false s
     ∧ (Vec.operator_lt ltb x y s = Ret true s →
        Vec.operator_lt ltb y x s = Ret false s)
     ∧ (Vec.operator_lt ltb x y s = Ret false s →
        Vec.operator_lt ltb y x s = Ret false s → xs = ys)
     ∧ (∀ zs, lexicographic ltb xs ys = true → lexicographic ltb ys zs = true →
              lexicographic ltb xs zs = true)).
Proof.
  intros Hxs Hys. split; [by apply operator_lt_spec|]. intros Hltb.
  rewrite (operator_lt_spec ltb x x xs xs), (operator_lt_spec ltb x y xs ys),
    (operator_lt_spec ltb y x ys xs) by done.
  split_and!.
  - by rewrite lexicographic_irreflexive.
  - intros [= Hxy]. by rewrite (lexicographic_asymmetric ltb xs ys).
  - intros [= Hxy] [= Hyx]. by apply (lexicographic_total ltb).
  - intros zs. by apply lexicographic_transitive.
Qed.

(** X17. The other three comparisons are [operator<] turned around or
    negated: [x > y] is [y < x], [x <= y] is [!(y < x)] and [x >= y] is
    [!(x < y)].  When [operator<] of [T] is a strict total order, [x <= y]
    says that [x < y] or the two sequences are equal, and [x <= y] or
    [y <= x] always holds. *)
Theorem comparisons_follow_operator_lt ltb x y xs ys s :
  holds (vec x s) xs → holds (vec y s) ys →
  ∃ lt gt, Vec.operator_lt ltb x y s = Ret lt s
           ∧ Vec.operator_lt ltb y x s = Ret gt s
           ∧ Vec.operator_gt ltb x y s = Ret gt s
           ∧ Vec.operator_le ltb x y s = Ret (negb gt) s
           ∧ Vec.operator_ge ltb x y s = Ret (negb lt) s
           ∧ (strict_total_order ltb →
              (negb gt = true ↔ lt = true ∨ xs = ys)
              ∧ (negb gt = true ∨ negb lt = true)).
Proof.
  intros Hxs Hys. exists (lexicographic ltb xs ys), (lexicographic ltb ys xs).
  unfold Vec.operator_gt, Vec.operator_le, Vec.operator_ge, mbind, M_bind.
  rewrite (operator_lt_spec ltb x y xs ys), (operator_lt_spec ltb y x ys xs) by done.
  split_and!; try done. intros Hltb.
  destruct (lexicographic ltb xs ys) eqn:Hxy, (lexicographic ltb ys xs) eqn:Hyx; simpl.
  - by rewrite (lexicographic_asymmetric ltb xs ys) in Hyx.
  - split; [by split; [left|]|by left].
  - split; [|by right]. split; [done|]. intros [?| ->]; [done|].
    by rewrite lexicographic_irreflexive in Hyx.
  - split; [|by left]. split; [|done]. intros _. right.
    by apply (lexicographic_total ltb).
Qed.
End Comparison.

(** * The stack, for any number of elements *)

Section StackRuns.
Context `{Traits T W} `{!Regular}.
Implicit Types (s : Machine T W) (v : Vector T) (xs ys : list T) (e : exn).

Lemma bind_ret_inv {A B} (m : M T W A) (f : A → M T W B) s b s2 :
  (m ≫= f) s = Ret b s2 → ∃ a s1, m s = Ret a s1 ∧ f a s1 = Ret b s2.
Proof. unfold mbind, M_bind. destruct (m s) as [a s1| |]; [eauto|done..]. Qed.

(** [push_back] into spare capacity: the block stays, and an exception
    leaves the vector as it was. *)
Lemma push_back_spare_spec xs x s :
  holds (this s) xs → finish_ (this s) < length (storage (this s)) →
  wp throwing (Vec.push_back (Val x))
    (λ _ s', holds (this s') (xs ++ [x])
             ∧ length (storage (this s')) = length (storage (this s))
             ∧ tmp s' = tmp s)
    (λ e s', throwing ∧ e = element_error ∧ this s' = this s ∧ tmp s' = tmp s) s.
Proof.
  intros Hxs Hspare. unfold Vec.push_back.
  apply wp_bind, wp_get, wp_bind, wp_get, wp_bind.
  case_decide; [lia|]. apply wp_ret, wp_bind, wp_get, wp_bind.
  apply wp_construct_at_val; [done|..].
  - intros w. apply wp_modify. simpl. rewrite length_insert.
    split_and!; try done. by apply holds_push.
  - intros Hthrow w. done.
Qed.

Lemma push_all_spec ys xs s s' :
  holds (this s) xs → push_all ys s = Ret tt s' → holds (this s') (xs ++ ys).
Proof.
  revert xs s. induction ys as [|y ys IH]; intros xs s Hxs Hr.
  - injection Hr as <-. by rewrite app_nil_r.
  - apply bind_ret_inv in Hr as ([] & s1 & Hpush & Hr).
    apply (wp_ret_inv _ _ _ _ _ _ _ (push_back_spec xs y s Hxs)) in Hpush as [Hxs1 _].
    rewrite (assoc_L _ xs [y] ys : xs ++ y :: ys = (xs ++ [y]) ++ ys).
    by apply (IH _ s1).
Qed.

Lemma push_all_returns ys xs s :
  holds (this s) xs → ¬ throwing →
  length xs + length ys ≤ length (storage (this s)) →
  ∃ s', push_all ys s = Ret tt s'
        ∧ length (storage (this s')) = length (storage (this s)).
Proof.
  intros Hxs Hquiet. revert xs s Hxs.
  induction ys as [|y ys IH]; intros xs s Hxs Hfit; simpl in *.
  - by exists s.
  - pose proof (holds_length _ _ Hxs) as Hlen.
    destruct (wp_returns _ _ _ _ _
      (push_back_spare_spec xs y s Hxs ltac:(lia)) Hquiet)
      as ([] & s1 & Hpush & Hxs1 & Hcap1 & _).
    { intros e s1 (? & _). done. }
    destruct (IH (xs ++ [y]) s1 Hxs1) as (s' & Hr & Hcap).
    { rewrite length_app, Hcap1. simpl. lia. }
    exists s'. unfold push_all in *. simpl. unfold mbind, M_bind.
    unfold Stack.push at 1. rewrite Hpush. split; [done|]. lia.
Qed.

Lemma pop_all_spec ys xs s :
  holds (this s) (xs ++ ys) →
  ∃ s', pop_all (length ys) s = Ret (reverse ys) s'
        ∧ holds (this s') xs
        ∧ length (storage (this s')) = length (storage (this s))
        ∧ tmp s' = tmp s ∧ world s' = world s.
Proof.
  revert s. induction ys as [|y ys IH] using rev_ind; intros s Hxs.
  - rewrite app_nil_r in Hxs. by exists s.
  - rewrite (assoc_L _) in Hxs. rewrite length_app, Nat.add_1_r, reverse_app. simpl.
    destruct (pop_back_spec _ y s Hxs) as (s1 & Hpop & Hxs1 & Hcap1 & Htmp1 & Hw1).
    destruct (IH s1 Hxs1) as (s' & Hr & Hxs' & Hcap & Htmp & Hw).
    exists s'. unfold mbind, M_bind, Stack.top, Stack.pop.
    rewrite (back_spec _ y s Hxs), Hpop, Hr.
    split_and!; [done|done|congruence..].
Qed.

(** X18. A stack gives back what was pushed, last in first out, whatever
    the number of elements: after pushing the list [ys] on a stack holding
    [xs], [size()] is the sum of the two lengths, and taking [|ys|] elements
    off shows [ys] in reverse, returns without fail and leaves [xs].  The
    pushes return whenever no constructor throws and the elements fit in the
    capacity. *)
Theorem stack_returns_the_pushed_elements_in_reverse ys xs s :
  holds (this s) xs →
  (∀ s1, push_all ys s = Ret tt s1 →
     holds (this s1) (xs ++ ys)
     ∧ Stack.size s1 = Ret (length xs + length ys) s1
     ∧ ∃ s2, pop_all (length ys) s1 = Ret (reverse ys) s2
             ∧ holds (this s2) xs
             ∧ Stack.size s2 = Ret (length xs) s2)
  ∧ (¬ throwing → length xs + length ys ≤ length (storage (this s)) →
     ∃ s1, push_all ys s = Ret tt s1).
Proof.
  intros Hxs. split.
  - intros s1 Hpush. pose proof (push_all_spec ys xs s s1 Hxs Hpush) as Hxs1.
    split_and!; [done| |].
    + unfold Stack.size, Vec.size, get.
      apply holds_length in Hxs1. rewrite length_app in Hxs1. by rewrite Hxs1.
    + destruct (pop_all_spec ys xs s1 Hxs1) as (s2 & Hpop & Hxs2 & _).
      exists s2. split_and!; try done.
      unfold Stack.size, Vec.size, get. apply holds_length in Hxs2. by rewrite Hxs2.
  - intros Hquiet Hfit.
    destruct (push_all_returns ys xs s Hxs Hquiet Hfit) as (s1 & ? & _). eauto.
Qed.

(** X19. [push_back] into spare capacity does not reallocate, and has the
    strong guarantee: when the copy constructor throws, the vector is
    exactly as it was.  It returns whenever the copy constructor does. *)
Theorem push_back_into_spare_capacity xs x s :
  holds (this s) xs → finish_ (this s) < length (storage (this s)) →
  (∀ s', Vec.push_back (Val x) s = Ret tt s' →
     holds (this s') (xs ++ [x])
     ∧ length (storage (this s')) = length (storage (this s))
     ∧ (∀ i, i < finish_ (this s) → storage (this s') !! i = storage (this s) !! i))
  ∧ (∀ e s', Vec.push_back (Val x) s = Throw e s' →
       e = element_error ∧ this s' = this s ∧ tmp s' = tmp s)
  ∧ (¬ throwing → ∃ s', Vec.push_back (Val x) s = Ret tt s').
Proof.
  intros Hxs Hspare. pose proof (push_back_spare_spec xs x s Hxs Hspare) as Hspec.
  split_and!.
  - intros s' Hr. apply (wp_ret_inv _ _ _ _ _ _ _ Hspec) in Hr as (Hxs' & Hcap & _).
    split_and!; try done. intros i Hi.
    apply holds_lookup in Hxs as (_ & _ & Hlen & Hxs).
    apply holds_lookup in Hxs' as (_ & _ & _ & Hxs').
    destruct (lookup_lt_is_Some_2 xs i) as [y Hy]; [lia|].
    rewrite (Hxs i y Hy). apply Hxs'. by apply lookup_app_l_Some.
  - intros e s' Hr. by apply (wp_throw_inv _ _ _ _ _ _ _ Hspec) in Hr as (_ & ? & ? & ?).
  - intros Hquiet.
    destruct (wp_returns _ _ _ _ _ Hspec Hquiet) as ([] & s' & Hr & _); [|eauto].
    intros e s' (? & _). done.
Qed.
End StackRuns.

(** * Insertion of one element *)

Section Insertion.
Context `{Traits T W} `{!Regular}.
Implicit Types (s : Machine T W) (v : Vector T) (xs ys : list T) (e : exn) (o : obj).

Lemma holds_inserted p x xs (st : list (slot T)) :
  allocatable (length st) → length xs < length st → p ≤ length xs →
  (∀ i y, i < p → xs !! i = Some y → st !! i = Some (Live y)) →
  st !! p = Some (Live x) →
  (∀ i y, p ≤ i → xs !! i = Some y → st !! (S i) = Some (Live y)) →
  holds (mkVector st (length xs + 1)) (take p xs ++ [x] ++ drop p xs).
Proof.
  intros Hal Hcap Hp Hlow Hat Hhigh. apply holds_lookup. simpl.
  rewrite length_app, length_take. simpl. rewrite length_drop.
  split_and!; [lia|done|lia|].
  intros j y Hy. apply lookup_app_Some in Hy as [Hy|[Hj Hy]].
  - apply lookup_take_Some in Hy as [Hy Hj]. by apply Hlow.
  - rewrite length_take in Hj, Hy. replace (p `min` length xs) with p in * by lia.
    destruct (decide (j = p)) as [->|].
    + rewrite Nat.sub_diag in Hy. simpl in Hy. by injection Hy as <-.
    + replace (j - p) with (S (j - p - 1)) in Hy by lia. simpl in Hy.
      rewrite lookup_drop in Hy. replace j with (S (p + (j - p - 1))) by lia.
      apply Hhigh; [lia|done].
Qed.

(** [std::move_backward] over the elements from [p] to the last but one,
    after the last one has been moved one slot up: the gap it left at
    [n - 1] travels down to [p]. *)
Lemma move_up_spec p xs s Q E :
  p < length xs → length xs < length (storage (this s)) →
  (∀ i y, i < length xs - 1 → xs !! i = Some y →
          storage (this s) !! i = Some (Live y)) →
  (∃ r, storage (this s) !! (length xs - 1) = Some (Live r)) →
  (∀ y, xs !! (length xs - 1) = Some y →
        storage (this s) !! (length xs) = Some (Live y)) →
  (∀ s', tmp s' = tmp s →
         finish_ (this s') = finish_ (this s) →
         length (storage (this s')) = length (storage (this s)) →
         (∀ i y, i < p → xs !! i = Some y → storage (this s') !! i = Some (Live y)) →
         (∃ r, storage (this s') !! p = Some (Live r)) →
         (∀ i y, p ≤ i → xs !! i = Some y →
                 storage (this s') !! (S i) = Some (Live y)) →
         Q tt s') →
  (throwing → ∀ s', E element_error s') →
  wp throwing
    (std.move_backward (This, p) (length xs + 1 - 2 - p) (This, length xs + 1 - 1))
    Q E s.
Proof.
  intros Hp Hcap Hlow Hgap Hlast HQ HE. unfold std.move_backward. simpl.
  set (n := length xs) in *. set (m := n + 1 - 2 - p).
  apply (wp_for_each _ _ _ (λ k s',
    tmp s' = tmp s
    ∧ finish_ (this s') = finish_ (this s)
    ∧ length (storage (this s')) = length (storage (this s))
    ∧ (∀ i y, i < n - 1 - k → xs !! i = Some y →
              storage (this s') !! i = Some (Live y))
    ∧ (∃ r, storage (this s') !! (n - 1 - k) = Some (Live r))
    ∧ (∀ i y, n - 1 - k ≤ i → xs !! i = Some y →
              storage (this s') !! (S i) = Some (Live y)))).
  - rewrite Nat.sub_0_r. split_and!; try done.
    intros i y Hi Hy. pose proof (lookup_lt_Some _ _ _ Hy).
    assert (i = n - 1) as -> by (unfold n in *; lia).
    replace (S (n - 1)) with n by lia. by apply Hlast.
  - intros k [q d] s1 Hk (Htmp & Hfin & Hl & Hlow1 & [r Hr] & Hhigh1).
    pose proof (lookup_lt_Some _ _ _ Hk) as Hkm.
    rewrite length_reverse, length_zip_with, !length_range, Nat.min_id in Hkm.
    rewrite reverse_lookup in Hk
      by (rewrite length_zip_with, !length_range, Nat.min_id; lia).
    rewrite length_zip_with, !length_range, Nat.min_id in Hk.
    apply lookup_zip_with_Some in Hk
      as (?&?&?&[-> _]%range_lookup&[-> _]%range_lookup); simplify_eq.
    unfold shift; simpl.
    replace (p + (m - S k)) with (n - 2 - k) by (unfold m; lia).
    replace (n + 1 - 1 - m + (m - S k)) with (n - 1 - k) by (unfold m; lia).
    destruct (lookup_lt_is_Some_2 xs (n - 2 - k)) as [y Hy]; [unfold n, m in *; lia|].
    apply (wp_assign_at_move _ _ y r); [|done|..].
    { apply Hlow1; [unfold m in *; lia|done]. }
    + intros r' w. unfold put, with_world; simpl. rewrite !length_insert.
      assert (n - 2 - k < length (storage (this s1))) by (unfold n, m in *; lia).
      assert (n - 1 - k < length (storage (this s1))) by (unfold n, m in *; lia).
      split_and!; try done.
      * intros i z Hi Hz. rewrite !list_lookup_insert_ne by (unfold m in *; lia).
        apply Hlow1; [unfold m in *; lia|done].
      * exists r'. replace (n - 1 - S k) with (n - 2 - k) by lia.
        rewrite list_lookup_insert_ne by (unfold m in *; lia).
        by rewrite list_lookup_insert_eq.
      * intros i z Hi Hz. destruct (decide (i = n - 2 - k)) as [->|].
        -- replace (S (n - 2 - k)) with (n - 1 - k) by (unfold m in *; lia).
           rewrite list_lookup_insert_eq by (rewrite length_insert; lia). congruence.
        -- rewrite !list_lookup_insert_ne by (unfold m in *; lia).
           apply Hhigh1; [unfold m in *; lia|done].
    + intros Hthrow w. by apply HE.
  - intros s' (Htmp & Hfin & Hl & Hlow1 & Hgap1 & Hhigh1).
    rewrite length_reverse, length_zip_with, !length_range, Nat.min_id in *.
    replace (n - 1 - m) with p in * by (unfold m; lia).
    by apply HQ.
Qed.

Lemma wp_memmove u dest src n Q E s :
  src.2 + n ≤ length (storage (vec src.1 s)) →
  dest.2 + n ≤ length (storage (vec dest.1 s)) →
  Q tt (set_vec dest.1
          (mkVector (take dest.2 (storage (vec dest.1 s))
                       ++ take n (drop src.2 (storage (vec src.1 s)))
                       ++ drop (dest.2 + n) (storage (vec dest.1 s)))
                    (finish_ (vec dest.1 s))) s) →
  wp u (std.memmove dest src n : M T W _) Q E s.
Proof. intros Hsrc Hdest HQ. unfold wp, std.memmove. by rewrite decide_True. Qed.

Lemma memmove_lookup {A} (to from : list A) d a n i :
  a + n ≤ length from → d + n ≤ length to →
  (take d to ++ take n (drop a from) ++ drop (d + n) to) !! i
  = if decide (d ≤ i < d + n) then from !! (a + (i - d)) else to !! i.
Proof.
  intros Ha Hd. case_decide as Hi.
  - rewrite lookup_app_r by (rewrite length_take; lia).
    rewrite length_take, Nat.min_l by lia.
    rewrite lookup_app_l by (rewrite length_take, length_drop; lia).
    rewrite lookup_take_lt by lia. by rewrite lookup_drop.
  - destruct (decide (i < d)).
    + rewrite lookup_app_l by (rewrite length_take; lia).
      by rewrite lookup_take_lt by lia.
    + rewrite lookup_app_r by (rewrite length_take; lia).
      rewrite length_take, Nat.min_l by lia.
      rewrite lookup_app_r by (rewrite length_take, length_drop; lia).
      rewrite length_take, length_drop, Nat.min_l by lia.
      rewrite lookup_drop. f_equal. lia.
Qed.

Lemma memmove_length {A} (to from : list A) d a n :
  a + n ≤ length from → d + n ≤ length to →
  length (take d to ++ take n (drop a from) ++ drop (d + n) to) = length to.
Proof.
  intros Ha Hd. rewrite !length_app, !length_take, !length_drop. lia.
Qed.

(** A constructor call on one object of the caller: [T(x)] or
    [T(std::move(x))]. *)
Lemma wp_make_caller i x Q E s :
  i = by_copy (Val x) ∨ i = by_move (Val x) →
  (∀ w, Q x (with_world s w)) →
  (throwing → ∀ w, E element_error (with_world s w)) →
  wp throwing (make i) Q E s.
Proof.
  intros [->| ->] HQ HE; unfold make, deref; apply wp_bind, wp_ret.
  - by apply wp_copy_constructor.
  - apply wp_bind, wp_move_constructor.
    + intros r w. simpl. apply wp_bind, wp_ret, wp_ret, HQ.
    + intros _ Hthrow w. by apply HE.
Qed.

Lemma wp_construct_at_caller d i x Q E s :
  i = by_copy (Val x) ∨ i = by_move (Val x) →
  d.2 < length (storage (vec d.1 s)) →
  (∀ w, Q tt (put d (Live x) (with_world s w))) →
  (throwing → ∀ w, E element_error (with_world s w)) →
  wp throwing (construct_at d i) Q E s.
Proof.
  intros Hi Hd HQ HE. unfold construct_at.
  apply wp_bind, (wp_make_caller i x); [done| |done].
  intros w. apply wp_put; [by destruct d as [[] ?]|done].
Qed.

(** [insertExpandAux(pos, args...)] for one object of the caller, copied or
    moved from. *)
Lemma insertExpandAux_init_spec p args x xs s :
  args = by_copy (Val x) ∨ args = by_move (Val x) →
  holds (this s) xs → p ≤ length xs →
  wp throwing (Vec.insertExpandAux p args)
    (λ r s', r = p
             ∧ holds (this s') (take p xs ++ [x] ++ drop p xs)
             ∧ length (storage (this s')) = 2 * length xs + 1)
    (λ e s', (throwing ∨ ¬ allocatable (2 * length xs + 1)) ∧ benign e
             ∧ (nothrow_move_constructible = false ∨ trivially_copyable = true →
                this s' = this s)) s.
Proof.
  intros Hargs Hxs Hp. pose proof (holds_length _ _ Hxs) as Hlen.
  pose proof Hxs as (Hle & Hal & _ & Hlook)%holds_lookup.
  unfold Vec.insertExpandAux. apply wp_bind, wp_get. cbv beta. rewrite <-Hlen.
  assert (wrap (length xs * 2 + 1) = 2 * length xs + 1) as ->.
  { destruct (wrap_cases (length xs * 2 + 1));
      heap_lia. }
  apply wp_bind, wp_allocate; [no_wrap|..].
  2:{ intros ? w. unfold benign. simpl. tauto. }
  intros Hsz w. apply wp_bind, wp_modify, wp_bind.
  set (s1 := set_vec Tmp _ _).
  assert (this s1 = this s) as Hthis1 by done.
  assert (length (storage (tmp s1)) = 2 * length xs + 1) as Htmp1.
  { unfold s1. simpl. by rewrite length_replicate. }
  clearbody s1.
  set (Q := λ (_ : unit) (s' : Machine T W),
    length (storage (tmp s')) = 2 * length xs + 1
    ∧ (∀ i y, i < p → xs !! i = Some y → storage (tmp s') !! i = Some (Live y))
    ∧ storage (tmp s') !! p = Some (Live x)
    ∧ (∀ i y, p ≤ i → xs !! i = Some y → storage (tmp s') !! (S i) = Some (Live y))).
  assert (∀ s' : Machine T W, Q tt s' →
    wp throwing (Vec.adopt (length xs + 1) (2 * length xs + 1);; mret p)
      (λ r s', r = p
               ∧ holds (this s') (take p xs ++ [x] ++ drop p xs)
               ∧ length (storage (this s')) = 2 * length xs + 1)
      (λ e s', (throwing ∨ ¬ allocatable (2 * length xs + 1)) ∧ benign e
               ∧ (nothrow_move_constructible = false ∨ trivially_copyable = true →
                  this s' = this s)) s') as Hadopt.
  { intros s' (Hcap' & Hlow & Hat & Hhigh).
    apply wp_bind, wp_modify, wp_ret. simpl. rewrite length_take.
    split_and!; [done| |lia].
    apply holds_inserted; rewrite ?length_take; try lia.
    - by rewrite Hcap', Nat.min_id.
    - intros i y Hi Hy. rewrite lookup_take_lt by lia. by apply Hlow.
    - rewrite lookup_take_lt by lia. done.
    - intros i y Hi Hy. pose proof (lookup_lt_Some _ _ _ Hy).
      rewrite lookup_take_lt by lia. by apply Hhigh. }
  destruct trivially_copyable eqn:Htriv.
  - (* memmove *)
    assert (length (storage (this s1)) = length (storage (this s))) as Hcap1
      by by rewrite Hthis1.
    apply wp_bind, wp_memmove; cbn [fst snd vec set_vec this tmp storage finish_];
      [lia..|].
    apply wp_bind, (wp_make_caller args x); [done|..].
    2:{ intros Hthrow w'. simpl. unfold benign. tauto. }
    intros w'. apply wp_bind, wp_put;
      cbn [fst snd vec set_vec with_world this tmp storage finish_].
    { rewrite memmove_length by lia. lia. }
    apply wp_bind, wp_memmove;
      cbn [fst snd vec set_vec put with_world this tmp storage finish_].
    { lia. }
    { rewrite length_insert, memmove_length by lia. lia. }
    apply wp_modify, Hadopt. unfold Q.
    cbn [fst snd vec set_vec put with_world this tmp storage finish_].
    assert (p + 1 + (length xs - p)
            ≤ length (<[p:=Live x]>
                (take 0 (storage (tmp s1)) ++ take p (drop 0 (storage (this s1)))
                   ++ drop (0 + p) (storage (tmp s1))))) as Hfit
      by (rewrite length_insert, memmove_length by lia; lia).
    rewrite memmove_length by (done || lia).
    rewrite length_insert, memmove_length by lia.
    split_and!; [done|..].
    + intros i y Hi Hy. rewrite memmove_lookup by (done || lia).
      rewrite decide_False by lia. rewrite list_lookup_insert_ne by lia.
      rewrite memmove_lookup by lia. rewrite decide_True by lia.
      rewrite Hthis1. simpl. rewrite Nat.sub_0_r. by apply Hlook.
    + rewrite memmove_lookup by (done || lia).
      rewrite decide_False by lia. rewrite list_lookup_insert_eq; [done|].
      rewrite memmove_length by lia. lia.
    + intros i y Hi Hy. pose proof (lookup_lt_Some _ _ _ Hy).
      rewrite memmove_lookup by (done || lia).
      rewrite decide_True by lia. rewrite Hthis1.
      replace (p + (S i - (p + 1))) with i by lia. by apply Hlook.
  - (* element by element *)
    apply wp_bind, wp_try_catch, wp_bind.
    eapply wp_mono; [apply (relocate_spec 0 0 p xs)|..]; simpl.
    + intros j Hj. destruct (lookup_lt_is_Some_2 xs j) as [y Hy]; [lia|].
      exists y. split; [done|]. rewrite Hthis1. by apply Hlook.
    + lia.
    + intros _ s2 (Hlt2 & Hft2 & Hl2 & Hf2 & Hdone2 & Hrest2 & Hsame2 & Hlive2 & Hcopy2).
      simpl in *. apply wp_bind, (wp_construct_at_caller _ args x); simpl; [done|lia|..].
      2:{ intros Hthrow w'. apply wp_bind, wp_modify, wp_throw. simpl.
          split_and!; [by left|by right|].
          intros [Hmove|?]; [|done]. by rewrite Hcopy2. }
      intros w'.
      eapply wp_mono; [apply (relocate_spec p (p + 1) (length xs - p) (drop p xs))|..];
        simpl.
      * intros j Hj. destruct (lookup_lt_is_Some_2 xs (p + j)) as [y Hy]; [lia|].
        exists y. rewrite lookup_drop. split; [done|].
        rewrite Hsame2 by lia. rewrite Hthis1. by apply Hlook.
      * rewrite length_insert. lia.
      * intros _ s4
          (Hlt4 & Hft4 & Hl4 & Hf4 & Hdone4 & Hrest4 & Hsame4 & Hlive4 & Hcopy4).
        simpl in *. rewrite length_insert in Hlt4.
        apply wp_bind, wp_destroy; simpl.
        { intros j Hj. destruct (decide (j < p)).
          - rewrite Hsame4 by lia. apply Hlive2. lia.
          - apply Hlive4. lia. }
        intros s5 (Hother5 & _). simpl in Hother5.
        apply wp_modify, Hadopt. unfold Q. simpl. rewrite Hother5.
        split_and!; [lia|..].
        -- intros i y Hi Hy. rewrite Hrest4 by lia.
           rewrite list_lookup_insert_ne by lia. apply (Hdone2 i y); [lia|done].
        -- rewrite Hrest4 by lia. rewrite list_lookup_insert_eq; [done|lia].
        -- intros i y Hi Hy. pose proof (lookup_lt_Some _ _ _ Hy).
           replace (S i) with (p + 1 + (i - p)) by lia.
           apply (Hdone4 (i - p) y); [lia|]. rewrite lookup_drop. rewrite <-Hy. f_equal. lia.
      * intros e s4 (Hthrow & -> & Hthis4 & _). simpl in *.
        apply wp_bind, wp_modify, wp_throw. simpl.
        split_and!; [by left|by right|].
        intros [Hmove|?]; [|done]. by rewrite Hthis4, Hcopy2.
    + intros e s2 (Hthrow & -> & Hthis2 & _).
      apply wp_bind, wp_modify, wp_throw. simpl.
      split_and!; [by left|by right|]. intros _. congruence.
Qed.

Lemma insertExpandAux_spec p x xs s :
  holds (this s) xs → p ≤ length xs →
  wp throwing (Vec.insertExpandAux p (by_copy (Val x)))
    (λ r s', r = p
             ∧ holds (this s') (take p xs ++ [x] ++ drop p xs)
             ∧ length (storage (this s')) = 2 * length xs + 1)
    (λ e s', (throwing ∨ ¬ allocatable (2 * length xs + 1)) ∧ benign e
             ∧ (nothrow_move_constructible = false ∨ trivially_copyable = true →
                this s' = this s)) s.
Proof. apply insertExpandAux_init_spec. by left. Qed.

Lemma insert_spec pos x xs s :
  holds (this s) xs → pos ≤ length xs →
  wp throwing (Vec.insert pos (Val x))
    (λ r s', r = pos
             ∧ holds (this s') (take pos xs ++ [x] ++ drop pos xs)
             ∧ size_of (this s') = appended (size_of (this s)))
    (λ e s', (throwing ∨ ¬ allocatable (2 * length xs + 1)) ∧ benign e) s.
Proof.
  intros Hxs Hpos. pose proof (holds_length _ _ Hxs) as Hlen.
  pose proof Hxs as (Hle & Hal & _ & Hlook)%holds_lookup.
  unfold Vec.insert, Vec.addressCheck, Vec.position.
  apply wp_bind, wp_bind, wp_get, wp_ret, wp_bind, wp_bind, wp_get.
  destruct (decide (pos ≤ finish_ (this s))) as [_|?]; [apply wp_ret|lia].
  apply wp_bind, wp_get, wp_bind, wp_get. cbv beta. rewrite <-Hlen.
  destruct (decide (length xs ≠ length (storage (this s)))) as [Hspare|Hfull].
  - apply wp_bind.
    assert (appended (size_of (this s))
            = mkExtent (length (storage (this s))) (length xs + 1)) as Happ.
    { unfold appended, size_of. simpl. rewrite decide_False by lia. by rewrite Hlen. }
    destruct (decide (pos = length xs)) as [->|Hmid].
    + (* at the end *)
      apply wp_bind, wp_construct_at_val; simpl; [lia|..].
      2:{ intros Hthrow w. split; [by left|by right]. }
      intros w. apply wp_modify, wp_ret. simpl.
      rewrite take_ge, drop_ge by lia.
      split_and!; [done| |].
      * rewrite Hlen. apply holds_push; [done|lia].
      * rewrite Happ. unfold size_of. simpl. by rewrite length_insert.
    + (* in the middle *)
      unfold Vec.before. apply wp_bind.
      destruct (decide (length xs = 0)) as [?|_]; [lia|]. apply wp_ret, wp_bind.
      destruct (lookup_lt_is_Some_2 xs (length xs - 1)) as [z Hz]; [lia|].
      apply (wp_construct_at_move _ _ z); simpl; [by apply Hlook|lia|..].
      2:{ intros _ Hthrow w. split; [by left|by right]. }
      intros r w. apply wp_bind, wp_modify, wp_bind.
      apply move_up_spec; simpl; rewrite ?length_insert; try lia.
      * intros i y Hi Hy. rewrite !list_lookup_insert_ne by lia. by apply Hlook.
      * exists r. rewrite list_lookup_insert_ne by lia.
        rewrite list_lookup_insert_eq; [done|lia].
      * intros y Hy. rewrite list_lookup_insert_eq by (rewrite length_insert; lia).
        congruence.
      * intros s' Htmp Hfin Hcap Hlow [r' Hr'] Hhigh. simpl in *.
        rewrite ?length_insert in Hcap.
        apply (wp_assign_at_val _ _ r'); [done|..].
        2:{ intros Hthrow w'. split; [by left|by right]. }
        intros w'. apply wp_ret. simpl. split_and!; [done| |].
        -- rewrite Hfin. apply holds_inserted; rewrite ?length_insert; try lia.
           ++ by rewrite Hcap.
           ++ intros i y Hi Hy. rewrite list_lookup_insert_ne by lia. by apply Hlow.
           ++ rewrite list_lookup_insert_eq; [done|lia].
           ++ intros i y Hi Hy. rewrite list_lookup_insert_ne by lia. by apply Hhigh.
        -- rewrite Happ. unfold size_of. simpl. rewrite length_insert, Hcap, Hfin. done.
      * intros Hthrow s'. split; [by left|by right].
  - eapply wp_mono; [by apply (insertExpandAux_spec pos x xs)|..].
    + intros r s' (-> & Hxs' & Hcap'). split_and!; try done.
      unfold appended, size_of. simpl. rewrite decide_True by lia.
      apply holds_length in Hxs'. rewrite length_app, length_take in Hxs'.
      simpl in Hxs'. rewrite length_drop in Hxs'. f_equal; lia.
    + intros e s' (? & ? & _). done.
Qed.

(** X20. [insert(pos, value)] with a [value] of the caller puts it before
    the element at [pos]: the elements before [pos] stay, the new one
    follows, then the elements from [pos] on, in order; the position
    returned is [pos].  The block is kept when there is spare capacity and
    replaced by one of [2 * size + 1] elements otherwise.  It throws nothing
    but [std::bad_alloc] and what a member function of [T] threw, and returns
    whenever nothing throws and the block can be requested. *)
Theorem insert_puts_the_value_before_pos pos x xs s :
  holds (this s) xs → pos ≤ length xs →
  (∀ r s', Vec.insert pos (Val x) s = Ret r s' →
     r = pos
     ∧ holds (this s') (take pos xs ++ [x] ++ drop pos xs)
     ∧ (take pos xs ++ [x] ++ drop pos xs) !! pos = Some x
     ∧ finish_ (this s') = finish_ (this s) + 1
     ∧ length (storage (this s'))
       = if decide (finish_ (this s) = length (storage (this s)))
         then 2 * finish_ (this s) + 1 else length (storage (this s)))
  ∧ (∀ e s', Vec.insert pos (Val x) s = Throw e s' →
       e = bad_alloc ∨ e = element_error)
  ∧ (¬ throwing → allocatable (2 * length xs + 1) →
     ∃ s', Vec.insert pos (Val x) s = Ret pos s').
Proof.
  intros Hxs Hpos. pose proof (insert_spec pos x xs s Hxs Hpos) as Hspec. split_and!.
  - intros r s' Hr. apply (wp_ret_inv _ _ _ _ _ _ _ Hspec) in Hr as (-> & Hxs' & Hsize).
    injection Hsize as Hcap Hfin. split_and!; try done.
    + rewrite lookup_app_r by (rewrite length_take; lia).
      rewrite length_take, Nat.min_l, Nat.sub_diag by lia. done.
    + rewrite Hcap. unfold appended, size_of. simpl. repeat case_decide; lia.
  - intros e s' Hr. by apply (wp_throw_inv _ _ _ _ _ _ _ Hspec) in Hr as [_ ?].
  - intros Hquiet Hal.
    destruct (wp_returns _ _ _ _ _ Hspec Hquiet) as (r & s' & Hr & -> & _); [|eauto].
    intros e s' ([?|?] & _); done.
Qed.

(** X21. [insert] on a full vector builds the new block before it lets go
    of the old one.  When it throws, the vector is exactly as it was,
    provided [T] is trivially copyable or its move constructor may throw (the
    elements are then copied, not moved); the exception is [std::bad_alloc]
    or what a constructor of [T] threw. *)
Theorem insert_on_a_full_vector_rolls_back pos x xs s e s' :
  holds (this s) xs → pos ≤ length xs →
  finish_ (this s) = length (storage (this s)) →
  Vec.insert pos (Val x) s = Throw e s' →
  (e = bad_alloc ∨ e = element_error)
  ∧ (nothrow_move_constructible = false ∨ trivially_copyable = true →
     this s' = this s).
Proof.
  intros Hxs Hpos Hfull. pose proof (holds_length _ _ Hxs) as Hlen.
  unfold Vec.insert, Vec.addressCheck, Vec.position, Vec.size, Vec.capacity, get,
    mbind, M_bind, mret, M_ret.
  rewrite decide_True by lia. rewrite decide_False by lia.
  intros Hr.
  by apply (wp_throw_inv _ _ _ _ _ _ _ (insertExpandAux_spec pos x xs s Hxs Hpos)) in Hr
    as (_ & ? & ?).
Qed.
End Insertion.

(** * Concrete runs of the further properties *)

Lemma sized_ints xs spare :
  allocatable (length xs + spare) → sized (size_of (this (ints xs spare))).
Proof. intros Hal. by eapply holds_sized, holds_ints. Qed.

Lemma holds_two_ints xs ys :
  allocatable (length xs) → allocatable (length ys) →
  holds (this (two_ints xs ys)) xs ∧ holds (tmp (two_ints xs ys)) ys.
Proof.
  intros Hxs Hys. split.
  - apply (holds_ints xs 0). by rewrite Nat.add_0_r.
  - apply (holds_ints ys 0). by rewrite Nat.add_0_r.
Qed.

Lemma push_back_within_capacity_keeps_the_block_witness :
  ∃ s', for_each back_call [push (Val 2%Z); push (Val 3%Z); pop] (ints [1%Z] 2)
        = Ret tt s'
        ∧ length (storage (this s')) = 3.
Proof.
  eexists. split; [vm_compute; reflexivity|].
  eapply (push_back_within_capacity_keeps_the_block
            [push (Val 2%Z); push (Val 3%Z); pop] (ints [1%Z] 2)).
  - apply sized_ints. fits.
  - vm_compute. lia.
  - vm_compute. reflexivity.
Defined.

Lemma push_back_grows_geometrically_witness :
  ∃ s s',
    construct new_default (ints [] 0) = Ret tt s
    ∧ for_each back_call
        [push (Val 1%Z); push (Val 2%Z); push (Val 3%Z); push (Val 4%Z); pop] s
      = Ret tt s'
    ∧ length (storage (this s')) = 7
    ∧ (∃ k, length (storage (this s')) + 1 = 2 ^ k)
    ∧ length (storage (this s')) ≤ 2 * 4.
Proof.
  eexists _, _. split; [vm_compute; reflexivity|].
  split; [vm_compute; reflexivity|]. split; [done|].
  eapply (push_back_grows_geometrically
    [push (Val 1%Z); push (Val 2%Z); push (Val 3%Z); push (Val 4%Z); pop] (ints [] 0)).
  - vm_compute. reflexivity.
  - vm_compute. reflexivity.
Defined.

Lemma assign_sets_the_size_and_keeps_capacity_witness :
  ∃ s', Vec.assign_list [7; 8; 9]%Z (ints [1; 2]%Z 0) = Ret tt s'
        ∧ finish_ (this s') = 3 ∧ length (storage (this s')) = 3.
Proof.
  destruct (assign_sets_the_size_and_keeps_capacity (ints [1; 2]%Z 0))
    as (_ & _ & Hlist); [apply sized_ints; fits|].
  eexists. split; [vm_compute; reflexivity|].
  by apply (Hlist [7; 8; 9]%Z).
Defined.

Lemma push_back_appends_or_keeps_the_elements_witness :
  ∃ s', Vec.push_back (Val 3%Z) (ints [1; 2]%Z 0) = Ret tt s'
        ∧ holds (this s') [1; 2; 3]%Z.
Proof.
  destruct (push_back_appends_or_keeps_the_elements [1; 2]%Z 3%Z (ints [1; 2]%Z 0))
    as (Hret & _ & Hex); [apply holds_ints; fits|].
  destruct (Hex int_quiet) as [s' Hs']; [fits|].
  exists s'. split; [done|]. by apply Hret in Hs' as [? _].
Defined.

Lemma pop_back_undoes_push_back_witness :
  ∃ s1 s2, Vec.push_back (Val 3%Z) (ints [1; 2]%Z 0) = Ret tt s1
           ∧ Vec.back s1 = Ret 3%Z s1
           ∧ Vec.pop_back s1 = Ret tt s2
           ∧ holds (this s2) [1; 2]%Z.
Proof.
  eexists _, _. split; [vm_compute; reflexivity|].
  destruct (pop_back_undoes_push_back [1; 2]%Z 3%Z (ints [1; 2]%Z 0) _
    ltac:(apply holds_ints; fits) eq_refl) as (Hback & s2 & Hpop & Hxs & _).
  split; [done|]. split; [vm_compute; reflexivity|].
  vm_compute in Hpop. injection Hpop as <-. done.
Defined.

Lemma reserve_throws_only_from_growth_witness :
  holds (this (fuses [1; 2]%Z 0)) [1; 2]%Z
  ∧ representable (H := fuse_traits) 5
  ∧ ∃ s', Vec.reserve 5 (fuses [1; 2]%Z 0) = Throw element_error s'
          ∧ length (storage (this (fuses [1; 2]%Z 0))) < 5
          ∧ this s' = this (fuses [1; 2]%Z 0).
Proof.
  assert (holds (H := fuse_traits) (this (fuses [1; 2]%Z 0)) [1; 2]%Z) as Hxs
    by (split_and!; [done|fits|done]).
  assert (representable (H := fuse_traits) 5) as Hrep by fits.
  split; [done|]. split; [done|].
  eexists. split; [vm_compute; reflexivity|].
  eapply (reserve_throws_only_from_growth (H := fuse_traits) 5 [1; 2]%Z
            (fuses [1; 2]%Z 0) element_error).
  - done.
  - done.
  - vm_compute. reflexivity.
Defined.

Lemma empty_vector_has_no_last_element_witness :
  Vec.pop_back (ints [] 3) = Undefined
  ∧ Vec.at_ 0 (ints [] 3) = Throw out_of_range (ints [] 3).
Proof.
  destruct (empty_vector_has_no_last_element (ints [] 3) eq_refl)
    as (_ & Hpop & _ & _ & _ & Hat & _).
  split; [done|]. apply Hat.
Defined.

Lemma clear_empties_and_keeps_capacity_witness :
  ∃ s', Vec.clear (ints [1; 2; 3]%Z 1) = Ret tt s'
        ∧ finish_ (this s') = 0 ∧ length (storage (this s')) = 4.
Proof.
  destruct (clear_empties_and_keeps_capacity [1; 2; 3]%Z (ints [1; 2; 3]%Z 1))
    as (s' & Hr & _ & ? & ? & _); [apply holds_ints; fits|].
  exists s'. done.
Defined.

Lemma erase_removes_one_element_witness :
  ∃ s', Vec.erase 1 (ints [1; 2; 3]%Z 0) = Ret 1 s' ∧ holds (this s') [1; 3]%Z.
Proof.
  destruct (erase_removes_one_element 1 [1; 2; 3]%Z (ints [1; 2; 3]%Z 0))
    as (Hret & _ & Hex); [apply holds_ints; fits|simpl; lia|].
  destruct (Hex int_quiet) as [s' Hs'].
  exists s'. split; [done|]. by apply Hret in Hs' as (_ & ? & _).
Defined.

Lemma resize_down_keeps_a_prefix_witness :
  ∃ s', Vec.resize 1 (ints [1; 2; 3]%Z 0) = Ret tt s'
        ∧ holds (this s') [1%Z] ∧ length (storage (this s')) = 3.
Proof.
  destruct (resize_down_keeps_a_prefix 1 [1; 2; 3]%Z (ints [1; 2; 3]%Z 0))
    as (s' & Hr & ? & _ & ? & _); [apply holds_ints; fits|simpl; lia|].
  exists s'. done.
Defined.

Lemma constructors_build_their_arguments_witness :
  (∃ s', Vec.Vector_fill This 3 (Val 7%Z) (ints [] 0) = Ret tt s'
         ∧ holds (this s') [7; 7; 7]%Z)
  ∧ (∃ s', Vec.Vector_range This (Val <$> [1; 2]%Z) (ints [] 0) = Ret tt s'
           ∧ holds (this s') [1; 2]%Z)
  ∧ (∃ s', representable 3
           ∧ Vec.Vector_count This 3 (ints [] 0) = Ret tt s'
           ∧ elements (this s') = [0; 1; 2]%Z
           ∧ length (storage (this s')) = 3).
Proof.
  destruct (constructors_build_their_arguments 3 7%Z [1; 2]%Z (ints [] 0))
    as (Hfill & Hrange & Hcount & Hex1 & Hex2).
  split; [|split].
  - destruct (Hex1 int_quiet) as [[s' Hs'] _]; [fits|].
    exists s'. split; [done|]. by apply Hfill in Hs' as [? _].
  - destruct (Hex2 int_quiet) as [s' Hs']; [fits|].
    exists s'. split; [done|]. by apply Hrange in Hs' as [? _].
  - assert (representable (H := int_traits) 3) as Hrep by fits.
    eexists. split; [done|]. split; [vm_compute; reflexivity|]. split; [done|].
    by destruct (Hcount _ Hrep eq_refl) as (ds & _ & _ & _ & ? & _).
Defined.

Lemma copy_constructor_copies_and_move_constructor_takes_witness :
  ∃ s', Vec.Vector_copy This (two_ints [] [1; 2]%Z) = Ret tt s'
        ∧ holds (this s') [1; 2]%Z ∧ tmp s' = tmp (two_ints [] [1; 2]%Z).
Proof.
  destruct (copy_constructor_copies_and_move_constructor_takes [1; 2]%Z
              (two_ints [] [1; 2]%Z)) as (Hret & _ & Hex & _).
  { apply holds_two_ints; fits. }
  destruct (Hex int_quiet) as [s' Hs'].
  exists s'. split; [done|]. by apply Hret in Hs' as (? & _ & ?).
Defined.

Lemma resize_up_appends_default_elements_witness :
  ∃ s', Vec.resize 4 (ints [1; 2]%Z 0) = Ret tt s'
        ∧ elements (this s') = [1; 2; 0; 1]%Z
        ∧ finish_ (this s') = 4 ∧ length (storage (this s')) = 4.
Proof.
  destruct (resize_up_appends_default_elements 4 [1; 2]%Z (ints [1; 2]%Z 0))
    as (Hret & _ & _); [apply holds_ints; fits|simpl; lia|fits|].
  eexists. split; [vm_compute; reflexivity|]. split; [done|].
  by destruct (Hret _ eq_refl) as (ds & _ & _ & _ & ? & ?).
Defined.

Lemma assign_leaves_count_copies_witness :
  ∃ s', Vec.assign 3 (Val 7%Z) (ints [1; 2]%Z 0) = Ret tt s'
        ∧ holds (this s') [7; 7; 7]%Z.
Proof.
  destruct (assign_leaves_count_copies 3 7%Z [1; 2]%Z (ints [1; 2]%Z 0))
    as (Hret & _ & Hex); [apply holds_ints; fits|].
  destruct (Hex int_quiet) as [s' Hs']; [fits|].
  exists s'. split; [done|]. by apply Hret in Hs' as [? _].
Defined.

Lemma Z_eqb_decides (c d : Z) : (c =? d)%Z = true ↔ c = d.
Proof. apply Z.eqb_eq. Qed.

Lemma Z_ltb_strict_total_order : strict_total_order Z.ltb.
Proof. split_and!; intros; lia. Qed.

Lemma operator_eq_decides_equality_witness :
  Vec.operator_eq Z.eqb This Tmp (two_ints [1; 2]%Z [1; 3]%Z)
  = Ret false (two_ints [1; 2]%Z [1; 3]%Z).
Proof.
  destruct (operator_eq_decides_equality Z.eqb This Tmp [1; 2]%Z [1; 3]%Z
              (two_ints [1; 2]%Z [1; 3]%Z) Z_eqb_decides)
    as (r & Hr & _ & Hiff); [apply holds_two_ints; fits..|].
  rewrite Hr. destruct r; [|done]. by destruct Hiff as [Hiff _]; specialize (Hiff eq_refl).
Defined.

Lemma operator_lt_is_the_lexicographic_order_witness :
  Vec.operator_lt Z.ltb This Tmp (two_ints [1; 2]%Z [1; 3]%Z)
  = Ret true (two_ints [1; 2]%Z [1; 3]%Z)
  ∧ Vec.operator_lt Z.ltb Tmp This (two_ints [1; 2]%Z [1; 3]%Z)
    = Ret false (two_ints [1; 2]%Z [1; 3]%Z).
Proof.
  destruct (operator_lt_is_the_lexicographic_order Z.ltb This Tmp [1; 2]%Z [1; 3]%Z
              (two_ints [1; 2]%Z [1; 3]%Z)) as [Hlt Horder];
    [apply holds_two_ints; fits..|].
  destruct (Horder Z_ltb_strict_total_order) as (_ & Hasym & _).
  split; [done|]. by apply Hasym.
Defined.

Lemma comparisons_follow_operator_lt_witness :
  Vec.operator_le Z.ltb This Tmp (two_ints [1; 2]%Z [1; 3]%Z)
  = Ret true (two_ints [1; 2]%Z [1; 3]%Z).
Proof.
  destruct (comparisons_follow_operator_lt Z.ltb This Tmp [1; 2]%Z [1; 3]%Z
              (two_ints [1; 2]%Z [1; 3]%Z))
    as (lt & gt & _ & Hgt & _ & Hle & _); [apply holds_two_ints; fits..|].
  rewrite Hle. vm_compute in Hgt. by injection Hgt as <-.
Defined.

Lemma stack_returns_the_pushed_elements_in_reverse_witness :
  ∃ s1 s2, push_all [2; 3; 4]%Z (ints [1%Z] 3) = Ret tt s1
           ∧ pop_all 3 s1 = Ret [4; 3; 2]%Z s2
           ∧ holds (this s2) [1%Z].
Proof.
  destruct (stack_returns_the_pushed_elements_in_reverse [2; 3; 4]%Z [1%Z] (ints [1%Z] 3))
    as [Hret Hex]; [apply holds_ints; fits|].
  destruct (Hex int_quiet) as [s1 Hs1]; [simpl; lia|].
  destruct (Hret s1 Hs1) as (_ & _ & s2 & Hpop & ? & _).
  by exists s1, s2.
Defined.

Lemma push_back_into_spare_capacity_witness :
  ∃ s', Vec.push_back (Val 3%Z) (ints [1; 2]%Z 1) = Ret tt s'
        ∧ length (storage (this s')) = 3.
Proof.
  destruct (push_back_into_spare_capacity [1; 2]%Z 3%Z (ints [1; 2]%Z 1))
    as (Hret & _ & Hex); [apply holds_ints; fits|simpl; lia|].
  destruct (Hex int_quiet) as [s' Hs'].
  exists s'. split; [done|]. by apply Hret in Hs' as (_ & ? & _).
Defined.

Lemma insert_puts_the_value_before_pos_witness :
  ∃ s', Vec.insert 1 (Val 9%Z) (ints [1; 2; 3]%Z 1) = Ret 1 s'
        ∧ holds (this s') [1; 9; 2; 3]%Z.
Proof.
  destruct (insert_puts_the_value_before_pos 1 9%Z [1; 2; 3]%Z (ints [1; 2; 3]%Z 1))
    as (Hret & _ & Hex); [apply holds_ints; fits|simpl; lia|].
  destruct (Hex int_quiet) as [s' Hs']; [fits|].
  exists s'. split; [done|]. by apply Hret in Hs' as (_ & ? & _).
Defined.

Lemma insert_on_a_full_vector_rolls_back_witness :
  ∃ s', Vec.insert 1 (Val 9%Z) (fuses [5%Z] 1) = Throw element_error s'
        ∧ this s' = this (fuses [5%Z] 1).
Proof.
  eexists. split; [vm_compute; reflexivity|].
  eapply (insert_on_a_full_vector_rolls_back (H := fuse_traits) 1 9%Z
            [5%Z] (fuses [5%Z] 1) element_error).
  - split_and!; [done|fits|done].
  - simpl. lia.
  - done.
  - vm_compute. reflexivity.
  - by left.
Defined.

(** * What the member functions throw *)

Section Exceptions.
Context `{Traits T W}.
Implicit Types (s : Machine T W) (v : Vector T) (e : exn) (sh : sizes).

Lemma bind_throw_inv {A B} (m : M T W A) (f : A → M T W B) s e s' :
  (m ≫= f) s = Throw e s' →
  m s = Throw e s' ∨ ∃ a s1, m s = Ret a s1 ∧ f a s1 = Throw e s'.
Proof.
  unfold mbind, M_bind. destruct (m s) as [a s1|e1 s1|]; intros Hf.
  - right. eauto.
  - left. by injection Hf as -> ->.
  - discriminate Hf.
Qed.

Lemma then_ret_throw_inv {A} (m : M T W A) s e s' :
  (m;; mret tt) s = Throw e s' → m s = Throw e s'.
Proof. intros [?|(a & s1 & _ & Hf)]%bind_throw_inv; [done|]. by cbv in Hf. Qed.

Lemma destroy_at_never_throws (p : loc) s e s' : destroy_at p s ≠ Throw e s'.
Proof.
  unfold destroy_at, read, peek, poke, mbind, M_bind.
  destruct (storage (vec p.1 s) !! p.2) as [[|x]|]; simpl; try done.
  by case_decide.
Qed.

Lemma destroy_never_throws (l : list loc) s e s' :
  for_each destroy_at l s ≠ Throw e s'.
Proof.
  revert s. induction l as [|p l IH]; intros s; simpl; [done|].
  intros [Hp|(a & s1 & _ & Hl)]%bind_throw_inv.
  - by apply destroy_at_never_throws in Hp.
  - by apply IH in Hl.
Qed.

Lemma pop_back_never_throws s e s' : Vec.pop_back s ≠ Throw e s'.
Proof.
  unfold Vec.pop_back, Vec.size, Vec.before, Vec.set_finish, get, modify, mbind, M_bind.
  case_decide; simpl; [done|]. apply destroy_at_never_throws.
Qed.

Lemma clear_never_throws s e s' : Vec.clear s ≠ Throw e s'.
Proof.
  unfold Vec.clear, Vec.size, get. unfold mbind at 1, M_bind at 1.
  intros [Hd|(a & s1 & _ & Hf)]%bind_throw_inv.
  - by apply destroy_never_throws in Hd.
  - done.
Qed.

Lemma reserve_length_error n s s' :
  Vec.reserve n s = Throw length_error s' → (SIZE_MAX < N.of_nat n)%N.
Proof.
  unfold Vec.reserve, Vec.maxSize, Vec.capacity, get.
  case_decide as Hn; [done|]. unfold mbind at 1, M_bind at 1. simpl.
  unfold mbind, M_bind. case_decide; [|done]. intros Hr.
  apply (wps_throw_inv _ _ _ _ _ _ (growShrinkAux_sizes n (shape s))) in Hr
    as [[?|?] _]; done.
Qed.

(** X22. What the member functions of [operation] throw: the public member
    functions that change a vector, with the range overloads for forward
    iterators and, for iterators that are input iterators only, [assign] and
    [insert] at [end()].  None of them throws [std::out_of_range].
    [std::range_error] comes only from where [insert(pos, value)] is
    reached: from that call, from [insert(pos, 1, value)], which is the same
    call, and from the two functions for input iterators, which insert the
    elements of their range one by one.  [std::length_error] comes only from
    [reserve], and only for a size that [SizeType] cannot hold.  Everything
    else is [std::bad_alloc] or what a member function of [T] threw, and
    [pop_back], [clear] and [swap], which are [noexcept], throw nothing. *)
Theorem member_functions_throw_little o s e s' :
  sized (size_of (this s)) → (o = call_swap → sized (size_of (tmp s))) →
  call o s = Throw e s' →
  e ≠ out_of_range
  ∧ (e = range_error →
     (∃ pos value, o = call_insert pos value ∨ o = call_insert_count pos 1 value)
     ∨ (∃ first_last,
          o = call_insert_input_at_end first_last ∨ o = call_assign_input first_last))
  ∧ (e = length_error → ∃ n, o = call_reserve n ∧ (SIZE_MAX < N.of_nat n)%N)
  ∧ (e = range_error ∨ e = length_error ∨ e = bad_alloc ∨ e = element_error)
  ∧ o ≠ call_pop_back ∧ o ≠ call_clear ∧ o ≠ call_swap.
Proof.
  intros Hs Hswap Hr.
  assert (benign e → e ≠ out_of_range
    ∧ (e = range_error →
       (∃ pos value, o = call_insert pos value ∨ o = call_insert_count pos 1 value)
       ∨ (∃ first_last,
            o = call_insert_input_at_end first_last ∨ o = call_assign_input first_last))
    ∧ (e = length_error → ∃ n, o = call_reserve n ∧ (SIZE_MAX < N.of_nat n)%N)
    ∧ (e = range_error ∨ e = length_error ∨ e = bad_alloc ∨ e = element_error))
    as Hbenign.
  { intros [-> | ->]; split_and!; try done; eauto. }
  destruct o; simpl in Hr; try apply then_ret_throw_inv in Hr.
  - apply (wps_throw_inv _ _ _ _ _ _ (push_back_sizes _ (shape s) Hs)) in Hr as [? _].
    by split_and!; try apply Hbenign.
  - apply (wps_throw_inv _ _ _ _ _ _ (push_back_move_sizes _ (shape s) Hs)) in Hr
      as [? _].
    by split_and!; try apply Hbenign.
  - apply (wps_throw_inv _ _ _ _ _ _ (emplace_back_sizes _ (shape s) Hs)) in Hr as [? _].
    by split_and!; try apply Hbenign.
  - by apply pop_back_never_throws in Hr.
  - apply (wps_throw_inv _ _ _ _ _ _ (insert_sizes _ _ (shape s) Hs)) in Hr
      as [[-> |?] _]; [|by split_and!; try apply Hbenign].
    split_and!; try done; eauto.
  - apply (wps_throw_inv _ _ _ _ _ _ (insert_move_sizes _ _ (shape s) Hs)) in Hr
      as [? _].
    by split_and!; try apply Hbenign.
  - apply (wps_throw_inv _ _ _ _ _ _ (insert_count_sizes _ _ _ (shape s) Hs)) in Hr
      as [[[-> ->]|?] _]; [|by split_and!; try apply Hbenign].
    split_and!; try done; eauto.
  - apply (wps_throw_inv _ _ _ _ _ _ (insert_range_sizes _ _ (shape s) Hs)) in Hr
      as [? _].
    by split_and!; try apply Hbenign.
  - apply (wps_throw_inv _ _ _ _ _ _ (insert_input_at_end_sizes _ (shape s) Hs)) in Hr
      as [[-> |?] _]; [|by split_and!; try apply Hbenign].
    split_and!; try done; eauto.
  - apply (wps_throw_inv _ _ _ _ _ _ (emplace_sizes _ _ (shape s) Hs)) in Hr as [? _].
    by split_and!; try apply Hbenign.
  - apply (wps_throw_inv _ _ _ _ _ _ (erase_sizes _ (shape s) Hs)) in Hr as [? _].
    by split_and!; try apply Hbenign.
  - apply (wps_throw_inv _ _ _ _ _ _ (erase_range_sizes _ _ (shape s) Hs)) in Hr
      as [? _].
    by split_and!; try apply Hbenign.
  - by apply clear_never_throws in Hr.
  - apply (wps_throw_inv _ _ _ _ _ _ (resize_sizes _ (shape s) Hs)) in Hr as [? _].
    by split_and!; try apply Hbenign.
  - pose proof Hr as Hr'.
    apply (wps_throw_inv _ _ _ _ _ _ (reserve_sizes _ (shape s) Hs)) in Hr
      as [[-> |?] _]; [|by split_and!; try apply Hbenign].
    apply reserve_length_error in Hr'. split_and!; try done; eauto.
  - apply (wps_throw_inv _ _ _ _ _ _ (shrink_sizes (shape s) Hs)) in Hr as [? _].
    by split_and!; try apply Hbenign.
  - apply (wps_throw_inv _ _ _ _ _ _ (assign_sizes _ _ (shape s) Hs)) in Hr as [? _].
    by split_and!; try apply Hbenign.
  - apply (wps_throw_inv _ _ _ _ _ _ (assign_range_sizes _ (shape s) Hs)) in Hr
      as [? _].
    by split_and!; try apply Hbenign.
  - apply (wps_throw_inv _ _ _ _ _ _ (assign_input_sizes _ (shape s) Hs)) in Hr
      as [[-> |?] _]; [|by split_and!; try apply Hbenign].
    split_and!; try done; eauto.
  - apply (wps_throw_inv _ _ _ _ _ _ (assign_list_sizes _ (shape s) Hs)) in Hr as [? _].
    by split_and!; try apply Hbenign.
  - done.
Qed.
End Exceptions.

Section MoreAccess.
Context `{Traits T W} `{!Regular}.
Implicit Types (s : Machine T W) (v : Vector T) (xs ys : list T) (e : exn) (o : obj).

Lemma emplace_back_unfold x s :
  Vec.emplace_back (by_copy (Val x)) s = (Vec.push_back (Val x);; Vec.back) s.
Proof.
  unfold Vec.emplace_back, Vec.push_back, Vec.size, Vec.capacity, get.
  unfold mbind, M_bind, mret, M_ret. simpl.
  case_decide; simpl; [|by destruct (construct_at _ _ _)].
  destruct (Vec.growShrinkAux _ _); simpl; [|done..].
  by destruct (construct_at _ _ _).
Qed.

Lemma emplace_back_spec xs x s :
  holds (this s) xs →
  wp throwing (Vec.emplace_back (by_copy (Val x)))
    (λ r s', r = x ∧ holds (this s') (xs ++ [x])
             ∧ size_of (this s') = appended (size_of (this s)))
    (λ e s', (throwing ∨ ¬ allocatable (2 * length (storage (this s)) + 1))
             ∧ benign e ∧ holds (this s') xs) s.
Proof.
  intros Hxs. unfold wp at 1. rewrite emplace_back_unfold. apply wp_bind.
  eapply wp_mono; [by apply push_back_spec| |done].
  intros _ s1 [Hxs1 Hsize]. by apply (wp_back _ xs x).
Qed.

(** X23. [emplace_back] with an object of the caller appends a copy of it
    and returns the new last element; [Stack::emplace], whose return type is
    [auto], returns a copy of that element, and when that last copy throws
    the element is on the stack all the same. *)
Theorem emplace_back_returns_the_new_element xs x s :
  holds (this s) xs →
  (∀ r s', Vec.emplace_back (by_copy (Val x)) s = Ret r s' →
     r = x ∧ holds (this s') (xs ++ [x]) ∧ Vec.back s' = Ret x s')
  ∧ (∀ r s', Stack.emplace (by_copy (Val x)) s = Ret r s' →
       r = x ∧ holds (this s') (xs ++ [x]))
  ∧ (∀ e s', Stack.emplace (by_copy (Val x)) s = Throw e s' →
       (e = bad_alloc ∨ e = element_error)
       ∧ (holds (this s') xs ∨ holds (this s') (xs ++ [x])))
  ∧ (¬ throwing → allocatable (2 * length (storage (this s)) + 1) →
     ∃ s', Stack.emplace (by_copy (Val x)) s = Ret x s').
Proof.
  intros Hxs. pose proof (emplace_back_spec xs x s Hxs) as Hspec.
  assert (wp throwing (Stack.emplace (by_copy (Val x)))
    (λ r s', r = x ∧ holds (this s') (xs ++ [x]))
    (λ e s', (throwing ∨ ¬ allocatable (2 * length (storage (this s)) + 1))
             ∧ benign e
             ∧ (holds (this s') xs ∨ holds (this s') (xs ++ [x]))) s) as Hstack.
  { unfold Stack.emplace. apply wp_bind.
    eapply wp_mono; [apply Hspec|..].
    - intros r s1 (-> & Hxs1 & _). apply wp_copy_constructor.
      + intros w. done.
      + intros Hthrow w. split_and!; [by left|by right|by right].
    - intros e s1 (? & ? & ?). split_and!; [done|done|by left]. }
  split_and!.
  - intros r s' Hr. apply (wp_ret_inv _ _ _ _ _ _ _ Hspec) in Hr as (-> & ? & _).
    split_and!; try done. by apply (back_spec xs).
  - intros r s' Hr. by apply (wp_ret_inv _ _ _ _ _ _ _ Hstack) in Hr.
  - intros e s' Hr. by apply (wp_throw_inv _ _ _ _ _ _ _ Hstack) in Hr as (_ & ? & ?).
  - intros Hquiet Hal.
    destruct (wp_returns _ _ _ _ _ Hstack Hquiet) as (r & s' & Hr & -> & _); [|eauto].
    intros e s' ([?|?] & _); done.
Qed.

(** X24. On a vector that is not empty [front()] is the first element and
    [back()] the last: they return what [at(0)] and [at(size() - 1)] return,
    and like them leave everything as it is. *)
Theorem front_and_back_are_the_ends x xs s :
  holds (this s) (x :: xs) →
  Vec.front s = Ret x s
  ∧ Vec.at_ 0 s = Ret x s
  ∧ Vec.subscript 0 s = Ret x s
  ∧ ∃ y, last (x :: xs) = Some y
         ∧ Vec.back s = Ret y s
         ∧ Vec.at_ (length xs) s = Ret y s.
Proof.
  intros Hxs. pose proof (holds_length _ _ Hxs) as Hlen. simpl in Hlen.
  pose proof Hxs as (_ & _ & _ & Hlook)%holds_lookup.
  assert (∀ i y, (x :: xs) !! i = Some y → Vec.subscript i s = Ret y s) as Hsub.
  { intros i y Hy. unfold Vec.subscript, read, peek, mbind, M_bind. simpl.
    by rewrite (Hlook i y Hy). }
  assert (∀ i y, (x :: xs) !! i = Some y → Vec.at_ i s = Ret y s) as Hat.
  { intros i y Hy. unfold Vec.at_, Vec.rangeCheck, Vec.size, get.
    unfold mbind at 1 2, M_bind at 1 2. pose proof (lookup_lt_Some _ _ _ Hy). simpl in *.
    rewrite decide_False by lia. by apply Hsub. }
  split_and!; [by apply (Hsub 0)|by apply (Hat 0)|by apply (Hsub 0)|].
  destruct (last (x :: xs)) as [y|] eqn:Hy; [|by apply last_None in Hy].
  exists y. split; [done|]. rewrite last_lookup in Hy. simpl in Hy. split.
  - unfold Vec.back, Vec.before, Vec.size, get, mbind, M_bind. simpl.
    rewrite <-Hlen. simpl. rewrite Nat.sub_0_r.
    change (read (This, length xs) s) with (Vec.subscript (length xs) s).
    by apply Hsub.
  - by apply Hat.
Qed.
End MoreAccess.

Lemma member_functions_throw_little_witness :
  sized (size_of (this (ints [1; 2]%Z 0)))
  ∧ call (call_assign_input [Val 5%Z; Val 6%Z; Own 0]) (ints [1; 2]%Z 0)
    = Throw range_error (ints [5; 6]%Z 0)
  ∧ range_error ≠ out_of_range
  ∧ call_assign_input (T := Z) (W := Z) [Val 5%Z; Val 6%Z; Own 0] ≠ call_clear.
Proof.
  assert (sized (size_of (this (ints [1; 2]%Z 0)))) as Hs by (apply sized_ints; fits).
  split; [done|]. split; [vm_compute; reflexivity|].
  destruct (member_functions_throw_little
              (call_assign_input [Val 5%Z; Val 6%Z; Own 0])
              (ints [1; 2]%Z 0) range_error (ints [5; 6]%Z 0) Hs)
    as (Hout & _ & _ & _ & _ & Hclear & _); [done|vm_compute; reflexivity|].
  done.
Defined.

Lemma emplace_back_returns_the_new_element_witness :
  ∃ s', Stack.emplace (by_copy (Val 3%Z)) (ints [1; 2]%Z 0) = Ret 3%Z s'
        ∧ holds (this s') [1; 2; 3]%Z.
Proof.
  destruct (emplace_back_returns_the_new_element [1; 2]%Z 3%Z (ints [1; 2]%Z 0))
    as (_ & Hret & _ & Hex); [apply holds_ints; fits|].
  destruct (Hex int_quiet) as [s' Hs']; [fits|].
  exists s'. split; [done|]. by apply Hret in Hs' as [_ ?].
Defined.

Lemma front_and_back_are_the_ends_witness :
  Vec.front (ints [1; 2; 3]%Z 2) = Ret 1%Z (ints [1; 2; 3]%Z 2)
  ∧ Vec.back (ints [1; 2; 3]%Z 2) = Ret 3%Z (ints [1; 2; 3]%Z 2).
Proof.
  destruct (front_and_back_are_the_ends 1%Z [2; 3]%Z (ints [1; 2; 3]%Z 2))
    as (Hfront & _ & _ & y & Hy & Hback & _); [apply holds_ints; fits|].
  split; [done|]. injection Hy as <-. done.
Defined.

(** * Insertion of several copies *)

Section CountInsertion.
Context `{Traits T W} `{!Regular}.
Implicit Types (s : Machine T W) (v : Vector T) (xs ys vs : list T) (e : exn) (o : obj).

Lemma holds_parts (st : list (slot T)) (a b c : list T) :
  allocatable (length st) → length a + length b + length c ≤ length st →
  (∀ i y, a !! i = Some y → st !! i = Some (Live y)) →
  (∀ i y, b !! i = Some y → st !! (length a + i) = Some (Live y)) →
  (∀ i y, c !! i = Some y → st !! (length a + length b + i) = Some (Live y)) →
  holds (mkVector st (length a + length b + length c)) (a ++ b ++ c).
Proof.
  intros Hal Hfit Ha Hb Hc. apply holds_lookup. simpl. rewrite !length_app.
  split_and!; [done|done|lia|].
  intros j y Hy. apply lookup_app_Some in Hy as [Hy|[Hj Hy]]; [by apply Ha|].
  apply lookup_app_Some in Hy as [Hy|[Hj' Hy]].
  - replace j with (length a + (j - length a)) by lia. by apply Hb.
  - replace j with (length a + length b + (j - length a - length b)) by lia.
    by apply Hc.
Qed.

(** T(std::move(x)): a trivially copyable source keeps its value. *)
Lemma wp_move_constructor_residue x Q E s :
  (∀ r w, (trivially_copyable = true → r = x) → Q (x, r) (with_world s w)) →
  (nothrow_move_constructible = false → throwing →
   ∀ w, E element_error (with_world s w)) →
  wp throwing (move_constructor x) Q E s.
Proof.
  intros HQ HE. unfold move_constructor. destruct trivially_copyable.
  { apply wp_ret. rewrite <-(with_world_id s). by apply HQ. }
  destruct nothrow_move_constructible.
  - apply wp_noexcept, wp_effect.
    + intros [y r] Hy. apply move_construct_value in Hy as ->. by apply HQ.
    + intros Hx. by eapply throwing_move.
  - apply wp_effect.
    + intros [y r] Hy. apply move_construct_value in Hy as ->. by apply HQ.
    + intros Hx. apply HE; [done|]. by eapply throwing_move.
Qed.

Lemma wp_construct_at_move_residue d p x Q E s :
  storage (vec p.1 s) !! p.2 = Some (Live x) →
  d.2 < length (storage (vec d.1 s)) →
  (∀ r w, (trivially_copyable = true → r = x) →
          Q tt (put d (Live x) (put p (Live r) (with_world s w)))) →
  (nothrow_move_constructible = false → throwing →
   ∀ w, E element_error (with_world s w)) →
  wp throwing (construct_at d (by_move (At p))) Q E s.
Proof.
  intros Hp Hd HQ HE. unfold construct_at, make, deref.
  do 2 apply wp_bind. apply (wp_read_live _ _ x); [done|].
  apply wp_bind, wp_move_constructor_residue; [|done].
  intros r w Hr. simpl. apply wp_bind, wp_put.
  { apply lookup_lt_Some in Hp. by destruct p as [[] ?]. }
  apply wp_ret, wp_put; [|by apply HQ].
  destruct d as [[] ?], p as [[] ?]; simpl in *; by rewrite ?length_insert.
Qed.

(** [std::uninitialized_move] of [k] elements of the vector to raw slots
    further up in its block. *)
Lemma wp_uninitialized_move_up a k d vs s Q E :
  length vs = k → a + k ≤ d → d + k ≤ length (storage (this s)) →
  (∀ j y, vs !! j = Some y → storage (this s) !! (a + j) = Some (Live y)) →
  (∀ s', tmp s' = tmp s →
         finish_ (this s') = finish_ (this s) →
         length (storage (this s')) = length (storage (this s)) →
         (∀ j y, vs !! j = Some y → storage (this s') !! (d + j) = Some (Live y)) →
         (∀ i, a ≤ i < a + k → ∃ r, storage (this s') !! i = Some (Live r)) →
         (∀ i, ¬ (a ≤ i < a + k) → ¬ (d ≤ i < d + k) →
               storage (this s') !! i = storage (this s) !! i) →
         (trivially_copyable = true →
          ∀ j y, vs !! j = Some y → storage (this s') !! (a + j) = Some (Live y)) →
         Q tt s') →
  (throwing → ∀ s', E element_error s') →
  wp throwing (std.uninitialized_move (This, a) k (This, d)) Q E s.
Proof.
  intros Hk Had Hdk Hsrc HQ HE. unfold std.uninitialized_move, std.move_iterators.
  apply (wp_uninitialized_copy _ _ _
    (λ t s', tmp s' = tmp s
             ∧ finish_ (this s') = finish_ (this s)
             ∧ length (storage (this s')) = length (storage (this s))
             ∧ (∀ j y, j < t → vs !! j = Some y →
                       storage (this s') !! (d + j) = Some (Live y))
             ∧ (∀ j y, t ≤ j → vs !! j = Some y →
                       storage (this s') !! (a + j) = Some (Live y))
             ∧ (∀ i, a ≤ i < a + t → ∃ r, storage (this s') !! i = Some (Live r))
             ∧ (∀ i, ¬ (a ≤ i < a + k) → ¬ (d ≤ i < d + t) →
                     storage (this s') !! i = storage (this s) !! i)
             ∧ (trivially_copyable = true →
                ∀ j y, vs !! j = Some y →
                       storage (this s') !! (a + j) = Some (Live y)))
    (λ t e s', throwing ∧ e = element_error
               ∧ length (storage (this s')) = length (storage (this s))
               ∧ ∀ j, j < t → ∃ y, storage (this s') !! (d + j) = Some (Live y))).
  - split_and!; try done; try (intros; lia); intros; by apply Hsrc.
  - intros t i s1 Hi (Htmp & Hfin & Hl & Hdone & Htodo & Hlive & Hrest & Hkept).
    rewrite list_lookup_fmap in Hi.
    destruct (range (This, a) k !! t) as [q|] eqn:Hq; [|done].
    apply range_lookup in Hq as [-> Ht]. simpl in Hi. injection Hi as <-.
    unfold shift; simpl.
    destruct (lookup_lt_is_Some_2 vs t) as [y Hy]; [lia|].
    apply (wp_construct_at_move_residue _ _ y); simpl; [by apply Htodo|lia|..].
    + intros r w Hr. unfold put, with_world; simpl. rewrite !length_insert.
      split_and!; try done.
      * intros j y' Hj Hy'. destruct (decide (j = t)) as [->|].
        -- rewrite list_lookup_insert_eq by (rewrite length_insert; lia). congruence.
        -- rewrite !list_lookup_insert_ne by lia. apply Hdone; [lia|done].
      * intros j y' Hj Hy'. pose proof (lookup_lt_Some _ _ _ Hy').
        rewrite !list_lookup_insert_ne by lia. apply Htodo; [lia|done].
      * intros i Hi. destruct (decide (i = a + t)) as [->|].
        -- exists r. rewrite list_lookup_insert_ne by lia.
           rewrite list_lookup_insert_eq; [done|lia].
        -- rewrite !list_lookup_insert_ne by lia. apply Hlive. lia.
      * intros i Hi Hi'. rewrite !list_lookup_insert_ne by lia. apply Hrest; lia.
      * intros Htriv j y' Hy'. pose proof (lookup_lt_Some _ _ _ Hy').
        rewrite list_lookup_insert_ne by lia.
        destruct (decide (j = t)) as [->|].
        -- rewrite list_lookup_insert_eq by lia. rewrite (Hr Htriv). congruence.
        -- rewrite list_lookup_insert_ne by lia. by apply Hkept.
    + intros _ Hthrow w. simpl. split_and!; try done.
      intros j Hj. destruct (lookup_lt_is_Some_2 vs j) as [y' Hy']; [lia|].
      exists y'. apply Hdone; [lia|done].
  - intros t e s1 Ht (Hthrow & He & Hl & Hlive).
    rewrite length_fmap, length_range in Ht.
    destruct (Hlive t) as [y Hy]; [lia|].
    apply (wp_destroy_at_live _ _ y); [done|].
    unfold put; simpl. rewrite length_insert. split_and!; try done.
    intros j Hj. rewrite list_lookup_insert_ne by lia. apply Hlive. lia.
  - intros s' (Htmp & Hfin & Hl & Hdone & Htodo & Hlive & Hrest & Hkept).
    rewrite length_fmap, length_range in *. apply HQ; try done.
    intros j y Hy. apply Hdone; [|done]. apply lookup_lt_Some in Hy. lia.
  - intros e s' (Hthrow & -> & _). by apply HE.
Qed.

(** [std::move_backward] of [k] elements of the vector to the [k] elements
    that lie [c] slots further up. *)
Lemma wp_move_backward_by p k c vs s Q E :
  length vs = k → 0 < c → p + k + c ≤ length (storage (this s)) →
  (∀ j y, vs !! j = Some y → storage (this s) !! (p + j) = Some (Live y)) →
  (∀ i, p ≤ i < p + k + c → ∃ r, storage (this s) !! i = Some (Live r)) →
  (∀ s', tmp s' = tmp s →
         finish_ (this s') = finish_ (this s) →
         length (storage (this s')) = length (storage (this s)) →
         (∀ j y, vs !! j = Some y → storage (this s') !! (p + c + j) = Some (Live y)) →
         (∀ i, p ≤ i < p + k + c → ∃ r, storage (this s') !! i = Some (Live r)) →
         (∀ i, ¬ (p ≤ i < p + k + c) → storage (this s') !! i = storage (this s) !! i) →
         Q tt s') →
  (throwing → ∀ s', E element_error s') →
  wp throwing (std.move_backward (This, p) k (This, p + k + c)) Q E s.
Proof.
  intros <- Hc Hfit Hsrc Hlive HQ HE. unfold std.move_backward. simpl.
  replace (p + (length vs) + c - (length vs)) with (p + c) by lia.
  apply (wp_for_each _ _ _ (λ t s',
    tmp s' = tmp s
    ∧ finish_ (this s') = finish_ (this s)
    ∧ length (storage (this s')) = length (storage (this s))
    ∧ (∀ j y, j < (length vs) - t → vs !! j = Some y →
              storage (this s') !! (p + j) = Some (Live y))
    ∧ (∀ j y, (length vs) - t ≤ j → vs !! j = Some y →
              storage (this s') !! (p + c + j) = Some (Live y))
    ∧ (∀ i, p ≤ i < p + (length vs) + c → ∃ r, storage (this s') !! i = Some (Live r))
    ∧ (∀ i, ¬ (p ≤ i < p + (length vs) + c) → storage (this s') !! i = storage (this s) !! i))).
  - split_and!; try done.
    + intros j y _ Hy. by apply Hsrc.
    + intros j y Hj Hy. apply lookup_lt_Some in Hy. lia.
  - intros t [q d] s1 Ht (Htmp & Hfin & Hl & Htodo & Hdone & Hlive1 & Hrest).
    pose proof (lookup_lt_Some _ _ _ Ht) as Htk.
    rewrite length_reverse, length_zip_with, !length_range, Nat.min_id in Htk.
    rewrite reverse_lookup in Ht
      by (rewrite length_zip_with, !length_range, Nat.min_id; lia).
    rewrite length_zip_with, !length_range, Nat.min_id in Ht.
    apply lookup_zip_with_Some in Ht
      as (?&?&?&[-> _]%range_lookup&[-> _]%range_lookup); simplify_eq.
    unfold shift; simpl.
    destruct (lookup_lt_is_Some_2 vs ((length vs) - S t)) as [y Hy]; [lia|].
    destruct (Hlive1 (p + c + ((length vs) - S t))) as [old Hold]; [lia|].
    apply (wp_assign_at_move _ _ y old); [by apply Htodo; [lia|]|done|..].
    + intros r w. unfold put, with_world; simpl. rewrite !length_insert.
      assert (p + ((length vs) - S t) < length (storage (this s1))) by lia.
      assert (p + c + ((length vs) - S t) < length (storage (this s1))) by lia.
      split_and!; try done.
      * intros j y' Hj Hy'. rewrite !list_lookup_insert_ne by lia.
        apply Htodo; [lia|done].
      * intros j y' Hj Hy'. destruct (decide (j = (length vs) - S t)) as [->|].
        -- rewrite list_lookup_insert_eq by (rewrite length_insert; lia). congruence.
        -- pose proof (lookup_lt_Some _ _ _ Hy').
           rewrite !list_lookup_insert_ne by lia. apply Hdone; [lia|done].
      * intros i Hi. destruct (decide (i = p + c + ((length vs) - S t))) as [->|].
        { rewrite list_lookup_insert_eq by (rewrite length_insert; lia). eauto. }
        rewrite list_lookup_insert_ne by lia.
        destruct (decide (i = p + ((length vs) - S t))) as [->|].
        { rewrite list_lookup_insert_eq by lia. eauto. }
        rewrite list_lookup_insert_ne by lia. by apply Hlive1.
      * intros i Hi. rewrite !list_lookup_insert_ne by lia. by apply Hrest.
    + intros Hthrow w. by apply HE.
  - intros s' (Htmp & Hfin & Hl & Htodo & Hdone & Hlive1 & Hrest).
    rewrite length_reverse, length_zip_with, !length_range, Nat.min_id in *.
    apply HQ; try done. intros j y Hy. apply Hdone; [lia|done].
Qed.

Lemma holds_inserted_range p xs ys (st : list (slot T)) :
  allocatable (length st) → length xs + length ys ≤ length st → p ≤ length xs →
  (∀ i y, i < p → xs !! i = Some y → st !! i = Some (Live y)) →
  (∀ j y, ys !! j = Some y → st !! (p + j) = Some (Live y)) →
  (∀ i y, p ≤ i → xs !! i = Some y → st !! (i + length ys) = Some (Live y)) →
  holds (mkVector st (length xs + length ys)) (take p xs ++ ys ++ drop p xs).
Proof.
  intros Hal Hfit Hp Hlow Hmid Hhigh.
  assert (length (take p xs) = p) as Htake by (rewrite length_take; lia).
  replace (length xs + length ys)
    with (length (take p xs) + length ys + length (drop p xs))
    by (rewrite Htake, length_drop; lia).
  apply holds_parts; rewrite ?Htake, ?length_drop.
  - done.
  - lia.
  - intros i y [Hy Hi]%lookup_take_Some. by apply Hlow.
  - done.
  - intros i y Hy. rewrite lookup_drop in Hy.
    replace (p + length ys + i) with (p + i + length ys) by lia.
    apply Hhigh; [lia|done].
Qed.

Lemma holds_inserted_count p count x xs (st : list (slot T)) :
  allocatable (length st) → length xs + count ≤ length st → p ≤ length xs →
  (∀ i y, i < p → xs !! i = Some y → st !! i = Some (Live y)) →
  (∀ j, j < count → st !! (p + j) = Some (Live x)) →
  (∀ i y, p ≤ i → xs !! i = Some y → st !! (i + count) = Some (Live y)) →
  holds (mkVector st (length xs + count))
        (take p xs ++ replicate count x ++ drop p xs).
Proof.
  intros Hal Hfit Hp Hlow Hmid Hhigh.
  pose proof (holds_inserted_range p xs (replicate count x) st) as Hrange.
  rewrite length_replicate in Hrange. apply Hrange; try done.
  intros j y [-> Hj]%lookup_replicate. by apply Hmid.
Qed.

(** [std::copy] from objects of the caller over slots of any content, for a
    type whose assignment is a copy of its bytes. *)
Lemma wp_copy_raw o a ys Q E s :
  trivially_copyable = true → a + length ys ≤ length (storage (vec o s)) →
  (∀ s', constructed o a ys s s' → Q tt s') →
  wp throwing (std.copy (Val <$> ys) (o, a)) Q E s.
Proof.
  intros Htriv Hfit HQ. unfold std.copy. rewrite length_fmap.
  apply (wp_for_each _ _ _ (λ k s', constructed o a (take k ys) s s')).
  - rewrite take_0. unfold constructed. simpl. split_and!; try done.
  - intros k [z p] s1 Hz (Hother & Hfin & Hcap & Hdone & Hrest).
    apply lookup_zip_with_Some in Hz as (?&?&?&Hz&[-> Hk]%range_lookup); simplify_eq.
    rewrite list_lookup_fmap in Hz.
    destruct (ys !! k) as [y|] eqn:Hy; [|done]. simpl in Hz. injection Hz as <-.
    rewrite length_take, Nat.min_l in Hrest by lia.
    unfold assign_at, deref, copy_assignment. rewrite Htriv.
    apply wp_bind, wp_ret, wp_bind, wp_ret, wp_put; [simpl; lia|].
    unfold constructed. rewrite vec_put_ne by (by destruct o).
    rewrite (vec_put_eq (o, a + k)). cbn [fst snd storage finish_].
    rewrite length_insert, length_take, Nat.min_l by lia.
    rewrite (take_S_r _ _ y) by done.
    split_and!; try done.
    + intros j y' Hy'. apply lookup_app_Some in Hy' as [Hy'|[Hj Hy']].
      * pose proof (lookup_lt_Some _ _ _ Hy') as Hlt. rewrite length_take in Hlt.
        rewrite list_lookup_insert_ne by lia. by apply Hdone.
      * rewrite length_take, Nat.min_l in Hj, Hy' by lia.
        assert (j = k) as -> by (apply lookup_lt_Some in Hy'; simpl in Hy'; lia).
        rewrite Nat.sub_diag in Hy'. simpl in Hy'. injection Hy' as ->.
        rewrite list_lookup_insert_eq by lia. done.
    + intros i Hi. rewrite list_lookup_insert_ne by lia. apply Hrest. lia.
  - intros s'. rewrite length_zip_with, length_fmap, length_range, Nat.min_id.
    rewrite take_ge by lia. apply HQ.
Qed.

Lemma for_each_fmap {A B} (f : B → M T W unit) (h : A → B) (l : list A) :
  for_each f (h <$> l) = for_each (λ x, f (h x)) l.
Proof. induction l as [|x l IH]; csimpl; [done|by rewrite IH]. Qed.

Lemma zip_replicate_fmap {A B C} (v : A) (h : B → C) n (l : list B) :
  length l = n → zip (replicate n v) (h <$> l) = (λ k, (v, h k)) <$> l.
Proof.
  intros <-. induction l as [|x l IH]; csimpl; [done|by rewrite IH].
Qed.

(** [std::fill_n] is [std::copy] from a range that gives the same object
    [n] times. *)
Lemma fill_n_as_copy d n (v : arg T) :
  std.fill_n (W := W) d n v = std.copy (replicate n v) d.
Proof.
  unfold std.fill_n, std.copy, range. rewrite length_replicate.
  rewrite (zip_replicate_fmap v (shift d) n) by apply length_seq.
  by rewrite !for_each_fmap.
Qed.

Lemma insertRangeExpandAux_as_range p count (v : arg T) :
  Vec.insertRangeExpandAux (W := W) p count v
  = Vec.insertRangeExpandAux_range p count (replicate count v).
Proof.
  unfold Vec.insertRangeExpandAux, Vec.insertRangeExpandAux_range,
    std.uninitialized_fill_n.
  by rewrite fill_n_as_copy, fmap_replicate.
Qed.

(** [insertRangeExpandAux(pos, count, first, last)] builds the new sequence
    in a block of [size + max(count, size) + 1] elements; when it throws,
    the vector is as it was unless elements had been moved. *)
Lemma insertRangeExpandAux_range_spec p ys xs s :
  holds (this s) xs → p ≤ length xs → allocatable (length ys) →
  wp throwing (Vec.insertRangeExpandAux_range p (length ys) (Val <$> ys))
    (λ r s', r = p
             ∧ holds (this s') (take p xs ++ ys ++ drop p xs)
             ∧ length (storage (this s'))
               = length xs + length ys `max` length xs + 1)
    (λ e s', (throwing ∨ ¬ allocatable (length xs + length ys `max` length xs + 1))
             ∧ benign e
             ∧ (nothrow_move_constructible = false ∨ trivially_copyable = true →
                this s' = this s)) s.
Proof.
  intros Hxs Hp Hcount. pose proof (holds_length _ _ Hxs) as Hlen.
  pose proof Hxs as (Hle & Hal & _ & Hlook)%holds_lookup.
  unfold Vec.insertRangeExpandAux_range. apply wp_bind, wp_get. cbv beta zeta.
  rewrite <-Hlen.
  remember (length xs + length ys `max` length xs + 1) as sz eqn:Hsz.
  assert (wrap sz = sz) as ->.
  { destruct (wrap_cases sz); [done|]. heap_lia. }
  apply wp_bind, wp_allocate; [no_wrap|..].
  2:{ intros ? w. unfold benign. simpl. tauto. }
  intros Hal' w. apply wp_bind, wp_modify, wp_bind.
  set (s1 := set_vec Tmp _ _).
  assert (this s1 = this s) as Hthis1 by done.
  assert (length (storage (tmp s1)) = sz) as Htmp1.
  { unfold s1. simpl. by rewrite length_replicate. }
  clearbody s1.
  set (Q := λ (_ : unit) (s' : Machine T W),
    length (storage (tmp s')) = sz
    ∧ (∀ i y, i < p → xs !! i = Some y → storage (tmp s') !! i = Some (Live y))
    ∧ (∀ j y, ys !! j = Some y → storage (tmp s') !! (p + j) = Some (Live y))
    ∧ (∀ i y, p ≤ i → xs !! i = Some y →
              storage (tmp s') !! (i + length ys) = Some (Live y))).
  assert (∀ s' : Machine T W, Q tt s' →
    wp throwing (Vec.adopt (length xs + length ys) sz;; mret p)
      (λ r s', r = p
               ∧ holds (this s') (take p xs ++ ys ++ drop p xs)
               ∧ length (storage (this s')) = sz)
      (λ e s', (throwing ∨ ¬ allocatable sz) ∧ benign e
               ∧ (nothrow_move_constructible = false ∨ trivially_copyable = true →
                  this s' = this s)) s') as Hadopt.
  { intros s' (Hcap' & Hlow & Hmid & Hhigh).
    apply wp_bind, wp_modify, wp_ret. simpl. rewrite length_take.
    split_and!; [done| |lia].
    apply holds_inserted_range; rewrite ?length_take; try lia.
    - by rewrite Hcap', Nat.min_id.
    - intros i y Hi Hy. rewrite lookup_take_lt by lia. by apply Hlow.
    - intros j y Hy. pose proof (lookup_lt_Some _ _ _ Hy).
      rewrite lookup_take_lt by lia. by apply Hmid.
    - intros i y Hi Hy. pose proof (lookup_lt_Some _ _ _ Hy).
      rewrite lookup_take_lt by lia. by apply Hhigh. }
  destruct trivially_copyable eqn:Htriv.
  - (* memmove *)
    assert (length (storage (this s1)) = length (storage (this s))) as Hcap1
      by by rewrite Hthis1.
    apply wp_bind, wp_memmove; cbn [fst snd vec set_vec this tmp storage finish_];
      [lia..|].
    match goal with |- wp _ _ _ _ ?st => set (s2 := st) end.
    assert (this s2 = this s) as Hthis2 by done.
    assert (length (storage (tmp s2)) = sz) as Htmp2.
    { unfold s2. cbn [fst snd vec set_vec this tmp storage finish_].
      rewrite memmove_length by lia. done. }
    assert (∀ i y, i < p → xs !! i = Some y → storage (tmp s2) !! i = Some (Live y))
      as Hlow2.
    { intros i y Hi Hy. unfold s2. cbn [fst snd vec set_vec this tmp storage finish_].
      rewrite memmove_lookup by lia. rewrite decide_True by lia.
      rewrite Hthis1. simpl. rewrite Nat.sub_0_r. by apply Hlook. }
    clearbody s2.
    apply wp_bind, wp_copy_raw; [done|simpl; lia|].
    intros s3 (Hthis3 & Hfin3 & Hcap3 & Hdone3 & Hrest3). simpl in *.
    apply wp_bind, wp_memmove;
      cbn [fst snd vec set_vec put with_world this tmp storage finish_].
    { rewrite Hthis3, Hthis2. lia. }
    { lia. }
    apply wp_modify, Hadopt. unfold Q.
    cbn [fst snd vec set_vec put with_world this tmp storage finish_].
    assert (p + (length xs - p) ≤ length (storage (this s3))) as Hsrc
      by (rewrite Hthis3, Hthis2; lia).
    assert (p + length ys + (length xs - p) ≤ length (storage (tmp s3))) as Hdst
      by lia.
    rewrite memmove_length by done.
    split_and!; [lia|..].
    + intros i y Hi Hy. rewrite memmove_lookup by done.
      rewrite decide_False by lia. rewrite Hrest3 by lia. by apply Hlow2.
    + intros j y Hy. pose proof (lookup_lt_Some _ _ _ Hy).
      rewrite memmove_lookup by done.
      rewrite decide_False by lia. by apply Hdone3.
    + intros i y Hi Hy. pose proof (lookup_lt_Some _ _ _ Hy).
      rewrite memmove_lookup by done.
      rewrite decide_True by lia. rewrite Hthis3, Hthis2.
      replace (p + (i + length ys - (p + length ys))) with i by lia. by apply Hlook.
  - (* element by element *)
    apply wp_bind, wp_try_catch, wp_bind.
    eapply wp_mono; [apply (relocate_spec 0 0 p xs)|..]; simpl.
    + intros j Hj. destruct (lookup_lt_is_Some_2 xs j) as [y Hy]; [lia|].
      exists y. split; [done|]. rewrite Hthis1. by apply Hlook.
    + lia.
    + intros _ s2 (Hlt2 & Hft2 & Hl2 & Hf2 & Hdone2 & Hrest2 & Hsame2 & Hlive2 & Hcopy2).
      simpl in *. apply wp_bind.
      apply wp_uninitialized_external; simpl.
      * rewrite !length_fmap. lia.
      * intros k i Hi. rewrite !list_lookup_fmap in Hi.
        destruct (ys !! k); by simplify_eq/=.
      * intros ys' s3 ->%gives_values (Hthis3 & Hfin3 & Hcap3 & Hdone3 & Hrest3).
        simpl in *.
        eapply wp_mono;
          [apply (relocate_spec p (p + length ys) (length xs - p) (drop p xs))|..];
          simpl.
        -- intros j Hj. destruct (lookup_lt_is_Some_2 xs (p + j)) as [y Hy]; [lia|].
           exists y. rewrite lookup_drop. split; [done|].
           rewrite Hthis3, Hsame2 by lia. rewrite Hthis1. by apply Hlook.
        -- lia.
        -- intros _ s4
             (Hlt4 & Hft4 & Hl4 & Hf4 & Hdone4 & Hrest4 & Hsame4 & Hlive4 & Hcopy4).
           simpl in *.
           apply wp_bind, wp_destroy; simpl.
           { intros j Hj. destruct (decide (j < p)).
             - rewrite Hsame4, Hthis3 by lia. apply Hlive2. lia.
             - apply Hlive4. lia. }
           intros s5 (Hother5 & _). simpl in Hother5.
           apply wp_modify, Hadopt. unfold Q. simpl. rewrite Hother5.
           split_and!; [lia|..].
           ++ intros i y Hi Hy. rewrite Hrest4, Hrest3 by lia.
              apply (Hdone2 i y); [lia|done].
           ++ intros j y Hy. pose proof (lookup_lt_Some _ _ _ Hy).
              rewrite Hrest4 by lia. by apply Hdone3.
           ++ intros i y Hi Hy. pose proof (lookup_lt_Some _ _ _ Hy).
              replace (i + length ys) with (p + length ys + (i - p)) by lia.
              apply (Hdone4 (i - p) y); [lia|].
              rewrite lookup_drop. rewrite <-Hy. f_equal. lia.
        -- intros e s4 (Hthrow & -> & Hthis4 & _). simpl in *.
           apply wp_bind, wp_modify, wp_throw. simpl.
           split_and!; [by left|by right|].
           intros [Hmove|?]; [|done]. by rewrite Hthis4, Hthis3, Hcopy2.
      * intros Hthrow s3 Hthis3 _ _ _. simpl in Hthis3.
        apply wp_bind, wp_modify, wp_throw. simpl.
        split_and!; [by left|by right|].
        intros [Hmove|?]; [|done]. by rewrite Hthis3, Hcopy2.
    + intros e s2 (Hthrow & -> & Hthis2 & _).
      apply wp_bind, wp_modify, wp_throw. simpl.
      split_and!; [by left|by right|]. intros _. congruence.
Qed.

(** [insertRangeExpandAux(pos, count, value)] *)
Lemma insertRangeExpandAux_spec p count x xs s :
  holds (this s) xs → p ≤ length xs → allocatable count →
  wp throwing (Vec.insertRangeExpandAux p count (Val x))
    (λ r s', r = p
             ∧ holds (this s') (take p xs ++ replicate count x ++ drop p xs)
             ∧ length (storage (this s')) = length xs + count `max` length xs + 1)
    (λ e s', (throwing ∨ ¬ allocatable (length xs + count `max` length xs + 1))
             ∧ benign e
             ∧ (nothrow_move_constructible = false ∨ trivially_copyable = true →
                this s' = this s)) s.
Proof.
  intros Hxs Hp Hcount. rewrite insertRangeExpandAux_as_range.
  pose proof (insertRangeExpandAux_range_spec p (replicate count x) xs s) as Hspec.
  rewrite length_replicate, fmap_replicate in Hspec. by apply Hspec.
Qed.

Lemma insert_count_in_place_spec pos count x xs s :
  holds (this s) xs → pos ≤ length xs → 2 ≤ count →
  length xs + count ≤ length (storage (this s)) →
  wp throwing (Vec.insert_count pos count (Val x))
    (λ r s', r = pos
             ∧ finish_ (this s') = length xs + count
             ∧ length (storage (this s')) = length (storage (this s))
             ∧ (length xs - pos ≤ count →
                holds (this s') (take pos xs ++ replicate count x ++ drop pos xs))
             ∧ (2 * count ≤ length xs - pos →
                holds (this s')
                  (take pos xs ++ replicate (length xs - pos - count) x
                     ++ drop (length xs - 2 * count) xs)))
    (λ e s', throwing ∧ e = element_error) s.
Proof.
  intros Hxs Hpos Hcount Hfit. pose proof (holds_length _ _ Hxs) as Hlen.
  pose proof Hxs as (Hle & Hal & _ & Hlook)%holds_lookup.
  set (n := length xs) in *.
  unfold Vec.insert_count, Vec.position. apply wp_bind, wp_bind, wp_get.
  destruct (decide (pos ≤ finish_ (this s))) as [_|?]; [apply wp_ret|lia].
  destruct (decide (count = 0)) as [?|_]; [lia|].
  destruct (decide (count = 1)) as [?|_]; [lia|].
  apply wp_bind, wp_get, wp_bind, wp_get. cbv beta zeta. rewrite <-Hlen.
  apply wp_bind, wp_advance; [by apply (allocatable_offsettable_le _ _ Hfit)|].
  destruct (decide (n + count ≤ length (storage (this s)))) as [_|?]; [|lia].
  apply wp_bind.
  (* what is left once the elements are in place *)
  assert (∀ (s' : Machine T W) (Q : Prop),
    length (storage (this s')) = length (storage (this s)) →
    Q →
    wp throwing (Vec.set_finish This (n + count);; mret pos)
      (λ r s'', r = pos
                ∧ finish_ (this s'') = n + count
                ∧ length (storage (this s'')) = length (storage (this s))
                ∧ storage (this s'') = storage (this s') ∧ Q)
      (λ e s', throwing ∧ e = element_error) s') as Hfinish.
  { intros s' Q Hcap HQ. by apply wp_bind, wp_modify, wp_ret. }
  assert (length (take pos xs) = pos) as Htake by (rewrite length_take; lia).
  assert (∀ (st : list (slot T)),
    length st = length (storage (this s)) →
    (∀ i y, i < pos → xs !! i = Some y → st !! i = Some (Live y)) →
    (∀ j, j < count → st !! (pos + j) = Some (Live x)) →
    (∀ i y, pos ≤ i → xs !! i = Some y → st !! (i + count) = Some (Live y)) →
    holds (mkVector st (n + count))
          (take pos xs ++ replicate count x ++ drop pos xs)) as Hgood.
  { intros st Hst Hlow Hmid Hhigh.
    apply holds_inserted_count; rewrite ?Hst; done. }
  destruct (decide (pos = finish_ (this s) ∨ pos = n)) as [Hend|Hmid].
  { (* at the end *)
    assert (pos = n) as -> by lia. clear Hend. rewrite decide_True by lia.
    unfold std.uninitialized_fill_n. apply wp_uninitialized_external; simpl.
    - rewrite length_replicate. lia.
    - by intros k i [-> _]%lookup_replicate.
    - intros ys s1 ->%gives_replicate (Htmp1 & Hfin1 & Hcap1 & Hdone1 & Hrest1).
      simpl in *. rewrite length_replicate in Hrest1.
      eapply wp_mono; [apply (Hfinish s1 True); done|..]; [|done].
      intros r s2 (-> & Hfin2 & Hcap2 & Hst2 & _). split_and!; try done.
      + intros _. rewrite (Vector_eta (this s2)), Hfin2, Hst2.
        apply Hgood; [done|..].
        * intros i y Hi Hy. rewrite Hrest1 by lia. by apply Hlook.
        * intros j Hj. apply Hdone1. by apply lookup_replicate.
        * intros i y Hi Hy. apply lookup_lt_Some in Hy. lia.
      + lia.
    - intros Hthrow s1 _ _ _ _. done. }
  rewrite decide_False by lia. subst n.
  assert (∀ i y, i < pos → xs !! i = Some y → storage (this s) !! i = Some (Live y))
    as Hlow by (intros; by apply Hlook).
  destruct (decide (count = length xs - pos)) as [Heq|Hne];
    [|destruct (decide (count < length xs - pos)) as [Hlt|Hgt]].
  - (* as many as the elements behind pos *)
    apply wp_bind.
    apply (wp_uninitialized_move_up pos (length xs - pos) (length xs) (drop pos xs));
      [by rewrite length_drop|lia|lia| | |done].
    { intros j y Hy. rewrite lookup_drop in Hy. by apply Hlook. }
    intros s1 Htmp1 Hfin1 Hcap1 Hdest1 Hlive1 Hrest1 _.
    apply wp_fill_n; [| |done].
    { intros j Hj. apply Hlive1. lia. }
    intros s2 (Htmp2 & Hfin2 & Hcap2 & Hdone2 & Hrest2). simpl in *.
    rewrite length_replicate in Hrest2.
    eapply wp_mono; [apply (Hfinish s2 True); [lia|done]|..]; [|done].
    intros r s3 (-> & Hfin3 & Hcap3 & Hst3 & _). split_and!; try done; [|lia].
    intros _. rewrite (Vector_eta (this s3)), Hfin3, Hst3.
    apply Hgood; [lia|..].
    + intros i y Hi Hy. rewrite Hrest2, Hrest1 by lia. by apply Hlook.
    + intros j Hj. apply Hdone2. by apply lookup_replicate.
    + intros i y Hi Hy. pose proof (lookup_lt_Some _ _ _ Hy).
      rewrite Hrest2 by lia.
      replace (i + count) with (length xs + (i - pos)) by lia.
      apply Hdest1. rewrite lookup_drop. rewrite <-Hy. f_equal. lia.
  - (* fewer than the elements behind pos *)
    apply wp_bind.
    apply (wp_uninitialized_move_up (length xs - count) count (length xs)
             (drop (length xs - count) xs));
      [rewrite length_drop; lia|lia|lia| | |done].
    { intros j y Hy. rewrite lookup_drop in Hy. by apply Hlook. }
    intros s1 Htmp1 Hfin1 Hcap1 Hdest1 Hlive1 Hrest1 _.
    apply wp_bind.
    replace (std.move_backward (This, pos) (length xs - count - pos) (This, length xs))
      with (std.move_backward (T := T) (W := W) (This, pos) (length xs - count - pos)
              (This, pos + (length xs - count - pos) + count))
      by (do 2 f_equal; lia).
    apply (wp_move_backward_by pos (length xs - count - pos) count
             (take (length xs - count - pos) (drop pos xs)));
      [rewrite length_take, length_drop; lia|lia|lia| | | |done].
    { intros j y [Hy Hj]%lookup_take_Some. rewrite lookup_drop in Hy.
      rewrite Hrest1 by lia. by apply Hlook. }
    { intros i Hi. destruct (decide (length xs - count ≤ i)).
      - apply Hlive1. lia.
      - rewrite Hrest1 by lia.
        destruct (holds_live _ _ i Hxs) as (y & _ & ?); [lia|]. eauto. }
    intros s2 Htmp2 Hfin2 Hcap2 Hdest2 Hlive2 Hrest2.
    apply wp_fill_n; [| |done].
    { intros j Hj. apply Hlive2. lia. }
    intros s3 (Htmp3 & Hfin3 & Hcap3 & Hdone3 & Hrest3). simpl in *.
    rewrite length_replicate in Hrest3.
    eapply wp_mono; [apply (Hfinish s3 True); [lia|done]|..]; [|done].
    intros r s4 (-> & Hfin4 & Hcap4 & Hst4 & _). split_and!; try done; [lia|].
    intros Hroom. rewrite (Vector_eta (this s4)), Hfin4, Hst4.
    replace (length xs + count)
      with (length (take pos xs) + length (replicate (length xs - pos - count) x)
            + length (drop (length xs - 2 * count) xs))
      by (rewrite Htake, length_replicate, length_drop; lia).
    apply holds_parts; rewrite ?Htake, ?length_replicate, ?length_drop.
    + by rewrite Hcap3, Hcap2, Hcap1.
    + lia.
    + intros i y [Hy Hi]%lookup_take_Some.
      rewrite Hrest3, Hrest2, Hrest1 by lia. by apply Hlook.
    + intros i y [-> Hi]%lookup_replicate. apply Hdone3. apply lookup_replicate.
      split; [done|lia].
    + intros i y Hy. rewrite lookup_drop in Hy. pose proof (lookup_lt_Some _ _ _ Hy).
      rewrite Hrest3 by lia. destruct (decide (i < count)).
      * replace (pos + (length xs - pos - count) + i)
          with (pos + count + (length xs - 2 * count - pos + i)) by lia.
        apply Hdest2. apply lookup_take_Some. split; [|lia].
        rewrite lookup_drop. rewrite <-Hy. f_equal. lia.
      * rewrite Hrest2 by lia.
        replace (pos + (length xs - pos - count) + i)
          with (length xs + (i - count)) by lia.
        apply Hdest1. rewrite lookup_drop. rewrite <-Hy. f_equal. lia.
  - (* more than the elements behind pos *)
    apply wp_bind.
    apply (wp_uninitialized_move_up pos (length xs - pos)
             (length xs + (count - (length xs - pos))) (drop pos xs));
      [by rewrite length_drop|lia|lia| | |done].
    { intros j y Hy. rewrite lookup_drop in Hy. by apply Hlook. }
    intros s1 Htmp1 Hfin1 Hcap1 Hdest1 Hlive1 Hrest1 _.
    apply wp_bind, wp_fill_n; [| |done].
    { intros j Hj. apply Hlive1. lia. }
    intros s2 (Htmp2 & Hfin2 & Hcap2 & Hdone2 & Hrest2). simpl in *.
    rewrite length_replicate in Hrest2.
    unfold std.uninitialized_fill_n. apply wp_uninitialized_external; simpl.
    + rewrite length_replicate. lia.
    + by intros k i [-> _]%lookup_replicate.
    + intros ys s3 ->%gives_replicate (Htmp3 & Hfin3 & Hcap3 & Hdone3 & Hrest3).
      simpl in *. rewrite length_replicate in Hrest3.
      eapply wp_mono; [apply (Hfinish s3 True); [lia|done]|..]; [|done].
      intros r s4 (-> & Hfin4 & Hcap4 & Hst4 & _). split_and!; try done; [|lia].
      intros _. rewrite (Vector_eta (this s4)), Hfin4, Hst4.
      apply Hgood; [lia|..].
      * intros i y Hi Hy. rewrite Hrest3, Hrest2, Hrest1 by lia. by apply Hlook.
      * intros j Hj. destruct (decide (j < length xs - pos)).
        -- rewrite Hrest3 by lia. apply Hdone2. apply lookup_replicate.
           split; [done|lia].
        -- replace (pos + j) with (length xs + (j - (length xs - pos))) by lia.
           apply Hdone3. apply lookup_replicate. split; [done|lia].
      * intros i y Hi Hy. pose proof (lookup_lt_Some _ _ _ Hy).
        rewrite Hrest3, Hrest2 by lia.
        replace (i + count)
          with (length xs + (count - (length xs - pos)) + (i - pos)) by lia.
        apply Hdest1. rewrite lookup_drop. rewrite <-Hy. f_equal. lia.
    + intros Hthrow s3 _ _ _ _. done.
Qed.

(** [insert(pos, count, value)] in the cases where the copies end up before
    [pos]: [count] is 0 or 1, the copies are at least as many as the
    elements behind [pos], or the block is too small. *)
Lemma insert_count_spec pos count x xs s :
  holds (this s) xs → pos ≤ length xs → allocatable count →
  count ≤ 1 ∨ length xs - pos ≤ count
  ∨ length (storage (this s)) < length xs + count →
  wp throwing (Vec.insert_count pos count (Val x))
    (λ r s', r = pos
             ∧ holds (this s') (take pos xs ++ replicate count x ++ drop pos xs)
             ∧ (length xs + count ≤ length (storage (this s)) →
                length (storage (this s')) = length (storage (this s)))
             ∧ (length (storage (this s)) < length xs + count →
                length (storage (this s'))
                = if decide (count = 1) then 2 * length xs + 1
                  else length xs + count `max` length xs + 1))
    (λ e s', (throwing ∨ ¬ allocatable (length xs + count `max` length xs + 1))
             ∧ benign e) s.
Proof.
  intros Hxs Hpos Hcount Hcase. pose proof (holds_length _ _ Hxs) as Hlen.
  pose proof Hxs as (Hle & Hal & _ & Hlook)%holds_lookup.
  destruct (decide (2 ≤ count ∧ length xs + count ≤ length (storage (this s))))
    as [[H2 Hfit]|Hno].
  { eapply wp_mono; [by apply insert_count_in_place_spec|..].
    - intros r s' (-> & Hfin & Hcap & Hgood & _).
      split_and!; [done|apply Hgood; lia|done|lia].
    - intros e s' [Hthrow ->]. split; [by left|by right]. }
  unfold Vec.insert_count, Vec.position. apply wp_bind, wp_bind, wp_get.
  destruct (decide (pos ≤ finish_ (this s))) as [_|?]; [apply wp_ret|lia].
  destruct (decide (count = 0)) as [->|?].
  { apply wp_ret. simpl. rewrite take_drop. split_and!; [done|done|done|lia]. }
  destruct (decide (count = 1)) as [->|?].
  { eapply wp_mono; [by apply insert_spec|..].
    - intros r s' (-> & Hxs' & Hsize). injection Hsize as Hcap Hfin.
      split_and!; [done|done|..]; intros Hfit; rewrite Hcap;
        unfold appended, size_of; simpl; repeat case_decide; lia.
    - intros e s' [[?|Hno'] ?]; (split; [|done]); [by left|right].
      intros Ha. apply Hno'. unfold allocatable in *. lia. }
  apply wp_bind, wp_get, wp_bind, wp_get. cbv beta zeta. rewrite <-Hlen.
  apply wp_bind, wp_advance.
  { apply allocatable_offsettable; [|done]. eapply allocatable_mono; [|done]. lia. }
  rewrite decide_False by lia.
  eapply wp_mono; [by apply insertRangeExpandAux_spec|..].
  - intros r s' (-> & Hxs' & Hcap). split_and!; [done|done|lia|done].
  - intros e s' (? & ? & _). done.
Qed.

(** X25. [insert(pos, count, value)] with a [value] of the caller puts
    [count] copies of it before the element at [pos] and returns [pos], when
    [count] is 0 or 1, when the copies are at least as many as the elements
    from [pos] on, or when the spare capacity does not hold them.  The block
    is kept when the copies fit; otherwise the new capacity is
    [size + max(count, size) + 1], and [2 * size + 1] for one copy.  It
    throws nothing but [std::bad_alloc] and what a member function of [T]
    threw, and returns whenever nothing throws and the block can be
    requested. *)
Theorem insert_count_puts_the_copies_before_pos pos count x xs s :
  holds (this s) xs → pos ≤ length xs → allocatable count →
  count ≤ 1 ∨ length xs - pos ≤ count
  ∨ length (storage (this s)) < length xs + count →
  (∀ r s', Vec.insert_count pos count (Val x) s = Ret r s' →
     r = pos
     ∧ holds (this s') (take pos xs ++ replicate count x ++ drop pos xs)
     ∧ finish_ (this s') = length xs + count
     ∧ length (storage (this s'))
       = if decide (length xs + count ≤ length (storage (this s)))
         then length (storage (this s))
         else if decide (count = 1) then 2 * length xs + 1
         else length xs + count `max` length xs + 1)
  ∧ (∀ e s', Vec.insert_count pos count (Val x) s = Throw e s' →
       e = bad_alloc ∨ e = element_error)
  ∧ (¬ throwing → allocatable (length xs + count `max` length xs + 1) →
     ∃ s', Vec.insert_count pos count (Val x) s = Ret pos s').
Proof.
  intros Hxs Hpos Hcount Hcase.
  pose proof (insert_count_spec pos count x xs s Hxs Hpos Hcount Hcase) as Hspec.
  split_and!.
  - intros r s' Hr.
    apply (wp_ret_inv _ _ _ _ _ _ _ Hspec) in Hr as (-> & Hxs' & Hkeep & Hgrow).
    split_and!; try done.
    + apply holds_length in Hxs'.
      rewrite !length_app, length_take, length_replicate, length_drop in Hxs'. lia.
    + destruct (decide (length xs + count ≤ length (storage (this s))));
        [by apply Hkeep|apply Hgrow; lia].
  - intros e s' Hr. by apply (wp_throw_inv _ _ _ _ _ _ _ Hspec) in Hr as [_ ?].
  - intros Hquiet Hal.
    destruct (wp_returns _ _ _ _ _ Hspec Hquiet) as (r & s' & Hr & -> & _); [|eauto].
    intros e s' ([?|?] & _); done.
Qed.

(** X26. [insert(pos, count, value)] with [count >= 2], room for [count]
    more elements and at least [2 * count] elements from [pos] on works
    inside the block and returns [pos].  It fills the slots from [pos] to
    [size - count], so the vector then holds the elements before [pos],
    [size - pos - count] copies of [value], and the last [2 * count] elements
    of the old sequence: the size has grown by [count], but the elements
    between [pos] and [size - 2 * count] are gone.  Only a member function of
    [T] makes it throw. *)
Theorem insert_of_few_copies_fills_up_to_the_moved_tail pos count x xs s :
  holds (this s) xs → 2 ≤ count → pos + 2 * count ≤ length xs →
  length xs + count ≤ length (storage (this s)) →
  (∀ r s', Vec.insert_count pos count (Val x) s = Ret r s' →
     r = pos
     ∧ holds (this s') (take pos xs ++ replicate (length xs - pos - count) x
                          ++ drop (length xs - 2 * count) xs)
     ∧ finish_ (this s') = length xs + count
     ∧ length (storage (this s')) = length (storage (this s)))
  ∧ (∀ e s', Vec.insert_count pos count (Val x) s = Throw e s' →
       e = element_error)
  ∧ (¬ throwing → ∃ s', Vec.insert_count pos count (Val x) s = Ret pos s').
Proof.
  intros Hxs Hcount Hmany Hfit.
  assert (pos ≤ length xs) as Hpos by lia.
  pose proof (insert_count_in_place_spec pos count x xs s Hxs Hpos Hcount Hfit)
    as Hspec.
  split_and!.
  - intros r s' Hr.
    apply (wp_ret_inv _ _ _ _ _ _ _ Hspec) in Hr as (-> & Hfin & Hcap & _ & Hfew).
    split_and!; try done. apply Hfew. lia.
  - intros e s' Hr. by apply (wp_throw_inv _ _ _ _ _ _ _ Hspec) in Hr as [_ ?].
  - intros Hquiet.
    destruct (wp_returns _ _ _ _ _ Hspec Hquiet) as (r & s' & Hr & -> & _); [|eauto].
    intros e s' (? & _). done.
Qed.
End CountInsertion.

Lemma insert_count_puts_the_copies_before_pos_witness :
  ∃ s', Vec.insert_count 2 2 (Val 9%Z) (ints [1; 2; 3]%Z 2) = Ret 2 s'
        ∧ holds (this s') [1; 2; 9; 9; 3]%Z.
Proof.
  destruct (insert_count_puts_the_copies_before_pos 2 2 9%Z [1; 2; 3]%Z
              (ints [1; 2; 3]%Z 2))
    as (Hret & _ & Hex); [apply holds_ints; fits|simpl; lia|fits|simpl; lia|].
  destruct (Hex int_quiet) as [s' Hs']; [fits|].
  exists s'. split; [done|]. by apply Hret in Hs' as (_ & ? & _).
Defined.

Lemma insert_of_few_copies_fills_up_to_the_moved_tail_witness :
  ∃ s', Vec.insert_count 0 2 (Val 9%Z) (ints [1; 2; 3; 4; 5]%Z 2) = Ret 0 s'
        ∧ holds (this s') [9; 9; 9; 2; 3; 4; 5]%Z.
Proof.
  destruct (insert_of_few_copies_fills_up_to_the_moved_tail 0 2 9%Z
              [1; 2; 3; 4; 5]%Z (ints [1; 2; 3; 4; 5]%Z 2))
    as (Hret & _ & Hex); [apply holds_ints; fits|lia|simpl; lia|simpl; lia|].
  destruct (Hex int_quiet) as [s' Hs'].
  exists s'. split; [done|]. by apply Hret in Hs' as (_ & ? & _).
Defined.

(** * Insertion of a range *)

Section RangeInsertion.
Context `{Traits T W} `{!Regular}.
Implicit Types (s : Machine T W) (v : Vector T) (xs ys vs : list T) (e : exn) (o : obj).

(** The values of [k] live slots. *)
Lemma live_values (st : list (slot T)) a k :
  (∀ i, a ≤ i < a + k → ∃ r, st !! i = Some (Live r)) →
  ∃ rs, length rs = k ∧ ∀ j r, rs !! j = Some r → st !! (a + j) = Some (Live r).
Proof.
  revert a. induction k as [|k IH]; intros a Hlive.
  - exists []. split; [done|]. by intros j r Hr.
  - destruct (Hlive a) as [r Hr]; [lia|].
    destruct (IH (S a)) as (rs & Hlen & Hrs).
    { intros i Hi. apply Hlive. lia. }
    exists (r :: rs). split; [simpl; lia|]. intros [|j] r' Hr'; simpl in Hr'.
    + injection Hr' as <-. by rewrite Nat.add_0_r.
    + replace (a + S j) with (S a + j) by lia. by apply Hrs.
Qed.

(** [insert(pos, first, last)] inside the block, from a range of objects of
    the caller. *)
Lemma insert_range_in_place_spec pos ys xs s :
  holds (this s) xs → pos ≤ length xs → ys ≠ [] →
  length xs + length ys ≤ length (storage (this s)) →
  wp throwing (Vec.insert_range pos (Val <$> ys))
    (λ r s', r = pos
             ∧ finish_ (this s') = length xs + length ys
             ∧ length (storage (this s')) = length (storage (this s))
             ∧ (length ys ≠ length xs - pos →
                holds (this s') (take pos xs ++ ys ++ drop pos xs))
             ∧ (length ys = length xs - pos →
                ∃ rs, length rs = length ys
                      ∧ holds (this s') (take pos xs ++ rs ++ ys)
                      ∧ (trivially_copyable = true → rs = drop pos xs)))
    (λ e s', throwing ∧ e = element_error) s.
Proof.
  intros Hxs Hpos Hys Hfit. pose proof (holds_length _ _ Hxs) as Hlen.
  pose proof Hxs as (Hle & Hal & _ & Hlook)%holds_lookup.
  assert (Vec.insert_range pos (Val <$> ys)
          = (offset ← Vec.position pos;
             Vec.insertRangeAux offset (Val <$> ys);; mret offset)) as ->
    by (by destruct ys).
  unfold Vec.position. apply wp_bind, wp_bind, wp_get.
  destruct (decide (pos ≤ finish_ (this s))) as [_|?]; [apply wp_ret|lia].
  apply wp_bind. unfold Vec.insertRangeAux. cbv zeta. rewrite length_fmap.
  apply wp_bind, wp_get, wp_bind, wp_get. cbv beta. rewrite <-Hlen.
  apply wp_bind, wp_advance; [by apply (allocatable_offsettable_le _ _ Hfit)|].
  rewrite decide_True by lia. apply wp_bind.
  (* what is left once the elements are in place *)
  assert (∀ s' : Machine T W,
    length (storage (this s')) = length (storage (this s)) →
    (length ys ≠ length xs - pos →
     holds (mkVector (storage (this s')) (length xs + length ys))
           (take pos xs ++ ys ++ drop pos xs)) →
    (length ys = length xs - pos →
     ∃ rs, length rs = length ys
           ∧ holds (mkVector (storage (this s')) (length xs + length ys))
                   (take pos xs ++ rs ++ ys)
           ∧ (trivially_copyable = true → rs = drop pos xs)) →
    wp throwing (Vec.set_finish This (length xs + length ys))
      (λ _ s'', wp throwing (mret pos)
         (λ r s', r = pos
                  ∧ finish_ (this s') = length xs + length ys
                  ∧ length (storage (this s')) = length (storage (this s))
                  ∧ (length ys ≠ length xs - pos →
                     holds (this s') (take pos xs ++ ys ++ drop pos xs))
                  ∧ (length ys = length xs - pos →
                     ∃ rs, length rs = length ys
                           ∧ holds (this s') (take pos xs ++ rs ++ ys)
                           ∧ (trivially_copyable = true → rs = drop pos xs)))
         (λ e s', throwing ∧ e = element_error) s'')
      (λ e s', throwing ∧ e = element_error) s') as Hfinish.
  { intros s' Hcap Hgood Hbad. by apply wp_modify, wp_ret. }
  assert (length (take pos xs) = pos) as Htake by (rewrite length_take; lia).
  destruct (decide (pos = length xs)) as [->|Hmid].
  { (* at the end *)
    apply wp_uninitialized_external; simpl.
    - rewrite !length_fmap. lia.
    - intros k i Hi. rewrite !list_lookup_fmap in Hi.
      destruct (ys !! k); by simplify_eq/=.
    - intros ys' s1 ->%gives_values (Htmp1 & Hfin1 & Hcap1 & Hdone1 & Hrest1).
      simpl in *. apply Hfinish; [done| |].
      + intros _. apply holds_inserted_range; rewrite ?Hcap1; try done.
        * intros i y Hi Hy. rewrite Hrest1 by lia. by apply Hlook.
        * intros i y Hi Hy. apply lookup_lt_Some in Hy. lia.
      + intros Heq. destruct ys; [done|simpl in Heq; lia].
    - intros Hthrow s1 _ _ _ _. done. }
  destruct (decide (length ys = length xs - pos)) as [Heq|Hne];
    [|destruct (decide (length ys < length xs - pos)) as [Hlt|Hgt]].
  - (* as many as the elements behind pos *)
    apply wp_bind.
    apply (wp_uninitialized_move_up pos (length xs - pos) (length xs) (drop pos xs));
      [by rewrite length_drop|lia|lia| | |done].
    { intros j y Hy. rewrite lookup_drop in Hy. by apply Hlook. }
    intros s1 Htmp1 Hfin1 Hcap1 Hdest1 Hlive1 Hrest1 Hkept1.
    apply wp_copy_values; [| |done].
    { intros j Hj. destruct (lookup_lt_is_Some_2 (drop pos xs) j) as [y Hy].
      - rewrite length_drop. lia.
      - exists y. by apply Hdest1. }
    intros s2 (Htmp2 & Hfin2 & Hcap2 & Hdone2 & Hrest2). simpl in *.
    apply Hfinish; [lia|done|]. intros _.
    destruct (live_values (storage (this s1)) pos (length xs - pos))
      as (rs & Hlenrs & Hrs); [done|].
    exists rs. split_and!; [lia| |].
    + replace (length xs + length ys)
        with (length (take pos xs) + length rs + length ys) by lia.
      apply holds_parts; rewrite ?Htake.
      * by rewrite Hcap2, Hcap1.
      * lia.
      * intros i y [Hy Hi]%lookup_take_Some.
        rewrite Hrest2, Hrest1 by lia. by apply Hlook.
      * intros i r Hr. pose proof (lookup_lt_Some _ _ _ Hr).
        rewrite Hrest2 by lia. by apply Hrs.
      * intros i y Hy. replace (pos + length rs + i) with (length xs + i) by lia.
        by apply Hdone2.
    + intros Htriv. apply list_eq_same_length with (length xs - pos);
        [by rewrite ?length_drop..|].
      intros j r y Hj Hr Hy. apply Hrs in Hr. apply (Hkept1 Htriv) in Hy. congruence.
  - (* fewer than the elements behind pos *)
    apply wp_bind.
    apply (wp_uninitialized_move_up (length xs - length ys) (length ys) (length xs)
             (drop (length xs - length ys) xs));
      [rewrite length_drop; lia|lia|lia| | |done].
    { intros j y Hy. rewrite lookup_drop in Hy. by apply Hlook. }
    intros s1 Htmp1 Hfin1 Hcap1 Hdest1 Hlive1 Hrest1 _.
    apply wp_bind.
    replace (std.move_backward (This, pos) (length xs - length ys - pos)
               (This, length xs))
      with (std.move_backward (T := T) (W := W) (This, pos)
              (length xs - length ys - pos)
              (This, pos + (length xs - length ys - pos) + length ys))
      by (do 2 f_equal; lia).
    assert (0 < length ys) by (destruct ys; [done|simpl; lia]).
    apply (wp_move_backward_by pos (length xs - length ys - pos) (length ys)
             (take (length xs - length ys - pos) (drop pos xs)));
      [rewrite length_take, length_drop; lia|lia|lia| | | |done].
    { intros j y [Hy Hj]%lookup_take_Some. rewrite lookup_drop in Hy.
      rewrite Hrest1 by lia. by apply Hlook. }
    { intros i Hi. destruct (decide (length xs - length ys ≤ i)).
      - apply Hlive1. lia.
      - rewrite Hrest1 by lia.
        destruct (holds_live _ _ i Hxs) as (y & _ & ?); [lia|]. eauto. }
    intros s2 Htmp2 Hfin2 Hcap2 Hdest2 Hlive2 Hrest2.
    apply wp_copy_values; [| |done].
    { intros j Hj. apply Hlive2. lia. }
    intros s3 (Htmp3 & Hfin3 & Hcap3 & Hdone3 & Hrest3). simpl in *.
    apply Hfinish; [lia| |intros ?; lia]. intros _.
    apply holds_inserted_range; [by rewrite Hcap3, Hcap2, Hcap1|lia|lia|..].
    + intros i y Hi Hy. rewrite Hrest3, Hrest2, Hrest1 by lia. by apply Hlook.
    + done.
    + intros i y Hi Hy. pose proof (lookup_lt_Some _ _ _ Hy).
      rewrite Hrest3 by lia. destruct (decide (i < length xs - length ys)).
      * replace (i + length ys) with (pos + length ys + (i - pos)) by lia.
        apply Hdest2. apply lookup_take_Some. split; [|lia].
        rewrite lookup_drop. rewrite <-Hy. f_equal. lia.
      * rewrite Hrest2 by lia.
        replace (i + length ys)
          with (length xs + (i - (length xs - length ys))) by lia.
        apply Hdest1. rewrite lookup_drop. rewrite <-Hy. f_equal. lia.
  - (* more than the elements behind pos *)
    apply wp_bind.
    apply (wp_uninitialized_move_up pos (length xs - pos)
             (length xs + (length ys - (length xs - pos))) (drop pos xs));
      [by rewrite length_drop|lia|lia| | |done].
    { intros j y Hy. rewrite lookup_drop in Hy. by apply Hlook. }
    intros s1 Htmp1 Hfin1 Hcap1 Hdest1 Hlive1 Hrest1 _.
    rewrite <-fmap_take, <-fmap_drop.
    apply wp_bind, wp_copy_values; [| |done].
    { intros j Hj. rewrite length_take in Hj. apply Hlive1. lia. }
    intros s2 (Htmp2 & Hfin2 & Hcap2 & Hdone2 & Hrest2). simpl in *.
    rewrite length_take, Nat.min_l in Hrest2 by lia.
    apply wp_uninitialized_external; simpl.
    + rewrite !length_fmap, length_drop. lia.
    + intros k i Hi. rewrite !list_lookup_fmap in Hi.
      destruct (drop _ ys !! k); by simplify_eq/=.
    + intros ys' s3 ->%gives_values (Htmp3 & Hfin3 & Hcap3 & Hdone3 & Hrest3).
      simpl in *. rewrite length_drop in Hrest3.
      apply Hfinish; [lia| |intros ?; lia]. intros _.
      apply holds_inserted_range; [by rewrite Hcap3, Hcap2, Hcap1|lia|lia|..].
      * intros i y Hi Hy. rewrite Hrest3, Hrest2, Hrest1 by lia. by apply Hlook.
      * intros j y Hy. pose proof (lookup_lt_Some _ _ _ Hy).
        destruct (decide (j < length xs - pos)).
        -- rewrite Hrest3 by lia. apply Hdone2. by rewrite lookup_take_lt.
        -- replace (pos + j) with (length xs + (j - (length xs - pos))) by lia.
           apply Hdone3. rewrite lookup_drop. rewrite <-Hy. f_equal. lia.
      * intros i y Hi Hy. pose proof (lookup_lt_Some _ _ _ Hy).
        rewrite Hrest3, Hrest2 by lia.
        replace (i + length ys)
          with (length xs + (length ys - (length xs - pos)) + (i - pos)) by lia.
        apply Hdest1. rewrite lookup_drop. rewrite <-Hy. f_equal. lia.
    + intros Hthrow s3 _ _ _ _. done.
Qed.

(** [insert(pos, first, last)] in the cases where the range ends up before
    [pos]: the range is empty, it does not have exactly as many elements as
    there are behind [pos], or the block is too small. *)
Lemma insert_range_spec pos ys xs s :
  holds (this s) xs → pos ≤ length xs → allocatable (length ys) →
  ys = [] ∨ length ys ≠ length xs - pos
  ∨ length (storage (this s)) < length xs + length ys →
  wp throwing (Vec.insert_range pos (Val <$> ys))
    (λ r s', r = pos
             ∧ holds (this s') (take pos xs ++ ys ++ drop pos xs)
             ∧ (length xs + length ys ≤ length (storage (this s)) →
                length (storage (this s')) = length (storage (this s)))
             ∧ (length (storage (this s)) < length xs + length ys →
                length (storage (this s'))
                = length xs + length ys `max` length xs + 1))
    (λ e s', (throwing ∨ ¬ allocatable (length xs + length ys `max` length xs + 1))
             ∧ benign e) s.
Proof.
  intros Hxs Hpos Hcount Hcase. pose proof (holds_length _ _ Hxs) as Hlen.
  pose proof Hxs as (Hle & Hal & _ & Hlook)%holds_lookup.
  destruct (decide (ys = [])) as [->|Hys].
  { simpl. unfold Vec.position. apply wp_bind, wp_get.
    destruct (decide (pos ≤ finish_ (this s))) as [_|?]; [apply wp_ret|lia].
    rewrite take_drop. split_and!; [done|done|done|simpl; lia]. }
  destruct (decide (length xs + length ys ≤ length (storage (this s))))
    as [Hfit|Hno].
  { eapply wp_mono; [by apply insert_range_in_place_spec|..].
    - intros r s' (-> & Hfin & Hcap & Hgood & _).
      split_and!; [done| |done|lia].
      apply Hgood. destruct Hcase as [?|[?|?]]; [done|done|lia].
    - intros e s' [Hthrow ->]. split; [by left|by right]. }
  assert (Vec.insert_range pos (Val <$> ys)
          = (offset ← Vec.position pos;
             Vec.insertRangeAux offset (Val <$> ys);; mret offset)) as ->
    by (by destruct ys).
  unfold Vec.position. apply wp_bind, wp_bind, wp_get.
  destruct (decide (pos ≤ finish_ (this s))) as [_|?]; [apply wp_ret|lia].
  apply wp_bind. unfold Vec.insertRangeAux. cbv zeta. rewrite length_fmap.
  apply wp_bind, wp_get, wp_bind, wp_get. cbv beta. rewrite <-Hlen.
  apply wp_bind, wp_advance.
  { apply allocatable_offsettable; [|done]. eapply allocatable_mono; [|done]. lia. }
  rewrite decide_False by lia. apply wp_bind.
  eapply wp_mono; [by apply insertRangeExpandAux_range_spec|..].
  - intros r s' (-> & Hxs' & Hcap). apply wp_ret, wp_ret.
    split_and!; [done|done|lia|done].
  - intros e s' (? & ? & _). done.
Qed.

(** X27. [insert(pos, first, last)] for forward iterators over objects of
    the caller, and [insert(pos, ilist)], put the range before the element at
    [pos] and return [pos], when the range is empty, when it does not have
    exactly as many elements as there are from [pos] on, or when the spare
    capacity does not hold it.  The block is kept when the range fits;
    otherwise the new capacity is [size + max(count, size) + 1].  They throw
    nothing but [std::bad_alloc] and what a member function of [T] threw, and
    return whenever nothing throws and the block can be requested. *)
Theorem insert_range_puts_the_range_before_pos pos ys xs s :
  holds (this s) xs → pos ≤ length xs → allocatable (length ys) →
  ys = [] ∨ length ys ≠ length xs - pos
  ∨ length (storage (this s)) < length xs + length ys →
  (∀ r s', Vec.insert_range pos (Val <$> ys) s = Ret r s' →
     r = pos
     ∧ holds (this s') (take pos xs ++ ys ++ drop pos xs)
     ∧ finish_ (this s') = length xs + length ys
     ∧ length (storage (this s'))
       = if decide (length xs + length ys ≤ length (storage (this s)))
         then length (storage (this s))
         else length xs + length ys `max` length xs + 1)
  ∧ (∀ e s', Vec.insert_range pos (Val <$> ys) s = Throw e s' →
       e = bad_alloc ∨ e = element_error)
  ∧ (¬ throwing → allocatable (length xs + length ys `max` length xs + 1) →
     ∃ s', Vec.insert_range pos (Val <$> ys) s = Ret pos s').
Proof.
  intros Hxs Hpos Hcount Hcase.
  pose proof (insert_range_spec pos ys xs s Hxs Hpos Hcount Hcase) as Hspec.
  split_and!.
  - intros r s' Hr.
    apply (wp_ret_inv _ _ _ _ _ _ _ Hspec) in Hr as (-> & Hxs' & Hkeep & Hgrow).
    split_and!; try done.
    + apply holds_length in Hxs'.
      rewrite !length_app, length_take, length_drop in Hxs'. lia.
    + destruct (decide (length xs + length ys ≤ length (storage (this s))));
        [by apply Hkeep|apply Hgrow; lia].
  - intros e s' Hr. by apply (wp_throw_inv _ _ _ _ _ _ _ Hspec) in Hr as [_ ?].
  - intros Hquiet Hal.
    destruct (wp_returns _ _ _ _ _ Hspec Hquiet) as (r & s' & Hr & -> & _); [|eauto].
    intros e s' ([?|?] & _); done.
Qed.

(** X28. [insert(pos, first, last)] with room in the block and a range of
    exactly as many elements as there are from [pos] on, [pos] not being the
    end, copies the range to the end of the vector: the elements before
    [pos] stay, the elements from [pos] on are what the move constructor left
    of them, and the range follows.  For a trivially copyable [T] the result
    is the old sequence followed by the range, as if [pos] were the end.
    The position returned is [pos], the size grows by the length of the
    range and the block is kept. *)
Theorem insert_range_of_the_tail_length_appends pos ys xs s :
  holds (this s) xs → pos < length xs → length ys = length xs - pos →
  length xs + length ys ≤ length (storage (this s)) →
  (∀ r s', Vec.insert_range pos (Val <$> ys) s = Ret r s' →
     r = pos
     ∧ finish_ (this s') = length xs + length ys
     ∧ length (storage (this s')) = length (storage (this s))
     ∧ (∃ rs, length rs = length ys ∧ holds (this s') (take pos xs ++ rs ++ ys))
     ∧ (trivially_copyable = true → holds (this s') (xs ++ ys)))
  ∧ (∀ e s', Vec.insert_range pos (Val <$> ys) s = Throw e s' →
       e = element_error)
  ∧ (¬ throwing → ∃ s', Vec.insert_range pos (Val <$> ys) s = Ret pos s').
Proof.
  intros Hxs Hpos Hcount Hfit.
  assert (ys ≠ []) as Hys by (intros ->; simpl in Hcount; lia).
  assert (pos ≤ length xs) as Hpos' by lia.
  pose proof (insert_range_in_place_spec pos ys xs s Hxs Hpos' Hys Hfit) as Hspec.
  split_and!.
  - intros r s' Hr.
    apply (wp_ret_inv _ _ _ _ _ _ _ Hspec) in Hr as (-> & Hfin & Hcap & _ & Htail).
    destruct (Htail Hcount) as (rs & Hlen & Hxs' & Hrs).
    split_and!; try done; [by exists rs|].
    intros Htriv. rewrite (Hrs Htriv) in Hxs'.
    by rewrite app_assoc, take_drop in Hxs'.
  - intros e s' Hr. by apply (wp_throw_inv _ _ _ _ _ _ _ Hspec) in Hr as [_ ?].
  - intros Hquiet.
    destruct (wp_returns _ _ _ _ _ Hspec Hquiet) as (r & s' & Hr & -> & _); [|eauto].
    intros e s' (? & _). done.
Qed.
End RangeInsertion.

Lemma insert_range_puts_the_range_before_pos_witness :
  ∃ s', Vec.insert_range 1 (Val <$> [8; 9]%Z) (ints [1; 2]%Z 2) = Ret 1 s'
        ∧ holds (this s') [1; 8; 9; 2]%Z.
Proof.
  destruct (insert_range_puts_the_range_before_pos 1 [8; 9]%Z [1; 2]%Z
              (ints [1; 2]%Z 2))
    as (Hret & _ & Hex); [apply holds_ints; fits|simpl; lia|fits|simpl; lia|].
  destruct (Hex int_quiet) as [s' Hs']; [fits|].
  exists s'. split; [done|]. by apply Hret in Hs' as (_ & ? & _).
Defined.

Lemma insert_range_of_the_tail_length_appends_witness :
  ∃ s', Vec.insert_range 1 (Val <$> [8; 9]%Z) (ints [1; 2; 3]%Z 2) = Ret 1 s'
        ∧ holds (this s') [1; 2; 3; 8; 9]%Z.
Proof.
  destruct (insert_range_of_the_tail_length_appends 1 [8; 9]%Z [1; 2; 3]%Z
              (ints [1; 2; 3]%Z 2))
    as (Hret & _ & Hex); [apply holds_ints; fits|simpl; lia|done|simpl; lia|].
  destruct (Hex int_quiet) as [s' Hs'].
  exists s'. split; [done|]. apply Hret in Hs' as (_ & _ & _ & _ & Happ).
  by apply Happ.
Defined.

(** * Assignment of a range *)

Section RangeAssignment.
Context `{Traits T W} `{!Regular}.
Implicit Types (s : Machine T W) (v : Vector T) (xs ys vs : list T) (e : exn) (o : obj).

Lemma bind_get {A B} (f : Machine T W → A) (k : A → M T W B) s :
  (get f ≫= k) s = k (f s) s.
Proof. done. Qed.

(** [assign(ilist)] runs as [assign(ilist.begin(), ilist.end())]. *)
Lemma assign_list_as_range ys s :
  Vec.assign_list ys s = Vec.assign_range (Val <$> ys) s.
Proof.
  unfold Vec.assign_list, Vec.assign_range, Vec.size, Vec.capacity. cbv zeta.
  rewrite !bind_get, length_fmap.
  rewrite <-fmap_take, <-fmap_drop, <-list_fmap_compose.
  destruct (decide (finish_ (this s) < length ys)) as [Hn|Hn].
  - by rewrite (take_ge (drop _ ys)) by (rewrite length_drop; lia).
  - done.
Qed.

Lemma assign_range_spec ys xs s :
  holds (this s) xs → representable (length ys) →
  wp throwing (Vec.assign_range (Val <$> ys))
    (λ _ s', holds (this s') ys
             ∧ length (storage (this s')) = length (storage (this s)) `max` length ys)
    (λ e s', (throwing ∨ ¬ allocatable (length ys)) ∧ benign e) s.
Proof.
  intros Hxs Hrep. pose proof (holds_length _ _ Hxs) as Hlen.
  pose proof Hxs as (Hle & Hal & _).
  assert (∀ j, j < length xs → ∃ old, storage (this s) !! (0 + j) = Some (Live old))
    as Hlive.
  { intros j Hj. destruct (holds_live _ _ j Hxs) as (y & _ & ?); [lia|]. eauto. }
  unfold Vec.assign_range. cbv zeta. rewrite length_fmap.
  apply wp_bind, wp_get, wp_bind, wp_get. cbv beta.
  case_decide as Hgrow; [|case_decide as Hmore].
  - (* a new block *)
    apply wp_bind. eapply wp_mono; [by apply (Vector_range_spec Tmp)|..]; simpl.
    2:{ intros e s1 (? & ? & _). done. }
    intros _ s1 (Htmp1 & Hal1 & Hthis1).
    apply wp_bind, wp_modify. unfold Vec.destructor. simpl.
    apply wp_bind, wp_get, wp_bind, wp_destroy; simpl.
    { rewrite Hthis1. intros j Hj. apply Hlive. lia. }
    intros s2 (Hother & _). simpl in Hother.
    apply wp_bind, wp_modify, wp_modify. simpl. rewrite Hother, Htmp1. simpl.
    rewrite length_fmap. split; [|lia].
    unfold holds. simpl. rewrite length_fmap.
    split_and!; try done. rewrite take_ge; [done|].
    by rewrite length_fmap.
  - (* over the elements, and behind them *)
    rewrite <-fmap_take, <-fmap_drop.
    assert (length (take (finish_ (this s)) ys) = finish_ (this s)) as Htake
      by (rewrite length_take; lia).
    apply wp_bind, wp_copy_values;
      [by rewrite Htake, <-Hlen| |by intros; split; [left|right]].
    intros s1 Hc1.
    assert (0 + length (take (finish_ (this s)) ys) ≤ length (storage (this s)))
      as Hfit by (rewrite Htake; lia).
    pose proof (holds_constructed 0 xs _ s s1 Hxs ltac:(lia) Hfit Hc1) as Hxs1.
    rewrite Htake, take_0, drop_ge in Hxs1 by lia. simpl in Hxs1.
    rewrite app_nil_r in Hxs1.
    destruct Hc1 as (_ & Hfin1 & Hcap1 & _). simpl in *.
    replace ((finish_ (this s)) `max` length xs) with (finish_ (this s1)) in Hxs1 by lia.
    rewrite <-Vector_eta in Hxs1.
    apply wp_bind.
    apply wp_uninitialized_external.
    + rewrite !length_fmap, length_drop. simpl. lia.
    + intros k i Hi. rewrite !list_lookup_fmap in Hi.
      destruct (drop _ ys !! k); by simplify_eq/=.
    + intros ys' s2 ->%gives_values Hc2. apply wp_modify. simpl.
      pose proof (holds_constructed (finish_ (this s)) _
        (drop (finish_ (this s)) ys) s1 s2 Hxs1) as Hxs2.
      rewrite Htake, length_drop in Hxs2.
      rewrite (take_ge (take _ ys)), (drop_ge (take _ ys)), app_nil_r, take_drop
        in Hxs2 by (rewrite ?Htake; lia).
      replace (finish_ (this s) + (length ys - finish_ (this s)))
        with (length ys) in * by lia.
      replace (length ys `max` finish_ (this s)) with (length ys) in Hxs2 by lia.
      pose proof Hc2 as (_ & _ & Hcap2 & _). simpl in *.
      split; [|lia]. apply Hxs2; [lia|lia|done].
    + intros Hthrow s2 _ _ _ _. split; [by left|by right].
  - (* over a prefix of the elements; the rest goes *)
    apply wp_bind, wp_copy_values; [| |by intros; split; [left|right]].
    { intros j Hj. apply Hlive. lia. }
    intros s1 Hc1.
    assert (0 + length ys ≤ length (storage (this s))) as Hfit by lia.
    pose proof (holds_constructed 0 xs _ s s1 Hxs ltac:(lia) Hfit Hc1) as Hxs1.
    rewrite take_0 in Hxs1. simpl in Hxs1.
    destruct Hc1 as (_ & Hfin1 & Hcap1 & _). simpl in *.
    replace (length ys `max` length xs) with (finish_ (this s1)) in Hxs1 by lia.
    rewrite <-Vector_eta in Hxs1.
    apply wp_bind.
    eapply wp_mono;
      [apply wp_and;
        [apply (erase_range_spec (length ys) (finish_ (this s)) _ s1 Hxs1)
        |apply (erase_range_sizes (length ys) (finish_ (this s)) (shape s1)); [|done]]|..].
    + rewrite length_app, length_drop. lia.
    + by eapply holds_sized.
    + intros r s2 [(_ & Hxs2 & Hcap2 & _) _]. apply wp_ret.
      rewrite take_app_length in Hxs2.
      rewrite drop_ge, app_nil_r in Hxs2 by (rewrite length_app, length_drop; lia).
      split; [done|lia].
    + intros e s2 [Hthrow [? _]]. split; [by left|done].
Qed.

(** X29. [assign(first, last)] for forward iterators over objects of the
    caller, and [assign(ilist)], leave exactly the elements of the range, in
    order, whatever the vector held: in the block it had when that is large
    enough, and in a new block of as many elements as the range otherwise.
    They throw nothing but [std::bad_alloc] and what a member function of
    [T] threw, and return whenever nothing throws and the block can be
    requested. *)
Theorem assign_leaves_the_range ys xs s :
  holds (this s) xs →
  Vec.assign_list ys s = Vec.assign_range (Val <$> ys) s
  ∧ (∀ s', Vec.assign_range (Val <$> ys) s = Ret tt s' →
       holds (this s') ys
       ∧ finish_ (this s') = length ys
       ∧ length (storage (this s')) = length (storage (this s)) `max` length ys)
  ∧ (∀ e s', Vec.assign_range (Val <$> ys) s = Throw e s' →
       e = bad_alloc ∨ e = element_error)
  ∧ (¬ throwing → allocatable (length ys) →
     ∃ s', Vec.assign_range (Val <$> ys) s = Ret tt s').
Proof.
  intros Hxs. pose proof (assign_range_spec ys xs s Hxs) as Hspec.
  pose proof (assign_range_sizes (Val <$> ys) (shape s) (holds_sized _ _ Hxs))
    as Hsizes.
  split_and!.
  - apply assign_list_as_range.
  - intros s' Hr.
    pose proof (wps_ret_inv _ _ _ _ _ _ Hsizes Hr) as ([Hle Hal] & Hlen & _).
    simpl in *. rewrite length_fmap in Hlen.
    assert (representable (length ys)) as Hrep.
    { apply allocatable_representable. eapply allocatable_mono; [|done]. lia. }
    apply (wp_ret_inv _ _ _ _ _ _ _ (Hspec Hrep)) in Hr as [Hxs' ?].
    split_and!; try done.
  - intros e s' Hr. by apply (wps_throw_inv _ _ _ _ _ _ Hsizes) in Hr as [? _].
  - intros Hquiet Hal.
    destruct (wp_returns _ _ _ _ _ (Hspec (allocatable_representable _ Hal)) Hquiet)
      as ([] & s' & Hr & _); [|eauto].
    intros e s' ([?|?] & _); done.
Qed.
End RangeAssignment.

Lemma assign_leaves_the_range_witness :
  ∃ s', Vec.assign_list [7; 8; 9]%Z (ints [1; 2]%Z 2) = Ret tt s'
        ∧ holds (this s') [7; 8; 9]%Z.
Proof.
  destruct (assign_leaves_the_range [7; 8; 9]%Z [1; 2]%Z (ints [1; 2]%Z 2))
    as (Heq & Hret & _ & Hex); [apply holds_ints; fits|].
  destruct (Hex int_quiet) as [s' Hs']; [fits|].
  exists s'. split; [by rewrite Heq|]. by apply Hret in Hs' as [? _].
Defined.

(** * Insertion of an rvalue, and emplacement *)

Section Emplacement.
Context `{Traits T W} `{!Regular}.
Implicit Types (s : Machine T W) (v : Vector T) (xs ys vs : list T) (e : exn) (o : obj).

(** *p = std::move(x), for an object [x] of the caller *)
Lemma wp_assign_at_rvalue i x old Q E s :
  storage (this s) !! i = Some (Live old) →
  (∀ w, Q tt (put (This, i) (Live x) (with_world s w))) →
  (throwing → ∀ w, E element_error (with_world s w)) →
  wp throwing (assign_at (This, i) (by_move (Val x))) Q E s.
Proof.
  intros Hi HQ HE. unfold assign_at, deref.
  apply wp_bind, wp_ret, wp_bind.
  assert (∀ r w, wp throwing
    (leave (Val x) r;; poke (This, i) (Live x)) Q E (with_world s w)) as Hrest.
  { intros r w. simpl. apply wp_bind, wp_ret, wp_put; [|done].
    simpl. by apply lookup_lt_Some in Hi. }
  unfold move_assignment. destruct trivially_copyable.
  - apply wp_ret. simpl. rewrite <-(with_world_id s). apply (Hrest x).
  - apply wp_bind, (wp_read_live _ _ old); [done|]. apply wp_effect.
    + intros [y r] Hy. apply move_assign_value in Hy as ->. apply (Hrest r).
    + intros Hnone. apply HE. by eapply throwing_move_assign.
Qed.

(** The steps that open a gap at [pos] inside the block: the last element
    is moved to the raw slot behind it, and the elements from [pos] on move
    one slot up. *)
Lemma wp_open_gap pos xs (k : M T W unit) Q E s :
  holds (this s) xs → pos < length xs → length xs < length (storage (this s)) →
  (∀ s', finish_ (this s') = length xs + 1 →
         length (storage (this s')) = length (storage (this s)) →
         (∀ i y, i < pos → xs !! i = Some y → storage (this s') !! i = Some (Live y)) →
         (∃ r, storage (this s') !! pos = Some (Live r)) →
         (∀ i y, pos ≤ i → xs !! i = Some y →
                 storage (this s') !! (S i) = Some (Live y)) →
         wp throwing k Q E s') →
  (throwing → ∀ s', E element_error s') →
  wp throwing
    (last ← Vec.before (length xs);
     construct_at (This, length xs) (by_move (At (This, last)));;
     Vec.set_finish This (length xs + 1);;
     std.move_backward (This, pos) (length xs + 1 - 2 - pos)
                       (This, length xs + 1 - 1);;
     k) Q E s.
Proof.
  intros Hxs Hpos Hspare Hk HE.
  pose proof Hxs as (Hle & Hal & _ & Hlook)%holds_lookup.
  unfold Vec.before. apply wp_bind.
  destruct (decide (length xs = 0)) as [?|_]; [lia|]. apply wp_ret, wp_bind.
  destruct (lookup_lt_is_Some_2 xs (length xs - 1)) as [z Hz]; [lia|].
  apply (wp_construct_at_move _ _ z); simpl; [by apply Hlook|lia|..].
  2:{ intros _ Hthrow w. by apply HE. }
  intros r w. apply wp_bind, wp_modify, wp_bind.
  apply move_up_spec; simpl; rewrite ?length_insert; try lia.
  - intros i y Hi Hy. rewrite !list_lookup_insert_ne by lia. by apply Hlook.
  - exists r. rewrite list_lookup_insert_ne by lia.
    rewrite list_lookup_insert_eq; [done|lia].
  - intros y Hy. rewrite list_lookup_insert_eq by (rewrite length_insert; lia).
    congruence.
  - intros s' Htmp Hfin Hcap Hlow Hgap Hhigh. simpl in *.
    rewrite ?length_insert in Hcap. by apply Hk.
  - done.
Qed.

(** [emplace(pos, x)] and [emplace(pos, std::move(x))] *)
Lemma emplace_spec pos args x xs s :
  args = by_copy (Val x) ∨ args = by_move (Val x) →
  holds (this s) xs → pos ≤ length xs →
  wp throwing (Vec.emplace pos args)
    (λ r s', r = pos
             ∧ holds (this s') (take pos xs ++ [x] ++ drop pos xs)
             ∧ size_of (this s') = appended (size_of (this s)))
    (λ e s', (throwing ∨ ¬ allocatable (2 * length xs + 1)) ∧ benign e) s.
Proof.
  intros Hargs Hxs Hpos. pose proof (holds_length _ _ Hxs) as Hlen.
  pose proof Hxs as (Hle & Hal & _ & Hlook)%holds_lookup.
  unfold Vec.emplace, Vec.position. apply wp_bind, wp_bind, wp_get.
  destruct (decide (pos ≤ finish_ (this s))) as [_|?]; [apply wp_ret|lia].
  apply wp_bind, wp_get, wp_bind, wp_get. cbv beta. rewrite <-Hlen.
  destruct (decide (length xs ≠ length (storage (this s)))) as [Hspare|Hfull].
  - apply wp_bind.
    assert (appended (size_of (this s))
            = mkExtent (length (storage (this s))) (length xs + 1)) as Happ.
    { unfold appended, size_of. simpl. rewrite decide_False by lia. by rewrite Hlen. }
    destruct (decide (pos = length xs)) as [->|Hmid].
    + (* at the end *)
      apply wp_bind, (wp_construct_at_caller _ args x); simpl; [done|lia|..].
      2:{ intros Hthrow w. split; [by left|by right]. }
      intros w. apply wp_modify, wp_ret. simpl.
      rewrite take_ge, drop_ge by lia.
      split_and!; [done| |].
      * rewrite Hlen. apply holds_push; [done|lia].
      * rewrite Happ. unfold size_of. simpl. by rewrite length_insert.
    + (* in the middle *)
      apply (wp_open_gap pos xs); [done|lia|lia| |by intros; split; [left|right]].
      intros s' Hfin Hcap Hlow [r' Hr'] Hhigh.
      apply wp_bind, (wp_make_caller args x); [done| |by intros; split; [left|right]].
      intros w0. apply (wp_assign_at_rvalue _ _ r'); [done|..].
      2:{ intros Hthrow w'. split; [by left|by right]. }
      intros w'. apply wp_ret. simpl. split_and!; [done| |].
      * rewrite Hfin. apply holds_inserted; rewrite ?length_insert; try lia.
        -- by rewrite Hcap.
        -- intros i y Hi Hy. rewrite list_lookup_insert_ne by lia. by apply Hlow.
        -- rewrite list_lookup_insert_eq; [done|lia].
        -- intros i y Hi Hy. rewrite list_lookup_insert_ne by lia. by apply Hhigh.
      * rewrite Happ. unfold size_of. simpl. rewrite length_insert, Hcap, Hfin. done.
  - eapply wp_mono; [by apply (insertExpandAux_init_spec pos args x xs)|..].
    + intros r s' (-> & Hxs' & Hcap'). split_and!; try done.
      unfold appended, size_of. simpl. rewrite decide_True by lia.
      apply holds_length in Hxs'. rewrite length_app, length_take in Hxs'.
      simpl in Hxs'. rewrite length_drop in Hxs'. f_equal; lia.
    + intros e s' (? & ? & _). done.
Qed.

(** [insert(pos, std::move(x))] *)
Lemma insert_move_spec pos x xs s :
  holds (this s) xs → pos ≤ length xs →
  wp throwing (Vec.insert_move pos (Val x))
    (λ r s', r = pos
             ∧ holds (this s') (take pos xs ++ [x] ++ drop pos xs)
             ∧ size_of (this s') = appended (size_of (this s)))
    (λ e s', (throwing ∨ ¬ allocatable (2 * length xs + 1)) ∧ benign e) s.
Proof.
  intros Hxs Hpos. pose proof (holds_length _ _ Hxs) as Hlen.
  pose proof Hxs as (Hle & Hal & _ & Hlook)%holds_lookup.
  unfold Vec.insert_move, Vec.position. apply wp_bind, wp_bind, wp_get.
  destruct (decide (pos ≤ finish_ (this s))) as [_|?]; [apply wp_ret|lia].
  apply wp_bind, wp_get, wp_bind, wp_get. cbv beta. rewrite <-Hlen.
  destruct (decide (length xs ≠ length (storage (this s)))) as [Hspare|Hfull].
  - apply wp_bind.
    assert (appended (size_of (this s))
            = mkExtent (length (storage (this s))) (length xs + 1)) as Happ.
    { unfold appended, size_of. simpl. rewrite decide_False by lia. by rewrite Hlen. }
    destruct (decide (pos = length xs)) as [->|Hmid].
    + (* at the end *)
      apply wp_bind, (wp_construct_at_caller _ _ x); simpl; [by right|lia|..].
      2:{ intros Hthrow w. split; [by left|by right]. }
      intros w. apply wp_modify, wp_ret. simpl.
      rewrite take_ge, drop_ge by lia.
      split_and!; [done| |].
      * rewrite Hlen. apply holds_push; [done|lia].
      * rewrite Happ. unfold size_of. simpl. by rewrite length_insert.
    + (* in the middle *)
      apply (wp_open_gap pos xs); [done|lia|lia| |by intros; split; [left|right]].
      intros s' Hfin Hcap Hlow [r' Hr'] Hhigh.
      apply (wp_assign_at_rvalue _ _ r'); [done|..].
      2:{ intros Hthrow w'. split; [by left|by right]. }
      intros w'. apply wp_ret. simpl. split_and!; [done| |].
      * rewrite Hfin. apply holds_inserted; rewrite ?length_insert; try lia.
        -- by rewrite Hcap.
        -- intros i y Hi Hy. rewrite list_lookup_insert_ne by lia. by apply Hlow.
        -- rewrite list_lookup_insert_eq; [done|lia].
        -- intros i y Hi Hy. rewrite list_lookup_insert_ne by lia. by apply Hhigh.
      * rewrite Happ. unfold size_of. simpl. rewrite length_insert, Hcap, Hfin. done.
  - eapply wp_mono;
      [by apply (insertExpandAux_init_spec pos (by_move (Val x)) x xs); [right|..]|..].
    + intros r s' (-> & Hxs' & Hcap'). split_and!; try done.
      unfold appended, size_of. simpl. rewrite decide_True by lia.
      apply holds_length in Hxs'. rewrite length_app, length_take in Hxs'.
      simpl in Hxs'. rewrite length_drop in Hxs'. f_equal; lia.
    + intros e s' (? & ? & _). done.
Qed.

(** X30. [insert(pos, std::move(x))], [emplace(pos, x)] and
    [emplace(pos, std::move(x))], for an object [x] of the caller, put an
    element with the value of [x] before the element at [pos] and return
    [pos]; the other elements keep their order.  The block is kept when
    there is spare capacity and replaced by one of [2 * size + 1] elements
    otherwise.  They throw nothing but [std::bad_alloc] and what a member
    function of [T] threw, and return whenever nothing throws and the block
    can be requested. *)
Theorem rvalue_insert_and_emplace_put_the_value_before_pos pos x xs s
    (m : M T W nat) :
  holds (this s) xs → pos ≤ length xs →
  m = Vec.insert_move pos (Val x) ∨ m = Vec.emplace pos (by_copy (Val x))
  ∨ m = Vec.emplace pos (by_move (Val x)) →
  (∀ r s', m s = Ret r s' →
     r = pos
     ∧ holds (this s') (take pos xs ++ [x] ++ drop pos xs)
     ∧ finish_ (this s') = finish_ (this s) + 1
     ∧ length (storage (this s'))
       = if decide (finish_ (this s) = length (storage (this s)))
         then 2 * finish_ (this s) + 1 else length (storage (this s)))
  ∧ (∀ e s', m s = Throw e s' → e = bad_alloc ∨ e = element_error)
  ∧ (¬ throwing → allocatable (2 * length xs + 1) → ∃ s', m s = Ret pos s').
Proof.
  intros Hxs Hpos Hm.
  assert (wp throwing m
    (λ r s', r = pos
             ∧ holds (this s') (take pos xs ++ [x] ++ drop pos xs)
             ∧ size_of (this s') = appended (size_of (this s)))
    (λ e s', (throwing ∨ ¬ allocatable (2 * length xs + 1)) ∧ benign e) s) as Hspec.
  { destruct Hm as [->|[->| ->]].
    - by apply insert_move_spec.
    - apply emplace_spec; [by left|done..].
    - apply emplace_spec; [by right|done..]. }
  split_and!.
  - intros r s' Hr. apply (wp_ret_inv _ _ _ _ _ _ _ Hspec) in Hr as (-> & Hxs' & Hsize).
    injection Hsize as Hcap Hfin. split_and!; try done.
    rewrite Hcap. unfold appended, size_of. simpl. repeat case_decide; lia.
  - intros e s' Hr. by apply (wp_throw_inv _ _ _ _ _ _ _ Hspec) in Hr as [_ ?].
  - intros Hquiet Hal.
    destruct (wp_returns _ _ _ _ _ Hspec Hquiet) as (r & s' & Hr & -> & _); [|eauto].
    intros e s' ([?|?] & _); done.
Qed.
End Emplacement.

Lemma rvalue_insert_and_emplace_put_the_value_before_pos_witness :
  ∃ s', Vec.emplace 1 (by_move (Val 9%Z)) (ints [1; 2; 3]%Z 1) = Ret 1 s'
        ∧ holds (this s') [1; 9; 2; 3]%Z.
Proof.
  destruct (rvalue_insert_and_emplace_put_the_value_before_pos 1 9%Z [1; 2; 3]%Z
              (ints [1; 2; 3]%Z 1) (Vec.emplace 1 (by_move (Val 9%Z))))
    as (Hret & _ & Hex); [apply holds_ints; fits|simpl; lia|by right; right|].
  destruct (Hex int_quiet) as [s' Hs']; [fits|].
  exists s'. split; [done|]. by apply Hret in Hs' as (_ & ? & _).
Defined.
